(** * ProtoMatcher: structural signatures, scoring and sequential matching

    A shallow embedding of [proto_matcher.py]: the signature generator
    ([generate_signatures] / [get_signature]) with both of its results,
    the scorer ([compare_sigs]), the match selector ([get_matches]), the
    sequential matching session ([start_sequential_matching]), the loop
    of [main] that fills [exact_matches] and [perfect_mappables], and the
    helpers [strip_proto_name], [get_sig_rlen] and [ints2ranges], followed
    by the properties established about them.

    Conventions of the embedding.
    - Python exceptions are values of [exn]; a computation that may raise
      returns [Res].  No handler exists anywhere in the script, so a raised
      exception always propagates to the top.
    - Python floats are IEEE 754 doubles.  The scorer and the match
      selector are given twice.  [compare_sigs] and [get_matches] carry the
      exact value of every quotient, a rational of [Q]; they raise exactly
      where the script does, and a score of 1 or of 0 is exact.
      [Float64.compare_sigs] and [Float64.get_matches] compute on doubles
      as the interpreter does (a quotient of two integers is rounded once,
      products, sums and differences are rounded each, [<] is the
      comparison of doubles): what the selector keeps, in which order and
      with which scores is stated on them.
    - A [FrozenMultiset] is kept as a list sorted under a fixed total order,
      a [frozenset] of integers as a [gset Z]; Python's [==] (and [hash]) on
      signatures is then Leibniz equality.  Between signatures of different
      classes [==] is decided by the classes themselves (a multiset compares
      with a plain set by content), which matters only where signatures are
      the keys of a dictionary: there the comparison of keys is a
      parameter, asked to be an equivalence.
    - A [dict] is an association list in insertion order, since the script
      iterates over its registries.
    - Rendering ([print], [print_sig_tree], colours, tables) is not
      modelled. *)

From Stdlib Require Import QArith Ascii String Lqa.
From Stdlib Require Floats.
From stdpp Require Import countable gmap strings list sorting.

Local Open Scope string_scope.

(** ** Python runtime model *)

Module Py.

(** The exceptions that the script can raise.  [RecursionError] is raised
    when the interpreter's stack is exhausted.  [OutOfFuel] is no Python
    exception: it marks the end of the unrolling bound of a [while] loop
    and is shown below never to be produced. *)
Inductive exn : Type :=
  | KeyError
  | TypeError
  | IndexError
  | ValueError
  | ZeroDivisionError
  | RecursionError
  | EOFError
  | OutOfFuel.

Inductive Res (A : Type) : Type :=
  | Ok (a : A)
  | Raise (e : exn).
Arguments Ok {A} a.
Arguments Raise {A} e.

Definition res_bind {A B} (c : Res A) (k : A -> Res B) : Res B :=
  match c with
  | Ok a => k a
  | Raise e => Raise e
  end.

Fixpoint res_mapM {A B} (f : A -> Res B) (l : list A) : Res (list B) :=
  match l with
  | [] => Ok []
  | x :: l' =>
      res_bind (f x) (fun y => res_bind (res_mapM f l') (fun ys => Ok (y :: ys)))
  end.

(** [dict]: association list in insertion order, keys unique. *)
Definition dict (V : Type) : Type := list (string * V).

Fixpoint dict_get {V} (k : string) (d : dict V) : option V :=
  match d with
  | [] => None
  | (k', v) :: d' => if String.eqb k k' then Some v else dict_get k d'
  end.

(** [d[k] = v]: an existing key keeps its position, a new key goes last. *)
Fixpoint dict_set {V} (k : string) (v : V) (d : dict V) : dict V :=
  match d with
  | [] => [(k, v)]
  | (k', v') :: d' =>
      if String.eqb k k' then (k, v) :: d' else (k', v') :: dict_set k v d'
  end.

Definition dict_in {V} (k : string) (d : dict V) : bool :=
  match dict_get k d with Some _ => true | None => false end.

(** [l.index(x)]: first position of [x], [ValueError] when absent. *)
Fixpoint list_index (x : string) (l : list string) : Res nat :=
  match l with
  | [] => Raise ValueError
  | y :: l' =>
      if String.eqb x y then Ok 0
      else res_bind (list_index x l') (fun i => Ok (S i))
  end.

(** [l[:n]] for an integer [n] of either sign. *)
Definition slice_to {A} (n : Z) (l : list A) : list A :=
  if (0 <=? n)%Z then take (Z.to_nat n) l
  else take (length l - Z.to_nat (- n)) l.

(** [s.removeprefix(p)] and [s.removesuffix(p)]. *)
Definition removeprefix (p s : string) : string :=
  if String.prefix p s
  then String.substring (String.length p) (String.length s - String.length p) s
  else s.

Definition removesuffix (p s : string) : string :=
  let n := String.length s - String.length p in
  if (String.length p <=? String.length s)%nat
     && String.eqb (String.substring n (String.length p) s) p
  then String.substring 0 n s
  else s.

(** ["." in s] *)
Fixpoint contains_dot (s : string) : bool :=
  match s with
  | EmptyString => false
  | String c s' => if Ascii.eqb c "."%char then true else contains_dot s'
  end.

End Py.
Import Py.

(** ** Signatures *)

(** [Signature = SignType | FieldTuple | MapEntry] with
    [SignType = FrozenMultiset | frozenset | tuple | str]; [NoneSig] is the
    [None] that [get_enum_sig] returns for an alias-bearing enum. *)
#[warnings="-register-all"]
Inductive Signature : Type :=
  | FrozenMultiset (elems : list Signature)
  | Frozenset (values : gset Z)
  | MapEntry (key value : Signature)
  | Str (s : string)
  | FieldTuple (label_type : string) (signature : Signature)
  | NoneSig.

Lemma Signature_nested_ind (P : Signature -> Prop) :
  (forall l, Forall P l -> P (FrozenMultiset l)) ->
  (forall v, P (Frozenset v)) ->
  (forall k v, P k -> P v -> P (MapEntry k v)) ->
  (forall s, P (Str s)) ->
  (forall l s, P s -> P (FieldTuple l s)) ->
  P NoneSig ->
  forall s, P s.
Proof.
  intros Hm He Hk Hs Hf Hn.
  fix IH 1. intros [l|v|k v|s|l s|].
  - apply Hm. induction l as [|x l IHl]; constructor; [apply IH | exact IHl].
  - apply He.
  - apply Hk; apply IH.
  - apply Hs.
  - apply Hf, IH.
  - apply Hn.
Qed.

(** Signatures are countable: an injection into [gen_tree] gives decidable
    equality and the total order used to keep multisets sorted. *)
Fixpoint sig_to_tree (s : Signature) : gen_tree (string + gset Z) :=
  match s with
  | FrozenMultiset l => GenNode 0 (sig_to_tree <$> l)
  | Frozenset v => GenLeaf (inr v)
  | MapEntry k v => GenNode 1 [sig_to_tree k; sig_to_tree v]
  | Str s => GenLeaf (inl s)
  | FieldTuple l s => GenNode 2 [GenLeaf (inl l); sig_to_tree s]
  | NoneSig => GenNode 3 []
  end.

Fixpoint sig_of_tree (t : gen_tree (string + gset Z)) : Signature :=
  match t with
  | GenNode 0 ts => FrozenMultiset (sig_of_tree <$> ts)
  | GenLeaf (inr v) => Frozenset v
  | GenNode 1 [k; v] => MapEntry (sig_of_tree k) (sig_of_tree v)
  | GenLeaf (inl s) => Str s
  | GenNode 2 [GenLeaf (inl l); s] => FieldTuple l (sig_of_tree s)
  | _ => NoneSig
  end.

Lemma sig_of_to_tree s : sig_of_tree (sig_to_tree s) = s.
Proof.
  induction s as [l IH|v|k v IHk IHv|s|l s IH|] using Signature_nested_ind;
    simpl; try congruence.
  f_equal. induction IH as [|x l Hx _ IHl]; simpl; [done|]. by f_equal.
Qed.

#[global] Instance Signature_eq_dec : EqDecision Signature.
Proof.
  intros x y. destruct (decide (sig_to_tree x = sig_to_tree y)) as [H|H].
  - left. rewrite <- (sig_of_to_tree x), <- (sig_of_to_tree y). by rewrite H.
  - right. intros ->. by apply H.
Defined.

#[global] Instance Signature_countable : Countable Signature :=
  inj_countable' sig_to_tree sig_of_tree sig_of_to_tree.

Definition sig_le (a b : Signature) : Prop := (encode a <= encode b)%positive.

#[global] Instance sig_le_dec a b : Decision (sig_le a b) := Pos.le_dec _ _.

#[global] Instance sig_le_total : Total sig_le.
Proof. intros a b. unfold sig_le. lia. Qed.

#[global] Instance sig_le_trans : Transitive sig_le.
Proof. intros a b c. unfold sig_le. lia. Qed.

#[global] Instance sig_le_antisym : AntiSymm (=) sig_le.
Proof.
  intros a b Hab Hba. apply (inj encode). unfold sig_le in *. lia.
Qed.

(** [FrozenMultiset(iterable)] and [frozenset(iterable)]. *)
Definition mk_multiset (l : list Signature) : Signature :=
  FrozenMultiset (merge_sort sig_le l).

Definition mk_frozenset (l : list Z) : Signature :=
  Frozenset (list_to_set l).

(** [bool(sig)], as used by [not type_sig], [if field_type_sig] and
    [if enum_sig := ...]. *)
Definition truthy (s : Signature) : bool :=
  match s with
  | FrozenMultiset l => negb (Nat.eqb (length l) 0)
  | Frozenset v => negb (Nat.eqb (size v) 0)
  | MapEntry _ _ => true
  | Str s => negb (Nat.eqb (String.length s) 0)
  | FieldTuple _ _ => true
  | NoneSig => false
  end.

(** [len(sig)]: the shallow cardinality; [None] has no [len]. *)
Definition py_len (s : Signature) : Res nat :=
  match s with
  | FrozenMultiset l => Ok (length l)
  | Frozenset v => Ok (size v)
  | MapEntry _ _ => Ok 2
  | Str s => Ok (String.length s)
  | FieldTuple _ _ => Ok 2
  | NoneSig => Raise TypeError
  end.

(** Removes one occurrence of [x], if there is one. *)
Fixpoint remove_one (x : Signature) (l : list Signature) : option (list Signature) :=
  match l with
  | [] => None
  | y :: l' =>
      if decide (x = y) then Some l'
      else match remove_one x l' with
           | Some r => Some (y :: r)
           | None => None
           end
  end.

(** Multiset intersection: every shared element is kept up to the smaller
    of its two multiplicities. *)
Fixpoint multiset_inter (l1 l2 : list Signature) : list Signature :=
  match l1 with
  | [] => []
  | x :: l1' =>
      match remove_one x l2 with
      | Some l2' => x :: multiset_inter l1' l2'
      | None => multiset_inter l1' l2
      end
  end.

(** [len(sig1 & sig2)].  Only the two container types support [&]; the
    elements of a message multiset (strings and field tuples) and of an
    enum set (integers) are never equal, so a mixed intersection is empty;
    tuples and strings have no [&]. *)
Definition py_and_len (s1 s2 : Signature) : Res nat :=
  match s1, s2 with
  | FrozenMultiset l1, FrozenMultiset l2 => Ok (length (multiset_inter l1 l2))
  | Frozenset v1, Frozenset v2 => Ok (size (v1 ∩ v2))
  | FrozenMultiset _, Frozenset _ => Ok 0
  | Frozenset _, FrozenMultiset _ => Ok 0
  | _, _ => Raise TypeError
  end.

Definition is_container (s : Signature) : bool :=
  match s with
  | FrozenMultiset _ | Frozenset _ => true
  | _ => false
  end.

Definition Qnat (n : nat) : Q := inject_Z (Z.of_nat n).

(** [a / b] on integers: true division, [ZeroDivisionError] on [b = 0]. *)
Definition py_div (a b : nat) : Res Q :=
  if Nat.eqb b 0 then Raise ZeroDivisionError else Ok (Qnat a / Qnat b)%Q.

(** ** Comparator / scorer *)

Definition compare_sigs (sig1 sig2 : Signature) : Res Q :=
  res_bind (py_len sig1) (fun sig1_len =>
  res_bind (py_len sig2) (fun sig2_len =>
  res_bind (py_and_len sig1 sig2) (fun intersection =>
  res_bind (py_div (Nat.min sig1_len sig2_len) (Nat.max sig1_len sig2_len))
    (fun len_ratio =>
  res_bind (py_div intersection sig1_len) (fun q =>
  Ok (q * len_ratio)%Q))))).

(** ** Descriptors

    The parts of [descriptor_pb2] that the script reads. *)

Inductive Label : Type := LABEL_OPTIONAL | LABEL_REQUIRED | LABEL_REPEATED.

Inductive FieldType : Type :=
  | TYPE_DOUBLE | TYPE_FLOAT | TYPE_INT64 | TYPE_UINT64 | TYPE_INT32
  | TYPE_FIXED64 | TYPE_FIXED32 | TYPE_BOOL | TYPE_STRING | TYPE_GROUP
  | TYPE_MESSAGE | TYPE_BYTES | TYPE_UINT32 | TYPE_ENUM | TYPE_SFIXED32
  | TYPE_SFIXED64 | TYPE_SINT32 | TYPE_SINT64.

(** [HasField("type_name")] and [HasField("oneof_index")] are the [Some]
    cases of the two optional attributes. *)
Record FieldDescriptorProto : Type := {
  f_label : Label;
  f_type : FieldType;
  f_type_name : option string;
  f_oneof_index : option Z
}.

Record EnumDescriptorProto : Type := {
  e_name : string;
  e_value : list Z;        (* [e.number for e in enum.value] *)
  e_allow_alias : bool     (* [enum.options.allow_alias] *)
}.

#[warnings="-register-all"]
Inductive DescriptorProto : Type := Build_DescriptorProto {
  m_name : string;
  m_field : list FieldDescriptorProto;
  m_nested_type : list DescriptorProto;
  m_enum_type : list EnumDescriptorProto;
  m_oneof_decl : list string;
  m_map_entry : bool       (* [proto.options.map_entry] *)
}.

Inductive Proto : Type :=
  | Message (d : DescriptorProto)
  | Enum (e : EnumDescriptorProto).

Record FileDescriptorProto : Type := {
  message_type : list DescriptorProto;
  enum_type : list EnumDescriptorProto
}.

(** [Label.Name(field.label).removeprefix("LABEL_").lower() + " "], or the
    empty string for [LABEL_OPTIONAL]. *)
Definition field_label (l : Label) : string :=
  match l with
  | LABEL_OPTIONAL => ""
  | LABEL_REQUIRED => "required "
  | LABEL_REPEATED => "repeated "
  end.

(** [Type.Name(field.type).removeprefix("TYPE_").lower()] *)
Definition field_type (t : FieldType) : string :=
  match t with
  | TYPE_DOUBLE => "double" | TYPE_FLOAT => "float" | TYPE_INT64 => "int64"
  | TYPE_UINT64 => "uint64" | TYPE_INT32 => "int32"
  | TYPE_FIXED64 => "fixed64" | TYPE_FIXED32 => "fixed32"
  | TYPE_BOOL => "bool" | TYPE_STRING => "string" | TYPE_GROUP => "group"
  | TYPE_MESSAGE => "message" | TYPE_BYTES => "bytes"
  | TYPE_UINT32 => "uint32" | TYPE_ENUM => "enum"
  | TYPE_SFIXED32 => "sfixed32" | TYPE_SFIXED64 => "sfixed64"
  | TYPE_SINT32 => "sint32" | TYPE_SINT64 => "sint64"
  end.

(** ** Signature generator *)

(** [proto2sig_map] *)
Definition Registry : Type := dict Signature.

(** Computations of the generator: they read and update [proto2sig_map],
    may raise, and emit the names whose signature body is entered (the
    names that get past the memo check of [get_signature]). *)
Definition Gen (A : Type) : Type :=
  Registry -> list string * Res (A * Registry).

Definition gen_ret {A} (a : A) : Gen A := fun reg => ([], Ok (a, reg)).

Definition gen_raise {A} (e : exn) : Gen A := fun _ => ([], Raise e).

Definition gen_bind {A B} (c : Gen A) (k : A -> Gen B) : Gen B :=
  fun reg =>
    match c reg with
    | (tr, Ok (a, reg')) =>
        let '(tr', r) := k a reg' in ((tr ++ tr')%list, r)
    | (tr, Raise e) => (tr, Raise e)
    end.

Definition gen_lift {A} (r : Res A) : Gen A :=
  fun reg => ([], match r with Ok a => Ok (a, reg) | Raise e => Raise e end).

Definition gen_log (name : string) : Gen unit :=
  fun reg => ([name], Ok (tt, reg)).

(** [proto2sig_map[name] = sig] *)
Definition gen_set (name : string) (sig : Signature) : Gen unit :=
  fun reg => ([], Ok (tt, dict_set name sig reg)).

Declare Scope gen_scope.
Delimit Scope gen_scope with gen.
Notation "x <- c ;; k" := (gen_bind c (fun x => k))
  (at level 100, c at next level, right associativity) : gen_scope.
Notation "c ;;; k" := (gen_bind c (fun _ => k))
  (at level 100, right associativity) : gen_scope.

(** [for x in l: body(x)] *)
Fixpoint gen_for {A} (l : list A) (body : A -> Gen unit) : Gen unit :=
  match l with
  | [] => gen_ret tt
  | x :: l' => (body x ;;; gen_for l' body)%gen
  end.

(** A [for] loop that updates local variables [acc]. *)
Fixpoint gen_fold {A B} (body : B -> A -> Gen B) (acc : B) (l : list A) : Gen B :=
  match l with
  | [] => gen_ret acc
  | x :: l' => (acc' <- body acc x ;; gen_fold body acc' l')%gen
  end.

(** [oneofs[i].append(x)], with Python's indexing of a list by an integer
    of either sign. *)
Definition py_list_pos (len : nat) (i : Z) : Res nat :=
  if ((0 <=? i) && (i <? Z.of_nat len))%Z then Ok (Z.to_nat i)
  else if ((i <? 0) && (- Z.of_nat len <=? i))%Z then Ok (Z.to_nat (Z.of_nat len + i))
  else Raise IndexError.

Definition oneofs_append (i : Z) (x : Signature) (oneofs : list (list Signature))
  : Res (list (list Signature)) :=
  res_bind (py_list_pos (length oneofs) i) (fun n =>
  Ok (alter (fun olist => (olist ++ [x])%list) n oneofs)).

Definition is_MapEntry (s : Signature) : bool :=
  match s with MapEntry _ _ => true | _ => false end.

Section Generator.

Variable PACKAGE_NAME : string.
Variable DEFAULT_EMPTY_TO_BYTES : bool.
Variable descriptor_map : dict Proto.

Definition strip_proto_name (name : string) : string :=
  removesuffix ".proto" (removeprefix PACKAGE_NAME (removeprefix "." name)).

Definition get_enum_sig (enum : EnumDescriptorProto) : Signature :=
  if e_allow_alias enum then NoneSig (* Ignore CmdId enums *)
  else mk_frozenset (e_value enum).

(** The recursive calls that a message body makes. *)
Variable rec_get_signature : string -> option Proto -> Gen Signature.

(** One iteration of [for field in proto.field], up to [field_info]. *)
Definition field_info (field : FieldDescriptorProto) : Gen Signature :=
  (tys <-
     match f_type_name field with
     | Some type_name =>
         type_sig <- rec_get_signature (strip_proto_name type_name) None ;;
         if DEFAULT_EMPTY_TO_BYTES && negb (truthy type_sig)
         then gen_ret ("bytes", NoneSig)
         else
           field_type_sig <- rec_get_signature (strip_proto_name type_name) None ;;
           gen_ret (if is_MapEntry field_type_sig then "map"
                    else field_type (f_type field),
                    field_type_sig)
     | None => gen_ret (field_type (f_type field), NoneSig)
     end ;;
   let info := field_label (f_label field) ++ fst tys in
   gen_ret (if truthy (snd tys) then FieldTuple info (snd tys) else Str info))%gen.

(** The body of [for field in proto.field], on the local variables
    [(field_list, oneofs)]. *)
Definition field_step (acc : list Signature * list (list Signature))
    (field : FieldDescriptorProto) : Gen (list Signature * list (list Signature)) :=
  (info <- field_info field ;;
   match f_oneof_index field with
   | Some i =>
       oneofs <- gen_lift (oneofs_append i info (snd acc)) ;;
       gen_ret (fst acc, oneofs)
   | None => gen_ret ((fst acc ++ [info])%list, snd acc)
   end)%gen.

(** [field_list] once the loop over [oneofs] has added the synthetic
    entries. *)
Definition with_oneofs (acc : list Signature * list (list Signature)) : list Signature :=
  (fst acc ++ map (fun olist => FieldTuple "oneof" (mk_multiset olist)) (snd acc))%list.

(** The two loops over [proto.nested_type] and [proto.enum_type]. *)
Definition register_nested (name : string) (proto : DescriptorProto) : Gen unit :=
  (gen_for (m_nested_type proto) (fun nested_type =>
     let nested_name := name ++ "." ++ m_name nested_type in
     sig <- rec_get_signature nested_name (Some (Message nested_type)) ;;
     gen_set nested_name sig) ;;;
   gen_for (m_enum_type proto) (fun enum_type =>
     let enum_sig := get_enum_sig enum_type in
     if truthy enum_sig
     then gen_set (name ++ "." ++ e_name enum_type) enum_sig
     else gen_ret tt))%gen.

(** The loops over [proto.field] and [oneofs], and the two [return]s. *)
Definition fields_signature (proto : DescriptorProto) : Gen Signature :=
  (acc <- gen_fold field_step
            ([], replicate (length (m_oneof_decl proto)) []) (m_field proto) ;;
   let field_list := with_oneofs acc in
   if m_map_entry proto
   then match field_list with
        | [key; value] => gen_ret (MapEntry key value)
        | _ => gen_raise TypeError
        end
   else gen_ret (mk_multiset field_list))%gen.

(** The [DescriptorProto] branch of [get_signature]. *)
Definition message_signature (name : string) (proto : DescriptorProto) : Gen Signature :=
  (register_nested name proto ;;; fields_signature proto)%gen.

(** Everything after the memo check of [get_signature]. *)
Definition signature_body (name : string) (proto : option Proto) : Gen Signature :=
  (gen_log name ;;;
   proto <- match proto with
            | Some p => gen_ret p
            | None =>
                match dict_get name descriptor_map with
                | Some p => gen_ret p
                | None => gen_raise KeyError
                end
            end ;;
   match proto with
   | Message d => message_signature name d
   | Enum e => gen_ret (get_enum_sig e)
   end)%gen.

End Generator.

Section GetSignature.

Variable PACKAGE_NAME : string.
Variable DEFAULT_EMPTY_TO_BYTES : bool.
Variable descriptor_map : dict Proto.

(** [get_signature(name, proto=None)] run with [depth] frames left on
    the interpreter's stack. *)
Fixpoint get_signature (depth : nat) (name : string) (proto : option Proto)
  : Gen Signature :=
  match depth with
  | 0 => gen_raise RecursionError
  | S depth' =>
      fun reg =>
        match dict_get name reg with
        | Some sig => gen_ret sig reg
        | None =>
            signature_body PACKAGE_NAME DEFAULT_EMPTY_TO_BYTES descriptor_map
              (get_signature depth') name proto reg
        end
  end.

End GetSignature.

(** [descriptor_map], as filled by the first loop of [generate_signatures]. *)
Definition build_descriptor_map (files : list FileDescriptorProto) : dict Proto :=
  fold_left (fun dm desc =>
    fold_left (fun dm enum => dict_set (e_name enum) (Enum enum) dm)
      (enum_type desc)
      (fold_left (fun dm message => dict_set (m_name message) (Message message) dm)
         (message_type desc) dm))
    files [].

(** [generate_signatures], on its first result [proto2sig_map]. *)
Definition generate_signatures (PACKAGE_NAME : string) (DEFAULT_EMPTY_TO_BYTES : bool)
    (depth : nat) (descriptor_set : list FileDescriptorProto)
  : list string * Res Registry :=
  let descriptor_map := build_descriptor_map descriptor_set in
  let '(tr, r) :=
    gen_for descriptor_map (fun '(name, proto) =>
      (sig <- get_signature PACKAGE_NAME DEFAULT_EMPTY_TO_BYTES descriptor_map
                depth name (Some proto) ;;
       gen_set name sig)%gen) [] in
  (tr, match r with Ok (_, reg) => Ok reg | Raise e => Raise e end).

(** ** Match selector *)

Definition Qlt_bool (a b : Q) : bool := negb (Qle_bool b a).

(** [sorted(items, key=..., reverse=True)] on items already paired with
    their keys: a stable sort into descending key order (items with equal
    keys keep their relative order). *)
Fixpoint insert_desc {A} (x : Q * A) (l : list (Q * A)) : list (Q * A) :=
  match l with
  | [] => [x]
  | y :: l' =>
      if Qlt_bool (fst x) (fst y) then y :: insert_desc x l' else x :: y :: l'
  end.

Fixpoint sorted_reverse {A} (l : list (Q * A)) : list (Q * A) :=
  match l with
  | [] => []
  | x :: l' => insert_desc x (sorted_reverse l')
  end.

Section GetMatches.

Variable THRESHOLD : Q.
Variable MAX_DISPLAY_MATCHES : Z.

(** [for name, sig in proto2sig_map.items(): ...], filling [score_map]. *)
Fixpoint score_candidates (match_sig : Signature)
    (items : list (string * Signature)) (score_map : dict Q) : Res (dict Q) :=
  match items with
  | [] => Ok score_map
  | (name, sig) :: items' =>
      if contains_dot name
      then score_candidates match_sig items' score_map (* Skip nested types *)
      else
        res_bind (compare_sigs match_sig sig) (fun score =>
        if Qlt_bool score THRESHOLD
        then score_candidates match_sig items' score_map
        else score_candidates match_sig items' (dict_set name score score_map))
  end.

Definition sort_key (proto_list : list string) (tup : string * Q) : Res Q :=
  res_bind (list_index (fst tup) proto_list) (fun idx =>
  res_bind (py_div (idx + 1) (length proto_list)) (fun pos =>
  let idx_weight := (1 - pos)%Q in
  Ok (snd tup + idx_weight * (1 # 2))%Q)).

(** [get_matches]; the value is [matches_view], the list that is
    displayed (empty when the script prints "No matches found"). *)
Definition get_matches (match_sig : Signature) (proto2sig_map : Registry)
    (proto_list : list string) : Res (list (string * Q)) :=
  res_bind (score_candidates match_sig proto2sig_map []) (fun score_map =>
  match score_map with
  | [] => Ok []
  | _ =>
      res_bind
        (res_mapM (fun tup => res_bind (sort_key proto_list tup)
                                (fun k => Ok (k, tup))) score_map)
        (fun keyed =>
      let matches_sorted := map snd (sorted_reverse keyed) in
      Ok (slice_to MAX_DISPLAY_MATCHES matches_sorted))
  end).

End GetMatches.

(** ** Sequential matching session *)

(** The variables of [start_sequential_matching]: the result mapping, the
    obfuscated cursor, the position of the iterator over [ref_proto_list]
    (the number of reference entries fetched so far), and the answers still
    to be read by [input]. *)
Record Session : Type := {
  seq_matches : dict string;
  obs_index : nat;
  ref_index : nat;
  stdin : list string
}.

Definition record_match (ref_proto obs_proto : string) (st : Session) : Session :=
  {| seq_matches := dict_set ref_proto obs_proto (seq_matches st);
     obs_index := obs_index st;
     ref_index := ref_index st;
     stdin := stdin st |}.

Definition next_obs (st : Session) : Session :=
  {| seq_matches := seq_matches st;
     obs_index := obs_index st + 1;
     ref_index := ref_index st;
     stdin := stdin st |}.

Definition next_ref (st : Session) : Session :=
  {| seq_matches := seq_matches st;
     obs_index := obs_index st;
     ref_index := ref_index st + 1;
     stdin := stdin st |}.

Definition with_stdin (rest : list string) (st : Session) : Session :=
  {| seq_matches := seq_matches st;
     obs_index := obs_index st;
     ref_index := ref_index st;
     stdin := rest |}.

(** How one iteration of the [for] loop ends. *)
Inductive Flow : Type :=
  | Break (st : Session)
  | Next (st : Session).

Section Session.

Variable THRESHOLD : Q.
Variable MAX_DISPLAY_MATCHES : Z.
Variable ref_signatures : Registry.
Variable ref_proto_list : list string.
Variable obs_signatures : Registry.
Variable obs_proto_list : list string.
Variable exact_matches : dict string.

(** [obs_index + 1 >= len(obs_proto_list)] *)
Definition obs_exhausted (st : Session) : bool :=
  (length obs_proto_list <=? obs_index st + 1)%nat.

(** The [while(True)] loop, unrolled at most [fuel] times. *)
Fixpoint while_loop (fuel : nat) (ref_proto : string) (ref_sig : Signature)
    (st : Session) : Res Session :=
  if obs_exhausted st then Ok st
  else
    match fuel with
    | 0 => Raise OutOfFuel
    | S fuel' =>
        match obs_proto_list !! obs_index st with
        | None => Raise IndexError
        | Some obs_proto =>
            match dict_get obs_proto obs_signatures with
            | None => while_loop fuel' ref_proto ref_sig (next_obs st)
            | Some obs_sig =>
                res_bind (compare_sigs ref_sig obs_sig) (fun score =>
                if Qeq_bool score 1
                then Ok (record_match ref_proto obs_proto st)
                else
                  res_bind (get_matches THRESHOLD MAX_DISPLAY_MATCHES
                              ref_sig obs_signatures obs_proto_list) (fun _ =>
                  match stdin st with
                  | [] => Raise EOFError
                  | keep :: rest =>
                      if String.eqb keep "1" then Ok (with_stdin rest st)
                      else if String.eqb keep "2"
                      then while_loop fuel' ref_proto ref_sig
                             (next_obs (with_stdin rest st))
                      else Ok (record_match ref_proto obs_proto
                                 (with_stdin rest st))
                  end))
            end
        end
    end.

(** The body of [for ref_proto in ref_proto_list], entered after the
    iterator has moved past [ref_proto]. *)
Definition for_body (ref_proto : string) (st : Session) : Res Flow :=
  let st := next_ref st in
  if obs_exhausted st then Ok (Break st)
  else
    match dict_get ref_proto ref_signatures with
    | None => Ok (Next st)
    | Some ref_sig =>
        match dict_get ref_proto exact_matches with
        | Some exact_match =>
            res_bind (list_index exact_match obs_proto_list) (fun _ =>
            Ok (Next (record_match ref_proto exact_match st)))
        | None =>
            res_bind (while_loop (length obs_proto_list) ref_proto ref_sig st)
              (fun st' => Ok (Next st'))
        end
    end.

Fixpoint for_loop (refs : list string) (st : Session) : Res Session :=
  match refs with
  | [] => Ok st
  | ref_proto :: refs' =>
      res_bind (for_body ref_proto st) (fun flow =>
      match flow with
      | Break st' => Ok st'
      | Next st' => for_loop refs' st'
      end)
  end.

Definition initial_session (answers : list string) : Session :=
  {| seq_matches := []; obs_index := 0; ref_index := 0; stdin := answers |}.

(** [start_sequential_matching]; the value is the mapping written to
    [seq_matches.json]. *)
Definition start_sequential_matching (answers : list string) : Res (dict string) :=
  res_bind (for_loop ref_proto_list (initial_session answers)) (fun st =>
  Ok (seq_matches st)).

End Session.

(** ** Sample descriptors, signatures and registries *)

Definition scalar (l : Label) (t : FieldType) : FieldDescriptorProto :=
  {| f_label := l; f_type := t; f_type_name := None; f_oneof_index := None |}.

Definition typed (l : Label) (t : FieldType) (type_name : string) : FieldDescriptorProto :=
  {| f_label := l; f_type := t; f_type_name := Some type_name; f_oneof_index := None |}.

Definition message (name : string) (fields : list FieldDescriptorProto) : DescriptorProto :=
  {| m_name := name; m_field := fields; m_nested_type := []; m_enum_type := [];
     m_oneof_decl := []; m_map_entry := false |}.

Definition sample_sig_a : Signature := mk_multiset [Str "int32"; Str "string"].

Definition sample_sig_b : Signature :=
  mk_multiset [Str "string"; Str "int32"; Str "int32"].

Definition sample_sig_c : Signature := mk_multiset [Str "bool"].

Definition sample_registry : Registry :=
  [("X", sample_sig_a); ("Y", sample_sig_b); ("X.Inner", sample_sig_a)].

Definition sample_proto_list : list string := ["Y"; "P"; "Q"; "X"].

Definition sample_registry_with_empty : Registry :=
  [("X", sample_sig_a); ("Empty", mk_multiset [])].

(** A reference registry and an obfuscated registry whose entries have
    pairwise the same signatures. *)
Definition sample_refs : Registry :=
  [("A", sample_sig_a); ("B", sample_sig_c)].

Definition sample_obs : Registry :=
  [("X", sample_sig_a); ("Y", sample_sig_c)].

(** A message without fields and an enum without values: both sign as an
    empty container, which is falsy like [None]. *)
Definition empty_message : DescriptorProto := message "Empty" [].

Definition empty_enum : EnumDescriptorProto :=
  {| e_name := "NoValues"; e_value := []; e_allow_alias := false |}.

Definition alias_enum : EnumDescriptorProto :=
  {| e_name := "CmdId"; e_value := [1; 2; 2]%Z; e_allow_alias := true |}.

Definition holder : DescriptorProto :=
  message "Holder"
    [typed LABEL_OPTIONAL TYPE_MESSAGE ".Empty";
     typed LABEL_REPEATED TYPE_ENUM ".NoValues";
     typed LABEL_OPTIONAL TYPE_ENUM ".CmdId"].

Definition holder_map : dict Proto :=
  [("Holder", Message holder); ("Empty", Message empty_message);
   ("NoValues", Enum empty_enum); ("CmdId", Enum alias_enum)].

(** The helper of a [map<int32, Item>] field. *)
Definition sample_map_entry : DescriptorProto :=
  {| m_name := "ItemsEntry";
     m_field := [scalar LABEL_OPTIONAL TYPE_INT32;
                 typed LABEL_OPTIONAL TYPE_MESSAGE ".Item"];
     m_nested_type := []; m_enum_type := []; m_oneof_decl := [];
     m_map_entry := true |}.

Definition sample_item : DescriptorProto :=
  message "Item" [scalar LABEL_OPTIONAL TYPE_STRING].

Definition sample_item_map : dict Proto := [("Item", Message sample_item)].

(** A message with a field of a message type that is declared after it. *)
Definition referrer : DescriptorProto :=
  message "A" [typed LABEL_OPTIONAL TYPE_MESSAGE ".B"; scalar LABEL_REPEATED TYPE_INT32].

Definition referee : DescriptorProto :=
  message "B" [scalar LABEL_OPTIONAL TYPE_INT32].

(** A type that refers to itself, and two types that refer to each other. *)
Definition self_referential : DescriptorProto :=
  message "Node" [scalar LABEL_OPTIONAL TYPE_INT32;
                  typed LABEL_OPTIONAL TYPE_MESSAGE ".Node"].

Definition cyclic_map : dict Proto :=
  [("Node", Message self_referential);
   ("Ping", Message (message "Ping" [typed LABEL_OPTIONAL TYPE_MESSAGE ".Pong"]));
   ("Pong", Message (message "Pong" [typed LABEL_REPEATED TYPE_MESSAGE ".Ping"]))].

Definition acyclic_map : dict Proto :=
  [("A", Message referrer); ("B", Message referee)].

(** Scalar fields, one of them twice. *)
Definition sample_fields : list FieldDescriptorProto :=
  [scalar LABEL_OPTIONAL TYPE_INT32; scalar LABEL_REPEATED TYPE_STRING;
   scalar LABEL_OPTIONAL TYPE_INT32].

(** A map-entry helper with the given fields. *)
Definition sample_entry (fields : list FieldDescriptorProto) : DescriptorProto :=
  {| m_name := "Entry"; m_field := fields; m_nested_type := []; m_enum_type := [];
     m_oneof_decl := []; m_map_entry := true |}.

(** A message with a nested type, and the fields of a message that names
    both the nested type and its parent. *)
Definition inner_holder : DescriptorProto :=
  {| m_name := "B"; m_field := [scalar LABEL_OPTIONAL TYPE_INT32];
     m_nested_type := [message "Inner" [scalar LABEL_OPTIONAL TYPE_INT32]];
     m_enum_type := []; m_oneof_decl := []; m_map_entry := false |}.

Definition forward_fields : list FieldDescriptorProto :=
  [typed LABEL_OPTIONAL TYPE_MESSAGE ".B.Inner"; typed LABEL_OPTIONAL TYPE_MESSAGE ".B"].

Definition forward_map : dict Proto :=
  [("A", Message (message "A" forward_fields)); ("B", Message inner_holder)].

(** A message with a required scalar, a map field, and a oneof of a
    scalar and an enum; the enum is declared at top level. *)
Definition in_oneof (i : Z) (field : FieldDescriptorProto) : FieldDescriptorProto :=
  {| f_label := f_label field; f_type := f_type field;
     f_type_name := f_type_name field; f_oneof_index := Some i |}.

Definition sample_colour : EnumDescriptorProto :=
  {| e_name := "Colour"; e_value := [0; 1; 2; 1]%Z; e_allow_alias := false |}.

Definition sample_tags_entry : DescriptorProto :=
  {| m_name := "TagsEntry";
     m_field := [scalar LABEL_OPTIONAL TYPE_STRING;
                 typed LABEL_OPTIONAL TYPE_ENUM ".Colour"];
     m_nested_type := []; m_enum_type := []; m_oneof_decl := [];
     m_map_entry := true |}.

Definition sample_shape : DescriptorProto :=
  {| m_name := "Shape";
     m_field := [scalar LABEL_REQUIRED TYPE_INT32;
                 typed LABEL_REPEATED TYPE_MESSAGE ".Shape.TagsEntry";
                 in_oneof 0 (scalar LABEL_OPTIONAL TYPE_DOUBLE);
                 in_oneof (-1) (typed LABEL_OPTIONAL TYPE_ENUM ".Colour")];
     m_nested_type := [sample_tags_entry]; m_enum_type := [];
     m_oneof_decl := ["kind"]; m_map_entry := false |}.

(** ** Vocabulary of the properties *)

(** Multiplicity of [y] in a list read as a multiset. *)
Definition count (y : Signature) (l : list Signature) : nat :=
  length (filter (fun z => z = y) l).

Section SortedReverseSpec.

Context {A : Type}.
Implicit Types x y : Q * A.

(** Descending order of the keys. *)
Definition key_ge x y : Prop := (fst y <= fst x)%Q.

(** The items whose key is [k]. *)
Definition has_key (k : Q) x : Prop := Qeq_bool (fst x) k = true.

#[global] Instance has_key_dec k x : Decision (has_key k x).
Proof. unfold has_key. apply _. Defined.

End SortedReverseSpec.

Section RankingSpec.

Variable THRESHOLD : Q.
Variable match_sig : Signature.
Variable proto_list : list string.

(** The candidates that are scored and kept: no nested-type separator in
  the name, and a score that is not below the threshold. *)
Definition survivor (item : string * Signature) : option (string * Q) :=
if contains_dot (fst item) then None
else match compare_sigs match_sig (snd item) with
     | Ok score => if Qlt_bool score THRESHOLD then None
                   else Some (fst item, score)
     | Raise _ => None
     end.

Definition survivors (registry : Registry) : list (string * Q) :=
omap survivor registry.

(** The key that ranks an entry: its score plus the declaration-order
  bias of its name. *)
Definition combined_score (tup : string * Q) : Q :=
match list_index (fst tup) proto_list with
| Ok idx =>
    (snd tup + (1 - Qnat (idx + 1) / Qnat (length proto_list)) * (1 # 2))%Q
| Raise _ => 0%Q
end.

Definition ranks_before (a b : string * Q) : Prop :=
(combined_score b <= combined_score a)%Q.

Definition tied_at (k : Q) (t : string * Q) : Prop :=
Qeq_bool (combined_score t) k = true.

#[global] Instance tied_at_dec k t : Decision (tied_at k t).
Proof. unfold tied_at. apply _. Defined.

End RankingSpec.

(** Which exceptions the scorer and the selector can raise. *)
Definition scoring_exn (e : exn) : Prop :=
  e = TypeError \/ e = ZeroDivisionError \/ e = ValueError.

(** What a computation of the generator needs in order not to exhaust the
    interpreter's stack. *)
Definition no_overflow {A} (c : Gen A) : Prop :=
  forall reg, snd (c reg) <> Raise RecursionError.

Section DepthSpec.

Variable PACKAGE_NAME : string.
Variable descriptor_map : dict Proto.

(** [get_signature(name, proto)] makes no chain of nested calls longer
  than [n]: the nested types of a message and the types that its
  fields name are reached within [n - 1] calls. *)
Fixpoint depth_ok (n : nat) (name : string) (proto : option Proto) : bool :=
match n with
| 0 => false
| S n' =>
    match (match proto with
           | Some p => Some p
           | None => dict_get name descriptor_map
           end) with
    | None => true
    | Some (Enum _) => true
    | Some (Message d) =>
        forallb (fun nested_type =>
                   depth_ok n' (name ++ "." ++ m_name nested_type)
                     (Some (Message nested_type)))
                (m_nested_type d)
        && forallb (fun field =>
                      match f_type_name field with
                      | None => true
                      | Some type_name =>
                          depth_ok n' (strip_proto_name PACKAGE_NAME type_name) None
                      end)
                   (m_field d)
    end
end.

End DepthSpec.

(** Where the entries of the fields go: the plain ones to [field_list],
    the others to the bucket that their [oneof_index] selects. *)
Definition Slots : Type := (list Signature * list (list Signature))%type.

Definition place (acc : Slots) (entry : option Z * Signature) : Res Slots :=
  match fst entry with
  | Some i =>
      res_bind (oneofs_append i (snd entry) (snd acc)) (fun oneofs =>
      Ok (fst acc, oneofs))
  | None => Ok ((fst acc ++ [snd entry])%list, snd acc)
  end.

Fixpoint place_all (acc : Slots) (entries : list (option Z * Signature)) : Res Slots :=
  match entries with
  | [] => Ok acc
  | entry :: entries' => res_bind (place acc entry) (fun acc' => place_all acc' entries')
  end.

Definition plain (entry : option Z * Signature) : option Signature :=
  match fst entry with None => Some (snd entry) | Some _ => None end.

Definition in_bucket (len n : nat) (entry : option Z * Signature) : option Signature :=
  match fst entry with
  | Some i =>
      match py_list_pos len i with
      | Ok m => if decide (m = n) then Some (snd entry) else None
      | Raise _ => None
      end
  | None => None
  end.

Definition index_ok (len : nat) (entry : option Z * Signature) : bool :=
  match fst entry with
  | Some i => match py_list_pos len i with Ok _ => true | Raise _ => false end
  | None => true
  end.

Definition is_plain (field : FieldDescriptorProto) : bool :=
  match f_oneof_index field with None => true | Some _ => false end.

Definition scalar_entry (field : FieldDescriptorProto) : Signature :=
  Str (field_label (f_label field) ++ field_type (f_type field)).

(** A signature whose multiset is kept in the sorted form that
    [mk_multiset] produces. *)
Definition canonical (s : Signature) : Prop :=
  match s with
  | FrozenMultiset l => Sorted sig_le l
  | _ => True
  end.

(** [get_sig_rlen]: the "total" field count that [search] prints.  The
    test is [type(signature) in (FrozenMultiset, tuple)]; a [FieldTuple] or
    a [MapEntry] is an instance of its own named-tuple class, not of
    [tuple] itself, and counts 1 like a string. *)
Fixpoint get_sig_rlen (signature : Signature) : nat :=
  match signature with
  | FrozenMultiset elems => list_sum (map get_sig_rlen elems)
  | Frozenset values => size values
  | _ => 1
  end.

(** The two forms of an element of [field_list]. *)
Definition is_entry (s : Signature) : bool :=
  match s with
  | Str _ | FieldTuple _ _ => true
  | _ => false
  end.

(** The forms of a signature that [get_signature] returns: [None], a set
    of enum numbers, or a multiset or a pair of field entries. *)
Definition signature_form (s : Signature) : bool :=
  match s with
  | FrozenMultiset elems => forallb is_entry elems
  | Frozenset _ => true
  | MapEntry key value => is_entry key && is_entry value
  | NoneSig => true
  | Str _ | FieldTuple _ _ => false
  end.

(** A computation of the generator that, when it returns, keeps the
    property [I] of the registry and returns a value with property [Q]. *)
Definition gen_inv {A} (I : Registry -> Prop) (c : Gen A) (Q : A -> Prop) : Prop :=
  forall reg tr a reg',
    I reg -> c reg = (tr, Ok (a, reg')) -> I reg' /\ Q a.

(** The local variables [field_list] and [oneofs] hold field entries only. *)
Definition slots_of_entries (acc : list Signature * list (list Signature)) : Prop :=
  Forall (fun x => is_entry x = true) (fst acc) /\
  Forall (Forall (fun x => is_entry x = true)) (snd acc).

(** The entries of a dictionary whose key has no dot: in a registry, the
    top-level types. *)
Definition top_level {V} (d : list (string * V)) : list (string * V) :=
  filter (fun e => contains_dot (fst e) = false) d.

Definition sample_files : list FileDescriptorProto :=
  [ {| message_type := [sample_shape]; enum_type := [sample_colour] |} ].

(** The registry built from [sample_files]. *)
Definition sample_generated : Registry :=
  let colour := mk_frozenset [0; 1; 2]%Z in
  let tags := MapEntry (Str "string") (FieldTuple "enum" colour) in
  [("Shape.TagsEntry", tags);
   ("Shape",
    mk_multiset [Str "required int32";
                 FieldTuple "repeated map" tags;
                 FieldTuple "oneof"
                   (mk_multiset [Str "double"; FieldTuple "enum" colour])]);
   ("Colour", colour)].

(** [c'] does what [c] does wherever [c] stays within the stack. *)
Definition gen_agree {A} (c c' : Gen A) : Prop :=
  forall reg, snd (c reg) <> Raise RecursionError -> c' reg = c reg.

(** ** Unique signatures and exact matches *)

(** A dictionary keyed by signatures, in insertion order.  Its keys are
    compared with [==]; for signatures of different classes that is
    decided by the classes' own [__eq__] (the multiset library compares a
    multiset with a plain set by content), so the comparison is a
    parameter [key_eqb] here. *)
Section SigDict.

Variable key_eqb : Signature -> Signature -> bool.

Fixpoint sig_get {V} (sig : Signature) (d : list (Signature * V)) : option V :=
  match d with
  | [] => None
  | (sig', v) :: d' => if key_eqb sig sig' then Some v else sig_get sig d'
  end.

(** [sig2proto_map[sig].append(name)] on a [defaultdict(list)]. *)
Fixpoint sig_append (sig : Signature) (name : string)
    (d : list (Signature * list string)) : list (Signature * list string) :=
  match d with
  | [] => [(sig, [name])]
  | (sig', names) :: d' =>
      if key_eqb sig sig' then (sig', (names ++ [name])%list) :: d'
      else (sig', names) :: sig_append sig name d'
  end.

End SigDict.

(** [{sig: proto[0] for sig, proto in sig2proto_map.items() if len(proto) == 1}] *)
Definition unique_protos (sig2proto_map : list (Signature * list string))
  : list (Signature * string) :=
  omap (fun '(sig, proto) =>
          match proto with
          | [name] => Some (sig, name)
          | _ => None
          end) sig2proto_map.

(** [generate_signatures] with both of its results. *)
Definition generate_signatures_uniques (key_eqb : Signature -> Signature -> bool)
    (PACKAGE_NAME : string) (DEFAULT_EMPTY_TO_BYTES : bool)
    (depth : nat) (descriptor_set : list FileDescriptorProto)
  : list string * Res (Registry * list (Signature * string)) :=
  let descriptor_map := build_descriptor_map descriptor_set in
  let '(tr, r) :=
    gen_fold (fun sig2proto_map '(name, proto) =>
      (sig <- get_signature PACKAGE_NAME DEFAULT_EMPTY_TO_BYTES descriptor_map
                depth name (Some proto) ;;
       gen_set name sig ;;;
       gen_ret (sig_append key_eqb sig name sig2proto_map))%gen)
      [] descriptor_map [] in
  (tr, match r with
       | Ok (sig2proto_map, reg) => Ok (reg, unique_protos sig2proto_map)
       | Raise e => Raise e
       end).

(** [sorted(items, key=lambda x: x[1])]: a stable sort into ascending
    order of the names (compared code point by code point, which on the
    bytes of UTF-8 is the order of [String.ltb]). *)
Fixpoint insert_by_name {A} (x : A * string) (l : list (A * string)) : list (A * string) :=
  match l with
  | [] => [x]
  | y :: l' =>
      if String.ltb (snd y) (snd x) then y :: insert_by_name x l' else x :: y :: l'
  end.

Fixpoint sorted_by_name {A} (l : list (A * string)) : list (A * string) :=
  match l with
  | [] => []
  | x :: l' => insert_by_name x (sorted_by_name l')
  end.

(** [type(sig) == FrozenMultiset and len(sig) != len(sig.distinct_elements())] *)
Definition has_repeats (sig : Signature) : bool :=
  match sig with
  | FrozenMultiset elems => negb (length elems =? length (remove_dups elems))%nat
  | _ => false
  end.

(** One iteration of the loop of [main] that fills [exact_matches] and
    [perfect_mappables]. *)
Definition match_step (key_eqb : Signature -> Signature -> bool)
    (obs_uniques : list (Signature * string))
    (acc : dict string * dict string) (item : Signature * string)
  : dict string * dict string :=
  let '(sig, ref_proto) := item in
  match sig_get key_eqb sig obs_uniques with
  | None => acc
  | Some obs_proto =>
      let exact_matches := dict_set ref_proto obs_proto (fst acc) in
      if has_repeats sig then (exact_matches, snd acc)
      else (exact_matches, dict_set ref_proto obs_proto (snd acc))
  end.

(** The loop: [(exact_matches, perfect_mappables)]. *)
Definition match_uniques (key_eqb : Signature -> Signature -> bool)
    (ref_uniques obs_uniques : list (Signature * string))
  : dict string * dict string :=
  fold_left (match_step key_eqb obs_uniques) (sorted_by_name ref_uniques) ([], []).

(** What the properties below ask of the comparison of keys. *)
Definition key_equivalence (key_eqb : Signature -> Signature -> bool) : Prop :=
  (forall s, key_eqb s s = true) /\
  (forall s s', key_eqb s s' = key_eqb s' s) /\
  (forall s1 s2 s3, key_eqb s1 s2 = true -> key_eqb s2 s3 = true -> key_eqb s1 s3 = true).

(** Structural equality, which is what [==] is on two signatures of the
    same class. *)
Definition structural_eqb (s s' : Signature) : bool := bool_decide (s = s').

(** No two keys of the dictionary are equal. *)
Fixpoint keys_distinct {V} (key_eqb : Signature -> Signature -> bool)
    (d : list (Signature * V)) : Prop :=
  match d with
  | [] => True
  | (sig, _) :: d' => sig_get key_eqb sig d' = None /\ keys_distinct key_eqb d'
  end.

(** The names of the entries of [entries] whose signature equals [sig]. *)
Definition names_with (key_eqb : Signature -> Signature -> bool) (sig : Signature)
    (entries : list (string * Signature)) : list string :=
  (filter (fun e => key_eqb sig (snd e) = true) entries).*1.

(** [sig2proto_map] against the top-level entries of the registry:
    no two keys are equal, each signature leads to the names that have it,
    in order, and each key is the signature of the first name under it. *)
Definition groups_ok (key_eqb : Signature -> Signature -> bool)
    (sig2proto_map : list (Signature * list string))
    (entries : list (string * Signature)) : Prop :=
  keys_distinct key_eqb sig2proto_map /\
  (forall sig, default [] (sig_get key_eqb sig sig2proto_map)
               = names_with key_eqb sig entries) /\
  (forall k names, (k, names) ∈ sig2proto_map ->
     exists name rest, names = name :: rest /\ (name, k) ∈ entries).

(** [name] is a top-level type of the registry, with signature [sig], and
    the only one with that signature. *)
Definition only_with (key_eqb : Signature -> Signature -> bool) (reg : Registry)
    (name : string) (sig : Signature) : Prop :=
  dict_get name reg = Some sig /\
  names_with key_eqb sig (top_level reg) = [name].

(** Three messages, two of them with the same signature. *)
Definition sample_twin_files : list FileDescriptorProto :=
  [ {| message_type := [message "P" [scalar LABEL_OPTIONAL TYPE_INT32];
                        message "Q" [scalar LABEL_OPTIONAL TYPE_INT32];
                        message "R" [scalar LABEL_OPTIONAL TYPE_STRING]];
       enum_type := [] |} ].

Definition sample_twin_registry : Registry :=
  [("P", mk_multiset [Str "int32"]); ("Q", mk_multiset [Str "int32"]);
   ("R", mk_multiset [Str "string"])].

(** An obfuscated counterpart: one message with the signature of ["R"],
    and one with a signature of its own. *)
Definition sample_obs_files : list FileDescriptorProto :=
  [ {| message_type := [message "XA" [scalar LABEL_OPTIONAL TYPE_BOOL];
                        message "XB" [scalar LABEL_OPTIONAL TYPE_STRING]];
       enum_type := [] |} ].

Definition sample_obs_registry : Registry :=
  [("XA", mk_multiset [Str "bool"]); ("XB", mk_multiset [Str "string"])].

(** A pairing that the session may record: a signed entry of
    [ref_proto_list] with an entry of [obs_proto_list] that is either its
    exact match, or a signed entry at a position before the last one. *)
Definition listed_pair (ref_signatures : Registry) (ref_proto_list : list string)
    (obs_signatures : Registry) (obs_proto_list : list string)
    (exact_matches : dict string) (ref_proto obs_proto : string) : Prop :=
  ref_proto ∈ ref_proto_list /\
  dict_in ref_proto ref_signatures = true /\
  obs_proto ∈ obs_proto_list /\
  (dict_get ref_proto exact_matches = Some obs_proto \/
   dict_get ref_proto exact_matches = None /\
   dict_in obs_proto obs_signatures = true /\
   exists i, obs_proto_list !! i = Some obs_proto /\ i + 1 < length obs_proto_list).

(** The errors with which a session can end. *)
Definition session_exn (e : exn) : Prop :=
  e = EOFError \/ e = TypeError \/ e = ZeroDivisionError \/ e = ValueError.

(** A descriptor set with an alias-bearing enum at top level. *)
Definition sample_alias_files : list FileDescriptorProto :=
  [ {| message_type := [message "R" [scalar LABEL_OPTIONAL TYPE_STRING]];
       enum_type := [alias_enum] |} ].

Definition sample_alias_registry : Registry :=
  [("R", mk_multiset [Str "string"]); ("CmdId", NoneSig)].

(** ** Ranges of enum numbers *)

(** [enumerate(iterable)], counting from [start]. *)
Fixpoint enumerate_from {A} (start : Z) (l : list A) : list (Z * A) :=
  match l with
  | [] => []
  | x :: l' => (start, x) :: enumerate_from (start + 1) l'
  end.

(** [itertools.groupby]: the items are read from left to right, and a new
    group starts whenever the key changes.  [group] is the group being
    filled, [k] its key. *)
Fixpoint groupby_from {A} (key : A -> Z) (k : Z) (group : list A) (l : list A)
  : list (Z * list A) :=
  match l with
  | [] => [(k, group)]
  | x :: l' =>
      if (key x =? k)%Z then groupby_from key k (group ++ [x])%list l'
      else (k, group) :: groupby_from key (key x) [x] l'
  end.

Definition groupby {A} (key : A -> Z) (l : list A) : list (Z * list A) :=
  match l with
  | [] => []
  | x :: l' => groupby_from key (key x) [x] l'
  end.

(** [(group[0][1], group[-1][1])] *)
Definition range_of (group : list (Z * Z)) : Res (Z * Z) :=
  match head group, last group with
  | Some first, Some final => Ok (snd first, snd final)
  | _, _ => Raise IndexError
  end.

(** [ints2ranges]; [sorted(set(iterable))] is the list of the distinct
    numbers in ascending order. *)
Definition ints2ranges (iterable : list Z) : Res (list (Z * Z)) :=
  let iterable := merge_sort Z.le (remove_dups iterable) in
  res_mapM (fun '(_, group) => range_of group)
    (groupby (fun t => (snd t - fst t)%Z) (enumerate_from 0 iterable)).

(** The ranges that begin with [first..final] and go on through [l]: a
    number one above [final] extends the range, any other starts a new one. *)
Fixpoint runs_from (first final : Z) (l : list Z) : list (Z * Z) :=
  match l with
  | [] => [(first, final)]
  | x :: l' =>
      if (x =? final + 1)%Z then runs_from first x l'
      else (first, final) :: runs_from x x l'
  end.

(** Two ranges in a row leave at least one number out between them. *)
Definition apart (r1 r2 : Z * Z) : Prop := (snd r1 + 1 < fst r2)%Z.

(** The type that a field names is known: registered, or declared at top
    level. *)
Definition type_resolved (PACKAGE_NAME : string) (descriptor_map : dict Proto)
    (field : FieldDescriptorProto) (reg : Registry) : Prop :=
  forall type_name, f_type_name field = Some type_name ->
    strip_proto_name PACKAGE_NAME type_name ∈ reg.*1 \/
    dict_in (strip_proto_name PACKAGE_NAME type_name) descriptor_map = true.

(** A message with a nested enum that allows aliases, and a field of
    that enum's type. *)
Definition sample_alias_holder : DescriptorProto :=
  {| m_name := "Packet";
     m_field := [typed LABEL_OPTIONAL TYPE_ENUM ".Packet.CmdId"];
     m_nested_type := []; m_enum_type := [alias_enum];
     m_oneof_decl := []; m_map_entry := false |}.

(** The errors with which the generator can end. *)
Definition generator_exn (e : exn) : Prop :=
  e = KeyError \/ e = TypeError \/ e = IndexError \/ e = RecursionError.

(** A computation of the generator that fails with errors in [P] only. *)
Definition gen_raises {A} (P : exn -> Prop) (c : Gen A) : Prop :=
  forall reg e, snd (c reg) = Raise e -> P e.

(** Whether the declaration signs as a container: a message unless it is
    a map entry, an enum unless it allows aliases. *)
Definition signs_as_container (proto : Proto) : bool :=
  match proto with
  | Message d => negb (m_map_entry d)
  | Enum e => negb (e_allow_alias e)
  end.

Definition is_multiset (s : Signature) : bool :=
  match s with
  | FrozenMultiset _ => true
  | _ => false
  end.

(** The signatures that the generator builds, all the way down.  As a
    signature ([entry = false]): [None], a set of enum numbers, a sorted
    multiset of field entries, or a [MapEntry] of two field entries.  As a
    field entry ([entry = true]): a string, or a [FieldTuple] whose
    payload is such a signature and is truthy (the [if field_type_sig]
    test) or a multiset (the synthetic entry of a oneof).  On these forms
    a [MapEntry] never meets a [FieldTuple] and an empty multiset never
    meets an empty set, so that Python's [==] between two of them is
    structural equality. *)
Fixpoint form_of (entry : bool) (s : Signature) {struct s} : Prop :=
  match s, entry with
  | Str _, true => True
  | FieldTuple _ payload, true =>
      (truthy payload = true \/ is_multiset payload = true) /\ form_of false payload
  | FrozenMultiset elems, false =>
      Sorted sig_le elems /\
      (fix all (l : list Signature) : Prop :=
         match l with
         | [] => True
         | e :: l' => form_of true e /\ all l'
         end) elems
  | Frozenset _, false => True
  | MapEntry key value, false => form_of true key /\ form_of true value
  | NoneSig, false => True
  | _, _ => False
  end.

Definition generated (s : Signature) : Prop := form_of false s.

Definition generated_entry (s : Signature) : Prop := form_of true s.

(** Every signature of the registry is of a generated form. *)
Definition all_generated (reg : Registry) : Prop :=
  Forall (fun e => generated (snd e)) reg.

(** The local variables of the field loop hold entries of these forms. *)
Definition slots_generated (acc : list Signature * list (list Signature)) : Prop :=
  Forall generated_entry (fst acc) /\ Forall (Forall generated_entry) (snd acc).

(** ** The scores as the interpreter computes them

    The quotients of [compare_sigs] and [sort_key] are Python [float]s,
    IEEE 754 binary64 numbers, and [score < threshold] and the keys of
    [sorted] compare such numbers.  [Float64] is the scorer and the match
    selector on them; [compare_sigs] and [get_matches] above carry the
    exact value of each quotient, and raise in the same cases. *)
Module Float64.

Import PrimFloat.

(** An integer as an unrounded binary number. *)
Definition of_int (n : nat) : SpecFloat.spec_float :=
  match Z.of_nat n with
  | Zpos p => SpecFloat.S754_finite false p 0
  | _ => SpecFloat.S754_zero false
  end.

(** [a / b] on integers: the quotient of the two integers, rounded once
    to the nearest double; [ZeroDivisionError] on [b = 0]. *)
Definition py_div (a b : nat) : Res float :=
  if Nat.eqb b 0 then Raise ZeroDivisionError
  else Ok (FloatOps.SF2Prim
             (SpecFloat.SFdiv FloatOps.prec FloatOps.emax (of_int a) (of_int b))).

Definition compare_sigs (sig1 sig2 : Signature) : Res float :=
  res_bind (py_len sig1) (fun sig1_len =>
  res_bind (py_len sig2) (fun sig2_len =>
  res_bind (py_and_len sig1 sig2) (fun intersection =>
  res_bind (py_div (Nat.min sig1_len sig2_len) (Nat.max sig1_len sig2_len))
    (fun len_ratio =>
  res_bind (py_div intersection sig1_len) (fun q =>
  Ok (q * len_ratio)%float))))).

(** [sorted(items, key=..., reverse=True)] on items already paired with
    their keys: a stable sort into descending key order, by [<] on the
    keys. *)
Fixpoint insert_desc {A} (x : float * A) (l : list (float * A)) : list (float * A) :=
  match l with
  | [] => [x]
  | y :: l' =>
      if (fst x <? fst y)%float then y :: insert_desc x l' else x :: y :: l'
  end.

Fixpoint sorted_reverse {A} (l : list (float * A)) : list (float * A) :=
  match l with
  | [] => []
  | x :: l' => insert_desc x (sorted_reverse l')
  end.

Section GetMatches.

Variable THRESHOLD : float.
Variable MAX_DISPLAY_MATCHES : Z.

(** [for name, sig in proto2sig_map.items(): ...], filling [score_map]. *)
Fixpoint score_candidates (match_sig : Signature)
    (items : list (string * Signature)) (score_map : dict float) : Res (dict float) :=
  match items with
  | [] => Ok score_map
  | (name, sig) :: items' =>
      if contains_dot name
      then score_candidates match_sig items' score_map (* Skip nested types *)
      else
        res_bind (compare_sigs match_sig sig) (fun score =>
        if (score <? THRESHOLD)%float
        then score_candidates match_sig items' score_map
        else score_candidates match_sig items' (dict_set name score score_map))
  end.

Definition sort_key (proto_list : list string) (tup : string * float) : Res float :=
  res_bind (list_index (fst tup) proto_list) (fun idx =>
  res_bind (py_div (idx + 1) (length proto_list)) (fun pos =>
  let idx_weight := (1 - pos)%float in
  Ok (snd tup + idx_weight * 0.5)%float)).

(** [get_matches]; the value is [matches_view], the list that is
    displayed (empty when the script prints "No matches found"). *)
Definition get_matches (match_sig : Signature) (proto2sig_map : Registry)
    (proto_list : list string) : Res (list (string * float)) :=
  res_bind (score_candidates match_sig proto2sig_map []) (fun score_map =>
  match score_map with
  | [] => Ok []
  | _ =>
      res_bind
        (res_mapM (fun tup => res_bind (sort_key proto_list tup)
                                (fun k => Ok (k, tup))) score_map)
        (fun keyed =>
      let matches_sorted := map snd (sorted_reverse keyed) in
      Ok (slice_to MAX_DISPLAY_MATCHES matches_sorted))
  end).

End GetMatches.

(** *** Vocabulary *)

(** [x] comes before [y] in descending order of the keys: its key is not
    below the key of [y]. *)
Definition key_ge {A} (x y : float * A) : Prop := (fst x <? fst y)%float = false.

(** The items whose key equals [k]. *)
Definition has_key {A} (k : float) (x : float * A) : Prop := (fst x =? k)%float = true.

#[global] Instance double_has_key_dec {A} k (x : float * A) : Decision (has_key k x).
Proof. unfold has_key. apply _. Defined.

(** A double that is a number: it equals itself. *)
Definition number (x : float) : Prop := (x =? x)%float = true.

Section RankingSpec.

Variable THRESHOLD : float.
Variable match_sig : Signature.
Variable proto_list : list string.

(** The candidates that are scored and kept: no nested-type separator in
    the name, and a score that is not below the threshold. *)
Definition survivor (item : string * Signature) : option (string * float) :=
  if contains_dot (fst item) then None
  else match compare_sigs match_sig (snd item) with
       | Ok score => if (score <? THRESHOLD)%float then None
                     else Some (fst item, score)
       | Raise _ => None
       end.

Definition survivors (registry : Registry) : list (string * float) :=
  omap survivor registry.

(** The key that ranks an entry: its score plus the declaration-order
    bias of its name. *)
Definition combined_score (tup : string * float) : float :=
  match sort_key proto_list tup with
  | Ok k => k
  | Raise _ => 0%float
  end.

(** [a] may come before [b] in the ranking: the key of [b] is at most
    the key of [a]. *)
Definition ranks_before (a b : string * float) : Prop :=
  (combined_score b <=? combined_score a)%float = true.

Definition tied_at (k : float) (t : string * float) : Prop :=
  (combined_score t =? k)%float = true.

#[global] Instance double_tied_at_dec k t : Decision (tied_at k t).
Proof. unfold tied_at. apply _. Defined.

End RankingSpec.

(** The threshold of the default configuration, and a unit. *)
Definition default_threshold : float := 0.5%float.

Definition one : float := 1%float.

Definition half : float := 0.5%float.

End Float64.

(** A binary number that is finite and of magnitude below [2 ^ K]. *)
Definition SFbelow (K : Z) (x : SpecFloat.spec_float) : Prop :=
  match x with
  | SpecFloat.S754_zero _ => True
  | SpecFloat.S754_finite _ m e => (Zpos (SpecFloat.digits2_pos m) + e <= K)%Z
  | _ => False
  end.

(** The place of a number in the order of the doubles. *)
Definition SFrank (x : SpecFloat.spec_float) : Z * Z * Z :=
  match x with
  | SpecFloat.S754_zero _ => (0, 0, 0)
  | SpecFloat.S754_infinity s => (if s then -2 else 2, 0, 0)
  | SpecFloat.S754_nan => (0, 0, 0)
  | SpecFloat.S754_finite s m e =>
      if s then (-1, - e, - Zpos m) else (1, e, Zpos m)
  end%Z.

Definition lex_lt (a b : Z * Z * Z) : Prop :=
  (a.1.1 < b.1.1 \/
   (a.1.1 = b.1.1 /\ (a.1.2 < b.1.2 \/ (a.1.2 = b.1.2 /\ a.2 < b.2))))%Z.

(** A target of eleven fields and a candidate of twelve that share six. *)
Definition sample_sig_eleven : Signature :=
  mk_multiset (map Str ["a"; "b"; "c"; "d"; "e"; "f"; "g"; "h"; "i"; "j"; "k"]).

Definition sample_sig_twelve : Signature :=
  mk_multiset (map Str ["a"; "b"; "c"; "d"; "e"; "f";
                        "m"; "n"; "o"; "p"; "q"; "r"]).

(** A target of four fields, a candidate of five fields that holds all
    four, and a candidate of five fields that holds three of them. *)
Definition sample_sig_four : Signature :=
  mk_multiset (map Str ["a"; "b"; "c"; "d"]).

Definition sample_sig_four_in_five : Signature :=
  mk_multiset (map Str ["a"; "b"; "c"; "d"; "x"]).

Definition sample_sig_three_in_five : Signature :=
  mk_multiset (map Str ["a"; "b"; "c"; "y"; "z"]).

(** ** What a name stands for

    The signature of a name, read off the descriptors alone: no registry,
    no order of evaluation. *)

(** The declarations under a message: the message itself, its nested
    types with all that they declare in turn, and its enums, each under
    the qualified name that [get_signature] gives it. *)
Fixpoint declarations (name : string) (d : DescriptorProto) {struct d}
  : list (string * Proto) :=
  match d with
  | Build_DescriptorProto _ _ nested enums _ _ =>
      (name, Message d)
      :: ((fix under (l : list DescriptorProto) : list (string * Proto) :=
             match l with
             | [] => []
             | n :: l' =>
                 declarations (name ++ "." ++ m_name n)%string n ++ under l'
             end) nested
          ++ map (fun e => ((name ++ "." ++ e_name e)%string, Enum e)) enums)%list
  end.

(** All that a descriptor map declares. *)
Definition declared (descriptor_map : dict Proto) : dict Proto :=
  flat_map (fun item =>
              match snd item with
              | Message d => declarations (fst item) d
              | Enum _ => [item]
              end) descriptor_map.

Section Values.

Variable PACKAGE_NAME : string.
Variable DEFAULT_EMPTY_TO_BYTES : bool.
Variable env : dict Proto.

(** The entry of a field of the type whose signature is [type_sig]. *)
Definition typed_entry (field : FieldDescriptorProto) (type_sig : Signature)
  : Signature :=
  let tys :=
    if DEFAULT_EMPTY_TO_BYTES && negb (truthy type_sig)
    then ("bytes", NoneSig)
    else (if is_MapEntry type_sig then "map" else field_type (f_type field),
          type_sig) in
  let info := field_label (f_label field) ++ fst tys in
  if truthy (snd tys) then FieldTuple info (snd tys) else Str info.

(** The entry of a field, with the slot that it goes to. *)
Definition field_entry (lookup : string -> option Signature)
    (field : FieldDescriptorProto) : option (option Z * Signature) :=
  match f_type_name field with
  | None => Some (f_oneof_index field, scalar_entry field)
  | Some type_name =>
      match lookup (strip_proto_name PACKAGE_NAME type_name) with
      | Some type_sig => Some (f_oneof_index field, typed_entry field type_sig)
      | None => None
      end
  end.

Definition message_value (lookup : string -> option Signature)
    (d : DescriptorProto) : option Signature :=
  match mapM (field_entry lookup) (m_field d) with
  | Some entries =>
      match place_all ([], replicate (length (m_oneof_decl d)) []) entries with
      | Ok acc =>
          if m_map_entry d
          then match with_oneofs acc with
               | [key; value] => Some (MapEntry key value)
               | _ => None
               end
          else Some (mk_multiset (with_oneofs acc))
      | Raise _ => None
      end
  | None => None
  end.

(** The signature of the declaration of [name], through at most [fuel]
    levels of field types. *)
Fixpoint name_signature (fuel : nat) (name : string) : option Signature :=
  match fuel with
  | 0 => None
  | S fuel' =>
      match dict_get name env with
      | Some (Message d) => message_value (name_signature fuel') d
      | Some (Enum e) => Some (get_enum_sig e)
      | None => None
      end
  end.

End Values.

(** [sig] is the signature of the declaration of [name]. *)
Definition stands_for (PACKAGE_NAME : string) (DEFAULT_EMPTY_TO_BYTES : bool)
    (descriptor_map : dict Proto) (name : string) (sig : Signature) : Prop :=
  exists fuel,
    name_signature PACKAGE_NAME DEFAULT_EMPTY_TO_BYTES (declared descriptor_map) fuel name
    = Some sig.

(** A registry that holds, under each of its names, the signature of the
    declaration of that name.  The empty registry is one, and the
    generator keeps it so. *)
Definition coherent (PACKAGE_NAME : string) (DEFAULT_EMPTY_TO_BYTES : bool)
    (descriptor_map : dict Proto) (reg : Registry) : Prop :=
  forall name sig,
    dict_get name reg = Some sig ->
    stands_for PACKAGE_NAME DEFAULT_EMPTY_TO_BYTES descriptor_map name sig.

(** The descriptor that a call of [get_signature] passes for [name] is
    the declaration of [name]. *)
Definition passes_declaration (descriptor_map : dict Proto) (name : string)
    (proto : option Proto) : Prop :=
  forall p, proto = Some p -> dict_get name (declared descriptor_map) = Some p.

(** Two declarations of one name that differ at most in the order of the
    fields, and not even in that for a map-entry helper. *)
Definition same_fields (p p' : Proto) : Prop :=
  match p, p' with
  | Message d, Message d' =>
      m_field d ≡ₚ m_field d' /\
      length (m_oneof_decl d) = length (m_oneof_decl d') /\
      m_map_entry d = m_map_entry d' /\
      (m_map_entry d = true -> m_field d = m_field d')
  | Enum e, Enum e' => e = e'
  | _, _ => False
  end.

Definition same_declaration (x y : string * Proto) : Prop :=
  fst x = fst y /\ same_fields (snd x) (snd y).

(** Two descriptor maps that declare the same names, with the same
    fields up to their order. *)
Definition reordered (descriptor_map descriptor_map' : dict Proto) : Prop :=
  Forall2 same_declaration (declared descriptor_map) (declared descriptor_map').

(** A message with a field of a type that holds a nested type, and the
    same message with its two fields in the other order. *)
Definition holder_fields : list FieldDescriptorProto :=
  [typed LABEL_OPTIONAL TYPE_MESSAGE ".B"; scalar LABEL_REPEATED TYPE_INT32].

Definition sample_order_map : dict Proto :=
  [("A", Message (message "A" holder_fields)); ("B", Message inner_holder)].

Definition sample_reordered_map : dict Proto :=
  [("A", Message (message "A" (reverse holder_fields))); ("B", Message inner_holder)].

(** * Properties *)

(** ** Multiset intersection *)

Section MultisetInter.

Implicit Types (x y : Signature) (l : list Signature).

Lemma count_cons x y l :
  count y (x :: l) = (if decide (x = y) then 1 else 0) + count y l.
Proof. unfold count. rewrite filter_cons. by destruct (decide (x = y)). Qed.

Lemma remove_one_Some x l l' :
  remove_one x l = Some l' ->
  length l = S (length l') /\
  forall y, count y l = (if decide (x = y) then 1 else 0) + count y l'.
Proof.
  revert l'. induction l as [|z l IH]; intros l' H; simpl in H; [done|].
  destruct (decide (x = z)) as [->|Hne].
  - injection H as <-. split; [done|]. intros y. apply count_cons.
  - destruct (remove_one x l) as [r|] eqn:Hr; [|done].
    injection H as <-. destruct (IH r eq_refl) as [Hlen Hcnt].
    split; [simpl; lia|]. intros y. rewrite !count_cons, Hcnt. lia.
Qed.

Lemma remove_one_None x l : remove_one x l = None -> count x l = 0.
Proof.
  induction l as [|z l IH]; intros H; simpl in H; [done|].
  destruct (decide (x = z)) as [->|Hne]; [done|].
  destruct (remove_one x l); [done|].
  rewrite count_cons. destruct (decide (z = x)); [congruence|]. by apply IH.
Qed.

(** Each element is kept up to the smaller of its two multiplicities. *)
Lemma multiset_inter_count l1 l2 y :
  count y (multiset_inter l1 l2) = Nat.min (count y l1) (count y l2).
Proof.
  revert l2. induction l1 as [|x l1 IH]; intros l2; simpl; [done|].
  destruct (remove_one x l2) as [l2'|] eqn:Hr.
  - apply remove_one_Some in Hr as [_ Hcnt].
    rewrite !count_cons, IH, Hcnt. destruct (decide (x = y)); lia.
  - apply remove_one_None in Hr.
    rewrite count_cons, IH. destruct (decide (x = y)) as [->|]; lia.
Qed.

Lemma multiset_inter_length_l l1 l2 :
  length (multiset_inter l1 l2) <= length l1.
Proof.
  revert l2. induction l1 as [|x l1 IH]; intros l2; simpl; [done|].
  destruct (remove_one x l2) as [l2'|]; simpl.
  - specialize (IH l2'). lia.
  - specialize (IH l2). lia.
Qed.

Lemma multiset_inter_diag l : multiset_inter l l = l.
Proof.
  induction l as [|x l IH]; simpl; [done|].
  destruct (decide (x = x)); [|done]. by rewrite IH.
Qed.

End MultisetInter.

(** ** The scorer *)

Lemma py_and_len_le s1 s2 n1 i :
  py_len s1 = Ok n1 -> py_and_len s1 s2 = Ok i -> i <= n1.
Proof.
  destruct s1, s2; simpl; intros H1 H2; try discriminate;
    injection H1 as H1; injection H2 as H2; subst; try lia.
  - apply multiset_inter_length_l.
  - apply subseteq_size, intersection_subseteq_l.
Qed.

Lemma py_and_len_diag s n :
  is_container s = true -> py_len s = Ok n -> py_and_len s s = Ok n.
Proof.
  destruct s; simpl; intros Hc H; try discriminate; injection H as H; subst.
  - by rewrite multiset_inter_diag.
  - by rewrite (idemp_L (∩)).
Qed.

Lemma truthy_py_len s :
  is_container s = true -> truthy s = true ->
  exists n, py_len s = Ok n /\ 0 < n.
Proof.
  destruct s; simpl; intros Hc Ht; try done; eexists; split; try done.
  - destruct (length elems); simpl in *; [done|lia].
  - destruct (size values); simpl in *; [done|lia].
Qed.

Lemma container_py_len s :
  is_container s = true -> exists n, py_len s = Ok n.
Proof. destruct s; simpl; intros; try done; eauto. Qed.

Lemma container_py_and_len s1 s2 :
  is_container s1 = true -> is_container s2 = true ->
  exists i, py_and_len s1 s2 = Ok i.
Proof. destruct s1, s2; simpl; intros; try done; eauto. Qed.

Lemma Qnat_pos n : 0 < n -> (0 < Qnat n)%Q.
Proof.
  intros H. unfold Qnat. change 0%Q with (inject_Z 0). rewrite <- Zlt_Qlt. lia.
Qed.

Lemma Qnat_le a b : a <= b -> (Qnat a <= Qnat b)%Q.
Proof. intros H. unfold Qnat. rewrite <- Zle_Qle. lia. Qed.

Lemma Qnat_ratio_bounds a b :
  a <= b -> 0 < b -> (0 <= Qnat a / Qnat b <= 1)%Q.
Proof.
  intros Hab Hb. pose proof (Qnat_pos b Hb) as Hpos.
  pose proof (Qnat_le 0 a ltac:(lia)) as Ha. pose proof (Qnat_le a b Hab) as Hle.
  change (Qnat 0) with 0%Q in Ha.
  split.
  - apply Qle_shift_div_l; [done|]. lra.
  - apply Qle_shift_div_r; [done|]. lra.
Qed.

Lemma Qnat_ratio_diag n : 0 < n -> (Qnat n / Qnat n == 1)%Q.
Proof.
  intros H. pose proof (Qnat_pos n H). field. lra.
Qed.

Lemma py_div_Ok a b : 0 < b -> py_div a b = Ok (Qnat a / Qnat b)%Q.
Proof. intros H. unfold py_div. destruct b; [lia|done]. Qed.

(** The value of [compare_sigs] on a first operand with [n1 > 0] elements. *)
Lemma compare_sigs_Ok s1 s2 n1 n2 i :
  py_len s1 = Ok n1 -> py_len s2 = Ok n2 -> py_and_len s1 s2 = Ok i -> 0 < n1 ->
  compare_sigs s1 s2 =
    Ok (Qnat i / Qnat n1 * (Qnat (Nat.min n1 n2) / Qnat (Nat.max n1 n2)))%Q.
Proof.
  intros H1 H2 Hi Hn. unfold compare_sigs. rewrite H1, H2, Hi. simpl.
  rewrite (py_div_Ok _ (Nat.max n1 n2)) by lia. simpl.
  by rewrite py_div_Ok.
Qed.



(** ** Python runtime lemmas *)

Lemma dict_set_fresh {V} k (v : V) d :
  k ∉ d.*1 -> dict_set k v d = (d ++ [(k, v)])%list.
Proof.
  induction d as [|[k' v'] d IH]; simpl; [done|].
  rewrite not_elem_of_cons. intros [Hne Hd].
  destruct (String.eqb_spec k k'); [done|]. by rewrite IH.
Qed.

Lemma res_mapM_Ok {A B} (f : A -> Res B) l r :
  res_mapM f l = Ok r -> Forall2 (fun x y => f x = Ok y) l r.
Proof.
  revert r. induction l as [|x l IH]; simpl; intros r H.
  - injection H as <-. constructor.
  - destruct (f x) as [y|] eqn:Hy; [|done]. simpl in H.
    destruct (res_mapM f l) as [ys|]; [|done]. simpl in H.
    injection H as <-. constructor; auto.
Qed.

Lemma res_mapM_total {A B} (f : A -> Res B) l :
  Forall (fun x => exists y, f x = Ok y) l -> exists r, res_mapM f l = Ok r.
Proof.
  induction 1 as [|x l [y Hy] _ [r Hr]]; simpl; [by eexists|].
  rewrite Hy, Hr. simpl. by eexists.
Qed.

Lemma list_index_elem_of x l : x ∈ l -> exists i, list_index x l = Ok i.
Proof.
  induction l as [|y l IH]; [by intros ?%elem_of_nil|].
  intros [->|Hin]%elem_of_cons; simpl.
  - rewrite String.eqb_refl. by eexists.
  - destruct (String.eqb x y); [by eexists|].
    destruct (IH Hin) as [i ->]. by eexists.
Qed.

Lemma slice_to_length {A} (n : Z) (l : list A) :
  (0 <= n)%Z -> (Z.of_nat (length (slice_to n l)) <= n)%Z.
Proof.
  intros Hn. unfold slice_to. destruct (Z.leb_spec 0 n); [|lia].
  rewrite length_take. lia.
Qed.

(** ** Stable descending sort *)

Section SortedReverse.

Context {A : Type}.
Implicit Types (x y : Q * A) (l : list (Q * A)).

Lemma Qlt_bool_true (a b : Q) : Qlt_bool a b = true <-> (a < b)%Q.
Proof.
  unfold Qlt_bool. rewrite negb_true_iff, <- not_true_iff_false, Qle_bool_iff.
  split; [apply Qnot_le_lt | apply Qlt_not_le].
Qed.

Lemma Qlt_bool_false (a b : Q) : Qlt_bool a b = false <-> (b <= a)%Q.
Proof.
  unfold Qlt_bool. rewrite negb_false_iff. apply Qle_bool_iff.
Qed.

Lemma insert_desc_perm x l : insert_desc x l ≡ₚ x :: l.
Proof.
  induction l as [|y l IH]; simpl; [done|].
  destruct (Qlt_bool (fst x) (fst y)); [|done].
  by rewrite IH, Permutation_swap.
Qed.

Lemma sorted_reverse_perm l : sorted_reverse l ≡ₚ l.
Proof.
  induction l as [|x l IH]; simpl; [done|]. by rewrite insert_desc_perm, IH.
Qed.

Lemma insert_desc_HdRel z x l :
  key_ge z x -> HdRel key_ge z l -> HdRel key_ge z (insert_desc x l).
Proof.
  intros Hzx Hl. destruct l as [|y l]; simpl; [by constructor|].
  destruct (Qlt_bool (fst x) (fst y)); constructor; [|done].
  by inversion Hl.
Qed.

Lemma insert_desc_Sorted x l :
  Sorted key_ge l -> Sorted key_ge (insert_desc x l).
Proof.
  induction 1 as [|y l Hl IH Hhd]; simpl; [by repeat constructor|].
  destruct (Qlt_bool (fst x) (fst y)) eqn:Hlt.
  - apply Qlt_bool_true in Hlt. constructor; [done|].
    apply insert_desc_HdRel; [|done]. unfold key_ge. lra.
  - apply Qlt_bool_false in Hlt. repeat constructor; done.
Qed.

Lemma sorted_reverse_Sorted l : Sorted key_ge (sorted_reverse l).
Proof.
  induction l as [|x l IH]; simpl; [constructor|]. by apply insert_desc_Sorted.
Qed.

Lemma insert_desc_stable k x l :
  filter (has_key k) (insert_desc x l) = filter (has_key k) (x :: l).
Proof.
  induction l as [|y l IH]; simpl; [done|].
  destruct (Qlt_bool (fst x) (fst y)) eqn:Hlt; [|done].
  apply Qlt_bool_true in Hlt.
  rewrite (filter_cons _ y), IH, !filter_cons.
  destruct (decide (has_key k y)) as [Hy|]; [|done].
  destruct (decide (has_key k x)) as [Hx|]; [|done].
  unfold has_key in *. apply Qeq_bool_iff in Hx, Hy. lra.
Qed.

Lemma sorted_reverse_stable k l :
  filter (has_key k) (sorted_reverse l) = filter (has_key k) l.
Proof.
  induction l as [|x l IH]; simpl; [done|].
  by rewrite insert_desc_stable, !filter_cons, IH.
Qed.

End SortedReverse.

(** ** The match selector *)

Section Ranking.

Variable THRESHOLD : Q.
Variable LIMIT : Z.
Variable match_sig : Signature.
Variable proto_list : list string.

Lemma elem_of_survivors registry name score :
  (name, score) ∈ survivors THRESHOLD match_sig registry <->
  exists sig, (name, sig) ∈ registry /\ contains_dot name = false /\
              compare_sigs match_sig sig = Ok score /\
              ~ (score < THRESHOLD)%Q.
Proof.
  unfold survivors. rewrite list_elem_of_omap. split.
  - intros ([n sig] & Hin & Hs). unfold survivor in Hs. simpl in Hs.
    destruct (contains_dot n) eqn:Hdot; [done|].
    destruct (compare_sigs match_sig sig) as [q|] eqn:Hc; [|done].
    destruct (Qlt_bool q THRESHOLD) eqn:Hlt; [done|].
    injection Hs as -> ->. exists sig. repeat split; try done.
    apply Qlt_bool_false in Hlt. by apply Qle_not_lt.
  - intros (sig & Hin & Hdot & Hc & Hge). exists (name, sig). split; [done|].
    unfold survivor. simpl. rewrite Hdot, Hc.
    destruct (Qlt_bool score THRESHOLD) eqn:Hlt; [|done].
    by apply Qlt_bool_true in Hlt.
Qed.

Lemma score_candidates_spec items acc sm :
  NoDup items.*1 ->
  (forall k, k ∈ items.*1 -> k ∉ acc.*1) ->
  score_candidates THRESHOLD match_sig items acc = Ok sm ->
  sm = (acc ++ survivors THRESHOLD match_sig items)%list.
Proof.
  revert acc. induction items as [|[name sig] items IH]; simpl; intros acc Hnd Hfresh H.
  - injection H as <-. by rewrite app_nil_r.
  - apply NoDup_cons in Hnd as [Hname Hnd].
    assert (forall k, k ∈ items.*1 -> k ∉ acc.*1) as Hfresh'.
    { intros k Hk. apply Hfresh. by right. }
    unfold survivors. simpl. unfold survivor at 1. simpl.
    destruct (contains_dot name); [by apply IH|].
    destruct (compare_sigs match_sig sig) as [score|]; [|done]. simpl in H.
    destruct (Qlt_bool score THRESHOLD); [by apply IH|].
    rewrite dict_set_fresh in H by (apply Hfresh; left).
    apply IH in H; [|done|].
    + by rewrite H, <- app_assoc.
    + intros k Hk. rewrite fmap_app, elem_of_app. simpl.
      rewrite list_elem_of_singleton. intros [?| ->]; [by eapply Hfresh'|done].
Qed.

Lemma score_candidates_total items acc :
  Forall (fun item => contains_dot (fst item) = false ->
                      exists q, compare_sigs match_sig (snd item) = Ok q) items ->
  exists sm, score_candidates THRESHOLD match_sig items acc = Ok sm.
Proof.
  intros H. revert acc. induction H as [|[name sig] items Hx _ IH]; intros acc; simpl.
  - by eexists.
  - simpl in Hx. destruct (contains_dot name); [apply IH|].
    destruct Hx as [q ->]; [done|]. simpl.
    destruct (Qlt_bool q THRESHOLD); apply IH.
Qed.

Lemma sort_key_Ok tup k :
  sort_key proto_list tup = Ok k ->
  k = combined_score proto_list tup /\
  exists idx, list_index (fst tup) proto_list = Ok idx /\
    (k == snd tup + (1 # 2) * (1 - Qnat (idx + 1) / Qnat (length proto_list)))%Q.
Proof.
  unfold sort_key, combined_score.
  destruct (list_index (fst tup) proto_list) as [idx|]; [|done]. simpl.
  unfold py_div. destruct (length proto_list =? 0)%nat; [done|]. simpl.
  intros [= <-]. split; [done|]. exists idx. split; [done|]. ring.
Qed.

Lemma sort_key_total tup :
  fst tup ∈ proto_list -> exists k, sort_key proto_list tup = Ok k.
Proof.
  intros Hin. unfold sort_key.
  destruct (list_index_elem_of _ _ Hin) as [idx ->]. simpl.
  rewrite py_div_Ok; [by eexists|].
  destruct proto_list; [by apply elem_of_nil in Hin | simpl; lia].
Qed.

(** The list that [get_matches] ranks, before it is cut at the limit. *)
Lemma matches_sorted_spec (score_map : list (string * Q)) keyed :
  res_mapM (fun tup => res_bind (sort_key proto_list tup) (fun k => Ok (k, tup)))
    score_map = Ok keyed ->
  let ranked := map snd (sorted_reverse keyed) in
  ranked ≡ₚ score_map /\
  Sorted (ranks_before proto_list) ranked /\
  (forall k, filter (tied_at proto_list k) ranked = filter (tied_at proto_list k) score_map) /\
  Forall (fun t => exists idx, list_index (fst t) proto_list = Ok idx /\
    (combined_score proto_list t ==
       snd t + (1 # 2) * (1 - Qnat (idx + 1) / Qnat (length proto_list)))%Q) ranked.
Proof.
  intros HM%res_mapM_Ok.
  assert (keyed = map (fun t => (combined_score proto_list t, t)) score_map /\
          Forall (fun t => exists idx, list_index (fst t) proto_list = Ok idx /\
            (combined_score proto_list t ==
              snd t + (1 # 2) * (1 - Qnat (idx + 1) / Qnat (length proto_list)))%Q)
            score_map) as [-> Hall].
  { induction HM as [|t kt sm kd Ht _ [IH1 IH2]]; [done|].
    destruct (sort_key proto_list t) as [k|] eqn:Hk; [|done].
    simpl in Ht. injection Ht as <-.
    apply sort_key_Ok in Hk as [-> (idx & Hidx & Heq)].
    split; [simpl; by f_equal|]. constructor; [by exists idx|done]. }
  set (keyed := map (fun t => (combined_score proto_list t, t)) score_map).
  assert (Forall (fun kt => fst kt = combined_score proto_list (snd kt)) (sorted_reverse keyed))
    as Hkeys.
  { rewrite sorted_reverse_perm. subst keyed. apply Forall_fmap.
    by apply Forall_true. }
  assert (map snd keyed = score_map) as Hsnd.
  { subst keyed. rewrite map_map. simpl. apply map_id. }
  simpl. repeat split.
  - etrans; [apply Permutation_map, sorted_reverse_perm|]. by rewrite Hsnd.
  - pose proof (sorted_reverse_Sorted keyed) as HS.
    induction HS as [|kt l HS IH Hhd]; simpl; [constructor|].
    apply Forall_cons in Hkeys as [Hkt Hl]. constructor; [by apply IH|].
    destruct Hhd as [|kt' l' Hge]; simpl; constructor.
    apply Forall_cons in Hl as [Hkt' _].
    unfold ranks_before, key_ge in *. by rewrite <- Hkt, <- Hkt'.
  - intros k.
    assert (forall l : list (Q * (string * Q)),
              Forall (fun kt => fst kt = combined_score proto_list (snd kt)) l ->
              filter (tied_at proto_list k) (map snd l) = map snd (filter (has_key k) l)) as Hf.
    { induction 1 as [|kt l Hkt _ IH]; [done|]. simpl.
      rewrite !filter_cons, IH.
      destruct (decide (tied_at proto_list k (snd kt))) as [H1|H1],
               (decide (has_key k kt)) as [H2|H2]; try done;
        unfold tied_at, has_key in *; rewrite <- Hkt in *; done. }
    rewrite Hf by done. rewrite sorted_reverse_stable, <- Hf, Hsnd; [done|].
    by rewrite <- (sorted_reverse_perm keyed).
  - rewrite (Permutation_map snd (sorted_reverse_perm keyed)), Hsnd. done.
Qed.

End Ranking.

Lemma slice_to_nil {A} (n : Z) : slice_to n (@nil A) = [].
Proof. unfold slice_to. destruct (0 <=? n)%Z; apply take_nil. Qed.

Lemma slice_to_subseteq {A} (n : Z) (l : list A) : slice_to n l ⊆ l.
Proof.
  unfold slice_to. destruct (0 <=? n)%Z; apply subseteq_take.
Qed.

Lemma get_matches_sound (THRESHOLD : Q) (LIMIT : Z) (match_sig : Signature)
    (registry : Registry) (proto_list : list string) (view : list (string * Q)) :
  NoDup registry.*1 ->
  get_matches THRESHOLD LIMIT match_sig registry proto_list = Ok view ->
  exists ranked,
    view = slice_to LIMIT ranked /\
    ranked ≡ₚ survivors THRESHOLD match_sig registry /\
    Sorted (ranks_before proto_list) ranked /\
    (forall k, filter (tied_at proto_list k) ranked =
               filter (tied_at proto_list k) (survivors THRESHOLD match_sig registry)) /\
    Forall (fun t => exists idx, list_index (fst t) proto_list = Ok idx /\
      (combined_score proto_list t ==
         snd t + (1 # 2) * (1 - Qnat (idx + 1) / Qnat (length proto_list)))%Q)
      ranked.
Proof.
  intros Hnd H. unfold get_matches in H.
  destruct (score_candidates THRESHOLD match_sig registry []) as [sm|] eqn:Hsm; [|done].
  apply score_candidates_spec in Hsm; [|done|intros ? _; apply not_elem_of_nil].
  simpl in Hsm, H. subst sm.
  destruct (survivors THRESHOLD match_sig registry) as [|t sm'] eqn:Esm.
  - injection H as <-. exists []. rewrite slice_to_nil.
    repeat split; try done; constructor.
  - destruct (res_mapM _ (t :: sm')) as [keyed|] eqn:Hkeyed; [|done].
    simpl in H. injection H as <-.
    destruct (matches_sorted_spec proto_list _ _ Hkeyed) as (? & ? & ? & ?).
    by eexists.
Qed.

(** On the sample registry both top-level candidates survive; the later
    declared and lower scoring one is ranked first, because of its earlier
    place in [proto_list]. *)
Example get_matches_sample :
  get_matches (1 # 2) 5 sample_sig_a sample_registry sample_proto_list
  = Ok [("Y", 4 # 6); ("X", 4 # 4)]%Q.
Proof. vm_compute. reflexivity. Qed.

(** ** Zero-cardinality signatures *)

Lemma compare_sigs_zero_candidate s1 s2 q :
  compare_sigs s1 s2 = Ok q -> py_len s2 = Ok 0 -> (q == 0)%Q.
Proof.
  unfold compare_sigs. intros H H2. rewrite H2 in H.
  destruct (py_len s1) as [n1|]; [|done]. simpl in H.
  destruct (py_and_len s1 s2) as [i|]; [|done]. simpl in H.
  rewrite Nat.min_0_r in H.
  unfold py_div in H. destruct (Nat.max n1 0 =? 0)%nat; [done|]. simpl in H.
  destruct (n1 =? 0)%nat; [done|]. simpl in H. injection H as <-.
  change (Qnat 0) with 0%Q. unfold Qdiv. ring.
Qed.

Lemma compare_sigs_zero_target s1 s2 :
  is_container s1 = true -> is_container s2 = true -> py_len s1 = Ok 0 ->
  compare_sigs s1 s2 = Raise ZeroDivisionError.
Proof.
  intros H1 H2 Hlen. unfold compare_sigs. rewrite Hlen. simpl.
  destruct (container_py_len s2 H2) as [n2 ->]. simpl.
  destruct (container_py_and_len s1 s2 H1 H2) as [i ->]. simpl.
  unfold py_div. by destruct n2.
Qed.

Lemma dict_keys_unique {V} (d : dict V) k (v1 v2 : V) :
  NoDup d.*1 -> (k, v1) ∈ d -> (k, v2) ∈ d -> v1 = v2.
Proof.
  induction d as [|[k' v'] d IH]; simpl; intros Hnd H1 H2.
  - by apply elem_of_nil in H1.
  - apply NoDup_cons in Hnd as [Hk Hnd].
    apply elem_of_cons in H1 as [[= -> ->]|H1]; apply elem_of_cons in H2 as [[= ?]|H2];
      subst; try done.
    + destruct Hk. apply list_elem_of_fmap. by exists (k', v2).
    + destruct Hk. apply list_elem_of_fmap. by exists (k', v1).
    + by apply IH.
Qed.



Example get_matches_drops_empty :
  get_matches (1 # 2) 5 sample_sig_a sample_registry_with_empty ["X"; "Empty"]
  = Ok [("X", 4 # 4)]%Q.
Proof. vm_compute. reflexivity. Qed.

(** ** The sequential matching session *)

Lemma dict_get_set_eq {V} k (v : V) d : dict_get k (dict_set k v d) = Some v.
Proof.
  induction d as [|[k' v'] d IH]; simpl.
  - by rewrite String.eqb_refl.
  - destruct (String.eqb k k') eqn:E; simpl; rewrite ?String.eqb_refl, ?E; done.
Qed.

Lemma py_div_exn a b e : py_div a b = Raise e -> e = ZeroDivisionError.
Proof. unfold py_div. destruct (b =? 0)%nat; congruence. Qed.

Lemma compare_sigs_exn s1 s2 e : compare_sigs s1 s2 = Raise e -> scoring_exn e.
Proof.
  unfold compare_sigs, scoring_exn. intros H.
  destruct (py_len s1) as [n1|e1] eqn:H1; simpl in H;
    [|destruct s1; simpl in H1; simplify_eq; auto].
  destruct (py_len s2) as [n2|e2] eqn:H2; simpl in H;
    [|destruct s2; simpl in H2; simplify_eq; auto].
  destruct (py_and_len s1 s2) as [i|e3] eqn:H3; simpl in H;
    [|destruct s1, s2; simpl in H3; simplify_eq; auto].
  destruct (py_div (Nat.min n1 n2) (Nat.max n1 n2)) as [r|e4] eqn:H4; simpl in H;
    [|apply py_div_exn in H4; simplify_eq; auto].
  destruct (py_div i n1) as [q|e5] eqn:H5; simpl in H; [done|].
  apply py_div_exn in H5. simplify_eq; auto.
Qed.

Lemma list_index_exn x l e : list_index x l = Raise e -> e = ValueError.
Proof.
  induction l as [|y l IH]; simpl; [congruence|].
  destruct (String.eqb x y); [done|].
  destruct (list_index x l); simpl; [done|]. intros [= <-]. by apply IH.
Qed.

Lemma res_mapM_exn {A B} (P : exn -> Prop) (f : A -> Res B) l e :
  (forall x e, f x = Raise e -> P e) -> res_mapM f l = Raise e -> P e.
Proof.
  intros Hf. induction l as [|x l IH]; simpl; [done|].
  destruct (f x) as [y|e'] eqn:Hx; simpl; [|intros [= <-]; eauto].
  destruct (res_mapM f l); simpl; [done|]. intros [= <-]. by apply IH.
Qed.

Lemma get_matches_exn T L match_sig registry proto_list e :
  get_matches T L match_sig registry proto_list = Raise e -> scoring_exn e.
Proof.
  unfold get_matches.
  assert (forall items acc e, score_candidates T match_sig items acc = Raise e ->
            scoring_exn e) as Hsc.
  { induction items as [|[name sig] items IH]; simpl; intros acc e' H; [done|].
    destruct (contains_dot name); [by eapply IH|].
    destruct (compare_sigs match_sig sig) as [q|e0] eqn:Hc; simpl in H.
    - destruct (Qlt_bool q T); by eapply IH.
    - injection H as <-. by eapply compare_sigs_exn. }
  destruct (score_candidates T match_sig registry []) as [sm|e0] eqn:Hsm; simpl.
  - destruct sm as [|t sm]; [done|].
    destruct (res_mapM _ (t :: sm)) as [keyed|e1] eqn:Hk; simpl; [done|].
    intros [= <-]. revert Hk. apply res_mapM_exn. intros tup e2.
    unfold sort_key.
    destruct (list_index (fst tup) proto_list) as [idx|e3] eqn:Hi; simpl.
    + destruct (py_div (idx + 1) (length proto_list)) eqn:Hd; simpl; [done|].
      intros [= <-]. apply py_div_exn in Hd. unfold scoring_exn. auto.
    + intros [= <-]. apply list_index_exn in Hi. unfold scoring_exn. auto.
  - intros [= <-]. by eapply Hsc.
Qed.

Section SessionFacts.

Variable THRESHOLD : Q.
Variable MAX_DISPLAY_MATCHES : Z.
Variable ref_signatures : Registry.
Variable ref_proto_list : list string.
Variable obs_signatures : Registry.
Variable obs_proto_list : list string.
Variable exact_matches : dict string.

Local Abbreviation run_while :=
  (while_loop THRESHOLD MAX_DISPLAY_MATCHES obs_signatures obs_proto_list).
Local Abbreviation run_body :=
  (for_body THRESHOLD MAX_DISPLAY_MATCHES ref_signatures obs_signatures
     obs_proto_list exact_matches).
Local Abbreviation run_for :=
  (for_loop THRESHOLD MAX_DISPLAY_MATCHES ref_signatures obs_signatures
     obs_proto_list exact_matches).
Local Abbreviation exhausted := (obs_exhausted obs_proto_list).

(** The unrolling bound of the [while] loop is never reached: every
    [continue] moves the cursor, and the loop is left once the cursor is
    one short of the end. *)
Lemma while_loop_fuel fuel ref_proto ref_sig st :
  length obs_proto_list <= obs_index st + fuel + 1 ->
  run_while fuel ref_proto ref_sig st <> Raise OutOfFuel.
Proof.
  revert st. induction fuel as [|fuel IH]; intros st Hlen; simpl.
  - unfold obs_exhausted. destruct (Nat.leb_spec (length obs_proto_list) (obs_index st + 1));
      [done|lia].
  - destruct (exhausted st); [done|].
    destruct (obs_proto_list !! obs_index st) as [obs_proto|]; [|done].
    destruct (dict_get obs_proto obs_signatures) as [obs_sig|].
    + destruct (compare_sigs ref_sig obs_sig) as [score|e] eqn:Hc; simpl.
      * destruct (Qeq_bool score 1); [done|].
        destruct (get_matches _ _ _ _ _) as [view|e] eqn:Hg; simpl.
        -- destruct (stdin st) as [|keep rest]; [done|].
           destruct (String.eqb keep "1"); [done|].
           destruct (String.eqb keep "2"); [|done].
           apply IH. simpl. lia.
        -- intros [= ->]. apply get_matches_exn in Hg.
           destruct Hg as [?|[?|?]]; done.
      * intros [= ->]. apply compare_sigs_exn in Hc.
        destruct Hc as [?|[?|?]]; done.
    + apply IH. simpl. lia.
Qed.

Lemma for_loop_no_fuel refs st : run_for refs st <> Raise OutOfFuel.
Proof.
  revert st. induction refs as [|r refs IH]; intros st; simpl; [done|].
  unfold for_body.
  destruct (exhausted (next_ref st)); simpl; [done|].
  destruct (dict_get r ref_signatures) as [ref_sig|]; simpl; [|apply IH].
  destruct (dict_get r exact_matches) as [exact_match|].
  - destruct (list_index exact_match obs_proto_list) eqn:Hi; simpl; [apply IH|].
    intros [= ->]. by apply list_index_exn in Hi.
  - destruct (while_loop _ _ _ _ _ _ _ _) as [st'|e] eqn:Hw; simpl; [apply IH|].
    intros [= ->]. revert Hw. apply while_loop_fuel. lia.
Qed.

(** Once the cursor is on the last obfuscated entry (or beyond), the
    [for] loop is left at its next iteration, with the mapping as it is. *)
Lemma for_loop_obs_exhausted r refs st :
  length obs_proto_list <= obs_index st + 1 ->
  run_for (r :: refs) st = Ok (next_ref st).
Proof.
  intros H. simpl. unfold for_body, obs_exhausted. simpl.
  destruct (Nat.leb_spec (length obs_proto_list) (obs_index st + 1)); [done|lia].
Qed.


End SessionFacts.



(** The whole session on these lists, the operator skipping ["X"] for
    ["B"]: ["B"] is never offered ["Y"], whose signature it shares. *)
Example session_sample :
  start_sequential_matching (1 # 2) 5 sample_refs ["A"; "B"] sample_obs ["X"; "Y"] []
    ["2"] = Ok [("A", "X")].
Proof. vm_compute. reflexivity. Qed.

(** With every reference entry in [exact_matches] the session needs no
    answer and never consults the obfuscated cursor. *)
Example session_exact_uniques :
  start_sequential_matching (1 # 2) 5
    [("A", sample_sig_a); ("B", sample_sig_b); ("C", sample_sig_c)] ["A"; "B"; "C"]
    [("X", sample_sig_a); ("Y", sample_sig_b); ("Z", sample_sig_c)] ["X"; "Y"; "Z"]
    [("A", "X"); ("B", "Y"); ("C", "Z")] []
  = Ok [("A", "X"); ("B", "Y"); ("C", "Z")].
Proof. vm_compute. reflexivity. Qed.

(** C4: with the cursor on the last obfuscated entry the session is over:
    a one-entry obfuscated list is never looked at, even though its entry
    has the very signature of the reference entry. *)
Theorem last_obfuscated_entry_not_processed :
  obs_exhausted ["X"] (initial_session []) = true /\
  ["X"] !! obs_index (initial_session []) = Some "X" /\
  compare_sigs sample_sig_a sample_sig_a = Ok (4 # 4)%Q /\
  start_sequential_matching (1 # 2) 5 [("A", sample_sig_a)] ["A"]
    [("X", sample_sig_a)] ["X"] [] [] = Ok [].
Proof. repeat split; vm_compute; reflexivity. Qed.


(** ** The signature generator *)

(** C10: with [DEFAULT_EMPTY_TO_BYTES] on, a field whose type resolves to
    any falsy signature, be it [None], the empty multiset of a message
    without fields or the empty set of an enum without values, gets the
    type token ["bytes"] and its entry is the bare string, without a nested
    signature. *)
Theorem empty_type_collapses_to_bytes (PACKAGE_NAME : string)
    (descriptor_map : dict Proto) (depth : nat)
    (field : FieldDescriptorProto) (type_name : string)
    (reg reg' : Registry) (tr : list string) (type_sig : Signature) :
  f_type_name field = Some type_name ->
  get_signature PACKAGE_NAME true descriptor_map depth
    (strip_proto_name PACKAGE_NAME type_name) None reg = (tr, Ok (type_sig, reg')) ->
  type_sig = NoneSig \/ type_sig = FrozenMultiset [] \/ type_sig = Frozenset ∅ ->
  field_info PACKAGE_NAME true
    (get_signature PACKAGE_NAME true descriptor_map depth) field reg
  = (tr, Ok (Str (field_label (f_label field) ++ "bytes"), reg')).
Proof.
  intros Hname Hsig Hempty. unfold field_info, gen_bind. rewrite Hname, Hsig.
  assert (truthy type_sig = false) as ->.
  { destruct Hempty as [->|[->| ->]]; reflexivity. }
  simpl. by rewrite !app_nil_r.
Qed.

Lemma empty_type_collapses_to_bytes_witness :
  field_info "" true (get_signature "" true holder_map 5)
    (typed LABEL_REPEATED TYPE_ENUM ".NoValues") []
  = (["NoValues"], Ok (Str (field_label LABEL_REPEATED ++ "bytes"), [])).
Proof.
  apply (empty_type_collapses_to_bytes "" holder_map 5
           (typed LABEL_REPEATED TYPE_ENUM ".NoValues") ".NoValues" [] []
           ["NoValues"] (Frozenset ∅)).
  - reflexivity.
  - vm_compute. reflexivity.
  - right. right. reflexivity.
Defined.

(** All three kinds of empty type at once. *)
Example holder_signature :
  snd (get_signature "" true holder_map 5 "Holder" None [])
  = Ok (mk_multiset [Str "bytes"; Str "repeated bytes"; Str "bytes"], []).
Proof. vm_compute. reflexivity. Qed.

Section GeneratorFacts.

Variable PACKAGE_NAME : string.
Variable DEFAULT_EMPTY_TO_BYTES : bool.
Variable descriptor_map : dict Proto.

Local Abbreviation get_sig :=
  (get_signature PACKAGE_NAME DEFAULT_EMPTY_TO_BYTES descriptor_map).
Local Abbreviation step_at depth :=
  (field_step PACKAGE_NAME DEFAULT_EMPTY_TO_BYTES (get_sig depth)).
Local Abbreviation nested_at depth :=
  (register_nested (get_sig depth)).
Local Abbreviation fields_at depth :=
  (fields_signature PACKAGE_NAME DEFAULT_EMPTY_TO_BYTES (get_sig depth)).
Local Abbreviation message_at depth :=
  (message_signature PACKAGE_NAME DEFAULT_EMPTY_TO_BYTES (get_sig depth)).

Lemma get_signature_hit depth name proto reg sig :
  dict_get name reg = Some sig ->
  get_sig (S depth) name proto reg = ([], Ok (sig, reg)).
Proof. intros H. simpl. by rewrite H. Qed.

(** A memo miss on a message descriptor: the name is logged and the
    message branch runs with one frame less. *)
Lemma get_signature_miss_message depth name d reg :
  dict_get name reg = None ->
  get_sig (S depth) name (Some (Message d)) reg =
    (name :: fst (message_at depth name d reg),
     snd (message_at depth name d reg)).
Proof.
  intros H. simpl. rewrite H. unfold signature_body, gen_bind, gen_log, gen_ret.
  by destruct (message_at depth name d reg) as [tr r].
Qed.

Lemma message_signature_unfold depth name d reg :
  message_at depth name d reg =
    match nested_at depth name d reg with
    | (tr0, Ok (_, reg0)) =>
        (tr0 ++ fst (fields_at depth d reg0),
         snd (fields_at depth d reg0))%list
    | (tr0, Raise e) => (tr0, Raise e)
    end.
Proof.
  unfold message_signature, gen_bind.
  destruct (nested_at depth name d reg) as [tr0 [[[] reg0]|e]]; [|done].
  by destruct (fields_at depth d reg0).
Qed.

Lemma fields_signature_unfold depth d reg :
  fields_at depth d reg =
    match gen_fold (step_at depth)
            ([], replicate (length (m_oneof_decl d)) []) (m_field d) reg with
    | (tr1, Ok (acc, reg')) =>
        (tr1,
         if m_map_entry d
         then match with_oneofs acc with
              | [key; value] => Ok (MapEntry key value, reg')
              | _ => Raise TypeError
              end
         else Ok (mk_multiset (with_oneofs acc), reg'))
    | (tr1, Raise e) => (tr1, Raise e)
    end.
Proof.
  unfold fields_signature, gen_bind.
  destruct (gen_fold _ _ _ reg) as [tr1 [[acc reg']|e]]; [|done].
  destruct (m_map_entry d).
  - destruct (with_oneofs acc) as [|k [|v [|? ?]]]; simpl;
      by rewrite ?app_nil_r.
  - simpl. by rewrite app_nil_r.
Qed.

End GeneratorFacts.

Example map_entry_sample :
  snd (get_signature "" true sample_item_map 3 "Bag.ItemsEntry"
         (Some (Message sample_map_entry)) [])
  = Ok (MapEntry (Str "int32") (FieldTuple "message" (mk_multiset [Str "string"])), []).
Proof. vm_compute. reflexivity. Qed.

(** A registry build that goes through every kind of entry. *)
Example generate_signatures_sample :
  let colour := mk_frozenset [0; 1; 2]%Z in
  let tags := MapEntry (Str "string") (FieldTuple "enum" colour) in
  generate_signatures "" true 10
    [ {| message_type := [sample_shape]; enum_type := [sample_colour] |} ]
  = (["Shape"; "Shape.TagsEntry"; "Colour"; "Colour"; "Colour"; "Colour"; "Colour"],
     Ok [("Shape.TagsEntry", tags);
         ("Shape",
          mk_multiset [Str "required int32";
                       FieldTuple "repeated map" tags;
                       FieldTuple "oneof"
                         (mk_multiset [Str "double"; FieldTuple "enum" colour])]);
         ("Colour", colour)]).
Proof. vm_compute. reflexivity. Qed.

(** ** Memoization *)

(** C3: in one registry build the body of [get_signature] is entered three
    times for ["B"]: twice for the field of ["A"] that refers to it (the
    two calls of the field loop, neither of which stores its result) and
    once more when the top-level loop reaches ["B"]. *)
Theorem referenced_type_signed_three_times :
  generate_signatures "" true 10
    [ {| message_type := [referrer; referee]; enum_type := [] |} ]
  = (["A"; "B"; "B"; "B"],
     Ok [("A", mk_multiset [FieldTuple "message" (mk_multiset [Str "int32"]);
                            Str "repeated int32"]);
         ("B", mk_multiset [Str "int32"])]).
Proof. vm_compute. reflexivity. Qed.

(** ** Recursion depth *)

Lemma no_overflow_ret {A} (a : A) : no_overflow (gen_ret a).
Proof. by intros reg. Qed.

Lemma no_overflow_raise {A} e : e <> RecursionError -> no_overflow (@gen_raise A e).
Proof. intros H reg. simpl. congruence. Qed.

Lemma no_overflow_log name : no_overflow (gen_log name).
Proof. by intros reg. Qed.

Lemma no_overflow_set name sig : no_overflow (gen_set name sig).
Proof. by intros reg. Qed.

Lemma no_overflow_lift {A} (r : Res A) :
  r <> Raise RecursionError -> no_overflow (gen_lift r).
Proof. intros H reg. unfold gen_lift. simpl. destruct r; congruence. Qed.

Lemma no_overflow_bind {A B} (c : Gen A) (k : A -> Gen B) :
  no_overflow c -> (forall a, no_overflow (k a)) -> no_overflow (gen_bind c k).
Proof.
  intros Hc Hk reg. unfold gen_bind. specialize (Hc reg).
  destruct (c reg) as [tr [[a reg']|e]]; simpl in *; [|congruence].
  specialize (Hk a reg'). by destruct (k a reg').
Qed.

Lemma no_overflow_for {A} (l : list A) (body : A -> Gen unit) :
  Forall (fun x => no_overflow (body x)) l -> no_overflow (gen_for l body).
Proof.
  induction 1 as [|x l Hx _ IH]; simpl; [apply no_overflow_ret|].
  by apply no_overflow_bind.
Qed.

Lemma no_overflow_fold {A B} (body : B -> A -> Gen B) (l : list A) :
  Forall (fun x => forall acc, no_overflow (body acc x)) l ->
  forall acc, no_overflow (gen_fold body acc l).
Proof.
  induction 1 as [|x l Hx _ IH]; simpl; intros acc; [apply no_overflow_ret|].
  by apply no_overflow_bind.
Qed.

Lemma oneofs_append_exn i x oneofs :
  oneofs_append i x oneofs <> Raise RecursionError.
Proof.
  unfold oneofs_append, py_list_pos.
  destruct ((0 <=? i)%Z && (i <? Z.of_nat (length oneofs))%Z); [done|].
  by destruct ((i <? 0)%Z && (- Z.of_nat (length oneofs) <=? i)%Z).
Qed.

Section Termination.

Variable PACKAGE_NAME : string.
Variable DEFAULT_EMPTY_TO_BYTES : bool.
Variable descriptor_map : dict Proto.

Local Abbreviation get_sig :=
  (get_signature PACKAGE_NAME DEFAULT_EMPTY_TO_BYTES descriptor_map).

Lemma no_overflow_field_info rec field :
  (forall type_name, f_type_name field = Some type_name ->
     no_overflow (rec (strip_proto_name PACKAGE_NAME type_name) None)) ->
  no_overflow (field_info PACKAGE_NAME DEFAULT_EMPTY_TO_BYTES rec field).
Proof.
  intros Hrec. unfold field_info.
  apply no_overflow_bind; [|intros; apply no_overflow_ret].
  destruct (f_type_name field) as [type_name|]; [|apply no_overflow_ret].
  apply no_overflow_bind; [by apply Hrec|]. intros type_sig.
  destruct (DEFAULT_EMPTY_TO_BYTES && negb (truthy type_sig));
    [apply no_overflow_ret|].
  apply no_overflow_bind; [by apply Hrec|]. intros; apply no_overflow_ret.
Qed.

Lemma no_overflow_field_step rec field acc :
  (forall type_name, f_type_name field = Some type_name ->
     no_overflow (rec (strip_proto_name PACKAGE_NAME type_name) None)) ->
  no_overflow (field_step PACKAGE_NAME DEFAULT_EMPTY_TO_BYTES rec acc field).
Proof.
  intros Hrec. unfold field_step.
  apply no_overflow_bind; [by apply no_overflow_field_info|]. intros info.
  destruct (f_oneof_index field) as [i|]; [|apply no_overflow_ret].
  apply no_overflow_bind; [|intros; apply no_overflow_ret].
  apply no_overflow_lift, oneofs_append_exn.
Qed.

(** C9 (as amended): when no chain of nested-type and field-type
    references that starts at the requested type is longer than the stack
    is deep, [get_signature] does not end in a recursion error. *)
Theorem get_signature_terminates depth name proto reg :
  depth_ok PACKAGE_NAME descriptor_map depth name proto = true ->
  snd (get_sig depth name proto reg) <> Raise RecursionError.
Proof.
  revert name proto reg.
  induction depth as [|n IHn]; intros name proto reg Hok; [done|].
  assert (forall name proto,
            depth_ok PACKAGE_NAME descriptor_map n name proto = true ->
            no_overflow (get_sig n name proto)) as IH.
  { intros name' proto' H reg'. by apply IHn. }
  clear IHn.
  simpl. destruct (dict_get name reg) as [sig|]; [done|].
  simpl in Hok.
  assert (forall d,
    forallb (fun nested_type =>
               depth_ok PACKAGE_NAME descriptor_map n (name ++ "." ++ m_name nested_type)
                 (Some (Message nested_type))) (m_nested_type d)
    && forallb (fun field =>
                  match f_type_name field with
                  | None => true
                  | Some type_name =>
                      depth_ok PACKAGE_NAME descriptor_map n (strip_proto_name PACKAGE_NAME type_name) None
                  end) (m_field d) = true ->
    no_overflow (message_signature PACKAGE_NAME DEFAULT_EMPTY_TO_BYTES
                   (get_sig n) name d)) as Hmsg.
  { intros d [Hnested Hfields]%andb_prop.
    rewrite forallb_forall in Hnested. rewrite forallb_forall in Hfields.
    unfold message_signature.
    apply no_overflow_bind; [|intros _].
    - unfold register_nested. apply no_overflow_bind; [|intros _].
      + apply no_overflow_for, List.Forall_forall. intros nested_type Hin.
        apply no_overflow_bind; [by apply IH, Hnested|].
        intros; apply no_overflow_set.
      + apply no_overflow_for, List.Forall_forall. intros enum_type _.
        destruct (truthy _); [apply no_overflow_set|apply no_overflow_ret].
    - unfold fields_signature. apply no_overflow_bind.
      + apply no_overflow_fold, List.Forall_forall. intros field Hin acc.
        apply no_overflow_field_step. intros type_name Hname.
        apply IH. specialize (Hfields field Hin). by rewrite Hname in Hfields.
      + intros acc. destruct (m_map_entry d); [|apply no_overflow_ret].
        destruct (with_oneofs acc) as [|k [|v [|? ?]]];
          (apply no_overflow_ret || by apply no_overflow_raise). }
  unfold signature_body, gen_bind, gen_log. simpl.
  destruct proto as [[d|e]|]; simpl.
  - specialize (Hmsg d Hok reg). by destruct (message_signature _ _ _ _ _ _).
  - done.
  - destruct (dict_get name descriptor_map) as [[d|e]|]; simpl; try done.
    specialize (Hmsg d Hok reg). by destruct (message_signature _ _ _ _ _ _).
Qed.

End Termination.

Lemma self_reference_overflows depth :
  get_signature "" true cyclic_map depth "Node" None []
  = (replicate depth "Node", Raise RecursionError).
Proof.
  induction depth as [|depth IH]; [done|].
  change (get_signature "" true cyclic_map (S depth) "Node" None [])
    with (signature_body "" true cyclic_map
            (get_signature "" true cyclic_map depth) "Node" None []).
  unfold signature_body, gen_bind, gen_log. simpl.
  unfold message_signature, register_nested, fields_signature, gen_bind. simpl.
  unfold field_step at 2. unfold gen_bind, field_info. simpl.
  unfold field_step, field_info, gen_bind. simpl.
  change (strip_proto_name "" ".Node") with "Node". rewrite IH. done.
Qed.

(** C9, as stated, fails: for the self-referential type there is no stack
    depth at which [get_signature] ends in anything but the interpreter's
    recursion error; the same at depth 1000 for the two-type cycle. *)
Lemma self_reference_never_detected :
  ~ (exists depth,
       snd (get_signature "" true cyclic_map depth "Node" None [])
       <> Raise RecursionError) /\
  snd (get_signature "" true cyclic_map 1000 "Ping" None []) = Raise RecursionError.
Proof.
  split.
  - intros [depth H]. apply H. by rewrite self_reference_overflows.
  - vm_compute. reflexivity.
Qed.

Lemma get_signature_terminates_witness :
  snd (get_signature "" true acyclic_map 3 "A" None []) <> Raise RecursionError.
Proof.
  apply (get_signature_terminates "" true acyclic_map 3 "A" None []).
  reflexivity.
Defined.

(** ** Order of the fields *)

Lemma mk_multiset_perm l1 l2 : l1 ≡ₚ l2 -> mk_multiset l1 = mk_multiset l2.
Proof.
  intros H. unfold mk_multiset. f_equal.
  apply (Sorted_unique sig_le); try apply Sorted_merge_sort; try apply _.
  by rewrite !merge_sort_Permutation.
Qed.

Lemma py_len_mk_multiset l : py_len (mk_multiset l) = Ok (length l).
Proof. simpl. by rewrite merge_sort_Permutation. Qed.

Lemma py_list_pos_exn len i e : py_list_pos len i = Raise e -> e = IndexError.
Proof.
  unfold py_list_pos.
  destruct ((0 <=? i)%Z && (i <? Z.of_nat len)%Z); [done|].
  destruct ((i <? 0)%Z && (- Z.of_nat len <=? i)%Z); congruence.
Qed.

Lemma place_all_closed entries acc :
  place_all acc entries =
    if forallb (index_ok (length (snd acc))) entries
    then Ok ((fst acc ++ omap plain entries)%list,
             imap (fun n olist =>
                     (olist ++ omap (in_bucket (length (snd acc)) n) entries)%list)
                  (snd acc))
    else Raise IndexError.
Proof.
  revert acc. induction entries as [|[oi x] entries IH]; intros [fl oneofs]; simpl.
  - rewrite app_nil_r. f_equal. f_equal. apply list_eq. intros n.
    rewrite list_lookup_imap. destruct (oneofs !! n); simpl; [|done].
    by rewrite app_nil_r.
  - unfold place, index_ok at 1. simpl. destruct oi as [i|]; simpl.
    + unfold oneofs_append.
      destruct (py_list_pos (length oneofs) i) as [n|e] eqn:Hpos; simpl.
      * rewrite IH. simpl. rewrite length_alter.
        destruct (forallb _ entries); [|done]. f_equal. f_equal.
        apply list_eq. intros m. rewrite !list_lookup_imap.
        unfold in_bucket at 2. simpl. rewrite Hpos.
        destruct (decide (n = m)) as [->|Hne].
        -- rewrite list_lookup_alter_eq. destruct (oneofs !! m); simpl; [|done].
           by rewrite <- app_assoc.
        -- rewrite list_lookup_alter_ne by done.
           by destruct (oneofs !! m).
      * by apply py_list_pos_exn in Hpos as ->.
    + rewrite IH. simpl. destruct (forallb _ entries); [|done].
      unfold plain at 2. simpl. by rewrite <- app_assoc.
Qed.

Lemma forallb_perm {A} (f : A -> bool) l1 l2 :
  l1 ≡ₚ l2 -> forallb f l1 = forallb f l2.
Proof.
  induction 1 as [|x l1 l2 _ IH|x y l|l1 l2 l3 _ IH1 _ IH2]; simpl.
  - done.
  - by rewrite IH.
  - by destruct (f x), (f y).
  - congruence.
Qed.

(** Permuted entries fill the slots with the same multisets. *)
Lemma place_all_perm entries1 entries2 k :
  entries1 ≡ₚ entries2 ->
  match place_all ([], replicate k []) entries1,
        place_all ([], replicate k []) entries2 with
  | Ok acc1, Ok acc2 =>
      mk_multiset (with_oneofs acc1) = mk_multiset (with_oneofs acc2) /\
      length (with_oneofs acc1) = length (with_oneofs acc2)
  | Raise e1, Raise e2 => e1 = e2
  | _, _ => False
  end.
Proof.
  intros Hperm. rewrite !place_all_closed. simpl.
  rewrite (forallb_perm _ _ _ Hperm).
  destruct (forallb _ entries2); [|done].
  generalize (length (replicate k (@nil Signature))).
  generalize (replicate k (@nil Signature)). intros oneofs len.
  assert (with_oneofs
            (omap plain entries1,
             imap (fun n olist => (olist ++ omap (in_bucket len n) entries1)%list) oneofs)
          ≡ₚ
          with_oneofs
            (omap plain entries2,
             imap (fun n olist => (olist ++ omap (in_bucket len n) entries2)%list) oneofs))
    as H.
  { unfold with_oneofs. simpl. rewrite Hperm at 1.
    apply Permutation_app_head. apply reflexive_eq.
    apply list_eq. intros n.
    change (@map (list Signature) Signature) with (@fmap list _ (list Signature) Signature).
    rewrite !list_lookup_fmap, !list_lookup_imap.
    destruct (oneofs !! n) as [olist|]; simpl; [|done].
    f_equal. f_equal. apply mk_multiset_perm. by rewrite Hperm. }
  split; [by apply mk_multiset_perm | by rewrite H].
Qed.

Section FieldOrder.

Variable PACKAGE_NAME : string.
Variable DEFAULT_EMPTY_TO_BYTES : bool.

Variable rec : string -> option Proto -> Gen Signature.

Local Abbreviation info_of :=
  (field_info PACKAGE_NAME DEFAULT_EMPTY_TO_BYTES rec).
Local Abbreviation step_of :=
  (field_step PACKAGE_NAME DEFAULT_EMPTY_TO_BYTES rec).
Local Abbreviation fields_sig :=
  (fields_signature PACKAGE_NAME DEFAULT_EMPTY_TO_BYTES rec).

Lemma field_info_scalar reg field :
  f_type_name field = None ->
  info_of field reg = ([], Ok (scalar_entry field, reg)).
Proof. intros H. unfold field_info, gen_bind. by rewrite H. Qed.

Lemma field_step_lengths reg acc field tr acc' reg' :
  step_of acc field reg = (tr, Ok (acc', reg')) ->
  length (fst acc') = length (fst acc) + (if is_plain field then 1 else 0) /\
  length (snd acc') = length (snd acc).
Proof.
  unfold field_step, gen_bind, is_plain.
  destruct (info_of field reg) as [tr0 [[info reg0]|e]]; [|done].
  destruct (f_oneof_index field) as [i|]; simpl.
  - unfold oneofs_append.
    destruct (py_list_pos (length (snd acc)) i) as [n|]; simpl; [|done].
    intros [= <- <- <-]. simpl. rewrite length_alter. lia.
  - intros [= <- <- <-]. simpl. rewrite length_app. simpl. lia.
Qed.

Lemma gen_fold_lengths fields reg acc tr acc' reg' :
  gen_fold step_of acc fields reg = (tr, Ok (acc', reg')) ->
  length (fst acc') = length (fst acc) + length (List.filter is_plain fields) /\
  length (snd acc') = length (snd acc).
Proof.
  revert reg acc tr. induction fields as [|field fields IH]; intros reg acc tr; simpl.
  - intros [= <- <- <-]. lia.
  - unfold gen_bind at 1.
    destruct (step_of acc field reg) as [tr0 [[acc0 reg0]|e]] eqn:Hstep; [|done].
    destruct (gen_fold step_of acc0 fields reg0) as [tr1 r1] eqn:Hfold.
    intros [= <- ->].
    apply field_step_lengths in Hstep as [H1 H2].
    apply IH in Hfold as [H3 H4].
    destruct (is_plain field); simpl; lia.
Qed.

Lemma fields_signature_len reg d tr sig reg' :
  m_map_entry d = false ->
  fields_sig d reg = (tr, Ok (sig, reg')) ->
  py_len sig =
    Ok (length (List.filter is_plain (m_field d)) + length (m_oneof_decl d)).
Proof.
  intros Hflag. unfold fields_signature, gen_bind. rewrite Hflag.
  destruct (gen_fold _ _ _ reg) as [tr1 [[acc reg1]|e]] eqn:Hfold; [|done].
  simpl. intros [= <- <- <-].
  apply gen_fold_lengths in Hfold as [H1 H2]. simpl in H1, H2.
  rewrite length_replicate in H2.
  rewrite py_len_mk_multiset. unfold with_oneofs.
  rewrite length_app, length_map. by rewrite H1, H2.
Qed.

Lemma gen_fold_scalars reg fields acc :
  Forall (fun f => f_type_name f = None /\ f_oneof_index f = None) fields ->
  gen_fold step_of acc fields reg
  = ([], Ok (((fst acc ++ map scalar_entry fields)%list, snd acc), reg)).
Proof.
  intros H. revert acc.
  induction H as [|field fields [Hty Hone] _ IH]; intros [fl oneofs]; simpl.
  - by rewrite app_nil_r.
  - unfold gen_bind at 1. unfold field_step at 1. unfold gen_bind.
    rewrite field_info_scalar, Hone by done. simpl.
    rewrite IH. simpl. by rewrite <- app_assoc.
Qed.

End FieldOrder.

Example duplicated_field_counts_twice :
  snd (get_signature "" true [] 3 "M" (Some (Message (message "M" sample_fields))) [])
    = Ok (FrozenMultiset [Str "int32"; Str "int32"; Str "repeated string"], []) /\
  snd (get_signature "" true [] 3 "M"
         (Some (Message (message "M" (reverse sample_fields)))) [])
    = Ok (FrozenMultiset [Str "int32"; Str "int32"; Str "repeated string"], []) /\
  snd (get_signature "" true [] 3 "M"
         (Some (Message (message "M" (take 2 sample_fields)))) [])
    = Ok (FrozenMultiset [Str "int32"; Str "repeated string"], []).
Proof. repeat split; vm_compute; reflexivity. Qed.

(** C6, as stated, fails: swapping the two fields of a map-entry helper
    swaps key and value; and where a field names a nested type that only
    the resolution of another field registers, the order of the two
    decides between a signature and a [KeyError]. *)
Lemma field_order_matters :
  (snd (get_signature "" true [] 3 "Entry"
          (Some (Message (sample_entry [scalar LABEL_OPTIONAL TYPE_INT32;
                                         scalar LABEL_OPTIONAL TYPE_STRING]))) [])
     = Ok (MapEntry (Str "int32") (Str "string"), []) /\
   snd (get_signature "" true [] 3 "Entry"
          (Some (Message (sample_entry [scalar LABEL_OPTIONAL TYPE_STRING;
                                         scalar LABEL_OPTIONAL TYPE_INT32]))) [])
     = Ok (MapEntry (Str "string") (Str "int32"), []) /\
   MapEntry (Str "int32") (Str "string") <> MapEntry (Str "string") (Str "int32")) /\
  (snd (get_signature "" true forward_map 5 "A"
          (Some (Message (message "A" forward_fields))) [])
     = Raise KeyError /\
   snd (get_signature "" true forward_map 5 "A"
          (Some (Message (message "A" (reverse forward_fields)))) [])
     = Ok (mk_multiset [FieldTuple "message" (mk_multiset [Str "int32"]);
                        FieldTuple "message" (mk_multiset [Str "int32"])],
           [("B.Inner", mk_multiset [Str "int32"])])).
Proof.
  split; [split; [|split]|split]; try (vm_compute; reflexivity). discriminate.
Qed.

(** ** More on the scorer *)

Lemma canonical_mk_multiset l : canonical (mk_multiset l).
Proof. simpl. apply Sorted_merge_sort. apply _. Qed.

Lemma remove_one_perm x l l' : remove_one x l = Some l' -> l ≡ₚ x :: l'.
Proof.
  revert l'. induction l as [|z l IH]; intros l' H; simpl in H; [done|].
  destruct (decide (x = z)) as [->|Hne]; [by injection H as <-|].
  destruct (remove_one x l) as [r|]; [|done]. injection H as <-.
  rewrite (IH r eq_refl). apply Permutation_swap.
Qed.

Lemma remove_one_None_notin x l : remove_one x l = None -> x ∉ l.
Proof.
  induction l as [|z l IH]; simpl; intros H; [apply not_elem_of_nil|].
  destruct (decide (x = z)); [done|].
  destruct (remove_one x l); [done|].
  apply not_elem_of_cons. auto.
Qed.

Lemma remove_one_perm_proper x l1 l2 r1 :
  l1 ≡ₚ l2 -> remove_one x l1 = Some r1 ->
  exists r2, remove_one x l2 = Some r2 /\ r1 ≡ₚ r2.
Proof.
  intros Hp H1. destruct (remove_one x l2) as [r2|] eqn:H2.
  - exists r2. split; [done|].
    apply remove_one_perm in H1, H2. rewrite H1 in Hp. rewrite H2 in Hp.
    by apply (inj (cons x)).
  - apply remove_one_None_notin in H2. apply remove_one_perm in H1.
    destruct H2. rewrite <- Hp, H1. by left.
Qed.

(** The first operand is wholly shared only if the second contains it. *)
Lemma multiset_inter_full l1 l2 :
  length (multiset_inter l1 l2) = length l1 -> exists r, l2 ≡ₚ l1 ++ r.
Proof.
  revert l2. induction l1 as [|x l1 IH]; intros l2; simpl; [by exists l2|].
  destruct (remove_one x l2) as [l2'|] eqn:Hr; simpl.
  - intros [= H]. destruct (IH l2' H) as [r Hp]. exists r.
    by rewrite (remove_one_perm _ _ _ Hr), Hp.
  - pose proof (multiset_inter_length_l l1 l2). lia.
Qed.

Lemma count_perm y l l' : l ≡ₚ l' -> count y l = count y l'.
Proof. intros H. unfold count. by rewrite H. Qed.

(** Two lists with the same multiplicities are permutations of each other. *)
Lemma perm_of_counts l l' : (forall y, count y l = count y l') -> l ≡ₚ l'.
Proof.
  revert l'. induction l as [|x l IH]; intros l' H.
  - destruct l' as [|z l']; [done|].
    specialize (H z). rewrite count_cons in H. unfold count in H at 1. simpl in H.
    destruct (decide (z = z)); [lia|done].
  - destruct (remove_one x l') as [r|] eqn:Hr.
    + rewrite (remove_one_perm _ _ _ Hr). f_equiv. apply IH. intros y.
      apply remove_one_Some in Hr as [_ Hc].
      specialize (H y). rewrite count_cons, Hc in H. lia.
    + apply remove_one_None in Hr. specialize (H x).
      rewrite count_cons in H. destruct (decide (x = x)); [lia|done].
Qed.

(** The intersection does not depend on the order of its operands, nor on
    the order of their elements. *)
Lemma multiset_inter_comm l1 l2 : multiset_inter l1 l2 ≡ₚ multiset_inter l2 l1.
Proof. apply perm_of_counts. intros y. rewrite !multiset_inter_count. lia. Qed.

Lemma multiset_inter_perm l1 l1' l2 l2' :
  l1 ≡ₚ l1' -> l2 ≡ₚ l2' -> multiset_inter l1 l2 ≡ₚ multiset_inter l1' l2'.
Proof.
  intros H1 H2. apply perm_of_counts. intros y. rewrite !multiset_inter_count.
  by rewrite (count_perm y _ _ H1), (count_perm y _ _ H2).
Qed.

Lemma py_and_len_comm s1 s2 : py_and_len s1 s2 = py_and_len s2 s1.
Proof.
  destruct s1, s2; simpl; try done.
  - by rewrite (multiset_inter_comm elems elems0).
  - by rewrite (comm_L (∩)).
Qed.

Lemma Qnat_inj a b : (Qnat a == Qnat b)%Q -> a = b.
Proof. unfold Qnat. rewrite inject_Z_injective. lia. Qed.

(** A product of two ratios of the unit interval is 1 only if both are. *)
Lemma unit_product (p q : Q) :
  (0 <= p <= 1)%Q -> (0 <= q <= 1)%Q -> (p * q == 1)%Q -> (p == 1)%Q /\ (q == 1)%Q.
Proof. intros [Hp0 Hp1] [Hq0 Hq1] Hpq. split; nra. Qed.

Lemma Qnat_ratio_one a b : 0 < b -> (Qnat a / Qnat b == 1)%Q -> a = b.
Proof.
  intros Hb H. apply Qnat_inj. pose proof (Qnat_pos b Hb).
  rewrite <- (Qmult_1_l (Qnat b)), <- H. field. lra.
Qed.

(** X3: [compare_sigs] returns a score exactly when both operands are
    containers and the first is not empty.  With an empty first container
    it raises [ZeroDivisionError]; with [None], a map entry or any other
    operand that is not a container it raises [TypeError]. *)
Theorem compare_sigs_domain (A B : Signature) :
  ((exists s, compare_sigs A B = Ok s) <->
     is_container A = true /\ is_container B = true /\ truthy A = true) /\
  (is_container A = true -> is_container B = true -> truthy A = false ->
     compare_sigs A B = Raise ZeroDivisionError) /\
  (is_container A = false \/ is_container B = false ->
     compare_sigs A B = Raise TypeError).
Proof.
  assert (forall S, is_container S = true -> truthy S = false -> py_len S = Ok 0) as Hempty.
  { intros [l|v| | | |] Hc Ht; simpl in *; try done.
    - destruct (length l); simpl in *; done.
    - destruct (size v); simpl in *; done. }
  assert (is_container A = false \/ is_container B = false ->
          compare_sigs A B = Raise TypeError) as Hty.
  { unfold compare_sigs.
    destruct A as [l1|v1|k1 w1|s1|t1 g1|], B as [l2|v2|k2 w2|s2|t2 g2|];
      simpl; intros [?|?]; done. }
  assert (is_container A = true -> is_container B = true -> truthy A = false ->
          compare_sigs A B = Raise ZeroDivisionError) as Hzero.
  { intros HcA HcB Ht. apply compare_sigs_zero_target; auto. }
  split; [|split; assumption].
  split.
  - intros [s Hs].
    destruct (is_container A) eqn:HcA; [|rewrite Hty in Hs by auto; done].
    destruct (is_container B) eqn:HcB; [|rewrite Hty in Hs by auto; done].
    destruct (truthy A) eqn:Ht; [done|]. rewrite Hzero in Hs by done. done.
  - intros (HcA & HcB & Ht).
    destruct (truthy_py_len A HcA Ht) as (a & Ha & Hpos).
    destruct (container_py_len B HcB) as [b Hb].
    destruct (container_py_and_len A B HcA HcB) as [i Hi].
    eexists. by apply (compare_sigs_Ok A B a b i).
Qed.

(** ** Invariants of the generator *)

Lemma gen_inv_ret {A} (I : Registry -> Prop) (a : A) (Q : A -> Prop) :
  Q a -> gen_inv I (gen_ret a) Q.
Proof. intros HQ reg tr a' reg' HI [= _ <- <-]. done. Qed.

Lemma gen_inv_raise {A} (I : Registry -> Prop) e (Q : A -> Prop) :
  gen_inv I (gen_raise e) Q.
Proof. by intros reg tr a reg' HI. Qed.

Lemma gen_inv_log (I : Registry -> Prop) name (Q : unit -> Prop) :
  Q tt -> gen_inv I (gen_log name) Q.
Proof. intros HQ reg tr a' reg' HI [= _ <- <-]. done. Qed.

Lemma gen_inv_lift {A} (I : Registry -> Prop) (r : Res A) (Q : A -> Prop) :
  (forall a, r = Ok a -> Q a) -> gen_inv I (gen_lift r) Q.
Proof.
  intros HQ reg tr a reg' HI. unfold gen_lift. destruct r as [a'|]; [|done].
  intros [= _ <- <-]. auto.
Qed.

Lemma gen_inv_set (I : Registry -> Prop) name sig (Q : unit -> Prop) :
  (forall reg, I reg -> I (dict_set name sig reg)) -> Q tt ->
  gen_inv I (gen_set name sig) Q.
Proof. intros HI HQ reg tr a reg' Hreg [= _ <- <-]. auto. Qed.

Lemma gen_inv_bind {A B} (I : Registry -> Prop) (c : Gen A) (k : A -> Gen B)
    (P : A -> Prop) (Q : B -> Prop) :
  gen_inv I c P -> (forall a, P a -> gen_inv I (k a) Q) -> gen_inv I (gen_bind c k) Q.
Proof.
  intros Hc Hk reg tr b reg' HI. unfold gen_bind.
  destruct (c reg) as [tr0 [[a reg0]|e]] eqn:Hcr; [|done].
  destruct (Hc _ _ _ _ HI Hcr) as [HI0 HP].
  destruct (k a reg0) as [tr1 r1] eqn:Hkr. intros [= _ ->].
  by eapply Hk.
Qed.

Lemma gen_inv_weaken {A} (I : Registry -> Prop) (c : Gen A) (P Q : A -> Prop) :
  gen_inv I c P -> (forall a, P a -> Q a) -> gen_inv I c Q.
Proof.
  intros Hc HPQ reg tr a reg' HI H. destruct (Hc _ _ _ _ HI H). auto.
Qed.

Lemma gen_inv_for {A} (I : Registry -> Prop) (l : list A) (body : A -> Gen unit) :
  Forall (fun x => gen_inv I (body x) (fun _ => True)) l ->
  gen_inv I (gen_for l body) (fun _ => True).
Proof.
  induction 1 as [|x l Hx _ IH]; simpl; [by apply gen_inv_ret|].
  eapply gen_inv_bind; [exact Hx|]. intros _ _. exact IH.
Qed.

Lemma gen_inv_fold {A B} (I : Registry -> Prop) (J : B -> Prop)
    (body : B -> A -> Gen B) (l : list A) :
  Forall (fun x => forall acc, J acc -> gen_inv I (body acc x) J) l ->
  forall acc, J acc -> gen_inv I (gen_fold body acc l) J.
Proof.
  induction 1 as [|x l Hx _ IH]; simpl; intros acc HJ; [by apply gen_inv_ret|].
  eapply gen_inv_bind; [by apply Hx|]. intros acc' HJ'. by apply IH.
Qed.

Lemma contains_dot_app s1 s2 :
  contains_dot (s1 ++ s2) = contains_dot s1 || contains_dot s2.
Proof.
  induction s1 as [|c s1 IH]; simpl; [done|].
  destruct (Ascii.eqb c "."); [done|apply IH].
Qed.

Lemma nested_name_dotted name child : contains_dot (name ++ "." ++ child) = true.
Proof. rewrite contains_dot_app. simpl. apply orb_true_r. Qed.

Section GeneratorInvariant.

Variable PACKAGE_NAME : string.
Variable DEFAULT_EMPTY_TO_BYTES : bool.
Variable descriptor_map : dict Proto.

Variable I : Registry -> Prop.
Variable Qv : Signature -> Prop.

Hypothesis I_lookup : forall reg name sig,
  I reg -> dict_get name reg = Some sig -> Qv sig.
Hypothesis I_store : forall reg name sig,
  I reg -> contains_dot name = true -> Qv sig -> I (dict_set name sig reg).
Hypothesis Qv_enum : forall enum, Qv (get_enum_sig enum).
Hypothesis Qv_multiset : forall l,
  Forall (fun x => is_entry x = true) l -> Qv (mk_multiset l).
Hypothesis Qv_map_entry : forall key value,
  is_entry key = true -> is_entry value = true -> Qv (MapEntry key value).

Local Abbreviation get_sig :=
  (get_signature PACKAGE_NAME DEFAULT_EMPTY_TO_BYTES descriptor_map).

Lemma field_info_inv rec field :
  (forall name proto, gen_inv I (rec name proto) Qv) ->
  gen_inv I (field_info PACKAGE_NAME DEFAULT_EMPTY_TO_BYTES rec field)
    (fun x => is_entry x = true).
Proof.
  intros Hrec. unfold field_info.
  eapply gen_inv_bind with (P := fun _ => True).
  - destruct (f_type_name field) as [type_name|]; [|by apply gen_inv_ret].
    eapply gen_inv_bind; [apply Hrec|]. intros type_sig _.
    destruct (DEFAULT_EMPTY_TO_BYTES && negb (truthy type_sig));
      [by apply gen_inv_ret|].
    eapply gen_inv_bind; [apply Hrec|]. intros ? _. by apply gen_inv_ret.
  - intros tys _. apply gen_inv_ret. by destruct (truthy (snd tys)).
Qed.

Lemma oneofs_append_entries i x oneofs oneofs' :
  is_entry x = true ->
  Forall (Forall (fun x => is_entry x = true)) oneofs ->
  oneofs_append i x oneofs = Ok oneofs' ->
  Forall (Forall (fun x => is_entry x = true)) oneofs'.
Proof.
  intros Hx Hall. unfold oneofs_append.
  destruct (py_list_pos (length oneofs) i) as [n|]; [|done]. simpl.
  intros [= <-]. apply Forall_alter; [done|].
  intros olist _ Hol. apply Forall_app. split; [done|]. by constructor.
Qed.

Lemma field_step_inv rec field acc :
  (forall name proto, gen_inv I (rec name proto) Qv) ->
  slots_of_entries acc ->
  gen_inv I (field_step PACKAGE_NAME DEFAULT_EMPTY_TO_BYTES rec acc field)
    slots_of_entries.
Proof.
  intros Hrec [Hfl Hone]. unfold field_step.
  eapply gen_inv_bind; [by apply field_info_inv|]. intros info Hinfo.
  destruct (f_oneof_index field) as [i|].
  - eapply gen_inv_bind.
    + apply gen_inv_lift with (Q := Forall (Forall (fun x => is_entry x = true))).
      intros oneofs'. by apply oneofs_append_entries.
    + intros oneofs' H'. by apply gen_inv_ret.
  - apply gen_inv_ret. split; [|done]. apply Forall_app. split; [done|].
    by constructor.
Qed.

Lemma with_oneofs_entries acc :
  slots_of_entries acc -> Forall (fun x => is_entry x = true) (with_oneofs acc).
Proof.
  intros [Hfl _]. unfold with_oneofs. apply Forall_app. split; [done|].
  apply List.Forall_forall. intros x [olist [<- _]]%in_map_iff. done.
Qed.

(** Whatever holds of the registry and is kept by storing results under
    nested names holds again when [get_signature] returns, and what it
    returns is an enum signature, a multiset or a pair of field entries,
    or a value taken from the registry. *)
Lemma get_signature_inv depth name proto :
  gen_inv I (get_sig depth name proto) Qv.
Proof.
  revert name proto. induction depth as [|depth IH]; intros name proto.
  { apply gen_inv_raise. }
  intros reg tr sig reg' HI. simpl.
  destruct (dict_get name reg) as [sig0|] eqn:Hhit.
  { intros [= _ <- <-]. split; [done|]. by eapply I_lookup. }
  revert reg tr sig reg' HI Hhit.
  assert (gen_inv I (signature_body PACKAGE_NAME DEFAULT_EMPTY_TO_BYTES
                       descriptor_map (get_sig depth) name proto) Qv) as H;
    [|by intros reg tr sig reg' HI _; apply H].
  unfold signature_body.
  eapply gen_inv_bind; [by apply gen_inv_log with (Q := fun _ => True)|].
  intros _ _.
  eapply gen_inv_bind with (P := fun _ => True).
  { destruct proto; [by apply gen_inv_ret|].
    destruct (dict_get name descriptor_map); [by apply gen_inv_ret|apply gen_inv_raise]. }
  intros [d|enum] _; [|by apply gen_inv_ret].
  unfold message_signature.
  eapply gen_inv_bind with (P := fun _ => True).
  - unfold register_nested.
    eapply gen_inv_bind with (P := fun _ => True).
    + apply gen_inv_for, List.Forall_forall. intros nested_type _.
      eapply gen_inv_bind; [apply IH|]. intros nsig Hn.
      apply gen_inv_set; [|done]. intros reg HI.
      apply I_store; [done|apply nested_name_dotted|done].
    + intros _ _. apply gen_inv_for, List.Forall_forall. intros enum_type _.
      destruct (truthy (get_enum_sig enum_type)); [|by apply gen_inv_ret].
      apply gen_inv_set; [|done]. intros reg HI.
      apply I_store; [done|apply nested_name_dotted|apply Qv_enum].
  - intros _ _. unfold fields_signature.
    eapply gen_inv_bind.
    + apply gen_inv_fold with (J := slots_of_entries).
      * apply List.Forall_forall. intros field _ acc Hacc.
        by apply field_step_inv.
      * split; [constructor|]. apply Forall_replicate. constructor.
    + intros acc Hacc. apply with_oneofs_entries in Hacc.
      destruct (m_map_entry d); [|by apply gen_inv_ret, Qv_multiset].
      destruct (with_oneofs acc) as [|k [|v [|? ?]]]; try apply gen_inv_raise.
      apply gen_inv_ret.
      apply Forall_cons in Hacc as [Hk Hacc]. apply Forall_cons in Hacc as [Hv _].
      by apply Qv_map_entry.
Qed.

End GeneratorInvariant.

(** *** Dictionaries *)

Lemma dict_set_keys {V} k (v : V) d :
  (dict_set k v d).*1 = if decide (k ∈ d.*1) then d.*1 else (d.*1 ++ [k])%list.
Proof.
  induction d as [|[k' v'] d IH]; [done|].
  cbn [dict_set]. rewrite fmap_cons. cbn [fst].
  destruct (String.eqb_spec k k') as [->|Hne]; rewrite fmap_cons; cbn [fst].
  - rewrite decide_True; [done|left].
  - rewrite IH. destruct (decide (k ∈ d.*1)) as [Hin|Hin].
    + rewrite decide_True; [done|by right].
    + rewrite decide_False; [done|]. rewrite not_elem_of_cons. done.
Qed.

Lemma dict_set_NoDup {V} k (v : V) d : NoDup d.*1 -> NoDup (dict_set k v d).*1.
Proof.
  intros Hnd. rewrite dict_set_keys. destruct (decide (k ∈ d.*1)); [done|].
  apply NoDup_app. split_and!; [done| |apply NoDup_singleton].
  intros x Hx ->%list_elem_of_singleton. done.
Qed.

Lemma dict_set_keys_subseteq {V} k (v : V) d : d.*1 ⊆ (dict_set k v d).*1.
Proof.
  rewrite dict_set_keys. destruct (decide (k ∈ d.*1)); [done|].
  intros x Hx. apply elem_of_app. by left.
Qed.

Lemma dict_set_key_in {V} k (v : V) d : k ∈ (dict_set k v d).*1.
Proof.
  rewrite dict_set_keys. destruct (decide (k ∈ d.*1)); [done|].
  apply elem_of_app. right. left.
Qed.

Lemma elem_of_dict_set {V} k (v : V) d e :
  e ∈ dict_set k v d -> e = (k, v) \/ e ∈ d.
Proof.
  induction d as [|[k' v'] d IH]; simpl.
  - intros ->%list_elem_of_singleton. by left.
  - destruct (String.eqb k k').
    + intros [->|H]%elem_of_cons; [by left|]. right. by right.
    + intros [->|H]%elem_of_cons; [right; left|].
      destruct (IH H) as [->|?]; [by left|]. right. by right.
Qed.

Lemma dict_get_elem_of {V} k (v : V) d : dict_get k d = Some v -> (k, v) ∈ d.
Proof.
  induction d as [|[k' v'] d IH]; simpl; [done|].
  destruct (String.eqb_spec k k') as [->|Hne].
  - intros [= ->]. left.
  - intros H. right. auto.
Qed.

Lemma dict_get_None {V} k (d : dict V) : dict_get k d = None <-> k ∉ d.*1.
Proof.
  induction d as [|[k' v'] d IH]; simpl.
  - split; [intros _; apply not_elem_of_nil|done].
  - rewrite not_elem_of_cons. destruct (String.eqb_spec k k') as [->|Hne].
    + split; [done|]. by intros [? _].
    + rewrite IH. tauto.
Qed.

Lemma elem_of_dict_get {V} k (v : V) d :
  NoDup d.*1 -> (k, v) ∈ d -> dict_get k d = Some v.
Proof.
  intros Hnd Hin. destruct (dict_get k d) as [v'|] eqn:Hget.
  - apply dict_get_elem_of in Hget. f_equal. by eapply dict_keys_unique.
  - apply dict_get_None in Hget. destruct Hget.
    apply list_elem_of_fmap. by exists (k, v).
Qed.

(** Storing under a dotted name leaves the top-level entries as they are. *)
Lemma top_level_dict_set_dotted {V} k (v : V) d :
  contains_dot k = true -> top_level (dict_set k v d) = top_level d.
Proof.
  intros Hk. unfold top_level. induction d as [|[k' v'] d IH]; cbn [dict_set].
  - rewrite filter_cons_False; [done|]. cbn [fst]. by rewrite Hk.
  - destruct (String.eqb_spec k k') as [<-|Hne].
    + rewrite !(filter_cons_False _ (k, _)); [done| |]; cbn [fst]; by rewrite Hk.
    + rewrite !(filter_cons _ (k', v')). by rewrite IH.
Qed.

(** Storing under a new name without a dot adds one top-level entry, last. *)
Lemma top_level_dict_set_fresh {V} k (v : V) d :
  contains_dot k = false -> k ∉ d.*1 ->
  top_level (dict_set k v d) = (top_level d ++ [(k, v)])%list.
Proof.
  intros Hk Hin. rewrite dict_set_fresh by done. unfold top_level.
  rewrite filter_app. f_equal. by rewrite filter_cons_True.
Qed.

Lemma top_level_keys_elem_of {V} k (d : dict V) :
  k ∈ (top_level d).*1 <-> k ∈ d.*1 /\ contains_dot k = false.
Proof.
  unfold top_level. rewrite !list_elem_of_fmap. split.
  - intros ([k' v] & -> & [H1 H2]%list_elem_of_filter). split; [|done].
    by exists (k', v).
  - intros [([k' v] & -> & H) Hk]. exists (k', v). split; [done|].
    by apply list_elem_of_filter.
Qed.

Lemma dict_get_top_level {V} k (d : dict V) :
  contains_dot k = false -> dict_get k (top_level d) = dict_get k d.
Proof.
  intros Hk. unfold top_level. induction d as [|[k' v'] d IH]; [done|].
  rewrite filter_cons. cbn [dict_get fst].
  destruct (String.eqb_spec k k') as [<-|Hne].
  - rewrite decide_True by done. cbn. by rewrite String.eqb_refl.
  - destruct (decide (contains_dot k' = false)); [|done].
    cbn. by destruct (String.eqb_spec k k').
Qed.

(** *** What a call of [get_signature] leaves in the registry *)

Section Frame.

Variable PACKAGE_NAME : string.
Variable DEFAULT_EMPTY_TO_BYTES : bool.
Variable descriptor_map : dict Proto.

Local Abbreviation get_sig :=
  (get_signature PACKAGE_NAME DEFAULT_EMPTY_TO_BYTES descriptor_map).

Lemma get_signature_top_level depth name proto reg tr sig reg' :
  get_sig depth name proto reg = (tr, Ok (sig, reg')) ->
  top_level reg' = top_level reg.
Proof.
  intros H.
  apply (get_signature_inv PACKAGE_NAME DEFAULT_EMPTY_TO_BYTES descriptor_map
           (fun r => top_level r = top_level reg) (fun _ => True))
    in H as [H _]; try done.
  intros r k v Hr Hk _. by rewrite top_level_dict_set_dotted.
Qed.

Lemma get_signature_keys depth name proto reg tr sig reg' :
  get_sig depth name proto reg = (tr, Ok (sig, reg')) ->
  reg.*1 ⊆ reg'.*1 /\ (NoDup reg.*1 -> NoDup reg'.*1).
Proof.
  intros H.
  apply (get_signature_inv PACKAGE_NAME DEFAULT_EMPTY_TO_BYTES descriptor_map
           (fun r => reg.*1 ⊆ r.*1 /\ (NoDup reg.*1 -> NoDup r.*1)) (fun _ => True))
    in H as [H _]; try done.
  intros r k v [Hr Hnd] Hk _. split.
  - etrans; [exact Hr|apply dict_set_keys_subseteq].
  - intros ?. apply dict_set_NoDup. auto.
Qed.

(** X4: a call of [get_signature] that returns stores results under
    nested (dotted) names only.  The entries of the registry whose name
    has no dot are the same before and after, so a lookup of such a name
    gives the same answer (in particular the call does not store its own
    result under a top-level name); no key is removed, and keys that were
    distinct stay distinct. *)
Theorem get_signature_stores_nested_only depth name proto reg tr sig reg' :
  get_sig depth name proto reg = (tr, Ok (sig, reg')) ->
  top_level reg' = top_level reg /\
  (forall k, contains_dot k = false -> dict_get k reg' = dict_get k reg) /\
  reg.*1 ⊆ reg'.*1 /\
  (NoDup reg.*1 -> NoDup reg'.*1).
Proof.
  intros H.
  pose proof (get_signature_top_level _ _ _ _ _ _ _ H) as Htop.
  destruct (get_signature_keys _ _ _ _ _ _ _ H) as [Hsub Hnd].
  split_and!; try done.
  intros k Hk.
  rewrite <- (dict_get_top_level k reg'), <- (dict_get_top_level k reg) by done.
  by rewrite Htop.
Qed.

End Frame.

Lemma get_signature_stores_nested_only_witness :
  let reg' := [("Shape.TagsEntry",
                MapEntry (Str "string")
                  (FieldTuple "enum" (mk_frozenset [0; 1; 2]%Z)))] in
  top_level reg' = top_level [] /\
  (forall k, contains_dot k = false -> dict_get k reg' = dict_get k []) /\
  ([] : list string) ⊆ reg'.*1 /\
  (NoDup ([] : Registry).*1 -> NoDup reg'.*1).
Proof.
  eapply (get_signature_stores_nested_only "" true
            [("Shape", Message sample_shape); ("Colour", Enum sample_colour)]
            10 "Shape" None []).
  vm_compute. reflexivity.
Defined.

(** *** The registry that [generate_signatures] returns *)

Lemma get_sig_rlen_entries l :
  Forall (fun x => is_entry x = true) l -> list_sum (map get_sig_rlen l) = length l.
Proof.
  induction 1 as [|x l Hx _ IH]; simpl; [done|].
  rewrite IH. by destruct x.
Qed.

Lemma forallb_Forall {A} (f : A -> bool) l :
  forallb f l = true <-> Forall (fun x => f x = true) l.
Proof.
  induction l as [|x l IH]; simpl.
  - split; [constructor|done].
  - rewrite andb_true_iff, Forall_cons, IH. done.
Qed.

Lemma signature_form_rlen sig :
  signature_form sig = true ->
  (is_container sig = true -> py_len sig = Ok (get_sig_rlen sig)) /\
  (is_container sig = false -> get_sig_rlen sig = 1).
Proof.
  destruct sig as [l|v|k v|s|lt sg|]; simpl; intros Hform; split; try done.
  intros _. f_equal. symmetry. apply get_sig_rlen_entries.
  by apply forallb_Forall.
Qed.

Lemma signature_form_enum enum : signature_form (get_enum_sig enum) = true.
Proof. unfold get_enum_sig. by destruct (e_allow_alias enum). Qed.

Lemma signature_form_multiset l :
  Forall (fun x => is_entry x = true) l -> signature_form (mk_multiset l) = true.
Proof.
  intros Hl. simpl. apply forallb_Forall.
  by rewrite merge_sort_Permutation.
Qed.

Section Registry.

Variable PACKAGE_NAME : string.
Variable DEFAULT_EMPTY_TO_BYTES : bool.
Variable depth : nat.

(** A property of the registry that holds when it is empty and that
    [generate_signatures] keeps whenever it stores a signature of one of
    the forms of [get_signature]. *)
Lemma generate_signatures_inv (I : Registry -> Prop) (Qv : Signature -> Prop) files tr reg :
  (forall reg name sig, I reg -> dict_get name reg = Some sig -> Qv sig) ->
  (forall reg name sig, I reg -> Qv sig -> I (dict_set name sig reg)) ->
  (forall enum, Qv (get_enum_sig enum)) ->
  (forall l, Forall (fun x => is_entry x = true) l -> Qv (mk_multiset l)) ->
  (forall key value, is_entry key = true -> is_entry value = true ->
                     Qv (MapEntry key value)) ->
  I [] ->
  generate_signatures PACKAGE_NAME DEFAULT_EMPTY_TO_BYTES depth files = (tr, Ok reg) ->
  I reg.
Proof.
  intros Hlookup Hstore Henum Hmulti Hmap Hnil. unfold generate_signatures.
  set (dm := build_descriptor_map files).
  set (body := fun '(name, proto) => _).
  assert (gen_inv I (gen_for dm body) (fun _ => True)) as Hloop.
  { apply gen_inv_for, List.Forall_forall. intros [name proto] _.
    eapply gen_inv_bind.
    - apply (get_signature_inv PACKAGE_NAME DEFAULT_EMPTY_TO_BYTES dm I Qv); auto.
    - intros sig Hsig. apply gen_inv_set; [|done]. auto. }
  destruct (gen_for dm body []) as [tr0 [[[] reg0]|e]] eqn:Hrun; [|done].
  intros [= _ <-]. by destruct (Hloop _ _ _ _ Hnil Hrun).
Qed.

(** The top-level loop stores each declared name, once, after the names
    before it. *)
Lemma top_level_loop dm (l : dict Proto) reg tr reg' :
  gen_for l (fun '(name, proto) =>
    (sig <- get_signature PACKAGE_NAME DEFAULT_EMPTY_TO_BYTES dm depth name (Some proto) ;;
     gen_set name sig)%gen) reg = (tr, Ok (tt, reg')) ->
  Forall (fun name => contains_dot name = false) l.*1 ->
  NoDup ((top_level reg).*1 ++ l.*1) ->
  (top_level reg').*1 = ((top_level reg).*1 ++ l.*1)%list.
Proof.
  revert reg tr. induction l as [|[name proto] l IH]; intros reg tr.
  - intros [= _ <-] _ _. by rewrite app_nil_r.
  - cbn [gen_for]. unfold gen_bind at 1.
    destruct (gen_bind _ _ reg) as [tr0 [[[] reg0]|e]] eqn:Hbody; [|done].
    destruct (gen_for l _ reg0) as [tr1 r1] eqn:Hrest. intros [= _ ->].
    rewrite fmap_cons. cbn [fst]. intros [Hname Hl]%Forall_cons Hnd.
    unfold gen_bind in Hbody.
    destruct (get_signature _ _ _ _ _ _ reg) as [tr2 [[sig reg1]|e]] eqn:Hsig; [|done].
    injection Hbody as _ <-.
    apply get_signature_top_level in Hsig as Htop.
    assert (name ∉ reg1.*1) as Hfresh.
    { intros Hin. apply NoDup_app in Hnd as (_ & Hdisj & _).
      apply (Hdisj name); [|left]. rewrite <- Htop.
      by apply top_level_keys_elem_of. }
    apply IH in Hrest; [| done |].
    + rewrite Hrest, top_level_dict_set_fresh, fmap_app, Htop by done.
      by rewrite <- app_assoc.
    + rewrite top_level_dict_set_fresh, fmap_app, Htop by done.
      rewrite <- app_assoc. done.
Qed.

End Registry.

Lemma fold_left_inv {A B} (I : B -> Prop) (f : B -> A -> B) l b :
  (forall b a, I b -> I (f b a)) -> I b -> I (fold_left f l b).
Proof. intros Hf. revert b. induction l; simpl; auto. Qed.

Lemma build_descriptor_map_NoDup files : NoDup (build_descriptor_map files).*1.
Proof.
  unfold build_descriptor_map.
  apply (fold_left_inv (fun dm : dict Proto => NoDup dm.*1)); [|constructor].
  intros dm desc Hdm.
  apply (fold_left_inv (fun dm : dict Proto => NoDup dm.*1)).
  { intros. by apply dict_set_NoDup. }
  apply (fold_left_inv (fun dm : dict Proto => NoDup dm.*1)); [|done].
  intros. by apply dict_set_NoDup.
Qed.

(** X5: in the registry that [generate_signatures] returns no name occurs
    twice, and, when no declared top-level name contains a dot, its
    entries without a dot are the declared top-level types, each once and
    in the order of declaration.  These are the candidates that
    [get_matches] scores. *)
Theorem generate_signatures_registry PACKAGE_NAME DEFAULT_EMPTY_TO_BYTES depth
    files tr reg :
  generate_signatures PACKAGE_NAME DEFAULT_EMPTY_TO_BYTES depth files = (tr, Ok reg) ->
  Forall (fun name => contains_dot name = false) (build_descriptor_map files).*1 ->
  NoDup reg.*1 /\ (top_level reg).*1 = (build_descriptor_map files).*1.
Proof.
  intros Hgen Hdots. split.
  - apply (generate_signatures_inv _ _ _ (fun r => NoDup r.*1) (fun _ => True))
      in Hgen; try done; [|constructor].
    intros r name sig Hr _. by apply dict_set_NoDup.
  - unfold generate_signatures in Hgen.
    destruct (gen_for _ _ []) as [tr0 [[[] reg0]|e]] eqn:Hrun; [|done].
    injection Hgen as _ <-.
    apply top_level_loop in Hrun; [done|done|].
    apply build_descriptor_map_NoDup.
Qed.

Lemma generate_signatures_registry_witness :
  NoDup sample_generated.*1 /\
  (top_level sample_generated).*1 = (build_descriptor_map sample_files).*1.
Proof.
  apply (generate_signatures_registry "" true 10 sample_files
           ["Shape"; "Shape.TagsEntry"; "Colour"; "Colour"; "Colour"; "Colour"; "Colour"]).
  - vm_compute. reflexivity.
  - apply (bool_decide_unpack _). vm_compute. exact I.
Defined.

(** X6: every signature in the registry that [generate_signatures] returns
    is [None], a set of enum numbers, or a multiset or a [MapEntry] of
    field entries (strings and [FieldTuple]s), and it is in canonical
    form.  Hence the "total" count of [get_sig_rlen] never looks below the
    first level: on a container it equals [len], and on anything else it
    is 1. *)
Theorem generated_signature_forms PACKAGE_NAME DEFAULT_EMPTY_TO_BYTES depth
    files tr reg name sig :
  generate_signatures PACKAGE_NAME DEFAULT_EMPTY_TO_BYTES depth files = (tr, Ok reg) ->
  (name, sig) ∈ reg ->
  signature_form sig = true /\
  canonical sig /\
  (is_container sig = true -> py_len sig = Ok (get_sig_rlen sig)) /\
  (is_container sig = false -> get_sig_rlen sig = 1).
Proof.
  intros Hgen Hin.
  apply (generate_signatures_inv _ _ _
           (fun r => Forall (fun e => signature_form (snd e) = true /\
                                      canonical (snd e)) r)
           (fun s => signature_form s = true /\ canonical s)) in Hgen.
  - assert (signature_form sig = true /\ canonical sig) as [Hform Hcan].
    { by apply (proj1 (Forall_forall _ _) Hgen (name, sig)). }
    split_and!; [done|done|by apply signature_form_rlen..].
  - intros r k v Hr Hget%dict_get_elem_of.
    by apply (proj1 (Forall_forall _ _) Hr (k, v)).
  - intros r k v Hr Hv. apply Forall_forall. intros e [->|He]%elem_of_dict_set; [done|].
    by apply (proj1 (Forall_forall _ _) Hr e).
  - intros enum. split; [apply signature_form_enum|].
    unfold get_enum_sig. by destruct (e_allow_alias enum).
  - intros l Hl. split; [by apply signature_form_multiset|apply canonical_mk_multiset].
  - intros key value Hk Hv. simpl. by rewrite Hk, Hv.
  - constructor.
Qed.

Lemma generated_signature_forms_witness :
  let sig := mk_multiset [Str "required int32";
               FieldTuple "repeated map"
                 (MapEntry (Str "string")
                    (FieldTuple "enum" (mk_frozenset [0; 1; 2]%Z)));
               FieldTuple "oneof"
                 (mk_multiset [Str "double";
                    FieldTuple "enum" (mk_frozenset [0; 1; 2]%Z)])] in
  signature_form sig = true /\
  canonical sig /\
  (is_container sig = true -> py_len sig = Ok (get_sig_rlen sig)) /\
  (is_container sig = false -> get_sig_rlen sig = 1).
Proof.
  apply (generated_signature_forms "" true 10 sample_files
           ["Shape"; "Shape.TagsEntry"; "Colour"; "Colour"; "Colour"; "Colour"; "Colour"]
           sample_generated "Shape").
  - vm_compute. reflexivity.
  - apply (bool_decide_unpack _). vm_compute. exact I.
Defined.

(** ** The depth of the stack *)

Lemma gen_agree_refl {A} (c : Gen A) : gen_agree c c.
Proof. by intros reg _. Qed.

Lemma gen_agree_bind {A B} (c c' : Gen A) (k k' : A -> Gen B) :
  gen_agree c c' -> (forall a, gen_agree (k a) (k' a)) ->
  gen_agree (gen_bind c k) (gen_bind c' k').
Proof.
  intros Hc Hk reg. unfold gen_bind. specialize (Hc reg).
  destruct (c reg) as [tr [[a reg1]|e]] eqn:Hcr; cbn [snd] in *.
  - rewrite Hc; [|discriminate]. specialize (Hk a reg1).
    destruct (k a reg1) as [tr1 r1]; cbn [snd] in *.
    intros Hr. by rewrite Hk.
  - intros He. rewrite Hc; [done|]. intros [= ->]. by destruct He.
Qed.

Lemma gen_agree_for {A} (l : list A) (body body' : A -> Gen unit) :
  (forall x, gen_agree (body x) (body' x)) ->
  gen_agree (gen_for l body) (gen_for l body').
Proof.
  intros Hb. induction l as [|x l IH]; simpl; [apply gen_agree_refl|].
  apply gen_agree_bind; [apply Hb|]. by intros _.
Qed.

Lemma gen_agree_fold {A B} (body body' : B -> A -> Gen B) (l : list A) acc :
  (forall acc x, gen_agree (body acc x) (body' acc x)) ->
  gen_agree (gen_fold body acc l) (gen_fold body' acc l).
Proof.
  intros Hb. revert acc. induction l as [|x l IH]; intros acc; simpl;
    [apply gen_agree_refl|].
  apply gen_agree_bind; [apply Hb|]. intros acc'. apply IH.
Qed.

Section Depth.

Variable PACKAGE_NAME : string.
Variable DEFAULT_EMPTY_TO_BYTES : bool.
Variable descriptor_map : dict Proto.

Variables rec rec' : string -> option Proto -> Gen Signature.
Hypothesis rec_agree : forall name proto, gen_agree (rec name proto) (rec' name proto).

Lemma field_info_agree field :
  gen_agree (field_info PACKAGE_NAME DEFAULT_EMPTY_TO_BYTES rec field)
            (field_info PACKAGE_NAME DEFAULT_EMPTY_TO_BYTES rec' field).
Proof.
  unfold field_info. apply gen_agree_bind; [|intros; apply gen_agree_refl].
  destruct (f_type_name field) as [type_name|]; [|apply gen_agree_refl].
  apply gen_agree_bind; [apply rec_agree|]. intros type_sig.
  destruct (DEFAULT_EMPTY_TO_BYTES && negb (truthy type_sig)); [apply gen_agree_refl|].
  apply gen_agree_bind; [apply rec_agree|]. intros; apply gen_agree_refl.
Qed.

Lemma signature_body_agree name proto :
  gen_agree
    (signature_body PACKAGE_NAME DEFAULT_EMPTY_TO_BYTES descriptor_map rec name proto)
    (signature_body PACKAGE_NAME DEFAULT_EMPTY_TO_BYTES descriptor_map rec' name proto).
Proof.
  unfold signature_body. apply gen_agree_bind; [apply gen_agree_refl|]. intros _.
  apply gen_agree_bind; [apply gen_agree_refl|]. intros [d|e]; [|apply gen_agree_refl].
  unfold message_signature. apply gen_agree_bind.
  - unfold register_nested. apply gen_agree_bind; [|intros; apply gen_agree_refl].
    apply gen_agree_for. intros nested.
    apply gen_agree_bind; [apply rec_agree|]. intros; apply gen_agree_refl.
  - intros _. unfold fields_signature.
    apply gen_agree_bind; [|intros; apply gen_agree_refl].
    apply gen_agree_fold. intros acc field. unfold field_step.
    apply gen_agree_bind; [apply field_info_agree|]. intros; apply gen_agree_refl.
Qed.

End Depth.

(** X7: the depth of the stack matters only when it is exhausted.  A call
    of [get_signature] that ends without [RecursionError] (with a result
    or with another error) ends in the same way, with the same trace and
    the same registry, under any larger limit. *)
Theorem get_signature_depth_irrelevant PACKAGE_NAME DEFAULT_EMPTY_TO_BYTES
    descriptor_map depth depth' name proto reg :
  snd (get_signature PACKAGE_NAME DEFAULT_EMPTY_TO_BYTES descriptor_map
         depth name proto reg) <> Raise RecursionError ->
  depth <= depth' ->
  get_signature PACKAGE_NAME DEFAULT_EMPTY_TO_BYTES descriptor_map depth' name proto reg
  = get_signature PACKAGE_NAME DEFAULT_EMPTY_TO_BYTES descriptor_map depth name proto reg.
Proof.
  revert depth' name proto reg.
  induction depth as [|depth IH]; intros depth' name proto reg Hok Hle.
  { by destruct Hok. }
  destruct depth' as [|depth']; [lia|].
  simpl in *. destruct (dict_get name reg); [done|].
  apply signature_body_agree; [|done].
  intros name0 proto0 reg0 H0. apply IH; [done|lia].
Qed.

Lemma get_signature_depth_irrelevant_witness :
  get_signature "" true acyclic_map 1000 "A" None []
  = get_signature "" true acyclic_map 3 "A" None [].
Proof.
  apply (get_signature_depth_irrelevant "" true acyclic_map 3 1000 "A" None []).
  - vm_compute. discriminate.
  - lia.
Defined.

(** ** Unique signatures *)

Section SigDictFacts.

Variable key_eqb : Signature -> Signature -> bool.
Hypothesis key_eqb_equiv : key_equivalence key_eqb.

Lemma key_eqb_refl s : key_eqb s s = true.
Proof. apply key_eqb_equiv. Qed.

Lemma key_eqb_sym s s' : key_eqb s s' = key_eqb s' s.
Proof. apply key_eqb_equiv. Qed.

Lemma key_eqb_trans s1 s2 s3 :
  key_eqb s1 s2 = true -> key_eqb s2 s3 = true -> key_eqb s1 s3 = true.
Proof. apply key_eqb_equiv. Qed.

(** Equal keys are looked up alike. *)
Lemma key_eqb_proper s s' t : key_eqb s s' = true -> key_eqb s t = key_eqb s' t.
Proof.
  intros H. destruct (key_eqb s' t) eqn:E.
  - by eapply key_eqb_trans.
  - destruct (key_eqb s t) eqn:E'; [|done]. rewrite <- E. symmetry.
    eapply key_eqb_trans; [|exact E']. by rewrite key_eqb_sym.
Qed.

Lemma sig_get_proper {V} s s' (d : list (Signature * V)) :
  key_eqb s s' = true -> sig_get key_eqb s d = sig_get key_eqb s' d.
Proof.
  intros H. induction d as [|[k v] d IH]; simpl; [done|].
  by rewrite (key_eqb_proper s s' k H), IH.
Qed.

Lemma sig_get_append sig sig0 name d :
  sig_get key_eqb sig (sig_append key_eqb sig0 name d) =
  if key_eqb sig sig0
  then Some (default [] (sig_get key_eqb sig0 d) ++ [name])%list
  else sig_get key_eqb sig d.
Proof.
  induction d as [|[k names] d IH]; simpl.
  - by destruct (key_eqb sig sig0).
  - destruct (key_eqb sig0 k) eqn:E0; simpl.
    + destruct (key_eqb sig sig0) eqn:E1.
      * by rewrite (key_eqb_trans _ _ _ E1 E0).
      * destruct (key_eqb sig k) eqn:E2; [|done].
        assert (key_eqb sig sig0 = true); [|congruence].
        eapply key_eqb_trans; [exact E2|]. by rewrite key_eqb_sym.
    + destruct (key_eqb sig k) eqn:E2; [|exact IH].
      destruct (key_eqb sig sig0) eqn:E1; [|done].
      assert (key_eqb sig0 k = true); [|congruence].
      eapply key_eqb_trans; [|exact E2]. by rewrite key_eqb_sym.
Qed.

Lemma keys_distinct_append sig0 name d :
  keys_distinct key_eqb d -> keys_distinct key_eqb (sig_append key_eqb sig0 name d).
Proof.
  induction d as [|[k names] d IH]; simpl.
  - done.
  - intros [Hk Hd]. destruct (key_eqb sig0 k) eqn:E0; simpl; [done|].
    split; [|auto]. rewrite sig_get_append.
    rewrite key_eqb_sym, E0. done.
Qed.

Lemma sig_get_unique_protos sig d :
  keys_distinct key_eqb d ->
  sig_get key_eqb sig (unique_protos d) =
  match sig_get key_eqb sig d with
  | Some [name] => Some name
  | _ => None
  end.
Proof.
  unfold unique_protos. induction d as [|[k names] d IH]; simpl; [done|].
  intros [Hk Hd]. specialize (IH Hd).
  destruct (key_eqb sig k) eqn:E.
  - rewrite (sig_get_proper sig k d), Hk in IH by done.
    destruct names as [|name [|? ?]]; simpl; rewrite ?E; done.
  - destruct names as [|name [|? ?]]; simpl; rewrite ?E; done.
Qed.

End SigDictFacts.

Lemma sig_get_elem_of {V} key_eqb sig (v : V) d :
  sig_get key_eqb sig d = Some v -> exists k, (k, v) ∈ d /\ key_eqb sig k = true.
Proof.
  induction d as [|[k v'] d IH]; simpl; [done|].
  destruct (key_eqb sig k) eqn:E.
  - intros [= ->]. exists k. split; [left|done].
  - intros (k' & Hin & Hk')%IH. exists k'. split; [by right|done].
Qed.

Lemma elem_of_sig_append key_eqb sig0 name d k names :
  (k, names) ∈ sig_append key_eqb sig0 name d ->
  (k, names) ∈ d \/
  (exists names0, (k, names0) ∈ d /\ names = (names0 ++ [name])%list) \/
  (k = sig0 /\ names = [name]).
Proof.
  induction d as [|[k' names'] d IH]; simpl.
  - intros [= -> ->]%list_elem_of_singleton. auto.
  - destruct (key_eqb sig0 k').
    + intros [[= -> ->]|H]%elem_of_cons.
      * right. left. exists names'. split; [left|done].
      * left. by right.
    + intros [[= -> ->]|H]%elem_of_cons; [left; left|].
      destruct (IH H) as [?|[(names0 & ? & ->)|[-> ->]]].
      * left. by right.
      * right. left. exists names0. split; [by right|done].
      * auto.
Qed.

Lemma elem_of_unique_protos sig name d :
  (sig, name) ∈ unique_protos d <-> (sig, [name]) ∈ d.
Proof.
  unfold unique_protos. rewrite list_elem_of_omap. split.
  - intros ([k [|n [|? ?]]] & Hin & Heq); try done. by injection Heq as -> ->.
  - intros Hin. by exists (sig, [name]).
Qed.

Lemma names_with_app key_eqb sig T1 T2 :
  names_with key_eqb sig (T1 ++ T2)
  = (names_with key_eqb sig T1 ++ names_with key_eqb sig T2)%list.
Proof. unfold names_with. by rewrite filter_app, fmap_app. Qed.

Lemma names_with_elem_of key_eqb sig T name :
  name ∈ names_with key_eqb sig T <->
  exists sig', (name, sig') ∈ T /\ key_eqb sig sig' = true.
Proof.
  unfold names_with. rewrite list_elem_of_fmap. split.
  - intros ([n s] & -> & [H1 H2]%list_elem_of_filter). by exists s.
  - intros (s & Hin & Hs). exists (name, s). split; [done|].
    by apply list_elem_of_filter.
Qed.

Section Uniques.

Variable key_eqb : Signature -> Signature -> bool.
Hypothesis key_eqb_equiv : key_equivalence key_eqb.

Variable PACKAGE_NAME : string.
Variable DEFAULT_EMPTY_TO_BYTES : bool.
Variable depth : nat.

Lemma groups_ok_append sig2proto_map entries name sig :
  groups_ok key_eqb sig2proto_map entries ->
  groups_ok key_eqb (sig_append key_eqb sig name sig2proto_map) (entries ++ [(name, sig)])%list.
Proof.
  intros (Hdist & Hget & Hhead). split_and!.
  - by apply keys_distinct_append.
  - intros sig'. rewrite sig_get_append, names_with_app by done.
    rewrite <- Hget. unfold names_with at 1.
    rewrite filter_cons, filter_nil. cbn [snd].
    destruct (key_eqb sig' sig) eqn:E.
    + rewrite decide_True by done. cbn.
      by rewrite (sig_get_proper key_eqb key_eqb_equiv sig' sig).
    + rewrite decide_False by congruence. cbn. by rewrite app_nil_r.
  - intros k names [Hin|[(names0 & Hin & ->)|[-> ->]]]%elem_of_sig_append.
    + destruct (Hhead _ _ Hin) as (n & rest & -> & Hn).
      exists n, rest. split; [done|]. apply elem_of_app. by left.
    + destruct (Hhead _ _ Hin) as (n & rest & -> & Hn).
      exists n, (rest ++ [name])%list. split; [done|]. apply elem_of_app. by left.
    + exists name, []. split; [done|]. apply elem_of_app. right. left.
Qed.

Lemma uniques_loop dm (l : dict Proto) sig2proto_map reg tr sig2proto_map' reg' :
  gen_fold (fun sig2proto_map '(name, proto) =>
    (sig <- get_signature PACKAGE_NAME DEFAULT_EMPTY_TO_BYTES dm depth name (Some proto) ;;
     gen_set name sig ;;;
     gen_ret (sig_append key_eqb sig name sig2proto_map))%gen)
    sig2proto_map l reg = (tr, Ok (sig2proto_map', reg')) ->
  Forall (fun name => contains_dot name = false) l.*1 ->
  NoDup ((top_level reg).*1 ++ l.*1) ->
  groups_ok key_eqb sig2proto_map (top_level reg) ->
  groups_ok key_eqb sig2proto_map' (top_level reg').
Proof.
  revert sig2proto_map reg tr. induction l as [|[name proto] l IH];
    intros s2p reg tr.
  - by intros [= _ <- <-] _ _.
  - cbn [gen_fold]. unfold gen_bind at 1.
    destruct (gen_bind _ _ reg) as [tr0 [[s2p0 reg0]|e]] eqn:Hbody; [|done].
    destruct (gen_fold _ s2p0 l reg0) as [tr1 r1] eqn:Hrest. intros [= _ ->].
    rewrite fmap_cons. cbn [fst]. intros [Hname Hl]%Forall_cons Hnd Hok.
    unfold gen_bind in Hbody.
    destruct (get_signature _ _ _ _ _ _ reg) as [tr2 [[sig reg1]|e]] eqn:Hsig; [|done].
    cbn in Hbody. injection Hbody as _ <- <-.
    apply get_signature_top_level in Hsig as Htop.
    assert (name ∉ reg1.*1) as Hfresh.
    { intros Hin. apply NoDup_app in Hnd as (_ & Hdisj & _).
      apply (Hdisj name); [|left]. rewrite <- Htop.
      by apply top_level_keys_elem_of. }
    eapply IH; [exact Hrest|done| |].
    + rewrite top_level_dict_set_fresh, fmap_app, Htop by done.
      by rewrite <- app_assoc.
    + rewrite top_level_dict_set_fresh, Htop by done.
      by apply groups_ok_append.
Qed.

(** The first result, alone, is the registry of the loop without
    [sig2proto_map]. *)
Lemma uniques_loop_registry dm (l : dict Proto) sig2proto_map reg :
  gen_for l (fun '(name, proto) =>
    (sig <- get_signature PACKAGE_NAME DEFAULT_EMPTY_TO_BYTES dm depth name (Some proto) ;;
     gen_set name sig)%gen) reg
  = let '(tr, r) :=
      gen_fold (fun sig2proto_map '(name, proto) =>
        (sig <- get_signature PACKAGE_NAME DEFAULT_EMPTY_TO_BYTES dm depth name (Some proto) ;;
         gen_set name sig ;;;
         gen_ret (sig_append key_eqb sig name sig2proto_map))%gen)
        sig2proto_map l reg in
    (tr, match r with Ok (_, reg') => Ok (tt, reg') | Raise e => Raise e end).
Proof.
  revert sig2proto_map reg. induction l as [|[name proto] l IH]; intros s2p reg.
  - done.
  - cbn [gen_for gen_fold]. unfold gen_bind, gen_set, gen_ret.
    destruct (get_signature _ _ _ _ _ _ reg) as [tr2 [[sig reg1]|e]]; [|done].
    rewrite (IH (sig_append key_eqb sig name s2p)). unfold gen_bind, gen_set, gen_ret.
    destruct (gen_fold _ _ l _) as [tr1 [[s2p1 reg2]|e]]; cbn;
      by rewrite ?app_nil_r.
Qed.

End Uniques.

Lemma structural_eqb_equivalence : key_equivalence structural_eqb.
Proof.
  unfold structural_eqb. split_and!.
  - intros s. by apply bool_decide_eq_true.
  - intros s s'. apply bool_decide_ext. split; congruence.
  - intros s1 s2 s3 ->%bool_decide_eq_true ->%bool_decide_eq_true.
    by apply bool_decide_eq_true.
Qed.

Lemma generate_signatures_NoDup PACKAGE_NAME DEFAULT_EMPTY_TO_BYTES depth files tr reg :
  generate_signatures PACKAGE_NAME DEFAULT_EMPTY_TO_BYTES depth files = (tr, Ok reg) ->
  NoDup reg.*1.
Proof.
  intros Hgen.
  apply (generate_signatures_inv _ _ _ (fun r => NoDup r.*1) (fun _ => True))
    in Hgen; try done; [|constructor].
  intros r name sig Hr _. by apply dict_set_NoDup.
Qed.

Lemma generate_signatures_uniques_registry key_eqb PACKAGE_NAME
    DEFAULT_EMPTY_TO_BYTES depth files tr reg uniques :
  generate_signatures_uniques key_eqb PACKAGE_NAME DEFAULT_EMPTY_TO_BYTES depth files
    = (tr, Ok (reg, uniques)) ->
  generate_signatures PACKAGE_NAME DEFAULT_EMPTY_TO_BYTES depth files = (tr, Ok reg).
Proof.
  unfold generate_signatures_uniques, generate_signatures.
  rewrite (uniques_loop_registry key_eqb _ _ _ _ _ []).
  destruct (gen_fold _ _ _ _) as [tr0 [[s2p reg0]|e]]; [|done].
  by intros [= -> -> _].
Qed.

Lemma generate_signatures_uniques_groups key_eqb PACKAGE_NAME
    DEFAULT_EMPTY_TO_BYTES depth files tr reg uniques :
  key_equivalence key_eqb ->
  generate_signatures_uniques key_eqb PACKAGE_NAME DEFAULT_EMPTY_TO_BYTES depth files
    = (tr, Ok (reg, uniques)) ->
  Forall (fun name => contains_dot name = false) (build_descriptor_map files).*1 ->
  exists sig2proto_map,
    uniques = unique_protos sig2proto_map /\
    groups_ok key_eqb sig2proto_map (top_level reg).
Proof.
  intros Heq Hgen Hdots. unfold generate_signatures_uniques in Hgen.
  destruct (gen_fold _ _ _ _) as [tr0 [[s2p reg0]|e]] eqn:Hrun; [|done].
  injection Hgen as _ <- <-. exists s2p. split; [done|].
  eapply uniques_loop; [done|exact Hrun|done| |].
  - apply build_descriptor_map_NoDup.
  - split_and!; [done|done|]. intros k names Hin. by apply elem_of_nil in Hin.
Qed.

Lemma groups_ok_unique key_eqb sig2proto_map entries sig name :
  key_equivalence key_eqb ->
  groups_ok key_eqb sig2proto_map entries ->
  sig_get key_eqb sig (unique_protos sig2proto_map) = Some name <->
  names_with key_eqb sig entries = [name].
Proof.
  intros Heq (Hdist & Hget & _). rewrite sig_get_unique_protos, <- Hget by done.
  destruct (sig_get key_eqb sig sig2proto_map) as [[|n [|? ?]]|]; simpl;
    split; congruence.
Qed.

Lemma groups_ok_key key_eqb sig2proto_map entries sig name :
  groups_ok key_eqb sig2proto_map entries ->
  (sig, name) ∈ unique_protos sig2proto_map -> (name, sig) ∈ entries.
Proof.
  intros (_ & _ & Hhead) Hin%elem_of_unique_protos.
  destruct (Hhead _ _ Hin) as (n & rest & [= <- <-] & Hn). done.
Qed.

(** X8: the second result of [generate_signatures].  Its registry is the
    one of the first result.  A signature leads to a name in
    [unique_protos] exactly when that name is the only top-level type of
    the registry with that signature, and the key stored with a name is
    the signature that the registry has for it.  (Top-level names are
    taken to be free of dots, as identifiers are.) *)
Theorem unique_protos_spec key_eqb PACKAGE_NAME DEFAULT_EMPTY_TO_BYTES depth
    files tr reg uniques :
  key_equivalence key_eqb ->
  generate_signatures_uniques key_eqb PACKAGE_NAME DEFAULT_EMPTY_TO_BYTES depth files
    = (tr, Ok (reg, uniques)) ->
  Forall (fun name => contains_dot name = false) (build_descriptor_map files).*1 ->
  generate_signatures PACKAGE_NAME DEFAULT_EMPTY_TO_BYTES depth files = (tr, Ok reg) /\
  (forall sig name,
     sig_get key_eqb sig uniques = Some name <->
     names_with key_eqb sig (top_level reg) = [name]) /\
  (forall sig name, (sig, name) ∈ uniques -> dict_get name reg = Some sig).
Proof.
  intros Heq Hgen Hdots.
  pose proof (generate_signatures_uniques_registry _ _ _ _ _ _ _ _ Hgen) as Hreg.
  destruct (generate_signatures_uniques_groups _ _ _ _ _ _ _ _ Heq Hgen Hdots)
    as (s2p & -> & Hok).
  split_and!; [done| |].
  - intros sig name. by apply groups_ok_unique.
  - intros sig name Hin. apply elem_of_dict_get.
    + by eapply generate_signatures_NoDup.
    + eapply groups_ok_key in Hin; [|done].
      by apply list_elem_of_filter in Hin as [_ Hin].
Qed.

Lemma unique_protos_spec_witness :
  let uniques := [(mk_multiset [Str "string"], "R")] in
  generate_signatures "" true 10 sample_twin_files
    = (["P"; "Q"; "R"], Ok sample_twin_registry) /\
  (forall sig name,
     sig_get structural_eqb sig uniques = Some name <->
     names_with structural_eqb sig (top_level sample_twin_registry) = [name]) /\
  (forall sig name, (sig, name) ∈ uniques ->
     dict_get name sample_twin_registry = Some sig).
Proof.
  apply (unique_protos_spec structural_eqb "" true 10 sample_twin_files).
  - apply structural_eqb_equivalence.
  - vm_compute. reflexivity.
  - apply (bool_decide_unpack _). vm_compute. exact I.
Defined.

(** ** Exact matches *)

Lemma dict_get_set {V} k k' (v : V) d :
  dict_get k (dict_set k' v d) = if String.eqb k k' then Some v else dict_get k d.
Proof.
  induction d as [|[k0 v0] d IH]; simpl; [done|].
  destruct (String.eqb_spec k' k0) as [<-|Hne]; simpl.
  - by destruct (String.eqb k k').
  - rewrite IH. destruct (String.eqb_spec k k') as [->|?]; [|done].
    by destruct (String.eqb_spec k' k0).
Qed.

Lemma insert_by_name_perm {A} (x : A * string) l : insert_by_name x l ≡ₚ x :: l.
Proof.
  induction l as [|y l IH]; simpl; [done|].
  destruct (String.ltb (snd y) (snd x)); [|done].
  rewrite IH. apply Permutation_swap.
Qed.

Lemma sorted_by_name_perm {A} (l : list (A * string)) : sorted_by_name l ≡ₚ l.
Proof.
  induction l as [|x l IH]; simpl; [done|].
  by rewrite insert_by_name_perm, IH.
Qed.

Section MatchLoop.

Variable key_eqb : Signature -> Signature -> bool.
Variable obs_uniques : list (Signature * string).

(** The loop over items with distinct names: an item that has a
    counterpart sets the entry of its name, any other name keeps the entry
    it had. *)
Lemma match_fold items acc ref obs :
  NoDup items.*2 ->
  let result := fold_left (match_step key_eqb obs_uniques) items acc in
  (dict_get ref (fst result) = Some obs <->
   (exists sig, (sig, ref) ∈ items /\ sig_get key_eqb sig obs_uniques = Some obs) \/
   (dict_get ref (fst acc) = Some obs /\
    forall sig, (sig, ref) ∈ items -> sig_get key_eqb sig obs_uniques = None)) /\
  (dict_get ref (snd result) = Some obs <->
   (exists sig, (sig, ref) ∈ items /\ sig_get key_eqb sig obs_uniques = Some obs /\
                has_repeats sig = false) \/
   (dict_get ref (snd acc) = Some obs /\
    forall sig, (sig, ref) ∈ items ->
      sig_get key_eqb sig obs_uniques = None \/ has_repeats sig = true)).
Proof.
  revert acc. induction items as [|[s n] items IH]; intros acc Hnd.
  { cbn. split; (split;
      [intros H; right; split; [done|]; intros sig Hin; by apply elem_of_nil in Hin
      |intros [(sig & Hin & _)|[H _]]; [by apply elem_of_nil in Hin|done]]). }
  rewrite fmap_cons in Hnd. cbn [snd] in Hnd.
  apply NoDup_cons in Hnd as [Hn Hnd].
  assert (forall sig, (sig, n) ∉ items) as Hfresh.
  { intros sig Hin. apply Hn. apply list_elem_of_fmap. by exists (sig, n). }
  cbn [fold_left]. cbn zeta.
  destruct (IH (match_step key_eqb obs_uniques acc (s, n)) Hnd) as [IH1 IH2].
  cbn zeta in IH1, IH2. rewrite IH1, IH2. clear IH IH1 IH2.
  unfold match_step.
  destruct (sig_get key_eqb s obs_uniques) as [o|] eqn:Hs.
  - assert (fst (if has_repeats s
                 then (dict_set n o (fst acc), snd acc)
                 else (dict_set n o (fst acc), dict_set n o (snd acc)))
            = dict_set n o (fst acc)) as -> by (by destruct (has_repeats s)).
    assert (snd (if has_repeats s
                 then (dict_set n o (fst acc), snd acc)
                 else (dict_set n o (fst acc), dict_set n o (snd acc)))
            = if has_repeats s then snd acc else dict_set n o (snd acc)) as ->
      by (by destruct (has_repeats s)).
    split.
    + rewrite dict_get_set. destruct (String.eqb_spec ref n) as [->|Hne].
      * split.
        -- intros [(sig & Hin & _)|[[= ->] _]]; [by destruct (Hfresh sig)|].
           left. exists s. split; [left|done].
        -- intros [(sig & [[= ->]|Hin]%elem_of_cons & Hget)|[_ Hnone]].
           ++ right. split; [congruence|]. intros sig Hin. by destruct (Hfresh sig).
           ++ by destruct (Hfresh sig).
           ++ specialize (Hnone s). rewrite Hs in Hnone.
              discriminate Hnone. left.
      * split.
        -- intros [(sig & Hin & Hget)|[Hacc Hnone]].
           ++ left. exists sig. split; [by right|done].
           ++ right. split; [done|].
              intros sig [[= _ ?]|Hin]%elem_of_cons; [done|auto].
        -- intros [(sig & [[= _ ?]|Hin]%elem_of_cons & Hget)|[Hacc Hnone]]; [done| |].
           ++ left. by exists sig.
           ++ right. split; [done|]. intros sig Hin. apply Hnone. by right.
    + destruct (String.eqb_spec ref n) as [->|Hne].
      * destruct (has_repeats s) eqn:Hrep.
        -- split.
           ++ intros [(sig & Hin & _)|[Hacc _]]; [by destruct (Hfresh sig)|].
              right. split; [done|].
              intros sig [[= ->]|Hin]%elem_of_cons; [by right|by destruct (Hfresh sig)].
           ++ intros [(sig & [[= ->]|Hin]%elem_of_cons & Hget & Hr)|[Hacc _]].
              ** congruence.
              ** by destruct (Hfresh sig).
              ** right. split; [done|]. intros sig Hin. by destruct (Hfresh sig).
        -- rewrite dict_get_set, String.eqb_refl. split.
           ++ intros [(sig & Hin & _)|[[= ->] _]]; [by destruct (Hfresh sig)|].
              left. exists s. split; [left|done].
           ++ intros [(sig & [[= ->]|Hin]%elem_of_cons & Hget & Hr)|[_ Hnone]].
              ** right. split; [congruence|]. intros sig Hin. by destruct (Hfresh sig).
              ** by destruct (Hfresh sig).
              ** destruct (Hnone s) as [?|?]; [left|congruence|congruence].
      * assert (dict_get ref (if has_repeats s then snd acc
                              else dict_set n o (snd acc))
                = dict_get ref (snd acc)) as ->.
        { destruct (has_repeats s); [done|]. rewrite dict_get_set.
          by destruct (String.eqb_spec ref n). }
        split.
        -- intros [(sig & Hin & Hget)|[Hacc Hnone]].
           ++ left. exists sig. split; [by right|done].
           ++ right. split; [done|].
              intros sig [[= _ ?]|Hin]%elem_of_cons; [done|auto].
        -- intros [(sig & [[= _ ?]|Hin]%elem_of_cons & Hget)|[Hacc Hnone]]; [done| |].
           ++ left. by exists sig.
           ++ right. split; [done|]. intros sig Hin. apply Hnone. by right.
  - split.
    + split.
      * intros [(sig & Hin & Hget)|[Hacc Hnone]].
        -- left. exists sig. split; [by right|done].
        -- right. split; [done|].
           intros sig [[= -> ->]|Hin]%elem_of_cons; [done|auto].
      * intros [(sig & [[= -> ->]|Hin]%elem_of_cons & Hget)|[Hacc Hnone]].
        -- congruence.
        -- left. by exists sig.
        -- right. split; [done|]. intros sig Hin. apply Hnone. by right.
    + split.
      * intros [(sig & Hin & Hget)|[Hacc Hnone]].
        -- left. exists sig. split; [by right|done].
        -- right. split; [done|].
           intros sig [[= -> ->]|Hin]%elem_of_cons; [by left|auto].
      * intros [(sig & [[= -> ->]|Hin]%elem_of_cons & Hget & Hr)|[Hacc Hnone]].
        -- congruence.
        -- left. by exists sig.
        -- right. split; [done|]. intros sig Hin. apply Hnone. by right.
Qed.

End MatchLoop.

Lemma match_uniques_lookup key_eqb ref_uniques obs_uniques ref obs :
  NoDup ref_uniques.*2 ->
  (dict_get ref (fst (match_uniques key_eqb ref_uniques obs_uniques)) = Some obs <->
   exists sig, (sig, ref) ∈ ref_uniques /\
               sig_get key_eqb sig obs_uniques = Some obs) /\
  (dict_get ref (snd (match_uniques key_eqb ref_uniques obs_uniques)) = Some obs <->
   exists sig, (sig, ref) ∈ ref_uniques /\
               sig_get key_eqb sig obs_uniques = Some obs /\
               has_repeats sig = false).
Proof.
  intros Hnd. unfold match_uniques.
  assert (NoDup (sorted_by_name ref_uniques).*2) as Hnd'.
  { by rewrite sorted_by_name_perm. }
  destruct (match_fold key_eqb obs_uniques _ ([], []) ref obs Hnd') as [H1 H2].
  cbn zeta in H1, H2. rewrite H1, H2. clear H1 H2. cbn [fst snd dict_get].
  split; split.
  - intros [(sig & Hin & Hget)|[? _]]; [|done].
    exists sig. by rewrite <- (sorted_by_name_perm ref_uniques).
  - intros (sig & Hin & Hget). left. exists sig.
    by rewrite (sorted_by_name_perm ref_uniques).
  - intros [(sig & Hin & Hget)|[? _]]; [|done].
    exists sig. by rewrite <- (sorted_by_name_perm ref_uniques).
  - intros (sig & Hin & Hget). left. exists sig.
    by rewrite (sorted_by_name_perm ref_uniques).
Qed.

Lemma elem_of_sig_get_Some {V} key_eqb (d : list (Signature * V)) k v :
  (forall s, key_eqb s s = true) -> (k, v) ∈ d -> sig_get key_eqb k d <> None.
Proof.
  intros Hrefl. induction d as [|[k' v'] d IH]; simpl.
  - intros Hin. by apply elem_of_nil in Hin.
  - intros [[= <- <-]|Hin]%elem_of_cons.
    + by rewrite Hrefl.
    + destruct (key_eqb k k'); [done|auto].
Qed.

Lemma elem_of_sig_get {V} key_eqb (d : list (Signature * V)) k v :
  key_equivalence key_eqb -> keys_distinct key_eqb d -> (k, v) ∈ d ->
  sig_get key_eqb k d = Some v.
Proof.
  intros Heq. induction d as [|[k' v'] d IH]; simpl.
  - intros _ Hin. by apply elem_of_nil in Hin.
  - intros [Hk Hd] [[= <- <-]|Hin]%elem_of_cons.
    + by rewrite (key_eqb_refl key_eqb Heq).
    + destruct (key_eqb k k') eqn:E; [|auto].
      rewrite <- (sig_get_proper key_eqb Heq k k' d E) in Hk.
      by destruct (elem_of_sig_get_Some key_eqb d k v (key_eqb_refl key_eqb Heq)).
Qed.

Lemma keys_distinct_unique_protos key_eqb d :
  key_equivalence key_eqb -> keys_distinct key_eqb d ->
  keys_distinct key_eqb (unique_protos d).
Proof.
  intros Heq. induction d as [|[k names] d IH]; simpl; [done|].
  intros [Hk Hd].
  assert (sig_get key_eqb k (unique_protos d) = None) as Hnone.
  { by rewrite sig_get_unique_protos, Hk. }
  unfold unique_protos in *.
  destruct names as [|name [|? ?]]; simpl; auto.
Qed.

Lemma names_with_proper key_eqb s s' entries :
  key_equivalence key_eqb -> key_eqb s s' = true ->
  names_with key_eqb s entries = names_with key_eqb s' entries.
Proof.
  intros Heq H. unfold names_with. f_equal. apply list_filter_iff.
  intros [n t]. cbn [snd]. by rewrite (key_eqb_proper key_eqb Heq s s' t H).
Qed.

Lemma names_NoDup key_eqb (u : list (Signature * string)) (entries : Registry) :
  (forall s, key_eqb s s = true) -> keys_distinct key_eqb u ->
  (forall s n, (s, n) ∈ u -> (n, s) ∈ entries) ->
  NoDup entries.*1 -> NoDup u.*2.
Proof.
  intros Hrefl Hdist Hin Hnd. induction u as [|[s n] u IH]; [constructor|].
  destruct Hdist as [Hs Hdist]. rewrite fmap_cons. apply NoDup_cons. split.
  - intros ([s' n'] & Heq & Hin')%list_elem_of_fmap. cbn in Heq. subst n'.
    assert (s = s') as <-.
    { eapply (dict_keys_unique entries n); [done| |].
      - apply Hin. left.
      - apply Hin. by right. }
    by destruct (elem_of_sig_get_Some key_eqb u s n Hrefl).
  - apply IH; [done|]. intros s' n' Hin'. apply Hin. by right.
Qed.

(** What the two results of [generate_signatures] have in common. *)
Lemma uniques_facts key_eqb PACKAGE_NAME DEFAULT_EMPTY_TO_BYTES depth files tr
    reg uniques :
  key_equivalence key_eqb ->
  generate_signatures_uniques key_eqb PACKAGE_NAME DEFAULT_EMPTY_TO_BYTES depth files
    = (tr, Ok (reg, uniques)) ->
  Forall (fun name => contains_dot name = false) (build_descriptor_map files).*1 ->
  keys_distinct key_eqb uniques /\
  NoDup uniques.*2 /\
  (forall sig name,
     sig_get key_eqb sig uniques = Some name <->
     names_with key_eqb sig (top_level reg) = [name]) /\
  (forall sig name, (sig, name) ∈ uniques -> dict_get name reg = Some sig).
Proof.
  intros Heq Hgen Hdots.
  pose proof (generate_signatures_uniques_registry _ _ _ _ _ _ _ _ Hgen) as Hreg.
  apply generate_signatures_NoDup in Hreg.
  destruct (generate_signatures_uniques_groups _ _ _ _ _ _ _ _ Heq Hgen Hdots)
    as (s2p & -> & Hok).
  assert (forall sig name, (sig, name) ∈ unique_protos s2p -> (name, sig) ∈ reg)
    as Hin.
  { intros sig name Hin. eapply groups_ok_key in Hin; [|done].
    by apply list_elem_of_filter in Hin as [_ Hin]. }
  assert (keys_distinct key_eqb (unique_protos s2p)) as Hdist.
  { apply keys_distinct_unique_protos; [done|apply Hok]. }
  split_and!; [done| | |].
  - eapply names_NoDup; [apply Heq|done|done|done].
  - intros sig name. by apply groups_ok_unique.
  - intros sig name H. apply elem_of_dict_get; auto.
Qed.

Section ExactMatches.

Variable key_eqb : Signature -> Signature -> bool.
Hypothesis key_eqb_equiv : key_equivalence key_eqb.

Variable PACKAGE_NAME : string.
Variable DEFAULT_EMPTY_TO_BYTES : bool.
Variable depth : nat.
Variables ref_files obs_files : list FileDescriptorProto.
Variables ref_trace obs_trace : list string.
Variables ref_signatures obs_signatures : Registry.
Variables ref_uniques obs_uniques : list (Signature * string).

Hypothesis ref_generated :
  generate_signatures_uniques key_eqb PACKAGE_NAME DEFAULT_EMPTY_TO_BYTES depth ref_files
  = (ref_trace, Ok (ref_signatures, ref_uniques)).
Hypothesis obs_generated :
  generate_signatures_uniques key_eqb PACKAGE_NAME DEFAULT_EMPTY_TO_BYTES depth obs_files
  = (obs_trace, Ok (obs_signatures, obs_uniques)).
Hypothesis ref_names :
  Forall (fun name => contains_dot name = false) (build_descriptor_map ref_files).*1.
Hypothesis obs_names :
  Forall (fun name => contains_dot name = false) (build_descriptor_map obs_files).*1.

Local Abbreviation exact_of := (fst (match_uniques key_eqb ref_uniques obs_uniques)).
Local Abbreviation perfect_of := (snd (match_uniques key_eqb ref_uniques obs_uniques)).

Lemma exact_matches_char ref obs :
  dict_get ref exact_of = Some obs <->
  exists sig_r sig_o,
    only_with key_eqb ref_signatures ref sig_r /\
    only_with key_eqb obs_signatures obs sig_o /\
    key_eqb sig_r sig_o = true.
Proof.
  destruct (uniques_facts _ _ _ _ _ _ _ _ key_eqb_equiv ref_generated ref_names)
    as (Hrd & Hrn & Hrget & Hrin).
  destruct (uniques_facts _ _ _ _ _ _ _ _ key_eqb_equiv obs_generated obs_names)
    as (Hod & Hon & Hoget & Hoin).
  rewrite (proj1 (match_uniques_lookup key_eqb ref_uniques obs_uniques ref obs Hrn)).
  split.
  - intros (sig & Hin & Hget).
    destruct (sig_get_elem_of _ _ _ _ Hget) as (k & Hk & Hsk).
    exists sig, k. split_and!; [split|split|done].
    + by apply Hrin.
    + apply Hrget. by apply elem_of_sig_get.
    + by apply Hoin.
    + apply Hoget. by rewrite <- (sig_get_proper key_eqb key_eqb_equiv sig k).
  - intros (sig_r & sig_o & [_ Hr] & [_ Ho] & Hro).
    apply Hrget in Hr. apply Hoget in Ho.
    destruct (sig_get_elem_of _ _ _ _ Hr) as (k & Hk & Hsk).
    exists k. split; [done|]. rewrite <- Ho. apply sig_get_proper; [done|].
    eapply key_eqb_trans; [done| |exact Hro].
    by rewrite key_eqb_sym.
Qed.

(** X9: the two dictionaries that [main] builds from the unique
    signatures.  [exact_matches] sends a reference name to an obfuscated
    name exactly when the two registries give them equal signatures and
    neither registry has another top-level type with that signature;
    [perfect_mappables] has the same entry when, moreover, the signature
    of the reference type is not a multiset with a repeated element. *)
Theorem exact_matches_spec ref obs :
  (dict_get ref exact_of = Some obs <->
   exists sig_r sig_o,
     only_with key_eqb ref_signatures ref sig_r /\
     only_with key_eqb obs_signatures obs sig_o /\
     key_eqb sig_r sig_o = true) /\
  (dict_get ref perfect_of = Some obs <->
   dict_get ref exact_of = Some obs /\
   exists sig_r, dict_get ref ref_signatures = Some sig_r /\
                 has_repeats sig_r = false).
Proof.
  split; [apply exact_matches_char|].
  destruct (uniques_facts _ _ _ _ _ _ _ _ key_eqb_equiv ref_generated ref_names)
    as (Hrd & Hrn & Hrget & Hrin).
  destruct (match_uniques_lookup key_eqb ref_uniques obs_uniques ref obs Hrn)
    as [Hexact Hperfect].
  rewrite Hperfect, Hexact. split.
  - intros (sig & Hin & Hget & Hrep). split; [by exists sig|].
    exists sig. split; [by apply Hrin|done].
  - intros [(sig & Hin & Hget) (sig_r & Hr & Hrep)].
    exists sig. split_and!; [done|done|].
    apply Hrin in Hin. congruence.
Qed.

(** X10: [exact_matches] is one-to-one: no obfuscated name is the exact
    match of two reference names. *)
Theorem exact_matches_injective ref1 ref2 obs :
  dict_get ref1 exact_of = Some obs ->
  dict_get ref2 exact_of = Some obs ->
  ref1 = ref2.
Proof.
  intros (r1 & o1 & [_ Hr1] & [Ho1 _] & H1)%exact_matches_char
         (r2 & o2 & [_ Hr2] & [Ho2 _] & H2)%exact_matches_char.
  assert (o1 = o2) as <- by congruence.
  assert (key_eqb r1 r2 = true) as H12.
  { eapply key_eqb_trans; [done|exact H1|]. by rewrite key_eqb_sym. }
  rewrite (names_with_proper key_eqb r1 r2) in Hr1 by done.
  congruence.
Qed.

End ExactMatches.

Lemma exact_matches_spec_witness :
  let ref_uniques := [(mk_multiset [Str "string"], "R")] in
  let obs_uniques := [(mk_multiset [Str "bool"], "XA");
                      (mk_multiset [Str "string"], "XB")] in
  (dict_get "R" (fst (match_uniques structural_eqb ref_uniques obs_uniques))
     = Some "XB" <->
   exists sig_r sig_o,
     only_with structural_eqb sample_twin_registry "R" sig_r /\
     only_with structural_eqb sample_obs_registry "XB" sig_o /\
     structural_eqb sig_r sig_o = true) /\
  (dict_get "R" (snd (match_uniques structural_eqb ref_uniques obs_uniques))
     = Some "XB" <->
   dict_get "R" (fst (match_uniques structural_eqb ref_uniques obs_uniques))
     = Some "XB" /\
   exists sig_r, dict_get "R" sample_twin_registry = Some sig_r /\
                 has_repeats sig_r = false).
Proof.
  apply (exact_matches_spec structural_eqb structural_eqb_equivalence "" true 10
           sample_twin_files sample_obs_files ["P"; "Q"; "R"] ["XA"; "XB"]).
  - vm_compute. reflexivity.
  - vm_compute. reflexivity.
  - apply (bool_decide_unpack _). vm_compute. exact I.
  - apply (bool_decide_unpack _). vm_compute. exact I.
Defined.

Lemma exact_matches_injective_witness : "R" = "R".
Proof.
  eapply (exact_matches_injective structural_eqb structural_eqb_equivalence "" true 10
            sample_twin_files sample_obs_files ["P"; "Q"; "R"] ["XA"; "XB"]
            sample_twin_registry sample_obs_registry
            [(mk_multiset [Str "string"], "R")]
            [(mk_multiset [Str "bool"], "XA"); (mk_multiset [Str "string"], "XB")]).
  - vm_compute. reflexivity.
  - vm_compute. reflexivity.
  - apply (bool_decide_unpack _). vm_compute. exact I.
  - apply (bool_decide_unpack _). vm_compute. exact I.
  - vm_compute. reflexivity.
  - vm_compute. reflexivity.
Defined.

(** ** The whole session *)

Lemma list_index_Ok x l i : list_index x l = Ok i -> x ∈ l.
Proof.
  revert i. induction l as [|y l IH]; simpl; intros i; [done|].
  destruct (String.eqb_spec x y) as [->|Hne]; [left|].
  destruct (list_index x l) as [j|]; [|done]. intros _. right. by eapply IH.
Qed.

Section SessionInvariant.

Variable THRESHOLD : Q.
Variable MAX_DISPLAY_MATCHES : Z.
Variable ref_signatures : Registry.
Variable ref_proto_list : list string.
Variable obs_signatures : Registry.
Variable obs_proto_list : list string.
Variable exact_matches : dict string.

Local Abbreviation loop_while :=
  (while_loop THRESHOLD MAX_DISPLAY_MATCHES obs_signatures obs_proto_list).
Local Abbreviation loop_body :=
  (for_body THRESHOLD MAX_DISPLAY_MATCHES ref_signatures obs_signatures
     obs_proto_list exact_matches).
Local Abbreviation loop_for :=
  (for_loop THRESHOLD MAX_DISPLAY_MATCHES ref_signatures obs_signatures
     obs_proto_list exact_matches).
Local Abbreviation listed :=
  (listed_pair ref_signatures ref_proto_list obs_signatures obs_proto_list
     exact_matches).

(** The [while] loop leaves the mapping as it is or adds one pairing, of
    its reference entry with a signed entry under the cursor; the cursor
    only moves forward. *)
Lemma while_loop_pairs fuel ref_proto ref_sig st st' :
  loop_while fuel ref_proto ref_sig st = Ok st' ->
  obs_index st <= obs_index st' /\
  ref_index st' = ref_index st /\
  (seq_matches st' = seq_matches st \/
   exists obs_proto,
     seq_matches st' = dict_set ref_proto obs_proto (seq_matches st) /\
     obs_proto_list !! obs_index st' = Some obs_proto /\
     obs_index st' + 1 < length obs_proto_list /\
     dict_in obs_proto obs_signatures = true).
Proof.
  revert st. induction fuel as [|fuel IH]; intros st; simpl.
  - destruct (obs_exhausted obs_proto_list st); [|done].
    intros [= <-]. auto.
  - destruct (obs_exhausted obs_proto_list st) eqn:Hex.
    { intros [= <-]. auto. }
    apply Nat.leb_gt in Hex.
    destruct (obs_proto_list !! obs_index st) as [obs_proto|] eqn:Hobs; [|done].
    destruct (dict_get obs_proto obs_signatures) as [obs_sig|] eqn:Hsig.
    + assert (dict_in obs_proto obs_signatures = true) as Hin.
      { unfold dict_in. by rewrite Hsig. }
      destruct (compare_sigs ref_sig obs_sig) as [score|e]; simpl; [|done].
      destruct (Qeq_bool score 1).
      { intros [= <-]. simpl. split_and!; [done|done|]. right. by exists obs_proto. }
      destruct (get_matches _ _ _ _ _) as [view|e]; simpl; [|done].
      destruct (stdin st) as [|keep rest]; [done|].
      destruct (String.eqb keep "1").
      { intros [= <-]. simpl. auto. }
      destruct (String.eqb keep "2").
      * intros (Hle & Href & H)%IH. simpl in *. split_and!; [lia|done|done].
      * intros [= <-]. simpl. split_and!; [done|done|]. right. by exists obs_proto.
    + intros (Hle & Href & H)%IH. simpl in *. split_and!; [lia|done|done].
Qed.

Lemma for_loop_pairs refs st st' :
  refs ⊆ ref_proto_list ->
  (forall ref_proto obs_proto,
     (ref_proto, obs_proto) ∈ seq_matches st -> listed ref_proto obs_proto) ->
  loop_for refs st = Ok st' ->
  forall ref_proto obs_proto,
    (ref_proto, obs_proto) ∈ seq_matches st' -> listed ref_proto obs_proto.
Proof.
  revert st. induction refs as [|r refs IH]; intros st Hsub Hst; simpl.
  { by intros [= <-]. }
  assert (r ∈ ref_proto_list) as Hr by (apply Hsub; left).
  assert (refs ⊆ ref_proto_list) as Hsub'.
  { intros x Hx. apply Hsub. by right. }
  unfold for_body.
  destruct (obs_exhausted obs_proto_list (next_ref st)); simpl.
  { by intros [= <-]. }
  destruct (dict_get r ref_signatures) as [ref_sig|] eqn:Href; simpl;
    [|by apply IH].
  assert (dict_in r ref_signatures = true) as Hin.
  { unfold dict_in. by rewrite Href. }
  destruct (dict_get r exact_matches) as [exact_match|] eqn:Hexact.
  - destruct (list_index exact_match obs_proto_list) as [i|] eqn:Hi; simpl; [|done].
    apply IH; [done|]. simpl.
    intros ref_proto obs_proto [[= -> ->]|Hold]%elem_of_dict_set; [|auto].
    split_and!; [done|done| |by left]. by eapply list_index_Ok.
  - destruct (while_loop _ _ _ _ _ _ _ _) as [st1|e] eqn:Hw; simpl; [|done].
    apply IH; [done|].
    apply while_loop_pairs in Hw as (_ & _ & [->|(obs & -> & Hobs & Hlt & Hsig)]);
      [done|]. simpl.
    intros ref_proto obs_proto [[= -> ->]|Hold]%elem_of_dict_set; [|auto].
    split_and!; [done|done| |].
    + by eapply list_elem_of_lookup_2.
    + right. split_and!; [done|done|]. by eexists.
Qed.


(** The errors of the [while] loop: the cursor is inside the list whenever
    it is used, so [IndexError] is not among them. *)
Lemma while_loop_exn fuel ref_proto ref_sig st e :
  length obs_proto_list <= obs_index st + fuel + 1 ->
  loop_while fuel ref_proto ref_sig st = Raise e -> session_exn e.
Proof.
  revert st. induction fuel as [|fuel IH]; intros st Hlen; simpl.
  - destruct (obs_exhausted obs_proto_list st) eqn:Hex; [done|].
    apply Nat.leb_gt in Hex. lia.
  - destruct (obs_exhausted obs_proto_list st) eqn:Hex; [done|].
    apply Nat.leb_gt in Hex.
    destruct (obs_proto_list !! obs_index st) as [obs_proto|] eqn:Hobs.
    2:{ apply lookup_ge_None in Hobs. lia. }
    destruct (dict_get obs_proto obs_signatures) as [obs_sig|].
    + destruct (compare_sigs ref_sig obs_sig) as [score|e0] eqn:Hc; simpl.
      * destruct (Qeq_bool score 1); [done|].
        destruct (get_matches _ _ _ _ _) as [view|e1] eqn:Hg; simpl.
        -- destruct (stdin st) as [|keep rest].
           { intros [= <-]. by left. }
           destruct (String.eqb keep "1"); [done|].
           destruct (String.eqb keep "2"); [|done].
           apply IH. simpl. lia.
        -- intros [= <-]. apply get_matches_exn in Hg. right. exact Hg.
      * intros [= <-]. apply compare_sigs_exn in Hc. right. exact Hc.
    + apply IH. simpl. lia.
Qed.

Lemma for_loop_exn refs st e : loop_for refs st = Raise e -> session_exn e.
Proof.
  revert st. induction refs as [|r refs IH]; intros st; simpl; [done|].
  unfold for_body.
  destruct (obs_exhausted obs_proto_list (next_ref st)); simpl; [done|].
  destruct (dict_get r ref_signatures) as [ref_sig|]; simpl; [|apply IH].
  destruct (dict_get r exact_matches) as [exact_match|].
  - destruct (list_index exact_match obs_proto_list) eqn:Hi; simpl; [apply IH|].
    intros [= <-]. apply list_index_exn in Hi. subst. unfold session_exn. auto.
  - destruct (while_loop _ _ _ _ _ _ _ _) as [st'|e0] eqn:Hw; simpl; [apply IH|].
    intros [= <-]. revert Hw. apply while_loop_exn. lia.
Qed.


(** X13: with fewer than two entries in [obs_proto_list] the session ends
    at once with an empty mapping, whatever the reference entries and the
    exact matches are. *)
Theorem session_short_list answers :
  length obs_proto_list <= 1 ->
  start_sequential_matching THRESHOLD MAX_DISPLAY_MATCHES ref_signatures
    ref_proto_list obs_signatures obs_proto_list exact_matches answers = Ok [].
Proof.
  intros Hlen. unfold start_sequential_matching.
  destruct ref_proto_list as [|r refs]; [done|].
  cbn [for_loop]. unfold for_body, obs_exhausted. cbn [next_ref obs_index initial_session].
  destruct (Nat.leb_spec (length obs_proto_list) (0 + 1)); [done|lia].
Qed.

End SessionInvariant.



Lemma session_short_list_witness :
  start_sequential_matching (1 # 2) 5 sample_refs ["A"; "B"] sample_obs ["X"]
    [("A", "X")] ["2"] = Ok [].
Proof.
  apply (session_short_list (1 # 2) 5 sample_refs ["A"; "B"] sample_obs ["X"]
           [("A", "X")] ["2"]).
  simpl. lia.
Defined.

(** ** When the match selector fails *)

Lemma compare_sigs_non_container s1 s2 :
  is_container s1 = false \/ is_container s2 = false ->
  compare_sigs s1 s2 = Raise TypeError.
Proof.
  unfold compare_sigs. intros [H|H].
  - destruct s1; try done; simpl; destruct s2; done.
  - destruct s2; try done; destruct s1; done.
Qed.

Lemma compare_sigs_containers s1 s2 :
  is_container s1 = true -> truthy s1 = true -> is_container s2 = true ->
  exists score, compare_sigs s1 s2 = Ok score.
Proof.
  intros Hc Ht Hc2.
  destruct (truthy_py_len s1 Hc Ht) as (a & Ha & Hpos).
  destruct (container_py_len s2 Hc2) as [b Hb].
  destruct (container_py_and_len s1 s2 Hc Hc2) as [i Hi].
  eexists. by apply (compare_sigs_Ok s1 s2 a b i).
Qed.

Lemma res_mapM_raise {A B} (f : A -> Res B) l x e :
  x ∈ l -> f x = Raise e ->
  (forall y e', y ∈ l -> f y = Raise e' -> e' = e) ->
  res_mapM f l = Raise e.
Proof.
  intros Hin Hx Hall. induction l as [|y l IH]; [by apply elem_of_nil in Hin|].
  simpl. destruct (f y) as [b|e'] eqn:Hy; simpl.
  - apply elem_of_cons in Hin as [->|Hin]; [congruence|].
    rewrite IH; [done|done|]. intros z e'' Hz. apply Hall. by right.
  - f_equal. apply (Hall y); [left|done].
Qed.

Section MatchFailures.

Variable THRESHOLD : Q.
Variable MAX_DISPLAY_MATCHES : Z.
Variable match_sig : Signature.
Variable proto_list : list string.

Hypothesis target_container : is_container match_sig = true.
Hypothesis target_truthy : truthy match_sig = true.

(** The scoring loop fails at the first top-level candidate that is not
    a container. *)
Lemma score_candidates_TypeError items acc name sig :
  (name, sig) ∈ items -> contains_dot name = false -> is_container sig = false ->
  score_candidates THRESHOLD match_sig items acc = Raise TypeError.
Proof.
  intros Hin Hdot Hsig. revert acc.
  induction items as [|[n s] items IH]; intros acc; [by apply elem_of_nil in Hin|].
  simpl. destruct (contains_dot n) eqn:Hn.
  - apply elem_of_cons in Hin as [[= <- <-]|Hin]; [congruence|]. by apply IH.
  - destruct (is_container s) eqn:Hs.
    + apply elem_of_cons in Hin as [[= <- <-]|Hin]; [congruence|].
      destruct (compare_sigs_containers match_sig s) as [score ->]; try done.
      simpl. destruct (Qlt_bool score THRESHOLD); by apply IH.
    + rewrite compare_sigs_non_container; [done|by right].
Qed.

Lemma get_matches_TypeError registry name sig :
  (name, sig) ∈ registry -> contains_dot name = false -> is_container sig = false ->
  get_matches THRESHOLD MAX_DISPLAY_MATCHES match_sig registry proto_list
  = Raise TypeError.
Proof.
  intros Hin Hdot Hsig. unfold get_matches.
  by rewrite (score_candidates_TypeError registry [] name sig).
Qed.

End MatchFailures.

(** ** Enums at top level *)

Section TopLevelEnums.

Variable PACKAGE_NAME : string.
Variable DEFAULT_EMPTY_TO_BYTES : bool.
Variable depth : nat.

Lemma top_level_loop_enums dm (l : dict Proto) reg tr reg' :
  gen_for l (fun '(name, proto) =>
    (sig <- get_signature PACKAGE_NAME DEFAULT_EMPTY_TO_BYTES dm depth name (Some proto) ;;
     gen_set name sig)%gen) reg = (tr, Ok (tt, reg')) ->
  Forall (fun name => contains_dot name = false) l.*1 ->
  NoDup ((top_level reg).*1 ++ l.*1) ->
  top_level reg ⊆ top_level reg' /\
  forall name enum, (name, Enum enum) ∈ l ->
                    (name, get_enum_sig enum) ∈ top_level reg'.
Proof.
  revert reg tr. induction l as [|[name proto] l IH]; intros reg tr.
  - intros [= _ <-] _ _. split; [done|]. intros ? ? Hin. by apply elem_of_nil in Hin.
  - cbn [gen_for]. unfold gen_bind at 1.
    destruct (gen_bind _ _ reg) as [tr0 [[[] reg0]|e]] eqn:Hbody; [|done].
    destruct (gen_for l _ reg0) as [tr1 r1] eqn:Hrest. intros [= _ ->].
    rewrite fmap_cons. cbn [fst]. intros [Hname Hl]%Forall_cons Hnd.
    unfold gen_bind in Hbody.
    destruct (get_signature _ _ _ _ _ _ reg) as [tr2 [[sig reg1]|e]] eqn:Hsig; [|done].
    injection Hbody as _ <-.
    apply get_signature_top_level in Hsig as Htop.
    assert (name ∉ (top_level reg).*1) as Hfresh0.
    { intros Hin. apply NoDup_app in Hnd as (_ & Hdisj & _).
      apply (Hdisj name); [done|left]. }
    assert (name ∉ reg1.*1) as Hfresh.
    { intros Hin. apply Hfresh0. rewrite <- Htop. by apply top_level_keys_elem_of. }
    assert (top_level (dict_set name sig reg1) = (top_level reg ++ [(name, sig)])%list)
      as Hset.
    { by rewrite top_level_dict_set_fresh, Htop. }
    apply IH in Hrest as [Hsub Henum]; [|done|].
    2:{ rewrite Hset, fmap_app. by rewrite <- app_assoc. }
    rewrite Hset in Hsub. split.
    + intros x Hx. apply Hsub. apply elem_of_app. by left.
    + intros n enum [[= -> <-]|Hin]%elem_of_cons; [|by apply Henum].
      apply Hsub. apply elem_of_app. right. apply list_elem_of_singleton. f_equal.
      assert (dict_get name reg = None) as Hmiss.
      { apply dict_get_None. intros Hin. apply Hfresh0.
        by apply top_level_keys_elem_of. }
      destruct depth as [|depth']; [done|].
      simpl in Hsig. rewrite Hmiss in Hsig. by injection Hsig as _ <- _.
Qed.

End TopLevelEnums.

(** X15: an enum declared at top level has, in the registry that
    [generate_signatures] returns, the signature of [get_enum_sig]: the
    set of its numbers, or [None] when it allows aliases.  (A nested enum
    is registered only when that signature is truthy; a top-level one
    always.) *)
Theorem top_level_enum_signature PACKAGE_NAME DEFAULT_EMPTY_TO_BYTES depth files tr
    reg name enum :
  generate_signatures PACKAGE_NAME DEFAULT_EMPTY_TO_BYTES depth files = (tr, Ok reg) ->
  Forall (fun name => contains_dot name = false) (build_descriptor_map files).*1 ->
  (name, Enum enum) ∈ build_descriptor_map files ->
  dict_get name reg = Some (get_enum_sig enum) /\
  (e_allow_alias enum = true -> dict_get name reg = Some NoneSig) /\
  (e_allow_alias enum = false -> dict_get name reg = Some (mk_frozenset (e_value enum))).
Proof.
  intros Hgen Hdots Hin.
  assert (dict_get name reg = Some (get_enum_sig enum)) as Hget.
  { apply elem_of_dict_get; [by eapply generate_signatures_NoDup|].
    unfold generate_signatures in Hgen.
    destruct (gen_for _ _ []) as [tr0 [[[] reg0]|e]] eqn:Hrun; [|done].
    injection Hgen as _ <-.
    apply top_level_loop_enums in Hrun as [_ Henum];
      [|done|apply build_descriptor_map_NoDup].
    apply Henum in Hin. by apply list_elem_of_filter in Hin as [_ Hin]. }
  split; [done|]. unfold get_enum_sig in Hget.
  split; intros Halias; by rewrite Halias in Hget.
Qed.

Lemma top_level_enum_signature_witness :
  dict_get "CmdId" sample_alias_registry = Some (get_enum_sig alias_enum) /\
  (e_allow_alias alias_enum = true ->
   dict_get "CmdId" sample_alias_registry = Some NoneSig) /\
  (e_allow_alias alias_enum = false ->
   dict_get "CmdId" sample_alias_registry = Some (mk_frozenset (e_value alias_enum))).
Proof.
  apply (top_level_enum_signature "" true 10 sample_alias_files ["R"; "CmdId"]).
  - vm_compute. reflexivity.
  - apply (bool_decide_unpack _). vm_compute. exact I.
  - vm_compute. right. left.
Defined.

(** X16: a top-level enum that allows aliases makes the generated
    registry unusable for matching: [get_matches], for any non-empty
    container as target, fails with [TypeError], whatever the threshold,
    the limit and the list of names. *)
Theorem alias_enum_breaks_matching PACKAGE_NAME DEFAULT_EMPTY_TO_BYTES depth files tr
    reg name enum THRESHOLD MAX_DISPLAY_MATCHES match_sig proto_list :
  generate_signatures PACKAGE_NAME DEFAULT_EMPTY_TO_BYTES depth files = (tr, Ok reg) ->
  Forall (fun name => contains_dot name = false) (build_descriptor_map files).*1 ->
  (name, Enum enum) ∈ build_descriptor_map files ->
  e_allow_alias enum = true ->
  is_container match_sig = true -> truthy match_sig = true ->
  get_matches THRESHOLD MAX_DISPLAY_MATCHES match_sig reg proto_list = Raise TypeError.
Proof.
  intros Hgen Hdots Hin Halias Hc Ht.
  apply (get_matches_TypeError _ _ _ _ Hc Ht reg name NoneSig); [| |done].
  - unfold generate_signatures in Hgen.
    destruct (gen_for _ _ []) as [tr0 [[[] reg0]|e]] eqn:Hrun; [|done].
    injection Hgen as _ <-.
    apply top_level_loop_enums in Hrun as [_ Henum];
      [|done|apply build_descriptor_map_NoDup].
    apply Henum in Hin. unfold get_enum_sig in Hin. rewrite Halias in Hin.
    by apply list_elem_of_filter in Hin as [_ Hin].
  - apply (proj1 (Forall_forall _ _) Hdots). apply list_elem_of_fmap.
    by exists (name, Enum enum).
Qed.

Lemma alias_enum_breaks_matching_witness :
  get_matches (1 # 2) 5 sample_sig_a sample_alias_registry ["R"; "CmdId"]
  = Raise TypeError.
Proof.
  apply (alias_enum_breaks_matching "" true 10 sample_alias_files ["R"; "CmdId"]
           sample_alias_registry "CmdId" alias_enum).
  - vm_compute. reflexivity.
  - apply (bool_decide_unpack _). vm_compute. exact I.
  - vm_compute. right. left.
  - reflexivity.
  - reflexivity.
  - reflexivity.
Defined.

(** ** Names of types *)

Lemma string_length_app s1 s2 :
  String.length (s1 ++ s2) = String.length s1 + String.length s2.
Proof. induction s1 as [|c s1 IH]; simpl; [done|by rewrite IH]. Qed.

Lemma prefix_app p s : String.prefix p (p ++ s) = true.
Proof.
  induction p as [|c p IH]; simpl; [by destruct s|].
  destruct (ascii_dec c c); [done|congruence].
Qed.

Lemma substring_skip p n s :
  substring (String.length p) n (p ++ s) = substring 0 n s.
Proof. induction p as [|c p IH]; simpl; [done|exact IH]. Qed.

Lemma substring_all s : substring 0 (String.length s) s = s.
Proof. induction s as [|c s IH]; simpl; [done|by rewrite IH]. Qed.

Lemma substring_take s t : substring 0 (String.length s) (s ++ t) = s.
Proof.
  induction s as [|c s IH]; simpl; [by destruct t|by rewrite IH].
Qed.

Lemma removeprefix_app p s : removeprefix p (p ++ s) = s.
Proof.
  unfold removeprefix. rewrite prefix_app, string_length_app.
  replace (String.length p + String.length s - String.length p)
    with (String.length s) by lia.
  by rewrite substring_skip, substring_all.
Qed.

Lemma removesuffix_app p s : removesuffix p (s ++ p) = s.
Proof.
  unfold removesuffix. rewrite string_length_app.
  replace (String.length s + String.length p - String.length p)
    with (String.length s) by lia.
  rewrite substring_skip, substring_all, String.eqb_refl, substring_take.
  destruct (Nat.leb_spec (String.length p) (String.length s + String.length p));
    [done|lia].
Qed.

Lemma substring_dot n m s t :
  substring n m s = String "." t -> contains_dot s = true.
Proof.
  revert n m. induction s as [|c s IH]; intros n m; simpl.
  - by destruct n, m.
  - destruct n as [|n].
    + destruct m as [|m]; [done|]. intros [= -> _]. done.
    + intros H. destruct (Ascii.eqb c "."); [done|]. by eapply IH.
Qed.

Lemma removesuffix_no_dot name :
  contains_dot name = false -> removesuffix ".proto" name = name.
Proof.
  intros Hdot. unfold removesuffix.
  destruct (String.length ".proto" <=? String.length name)%nat; [|done]. simpl.
  destruct (String.eqb_spec
              (substring (String.length name - 6) 6 name) ".proto") as [Heq|]; [|done].
  apply substring_dot in Heq. congruence.
Qed.

(** X17: [strip_proto_name] on a fully qualified type name.  The leading
    dot and the package prefix are removed, so a reference to a type
    without dots in its name gives that name; but a final [".proto"] is
    removed as well, so that a reference to a nested type called [proto]
    gives the name of the enclosing type. *)
Theorem strip_proto_name_qualified PACKAGE_NAME name :
  strip_proto_name PACKAGE_NAME ("." ++ PACKAGE_NAME ++ name)
    = removesuffix ".proto" name /\
  (contains_dot name = false ->
   strip_proto_name PACKAGE_NAME ("." ++ PACKAGE_NAME ++ name) = name) /\
  strip_proto_name PACKAGE_NAME ("." ++ PACKAGE_NAME ++ name ++ ".proto") = name.
Proof.
  unfold strip_proto_name.
  rewrite !(removeprefix_app "."), !removeprefix_app.
  split_and!; [done| |apply removesuffix_app].
  apply removesuffix_no_dot.
Qed.

(** ** Ranges of enum numbers *)

Lemma head_app_cons {A} (x : A) l y : head ((x :: l) ++ [y]) = Some x.
Proof. done. Qed.

Lemma groupby_runs (l : list Z) n k (group : list (Z * Z)) first first_i final :
  head group = Some (first_i, first) ->
  last group = Some ((n - 1)%Z, final) ->
  k = (final - (n - 1))%Z ->
  res_mapM (fun '(_, group) => range_of group)
    (groupby_from (fun t => (snd t - fst t)%Z) k group (enumerate_from n l))
  = Ok (runs_from first final l).
Proof.
  revert n k group first first_i final.
  induction l as [|x l IH]; intros n k group first first_i final Hhead Hlast ->; simpl.
  - unfold range_of. by rewrite Hhead, Hlast.
  - destruct (Z.eqb_spec (x - n) (final - (n - 1))) as [Heq|Hne].
    + destruct (Z.eqb_spec x (final + 1)) as [->|?]; [|lia].
      eapply IH.
      * destruct group; [done|]. simpl in *. exact Hhead.
      * rewrite last_snoc. f_equal. f_equal. lia.
      * lia.
    + destruct (Z.eqb_spec x (final + 1)) as [->|?]; [lia|].
      simpl. unfold range_of at 1. rewrite Hhead, Hlast. simpl.
      rewrite (IH (n + 1)%Z (x - n)%Z [(n, x)] x n x); [done|done| |simpl; lia].
      simpl. f_equal. f_equal. lia.
Qed.

Lemma runs_from_spec l first final :
  (first <= final)%Z -> Sorted Z.lt (final :: l) ->
  (forall x, ((first <= x <= final)%Z \/ x ∈ l) <->
             exists r, r ∈ runs_from first final l /\ (fst r <= x <= snd r)%Z) /\
  Forall (fun r => (fst r <= snd r)%Z) (runs_from first final l) /\
  Sorted apart (runs_from first final l) /\
  (exists r rs, runs_from first final l = r :: rs /\ fst r = first).
Proof.
  revert first final. induction l as [|y l IH]; intros first final Hle Hsorted; simpl.
  - split_and!.
    + intros x. split.
      * intros [H|H]; [|by apply elem_of_nil in H]. exists (first, final).
        split; [left|done].
      * intros (r & ->%list_elem_of_singleton & H). by left.
    + by repeat constructor.
    + repeat constructor.
    + by eexists _, _.
  - apply Sorted_inv in Hsorted as [Hsorted Hhd]. apply HdRel_inv in Hhd.
    destruct (Z.eqb_spec y (final + 1)) as [->|Hgap].
    + destruct (IH first (final + 1)%Z ltac:(lia) Hsorted) as (Hmem & Hall & Hapart & Hfirst).
      split_and!; [|done|done|done].
      intros x. rewrite <- Hmem. rewrite elem_of_cons. split.
      * intros [H|[->|H]]; [left; lia|left; lia|by right].
      * intros [H|H]; [|by right; right].
        destruct (decide (x = final + 1)%Z) as [->|?]; [right; by left|left; lia].
    + destruct (IH y y ltac:(lia) Hsorted) as (Hmem & Hall & Hapart & r & rs & Hrs & Hr).
      split_and!.
      * intros x. rewrite elem_of_cons. split.
        -- intros [H|[->|H]].
           ++ exists (first, final). split; [left|done].
           ++ destruct (proj1 (Hmem y)) as (r' & Hin & Hr'); [left; lia|].
              exists r'. split; [by right|done].
           ++ destruct (proj1 (Hmem x)) as (r' & Hin & Hr'); [by right|].
              exists r'. split; [by right|done].
        -- intros (r' & [->|Hin]%elem_of_cons & Hr'); [by left|].
           destruct (proj2 (Hmem x)) as [H|H]; [by exists r'| |by right; right].
           right. left. lia.
      * constructor; [done|exact Hall].
      * constructor; [done|]. rewrite Hrs. constructor. unfold apart. simpl.
        rewrite Hr. lia.
      * by eexists _, _.
Qed.

Lemma Sorted_le_lt (l : list Z) : Sorted Z.le l -> NoDup l -> Sorted Z.lt l.
Proof.
  induction 1 as [|x l Hs IH Hhd]; intros Hnd; [constructor|].
  apply NoDup_cons in Hnd as [Hx Hnd]. constructor; [auto|].
  destruct Hhd as [|y l Hxy]; constructor.
  assert (x <> y) by (intros ->; apply Hx; left). lia.
Qed.

(** X18: [ints2ranges] always returns, and the ranges it returns are the
    maximal runs of consecutive numbers of its argument: a number lies in
    one of the ranges exactly when it is in the argument, no range is
    empty, and the ranges come in ascending order with at least one number
    left out between any two in a row. *)
Theorem ints2ranges_spec (iterable : list Z) :
  exists ranges,
    ints2ranges iterable = Ok ranges /\
    (forall x, x ∈ iterable <->
               exists r, r ∈ ranges /\ (fst r <= x <= snd r)%Z) /\
    Forall (fun r => (fst r <= snd r)%Z) ranges /\
    Sorted apart ranges.
Proof.
  unfold ints2ranges.
  set (l := merge_sort Z.le (remove_dups iterable)).
  assert (forall x, x ∈ iterable <-> x ∈ l) as Hmem.
  { intros x. unfold l. by rewrite merge_sort_Permutation, elem_of_remove_dups. }
  assert (Sorted Z.lt l) as Hsorted.
  { apply Sorted_le_lt.
    - apply Sorted_merge_sort. apply _.
    - unfold l. rewrite merge_sort_Permutation. apply NoDup_remove_dups. }
  destruct l as [|x0 l'].
  - exists []. split_and!; [done| |constructor|constructor].
    intros x. rewrite Hmem. split.
    + intros H. by apply elem_of_nil in H.
    + intros (r & H & _). by apply elem_of_nil in H.
  - exists (runs_from x0 x0 l'). split.
    { simpl. apply (groupby_runs l' (0 + 1)%Z _ [(0%Z, x0)] x0 0%Z x0); [done|done|].
      simpl. lia. }
    destruct (runs_from_spec l' x0 x0 ltac:(lia) Hsorted)
      as (Hruns & Hall & Hapart & _).
    split_and!; [|done|done].
    intros x. rewrite Hmem, <- Hruns, elem_of_cons. split.
    + intros [->|H]; [left; lia|by right].
    + intros [H|H]; [left; lia|by right].
Qed.

(** ** Names that a returning call has resolved *)

Lemma gen_bind_Ok {A B} (c : Gen A) (k : A -> Gen B) reg tr b reg' :
  gen_bind c k reg = (tr, Ok (b, reg')) ->
  exists tr0 a reg0 tr1,
    c reg = (tr0, Ok (a, reg0)) /\ k a reg0 = (tr1, Ok (b, reg')).
Proof.
  unfold gen_bind. destruct (c reg) as [tr0 [[a reg0]|e]]; [|done].
  destruct (k a reg0) as [tr1 r1] eqn:Hk. intros [= _ ->]. by eexists _, _, _, _.
Qed.

Lemma gen_for_keys {A} (l : list A) (body : A -> Gen unit)
    (R : A -> Registry -> Prop) reg tr reg' :
  (forall x r r', R x r -> r.*1 ⊆ r'.*1 -> R x r') ->
  (forall x r tr r', x ∈ l -> body x r = (tr, Ok (tt, r')) -> r.*1 ⊆ r'.*1 /\ R x r') ->
  gen_for l body reg = (tr, Ok (tt, reg')) ->
  reg.*1 ⊆ reg'.*1 /\ forall x, x ∈ l -> R x reg'.
Proof.
  intros Hup. revert reg tr. induction l as [|x l IH]; intros reg tr Hbody; simpl.
  - intros [= _ <-]. split; [done|]. intros x Hx. by apply elem_of_nil in Hx.
  - intros (tr0 & [] & reg0 & tr1 & Hx & Hrest)%gen_bind_Ok.
    apply Hbody in Hx as [Hsub0 HR]; [|left].
    apply IH in Hrest as [Hsub Hall].
    2:{ intros y r tr' r' Hy. apply Hbody. by right. }
    split; [by etrans|].
    intros y [->|Hy]%elem_of_cons; [by eapply Hup|by apply Hall].
Qed.

Lemma gen_fold_keys {A B} (l : list A) (body : B -> A -> Gen B)
    (R : A -> Registry -> Prop) acc reg tr acc' reg' :
  (forall x r r', R x r -> r.*1 ⊆ r'.*1 -> R x r') ->
  (forall acc x r tr acc' r', body acc x r = (tr, Ok (acc', r')) ->
     r.*1 ⊆ r'.*1 /\ R x r') ->
  gen_fold body acc l reg = (tr, Ok (acc', reg')) ->
  reg.*1 ⊆ reg'.*1 /\ forall x, x ∈ l -> R x reg'.
Proof.
  intros Hup Hbody. revert acc reg tr. induction l as [|x l IH]; intros acc reg tr; simpl.
  - intros [= _ <- <-]. split; [done|]. intros x Hx. by apply elem_of_nil in Hx.
  - intros (tr0 & acc0 & reg0 & tr1 & Hx & Hrest)%gen_bind_Ok.
    apply Hbody in Hx as [Hsub0 HR].
    apply IH in Hrest as [Hsub Hall].
    split; [by etrans|].
    intros y [->|Hy]%elem_of_cons; [by eapply Hup|by apply Hall].
Qed.

Section Resolution.

Variable PACKAGE_NAME : string.
Variable DEFAULT_EMPTY_TO_BYTES : bool.
Variable descriptor_map : dict Proto.

Local Abbreviation sign :=
  (get_signature PACKAGE_NAME DEFAULT_EMPTY_TO_BYTES descriptor_map).
Local Abbreviation resolved := (type_resolved PACKAGE_NAME descriptor_map).

Lemma type_resolved_mono field r r' :
  resolved field r -> r.*1 ⊆ r'.*1 -> resolved field r'.
Proof.
  intros H Hsub type_name Htn. destruct (H type_name Htn) as [Hin|Hdm]; auto.
Qed.

(** A call without a descriptor returns only for a name that is
    registered or declared. *)
Lemma get_signature_known depth name reg tr sig reg' :
  sign depth name None reg = (tr, Ok (sig, reg')) ->
  name ∈ reg.*1 \/ dict_in name descriptor_map = true.
Proof.
  destruct depth as [|depth]; [done|]. simpl.
  destruct (dict_get name reg) as [sig0|] eqn:Hhit.
  { intros _. left. apply dict_get_elem_of in Hhit.
    apply list_elem_of_fmap. by exists (name, sig0). }
  unfold signature_body.
  intros (tr0 & [] & reg0 & tr1 & _ & Hrest)%gen_bind_Ok.
  apply gen_bind_Ok in Hrest as (tr2 & proto & reg1 & tr3 & Hproto & _).
  right. unfold dict_in. by destruct (dict_get name descriptor_map).
Qed.

Lemma field_step_resolved depth acc field r tr acc' r' :
  field_step PACKAGE_NAME DEFAULT_EMPTY_TO_BYTES (sign depth) acc field r
    = (tr, Ok (acc', r')) ->
  r.*1 ⊆ r'.*1 /\ resolved field r'.
Proof.
  unfold field_step.
  intros (tr0 & info & r0 & tr1 & Hinfo & Hrest)%gen_bind_Ok.
  assert (r0 = r') as ->.
  { destruct (f_oneof_index field).
    - apply gen_bind_Ok in Hrest as (? & ? & ? & ? & Hlift & Hret).
      unfold gen_lift in Hlift. destruct (oneofs_append _ _ _); [|done].
      injection Hlift as _ _ <-. by injection Hret as _ _ <-.
    - by injection Hrest as _ _ <-. }
  clear Hrest. unfold field_info in Hinfo.
  apply gen_bind_Ok in Hinfo as (tr2 & tys & r2 & tr3 & Htys & Hret).
  injection Hret as _ _ <-.
  unfold type_resolved.
  destruct (f_type_name field) as [type_name|].
  - apply gen_bind_Ok in Htys as (tr4 & type_sig & r3 & tr5 & Hfirst & Hsecond).
    apply get_signature_known in Hfirst as Hknown.
    apply get_signature_keys in Hfirst as [Hsub1 _].
    assert (r3.*1 ⊆ r2.*1) as Hsub2.
    { destruct (DEFAULT_EMPTY_TO_BYTES && negb (truthy type_sig)).
      - by injection Hsecond as _ _ <-.
      - apply gen_bind_Ok in Hsecond as (? & ? & r4 & ? & Hcall & Hret).
        injection Hret as _ _ <-. by apply get_signature_keys in Hcall as [? _]. }
    split; [by etrans|].
    intros tn [= <-]. destruct Hknown as [Hin|Hdm]; [|by right].
    left. apply Hsub2, Hsub1, Hin.
  - injection Htys as _ _ <-. split; [done|]. by intros tn.
Qed.

(** X19: what a call of [get_signature] on a message has made sure of
    when it returns (after a miss of the memo): each nested message type
    is registered under [name.child], each nested enum with a truthy
    signature likewise, and the type named by each field is registered or
    declared at top level.  So a field whose type is a nested enum with
    [allow_alias] (or without values), registered nowhere, keeps the call
    from returning. *)
Theorem get_signature_resolves depth name proto reg tr sig reg' :
  sign depth name (Some (Message proto)) reg = (tr, Ok (sig, reg')) ->
  dict_get name reg = None ->
  (forall nested, nested ∈ m_nested_type proto ->
     (name ++ "." ++ m_name nested) ∈ reg'.*1) /\
  (forall enum, enum ∈ m_enum_type proto -> truthy (get_enum_sig enum) = true ->
     (name ++ "." ++ e_name enum) ∈ reg'.*1) /\
  (forall field, field ∈ m_field proto -> resolved field reg').
Proof.
  destruct depth as [|depth]; [done|]. simpl. intros Hrun Hmiss.
  rewrite Hmiss in Hrun. unfold signature_body in Hrun.
  apply gen_bind_Ok in Hrun as (tr0 & [] & reg0 & tr1 & Hlog & Hrun).
  injection Hlog as _ <-.
  apply gen_bind_Ok in Hrun as (tr2 & p & reg1 & tr3 & Hret & Hrun).
  injection Hret as _ <- <-. unfold message_signature in Hrun.
  apply gen_bind_Ok in Hrun as (tr4 & [] & reg2 & tr5 & Hnested & Hfields).
  unfold register_nested in Hnested.
  apply gen_bind_Ok in Hnested as (tr6 & [] & reg3 & tr7 & Hmsgs & Henums).
  unfold fields_signature in Hfields.
  apply gen_bind_Ok in Hfields as (tr8 & acc & reg4 & tr9 & Hfold & Hret).
  assert (reg4 = reg') as ->.
  { destruct (m_map_entry proto).
    - destruct (with_oneofs acc) as [|? [|? [|? ?]]]; try done.
      by injection Hret as _ _ <-.
    - by injection Hret as _ _ <-. }
  clear Hret.
  apply (gen_for_keys _ _
           (fun nested r => (name ++ "." ++ m_name nested) ∈ r.*1)) in Hmsgs
    as [Hsub1 Hmsgs]; [|by auto|].
  2:{ intros nested r tr' r' _ (? & nsig & r0 & ? & Hcall & Hset)%gen_bind_Ok.
      injection Hset as _ <-. apply get_signature_keys in Hcall as [Hsub _].
      split; [by etrans; [|apply dict_set_keys_subseteq]|apply dict_set_key_in]. }
  apply (gen_for_keys _ _
           (fun enum r => truthy (get_enum_sig enum) = true ->
                          (name ++ "." ++ e_name enum) ∈ r.*1)) in Henums
    as [Hsub2 Henums]; [|by auto|].
  2:{ intros enum r tr' r' _ Hset.
      destruct (truthy (get_enum_sig enum)).
      - injection Hset as _ <-.
        split; [apply dict_set_keys_subseteq|intros _; apply dict_set_key_in].
      - by injection Hset as _ <-. }
  apply (gen_fold_keys _ _ resolved) in Hfold as [Hsub3 Hfields];
    [|apply type_resolved_mono|intros ? ? ? ? ? ?; apply field_step_resolved].
  split_and!.
  - intros nested Hin. by apply Hsub3, Hsub2, Hmsgs.
  - intros enum Hin Ht. by apply Hsub3, Henums.
  - done.
Qed.

End Resolution.

Lemma get_signature_resolves_witness :
  let reg' := [("Shape.TagsEntry",
                MapEntry (Str "string")
                  (FieldTuple "enum" (mk_frozenset [0; 1; 2]%Z)))] in
  let dm := [("Shape", Message sample_shape); ("Colour", Enum sample_colour)] in
  (forall nested, nested ∈ m_nested_type sample_shape ->
     ("Shape" ++ "." ++ m_name nested) ∈ reg'.*1) /\
  (forall enum, enum ∈ m_enum_type sample_shape -> truthy (get_enum_sig enum) = true ->
     ("Shape" ++ "." ++ e_name enum) ∈ reg'.*1) /\
  (forall field, field ∈ m_field sample_shape -> type_resolved "" dm field reg').
Proof.
  eapply (get_signature_resolves "" true
            [("Shape", Message sample_shape); ("Colour", Enum sample_colour)]
            10 "Shape" sample_shape []).
  - vm_compute. reflexivity.
  - reflexivity.
Defined.

(** A field of the type of a nested enum that allows aliases: the enum is
    not registered, and the call ends with [KeyError]. *)
Example nested_alias_enum_field :
  get_signature "" true [("Packet", Message sample_alias_holder)] 10 "Packet" None []
  = (["Packet"; "Packet.CmdId"], Raise KeyError).
Proof. vm_compute. reflexivity. Qed.

(** ** A session of exact matches *)

Section AllExact.

Variable THRESHOLD : Q.
Variable MAX_DISPLAY_MATCHES : Z.
Variable ref_signatures : Registry.
Variable ref_proto_list : list string.
Variable obs_signatures : Registry.
Variable obs_proto_list : list string.
Variable exact_matches : dict string.

Hypothesis two_entries : 2 <= length obs_proto_list.

Lemma for_loop_all_exact refs st :
  obs_index st = 0 ->
  (forall r, r ∈ refs -> dict_in r ref_signatures = true ->
     exists o, dict_get r exact_matches = Some o /\ o ∈ obs_proto_list) ->
  exists st',
    for_loop THRESHOLD MAX_DISPLAY_MATCHES ref_signatures obs_signatures
      obs_proto_list exact_matches refs st = Ok st' /\
    stdin st' = stdin st /\
    forall r o,
      dict_get r (seq_matches st') = Some o <->
      (r ∈ refs /\ dict_in r ref_signatures = true /\
       dict_get r exact_matches = Some o) \/
      (dict_get r (seq_matches st) = Some o /\
       ~ (r ∈ refs /\ dict_in r ref_signatures = true)).
Proof.
  revert st. induction refs as [|r0 refs IH]; intros st Hidx Hexact.
  { exists st. split_and!; [done|done|]. intros r o. split.
    - intros H. right. split; [done|]. intros [Hin _]. by apply elem_of_nil in Hin.
    - intros [[Hin _]|[H _]]; [by apply elem_of_nil in Hin|done]. }
  assert (forall r, r ∈ refs -> dict_in r ref_signatures = true ->
            exists o, dict_get r exact_matches = Some o /\ o ∈ obs_proto_list)
    as Hexact'.
  { intros r Hr. apply Hexact. by right. }
  cbn [for_loop]. unfold for_body, obs_exhausted. cbn [next_ref obs_index].
  rewrite Hidx. destruct (Nat.leb_spec (length obs_proto_list) (0 + 1)) as [Hle|Hgt]; [lia|].
  destruct (dict_get r0 ref_signatures) as [ref_sig|] eqn:Hsig.
  - destruct (Hexact r0) as (o0 & Hex & Hin); [left|unfold dict_in; by rewrite Hsig|].
    rewrite Hex. destruct (list_index_elem_of _ _ Hin) as [i ->]. cbn [res_bind].
    destruct (IH (record_match r0 o0 (next_ref st))) as (st' & -> & Hstdin & Hget);
      [done|done|].
    exists st'. split_and!; [done|done|].
    intros r o. rewrite Hget. cbn [record_match next_ref seq_matches].
    rewrite dict_get_set, elem_of_cons.
    destruct (String.eqb_spec r r0) as [->|Hne].
    + unfold dict_in. rewrite Hsig, Hex. split.
      * intros [(_ & _ & Hx)|[Hx _]]; left; split_and!; auto.
      * intros [(_ & _ & Hx)|[_ Hn]]; [|destruct Hn; auto].
        destruct (decide (r0 ∈ refs)) as [Hr|Hr]; [left; by split_and!|].
        right. split; [done|]. by intros [? _].
    + split.
      * intros [(Hr & Hs & Hx)|[Hx Hn]]; [left; split_and!; auto|].
        right. split; [done|]. intros [[?|Hr] Hs]; [done|]. apply Hn. auto.
      * intros [([?|Hr] & Hs & Hx)|[Hx Hn]]; [done|left; by split_and!|].
        right. split; [done|]. intros [Hr Hs]. apply Hn. auto.
  - cbn [res_bind].
    destruct (IH (next_ref st)) as (st' & -> & Hstdin & Hget); [done|done|].
    exists st'. split_and!; [done|done|].
    intros r o. rewrite Hget. cbn [next_ref seq_matches]. rewrite elem_of_cons.
    split.
    + intros [(Hr & Hs & Hx)|[Hx Hn]]; [left; split_and!; auto|].
      right. split; [done|]. intros [[->|Hr] Hs].
      * unfold dict_in in Hs. by rewrite Hsig in Hs.
      * apply Hn. auto.
    + intros [([->|Hr] & Hs & Hx)|[Hx Hn]].
      * unfold dict_in in Hs. by rewrite Hsig in Hs.
      * left. by split_and!.
      * right. split; [done|]. intros [Hr Hs]. apply Hn. auto.
Qed.

(** X20: when every signed entry of [ref_proto_list] has an exact match
    that is listed in [obs_proto_list] (of two entries at least), the
    session returns whatever the answers are, and the mapping it writes
    is [exact_matches] on the signed entries of [ref_proto_list]. *)
Theorem session_all_exact answers :
  (forall r, r ∈ ref_proto_list -> dict_in r ref_signatures = true ->
     exists o, dict_get r exact_matches = Some o /\ o ∈ obs_proto_list) ->
  exists result,
    start_sequential_matching THRESHOLD MAX_DISPLAY_MATCHES ref_signatures
      ref_proto_list obs_signatures obs_proto_list exact_matches answers = Ok result /\
    forall r o,
      dict_get r result = Some o <->
      r ∈ ref_proto_list /\ dict_in r ref_signatures = true /\
      dict_get r exact_matches = Some o.
Proof.
  intros Hexact. unfold start_sequential_matching.
  destruct (for_loop_all_exact ref_proto_list (initial_session answers))
    as (st' & -> & _ & Hget); [done|done|].
  exists (seq_matches st'). split; [done|].
  intros r o. rewrite Hget. cbn [initial_session seq_matches dict_get]. split.
  - intros [H|[? _]]; done.
  - intros H. by left.
Qed.

End AllExact.

Lemma session_all_exact_witness :
  exists result,
    start_sequential_matching (1 # 2) 5
      [("A", sample_sig_a); ("B", sample_sig_b)] ["A"; "Z"; "B"]
      sample_obs ["X"; "Y"] [("A", "X"); ("B", "Y")] [] = Ok result /\
    forall r o,
      dict_get r result = Some o <->
      r ∈ ["A"; "Z"; "B"] /\
      dict_in r [("A", sample_sig_a); ("B", sample_sig_b)] = true /\
      dict_get r [("A", "X"); ("B", "Y")] = Some o.
Proof.
  apply (session_all_exact (1 # 2) 5 [("A", sample_sig_a); ("B", sample_sig_b)]
           ["A"; "Z"; "B"] sample_obs ["X"; "Y"] [("A", "X"); ("B", "Y")]).
  - simpl. lia.
  - intros r [->|[->|[->|Hr]%elem_of_cons]%elem_of_cons]%elem_of_cons Hs.
    + exists "X". split; [done|left].
    + done.
    + exists "Y". split; [done|right; left].
    + by apply elem_of_nil in Hr.
Defined.

(** ** How the generator fails *)

Lemma gen_raises_ret {A} P (a : A) : gen_raises P (gen_ret a).
Proof. by intros reg e. Qed.

Lemma gen_raises_raise {A} (P : exn -> Prop) e : P e -> gen_raises P (@gen_raise A e).
Proof. intros HP reg e' [= <-]. done. Qed.

Lemma gen_raises_log P name : gen_raises P (gen_log name).
Proof. by intros reg e. Qed.

Lemma gen_raises_set P name sig : gen_raises P (gen_set name sig).
Proof. by intros reg e. Qed.

Lemma gen_raises_lift {A} (P : exn -> Prop) (r : Res A) :
  (forall e, r = Raise e -> P e) -> gen_raises P (gen_lift r).
Proof. intros Hr reg e. unfold gen_lift. simpl. destruct r; [done|]. intros [= <-]. auto. Qed.

Lemma gen_raises_bind {A B} P (c : Gen A) (k : A -> Gen B) :
  gen_raises P c -> (forall a, gen_raises P (k a)) -> gen_raises P (gen_bind c k).
Proof.
  intros Hc Hk reg e. unfold gen_bind. specialize (Hc reg).
  destruct (c reg) as [tr [[a reg1]|e0]]; cbn [snd] in *.
  - specialize (Hk a reg1). destruct (k a reg1) as [tr1 r1]; cbn [snd] in *. auto.
  - intros [= <-]. auto.
Qed.

Lemma gen_raises_for {A} P (l : list A) (body : A -> Gen unit) :
  (forall x, gen_raises P (body x)) -> gen_raises P (gen_for l body).
Proof.
  intros Hb. induction l as [|x l IH]; simpl; [apply gen_raises_ret|].
  apply gen_raises_bind; [apply Hb|]. by intros _.
Qed.

Lemma gen_raises_fold {A B} P (body : B -> A -> Gen B) (l : list A) acc :
  (forall acc x, gen_raises P (body acc x)) -> gen_raises P (gen_fold body acc l).
Proof.
  intros Hb. revert acc. induction l as [|x l IH]; intros acc; simpl;
    [apply gen_raises_ret|].
  apply gen_raises_bind; [apply Hb|]. intros acc'. apply IH.
Qed.

Section GeneratorFailures.

Variable PACKAGE_NAME : string.
Variable DEFAULT_EMPTY_TO_BYTES : bool.
Variable descriptor_map : dict Proto.

Lemma signature_body_raises rec name proto :
  (forall name proto, gen_raises generator_exn (rec name proto)) ->
  gen_raises generator_exn
    (signature_body PACKAGE_NAME DEFAULT_EMPTY_TO_BYTES descriptor_map rec name proto).
Proof.
  intros Hrec. unfold signature_body.
  apply gen_raises_bind; [apply gen_raises_log|]. intros _.
  apply gen_raises_bind.
  { destruct proto; [apply gen_raises_ret|].
    destruct (dict_get name descriptor_map); [apply gen_raises_ret|].
    apply gen_raises_raise. by left. }
  intros [d|enum]; [|apply gen_raises_ret].
  unfold message_signature. apply gen_raises_bind.
  - unfold register_nested. apply gen_raises_bind.
    + apply gen_raises_for. intros nested.
      apply gen_raises_bind; [apply Hrec|]. intros; apply gen_raises_set.
    + intros _. apply gen_raises_for. intros enum.
      destruct (truthy (get_enum_sig enum)); [apply gen_raises_set|apply gen_raises_ret].
  - intros _. unfold fields_signature. apply gen_raises_bind.
    + apply gen_raises_fold. intros acc field. unfold field_step.
      apply gen_raises_bind.
      * unfold field_info. apply gen_raises_bind; [|intros; apply gen_raises_ret].
        destruct (f_type_name field); [|apply gen_raises_ret].
        apply gen_raises_bind; [apply Hrec|]. intros type_sig.
        destruct (DEFAULT_EMPTY_TO_BYTES && negb (truthy type_sig));
          [apply gen_raises_ret|].
        apply gen_raises_bind; [apply Hrec|]. intros; apply gen_raises_ret.
      * intros info. destruct (f_oneof_index field) as [i|]; [|apply gen_raises_ret].
        apply gen_raises_bind; [|intros; apply gen_raises_ret].
        apply gen_raises_lift. intros e He. unfold oneofs_append in He.
        destruct (py_list_pos _ i) as [n|e0] eqn:Hpos; [done|].
        injection He as <-. apply py_list_pos_exn in Hpos. subst.
        unfold generator_exn. auto.
    + intros acc. destruct (m_map_entry d); [|apply gen_raises_ret].
      destruct (with_oneofs acc) as [|? [|? [|? ?]]];
        try apply gen_raises_ret; apply gen_raises_raise; unfold generator_exn; auto.
Qed.

Lemma get_signature_raises depth name proto :
  gen_raises generator_exn
    (get_signature PACKAGE_NAME DEFAULT_EMPTY_TO_BYTES descriptor_map depth name proto).
Proof.
  revert name proto. induction depth as [|depth IH]; intros name proto.
  { apply gen_raises_raise. unfold generator_exn. auto. }
  intros reg e. simpl. destruct (dict_get name reg); [done|].
  by apply signature_body_raises.
Qed.

End GeneratorFailures.

(** X21: [generate_signatures] ends with the registry or with one of four
    errors: [KeyError] (a type name that is neither registered nor
    declared at top level), [TypeError] (a map entry that does not have
    exactly two fields), [IndexError] (a [oneof_index] outside
    [oneof_decl]) or [RecursionError]. *)
Theorem generate_signatures_failures PACKAGE_NAME DEFAULT_EMPTY_TO_BYTES depth
    files tr e :
  generate_signatures PACKAGE_NAME DEFAULT_EMPTY_TO_BYTES depth files = (tr, Raise e) ->
  generator_exn e.
Proof.
  unfold generate_signatures.
  set (dm := build_descriptor_map files). set (body := fun '(name, proto) => _).
  assert (gen_raises generator_exn (gen_for dm body)) as Hloop.
  { apply gen_raises_for. intros [name proto]. apply gen_raises_bind.
    - apply get_signature_raises.
    - intros sig. apply gen_raises_set. }
  specialize (Hloop []).
  destruct (gen_for dm body []) as [tr0 [[[] reg]|e0]]; [done|].
  intros [= _ <-]. by apply Hloop.
Qed.

Lemma generate_signatures_failures_witness : generator_exn KeyError.
Proof.
  apply (generate_signatures_failures "" true 10
           [ {| message_type := [sample_alias_holder]; enum_type := [] |} ]
           ["Packet"; "Packet.CmdId"]).
  vm_compute. reflexivity.
Defined.

(** ** Score against position *)

Lemma StronglySorted_lookup {A} (R : A -> A -> Prop) (l : list A) i j x y :
  StronglySorted R l -> i < j -> l !! i = Some x -> l !! j = Some y -> R x y.
Proof.
  intros Hs. revert i j. induction Hs as [|a l Hs IH Hall]; intros i j Hij Hi Hj.
  - done.
  - destruct j as [|j]; [lia|]. destruct i as [|i].
    + injection Hi as ->. apply (proj1 (Forall_forall _ _) Hall).
      by eapply list_elem_of_lookup_2.
    + apply (IH i j); [lia|done|done].
Qed.

Section Bias.

Variable THRESHOLD : Q.
Variable MAX_DISPLAY_MATCHES : Z.
Variable match_sig : Signature.
Variable registry : Registry.
Variable proto_list : list string.

Hypothesis registry_keys : NoDup registry.*1.
Hypothesis limit_positive : (0 <= MAX_DISPLAY_MATCHES)%Z.

Lemma list_index_lt x l i : list_index x l = Ok i -> i < length l.
Proof.
  revert i. induction l as [|y l IH]; simpl; intros i; [done|].
  destruct (String.eqb x y); [intros [= <-]; lia|].
  destruct (list_index x l) as [j|]; [|done]. simpl. intros [= <-].
  specialize (IH j eq_refl). lia.
Qed.

Lemma list_index_lookup x l i : list_index x l = Ok i -> l !! i = Some x.
Proof.
  revert i. induction l as [|y l IH]; simpl; intros i; [done|].
  destruct (String.eqb_spec x y) as [->|Hne]; [by intros [= <-]|].
  destruct (list_index x l) as [j|]; [|done]. simpl. intros [= <-]. by apply IH.
Qed.

(** In the displayed list an entry with a larger ranking key comes
    first. *)
Lemma view_strict_order view i j ta tb :
  get_matches THRESHOLD MAX_DISPLAY_MATCHES match_sig registry proto_list = Ok view ->
  view !! i = Some ta -> view !! j = Some tb ->
  (combined_score proto_list tb < combined_score proto_list ta)%Q ->
  i < j.
Proof.
  intros Hview Hi Hj Hlt.
  destruct (get_matches_sound _ _ _ _ _ _ registry_keys Hview)
    as (ranked & -> & _ & Hsorted & _).
  unfold slice_to in Hi, Hj.
  destruct (Z.leb_spec 0 MAX_DISPLAY_MATCHES); [|lia].
  apply lookup_take_Some in Hi as [Hi _]. apply lookup_take_Some in Hj as [Hj _].
  apply Sorted_StronglySorted in Hsorted.
  2:{ intros a b c Hab Hbc. unfold ranks_before in *.
      eapply Qle_trans; [exact Hbc|exact Hab]. }
  destruct (decide (i < j)) as [|Hge]; [done|]. exfalso.
  destruct (decide (i = j)) as [->|Hne].
  { assert (ta = tb) as -> by congruence. by apply Qlt_irrefl in Hlt. }
  assert (j < i) as Hji by lia.
  pose proof (StronglySorted_lookup _ _ j i tb ta Hsorted Hji Hj Hi) as Hall.
  unfold ranks_before in Hall. by apply Qle_not_lt in Hall.
Qed.


End Bias.


(** ** Which top-level types are containers *)

Section TopLevelKinds.

Variable PACKAGE_NAME : string.
Variable DEFAULT_EMPTY_TO_BYTES : bool.
Variable depth : nat.

(** The shape of what [get_signature] computes for a descriptor. *)
Lemma get_signature_kind dm name proto reg tr sig reg' :
  get_signature PACKAGE_NAME DEFAULT_EMPTY_TO_BYTES dm depth name (Some proto) reg
    = (tr, Ok (sig, reg')) ->
  dict_get name reg = None ->
  is_container sig = signs_as_container proto.
Proof.
  destruct depth as [|depth']; [done|]. simpl. intros Hrun Hmiss.
  rewrite Hmiss in Hrun. unfold signature_body in Hrun.
  apply gen_bind_Ok in Hrun as (tr0 & [] & reg0 & tr1 & _ & Hrun).
  apply gen_bind_Ok in Hrun as (tr2 & p & reg1 & tr3 & Hret & Hrun).
  injection Hret as _ <- <-. destruct proto as [d|e].
  - unfold message_signature in Hrun.
    apply gen_bind_Ok in Hrun as (tr4 & [] & reg2 & tr5 & _ & Hfields).
    unfold fields_signature in Hfields.
    apply gen_bind_Ok in Hfields as (tr8 & acc & reg4 & tr9 & _ & Hret).
    simpl. destruct (m_map_entry d).
    + destruct (with_oneofs acc) as [|? [|? [|? ?]]]; try done.
      by injection Hret as _ <- _.
    + by injection Hret as _ <- _.
  - injection Hrun as _ <- _. simpl. unfold get_enum_sig.
    by destruct (e_allow_alias e).
Qed.

Lemma top_level_loop_kinds dm (l : dict Proto) reg tr reg' :
  gen_for l (fun '(name, proto) =>
    (sig <- get_signature PACKAGE_NAME DEFAULT_EMPTY_TO_BYTES dm depth name (Some proto) ;;
     gen_set name sig)%gen) reg = (tr, Ok (tt, reg')) ->
  Forall (fun name => contains_dot name = false) l.*1 ->
  NoDup ((top_level reg).*1 ++ l.*1) ->
  top_level reg ⊆ top_level reg' /\
  forall name proto, (name, proto) ∈ l ->
    exists sig, (name, sig) ∈ top_level reg' /\
                is_container sig = signs_as_container proto.
Proof.
  revert reg tr. induction l as [|[name proto] l IH]; intros reg tr.
  - intros [= _ <-] _ _. split; [done|]. intros ? ? Hin. by apply elem_of_nil in Hin.
  - cbn [gen_for]. unfold gen_bind at 1.
    destruct (gen_bind _ _ reg) as [tr0 [[[] reg0]|e]] eqn:Hbody; [|done].
    destruct (gen_for l _ reg0) as [tr1 r1] eqn:Hrest. intros [= _ ->].
    rewrite fmap_cons. cbn [fst]. intros [Hname Hl]%Forall_cons Hnd.
    unfold gen_bind in Hbody.
    destruct (get_signature _ _ _ _ _ _ reg) as [tr2 [[sig reg1]|e]] eqn:Hsig; [|done].
    injection Hbody as _ <-.
    apply get_signature_top_level in Hsig as Htop.
    assert (name ∉ (top_level reg).*1) as Hfresh0.
    { intros Hin. apply NoDup_app in Hnd as (_ & Hdisj & _).
      apply (Hdisj name); [done|left]. }
    assert (name ∉ reg1.*1) as Hfresh.
    { intros Hin. apply Hfresh0. rewrite <- Htop. by apply top_level_keys_elem_of. }
    assert (top_level (dict_set name sig reg1) = (top_level reg ++ [(name, sig)])%list)
      as Hset.
    { by rewrite top_level_dict_set_fresh, Htop. }
    apply IH in Hrest as [Hsub Hkinds]; [|done|].
    2:{ rewrite Hset, fmap_app. by rewrite <- app_assoc. }
    rewrite Hset in Hsub. split.
    + intros x Hx. apply Hsub. apply elem_of_app. by left.
    + intros n p [[= -> ->]|Hin]%elem_of_cons; [|by apply Hkinds].
      exists sig. split.
      * apply Hsub. apply elem_of_app. right. left.
      * eapply get_signature_kind; [exact Hsig|].
        apply dict_get_None. intros Hin. apply Hfresh0.
        by apply top_level_keys_elem_of.
Qed.

End TopLevelKinds.

(** X23: which entries of the generated registry are containers, the
    only signatures that the scorer accepts: a top-level message has a
    container as signature unless it is a map entry, and a top-level enum
    unless it allows aliases. *)
Theorem top_level_container PACKAGE_NAME DEFAULT_EMPTY_TO_BYTES depth files tr
    reg name proto :
  generate_signatures PACKAGE_NAME DEFAULT_EMPTY_TO_BYTES depth files = (tr, Ok reg) ->
  Forall (fun name => contains_dot name = false) (build_descriptor_map files).*1 ->
  (name, proto) ∈ build_descriptor_map files ->
  exists sig, dict_get name reg = Some sig /\
              is_container sig = signs_as_container proto.
Proof.
  intros Hgen Hdots Hin.
  pose proof (generate_signatures_NoDup _ _ _ _ _ _ Hgen) as Hnd.
  unfold generate_signatures in Hgen.
  destruct (gen_for _ _ []) as [tr0 [[[] reg0]|e]] eqn:Hrun; [|done].
  injection Hgen as _ <-.
  apply top_level_loop_kinds in Hrun as [_ Hkinds];
    [|done|apply build_descriptor_map_NoDup].
  destruct (Hkinds name proto Hin) as (sig & Hsig & Hkind).
  exists sig. split; [|done].
  apply elem_of_dict_get; [done|]. by apply list_elem_of_filter in Hsig as [_ Hsig].
Qed.

Lemma top_level_container_witness :
  exists sig, dict_get "CmdId" sample_alias_registry = Some sig /\
              is_container sig = signs_as_container (Enum alias_enum).
Proof.
  apply (top_level_container "" true 10 sample_alias_files ["R"; "CmdId"]).
  - vm_compute. reflexivity.
  - apply (bool_decide_unpack _). vm_compute. exact I.
  - vm_compute. right. left.
Defined.

(** ** The counts that the tool reports *)

Lemma match_step_keys key_eqb obs_uniques acc item :
  NoDup (fst acc).*1 /\ NoDup (snd acc).*1 ->
  NoDup (fst (match_step key_eqb obs_uniques acc item)).*1 /\
  NoDup (snd (match_step key_eqb obs_uniques acc item)).*1.
Proof.
  intros [H1 H2]. destruct item as [sig ref_proto]. unfold match_step.
  destruct (sig_get key_eqb sig obs_uniques); [|done].
  destruct (has_repeats sig); simpl; split; try done; by apply dict_set_NoDup.
Qed.

Lemma match_uniques_keys key_eqb ref_uniques obs_uniques :
  NoDup (fst (match_uniques key_eqb ref_uniques obs_uniques)).*1 /\
  NoDup (snd (match_uniques key_eqb ref_uniques obs_uniques)).*1.
Proof.
  unfold match_uniques.
  apply (fold_left_inv (fun acc : dict string * dict string =>
                          NoDup (fst acc).*1 /\ NoDup (snd acc).*1)).
  - intros acc item. apply match_step_keys.
  - split; constructor.
Qed.

Lemma dict_length_le {V W} (d : dict V) (d' : list (W * string)) :
  NoDup d.*1 -> (forall k v, dict_get k d = Some v -> k ∈ d'.*2) ->
  length d <= length d'.
Proof.
  intros Hnd Hsub. rewrite <- (length_fmap fst d), <- (length_fmap snd d').
  apply submseteq_length, NoDup_submseteq; [done|].
  intros k ([k' v] & -> & Hin)%list_elem_of_fmap.
  apply (Hsub k' v). by apply elem_of_dict_get.
Qed.

Section Counts.

Variable key_eqb : Signature -> Signature -> bool.
Hypothesis key_eqb_equiv : key_equivalence key_eqb.

Variable PACKAGE_NAME : string.
Variable DEFAULT_EMPTY_TO_BYTES : bool.
Variable depth : nat.
Variables ref_files obs_files : list FileDescriptorProto.
Variables ref_trace obs_trace : list string.
Variables ref_signatures obs_signatures : Registry.
Variables ref_uniques obs_uniques : list (Signature * string).

Hypothesis ref_generated :
  generate_signatures_uniques key_eqb PACKAGE_NAME DEFAULT_EMPTY_TO_BYTES depth ref_files
  = (ref_trace, Ok (ref_signatures, ref_uniques)).
Hypothesis obs_generated :
  generate_signatures_uniques key_eqb PACKAGE_NAME DEFAULT_EMPTY_TO_BYTES depth obs_files
  = (obs_trace, Ok (obs_signatures, obs_uniques)).
Hypothesis ref_names :
  Forall (fun name => contains_dot name = false) (build_descriptor_map ref_files).*1.
Hypothesis obs_names :
  Forall (fun name => contains_dot name = false) (build_descriptor_map obs_files).*1.

(** X24: the counts that the commands [exact_matches] and
    [perfect_mappables] print are in order: there are no more perfectly
    re-mappable types than exact matches, no more exact matches than
    unique signatures on either side, and no more unique reference
    signatures than reference signatures in total. *)
Theorem match_counts :
  let exact_matches := fst (match_uniques key_eqb ref_uniques obs_uniques) in
  let perfect_mappables := snd (match_uniques key_eqb ref_uniques obs_uniques) in
  length perfect_mappables <= length exact_matches /\
  length exact_matches <= length ref_uniques /\
  length exact_matches <= length obs_uniques /\
  length ref_uniques <= length ref_signatures.
Proof.
  intros exact_matches perfect_mappables.
  destruct (uniques_facts _ _ _ _ _ _ _ _ key_eqb_equiv ref_generated ref_names)
    as (Hrd & Hrn & Hrget & Hrin).
  destruct (uniques_facts _ _ _ _ _ _ _ _ key_eqb_equiv obs_generated obs_names)
    as (Hod & Hon & Hoget & Hoin).
  destruct (match_uniques_keys key_eqb ref_uniques obs_uniques) as [Hek Hpk].
  assert (forall ref obs, dict_get ref exact_matches = Some obs ->
            exists sig, (sig, ref) ∈ ref_uniques /\
                        sig_get key_eqb sig obs_uniques = Some obs) as Hexact.
  { intros ref obs.
    by apply (match_uniques_lookup key_eqb ref_uniques obs_uniques ref obs Hrn). }
  split_and!.
  - rewrite <- (length_fmap fst perfect_mappables), <- (length_fmap fst exact_matches).
    apply submseteq_length, NoDup_submseteq; [done|].
    intros ref ([ref' obs] & -> & Hin)%list_elem_of_fmap. cbn [fst].
    apply elem_of_dict_get in Hin; [|done].
    apply (match_uniques_lookup key_eqb ref_uniques obs_uniques ref' obs Hrn) in Hin
      as (sig & Hsig & Hget & _).
    apply list_elem_of_fmap. exists (ref', obs). split; [done|].
    apply dict_get_elem_of.
    apply (match_uniques_lookup key_eqb ref_uniques obs_uniques ref' obs Hrn).
    by exists sig.
  - apply dict_length_le; [done|]. intros ref obs (sig & Hsig & _)%Hexact.
    apply list_elem_of_fmap. by exists (sig, ref).
  - rewrite <- (length_fmap snd exact_matches), <- (length_fmap snd obs_uniques).
    apply submseteq_length, NoDup_submseteq.
    + apply NoDup_alt. intros i j obs Hi Hj.
      apply list_lookup_fmap_Some in Hi as ([r1 o1] & -> & Hi).
      apply list_lookup_fmap_Some in Hj as ([r2 o2] & Ho & Hj). cbn [snd] in Ho.
      subst o2.
      assert (r1 = r2) as <-.
      { apply list_elem_of_lookup_2 in Hi as Hi'.
        apply list_elem_of_lookup_2 in Hj as Hj'.
        apply elem_of_dict_get in Hi'; [|done]. apply elem_of_dict_get in Hj'; [|done].
        destruct (Hexact _ _ Hi') as (s1 & Hs1 & Hg1).
        destruct (Hexact _ _ Hj') as (s2 & Hs2 & Hg2).
        destruct (sig_get_elem_of _ _ _ _ Hg1) as (k1 & Hk1 & He1).
        destruct (sig_get_elem_of _ _ _ _ Hg2) as (k2 & Hk2 & He2).
        assert (k1 = k2) as <-.
        { apply Hoin in Hk1. apply Hoin in Hk2. congruence. }
        assert (key_eqb s1 s2 = true) as H12.
        { eapply key_eqb_trans; [done|exact He1|]. by rewrite key_eqb_sym. }
        apply (elem_of_sig_get key_eqb _ _ _ key_eqb_equiv Hrd) in Hs1.
        apply (elem_of_sig_get key_eqb _ _ _ key_eqb_equiv Hrd) in Hs2.
        rewrite (sig_get_proper key_eqb key_eqb_equiv s1 s2) in Hs1 by done.
        congruence. }
      apply (NoDup_lookup exact_matches.*1 i j r1); [done| |].
      * apply list_lookup_fmap_Some. by exists (r1, o1).
      * apply list_lookup_fmap_Some. by exists (r1, o1).
    + intros obs ([ref obs'] & -> & Hin)%list_elem_of_fmap. cbn [snd].
      apply elem_of_dict_get in Hin; [|done].
      destruct (Hexact _ _ Hin) as (sig & _ & Hget).
      destruct (sig_get_elem_of _ _ _ _ Hget) as (k & Hk & _).
      apply list_elem_of_fmap. by exists (k, obs').
  - rewrite <- (length_fmap snd ref_uniques), <- (length_fmap fst ref_signatures).
    apply submseteq_length, NoDup_submseteq; [done|].
    intros name ([sig name'] & -> & Hin)%list_elem_of_fmap. cbn [snd].
    apply Hrin, dict_get_elem_of in Hin.
    apply list_elem_of_fmap. by exists (name', sig).
Qed.

End Counts.

Lemma match_counts_witness :
  let ref_uniques := [(mk_multiset [Str "string"], "R")] in
  let obs_uniques := [(mk_multiset [Str "bool"], "XA");
                      (mk_multiset [Str "string"], "XB")] in
  let exact_matches := fst (match_uniques structural_eqb ref_uniques obs_uniques) in
  let perfect_mappables := snd (match_uniques structural_eqb ref_uniques obs_uniques) in
  length perfect_mappables <= length exact_matches /\
  length exact_matches <= length ref_uniques /\
  length exact_matches <= length obs_uniques /\
  length ref_uniques <= length sample_twin_registry.
Proof.
  apply (match_counts structural_eqb structural_eqb_equivalence "" true 10
           sample_twin_files sample_obs_files ["P"; "Q"; "R"] ["XA"; "XB"]
           sample_twin_registry sample_obs_registry).
  - vm_compute. reflexivity.
  - vm_compute. reflexivity.
  - apply (bool_decide_unpack _). vm_compute. exact I.
  - apply (bool_decide_unpack _). vm_compute. exact I.
Defined.

(** ** Targets that cannot be matched *)

Lemma falsy_container_len s :
  is_container s = true -> truthy s = false -> py_len s = Ok 0.
Proof.
  destruct s; simpl; try done; intros _ H.
  - by destruct (length elems).
  - by destruct (size values).
Qed.

(** A target that is no container, or an empty one, fails against every
    candidate. *)
Lemma compare_sigs_bad_target match_sig sig :
  is_container match_sig = false \/ truthy match_sig = false ->
  compare_sigs match_sig sig = Raise TypeError \/
  (is_container match_sig = true /\
   compare_sigs match_sig sig = Raise ZeroDivisionError).
Proof.
  intros Hbad. destruct (is_container match_sig) eqn:Hc.
  - destruct Hbad as [?|Ht]; [done|].
    destruct (is_container sig) eqn:Hs.
    + right. split; [done|]. apply compare_sigs_zero_target; [done|done|].
      by apply falsy_container_len.
    + left. apply compare_sigs_non_container. by right.
  - left. apply compare_sigs_non_container. by left.
Qed.

Lemma score_candidates_bad_target THRESHOLD match_sig items acc name sig :
  is_container match_sig = false \/ truthy match_sig = false ->
  (name, sig) ∈ items -> contains_dot name = false ->
  score_candidates THRESHOLD match_sig items acc = Raise TypeError \/
  (is_container match_sig = true /\
   score_candidates THRESHOLD match_sig items acc = Raise ZeroDivisionError).
Proof.
  intros Hbad Hin Hdot. revert acc.
  induction items as [|[n s] items IH]; intros acc; [by apply elem_of_nil in Hin|].
  simpl. destruct (contains_dot n) eqn:Hn.
  - apply elem_of_cons in Hin as [[= <- <-]|Hin]; [congruence|]. by apply IH.
  - destruct (compare_sigs_bad_target match_sig s Hbad) as [->|[Hc ->]]; auto.
Qed.

(** X25: [get_matches] needs a non-empty container as target.  On a
    registry with at least one top-level candidate it returns only for
    such a target; for a target that is no container (a [MapEntry], [None])
    it fails with [TypeError], and for an empty container (a message
    without fields, an enum without values) with [ZeroDivisionError], or
    with [TypeError] when the first top-level candidate is no
    container. *)
Theorem get_matches_needs_target THRESHOLD MAX_DISPLAY_MATCHES match_sig registry
    proto_list name sig :
  (name, sig) ∈ registry -> contains_dot name = false ->
  ((exists view,
      get_matches THRESHOLD MAX_DISPLAY_MATCHES match_sig registry proto_list = Ok view) ->
   is_container match_sig = true /\ truthy match_sig = true) /\
  (is_container match_sig = false ->
   get_matches THRESHOLD MAX_DISPLAY_MATCHES match_sig registry proto_list
   = Raise TypeError) /\
  (is_container match_sig = true -> truthy match_sig = false ->
   get_matches THRESHOLD MAX_DISPLAY_MATCHES match_sig registry proto_list
   = Raise ZeroDivisionError \/
   get_matches THRESHOLD MAX_DISPLAY_MATCHES match_sig registry proto_list
   = Raise TypeError).
Proof.
  intros Hin Hdot.
  assert (is_container match_sig = false \/ truthy match_sig = false ->
          get_matches THRESHOLD MAX_DISPLAY_MATCHES match_sig registry proto_list
          = Raise TypeError \/
          (is_container match_sig = true /\
           get_matches THRESHOLD MAX_DISPLAY_MATCHES match_sig registry proto_list
           = Raise ZeroDivisionError)) as Hfail.
  { intros Hbad. unfold get_matches.
    destruct (score_candidates_bad_target THRESHOLD match_sig registry [] name sig
                Hbad Hin Hdot) as [->|[Hc ->]]; auto. }
  split_and!.
  - intros [view Hview].
    destruct (is_container match_sig) eqn:Hc.
    + destruct (truthy match_sig) eqn:Ht; [done|].
      destruct Hfail as [H|[_ H]]; [by right|congruence..].
    + destruct Hfail as [H|[? _]]; [by left|congruence|congruence].
  - intros Hc. destruct Hfail as [H|[? _]]; [by left|done|congruence].
  - intros Hc Ht. destruct Hfail as [H|[_ H]]; [by right|by right|by left].
Qed.

Lemma get_matches_needs_target_witness :
  ((exists view,
      get_matches (1 # 2) 5 (mk_multiset []) sample_obs ["X"; "Y"] = Ok view) ->
   is_container (mk_multiset []) = true /\ truthy (mk_multiset []) = true) /\
  (is_container (mk_multiset []) = false ->
   get_matches (1 # 2) 5 (mk_multiset []) sample_obs ["X"; "Y"] = Raise TypeError) /\
  (is_container (mk_multiset []) = true -> truthy (mk_multiset []) = false ->
   get_matches (1 # 2) 5 (mk_multiset []) sample_obs ["X"; "Y"]
   = Raise ZeroDivisionError \/
   get_matches (1 # 2) 5 (mk_multiset []) sample_obs ["X"; "Y"] = Raise TypeError).
Proof.
  apply (get_matches_needs_target (1 # 2) 5 (mk_multiset []) sample_obs ["X"; "Y"]
           "X" sample_sig_a).
  - left.
  - reflexivity.
Defined.

(** ** Generated forms *)

Lemma generated_multiset elems :
  generated (FrozenMultiset elems) <->
  Sorted sig_le elems /\ Forall generated_entry elems.
Proof.
  unfold generated, generated_entry. simpl.
  assert ((fix all (l : list Signature) : Prop :=
             match l with
             | [] => True
             | e :: l' => form_of true e /\ all l'
             end) elems <-> Forall (form_of true) elems) as ->; [|done].
  induction elems as [|e l IH]; [by split; [constructor|]|].
  rewrite Forall_cons, IH. done.
Qed.

Lemma generated_canonical s : generated s -> canonical s.
Proof.
  destruct s; try done. by intros [? _]%generated_multiset.
Qed.

Lemma generated_mk_multiset l :
  Forall generated_entry l -> generated (mk_multiset l).
Proof.
  intros Hl. apply generated_multiset. split.
  - apply Sorted_merge_sort. apply _.
  - by rewrite merge_sort_Permutation.
Qed.

Section GeneratedForms.

Variable PACKAGE_NAME : string.
Variable DEFAULT_EMPTY_TO_BYTES : bool.
Variable descriptor_map : dict Proto.

Lemma all_generated_lookup reg name sig :
  all_generated reg -> dict_get name reg = Some sig -> generated sig.
Proof.
  intros Hreg Hget%dict_get_elem_of.
  by apply (proj1 (Forall_forall _ _) Hreg (name, sig)).
Qed.

Lemma all_generated_store reg name sig :
  all_generated reg -> generated sig -> all_generated (dict_set name sig reg).
Proof.
  intros Hreg Hsig. apply Forall_forall.
  intros e [->|He]%elem_of_dict_set; [done|].
  by apply (proj1 (Forall_forall _ _) Hreg e).
Qed.

Lemma generated_enum enum : generated (get_enum_sig enum).
Proof. unfold get_enum_sig. by destruct (e_allow_alias enum). Qed.

Lemma field_info_generated rec field :
  (forall name proto, gen_inv all_generated (rec name proto) generated) ->
  gen_inv all_generated (field_info PACKAGE_NAME DEFAULT_EMPTY_TO_BYTES rec field)
    generated_entry.
Proof.
  intros Hrec. unfold field_info.
  eapply gen_inv_bind with
    (P := fun tys : string * Signature => truthy (snd tys) = true -> generated (snd tys)).
  - destruct (f_type_name field) as [type_name|]; [|by apply gen_inv_ret].
    eapply gen_inv_bind; [apply Hrec|]. intros type_sig _.
    destruct (DEFAULT_EMPTY_TO_BYTES && negb (truthy type_sig));
      [by apply gen_inv_ret|].
    eapply gen_inv_bind; [apply Hrec|]. intros sig Hsig. by apply gen_inv_ret.
  - intros tys Htys. apply gen_inv_ret.
    destruct (truthy (snd tys)) eqn:Ht; [|done].
    split; [by left|by apply Htys].
Qed.

Lemma field_step_generated rec field acc :
  (forall name proto, gen_inv all_generated (rec name proto) generated) ->
  slots_generated acc ->
  gen_inv all_generated (field_step PACKAGE_NAME DEFAULT_EMPTY_TO_BYTES rec acc field)
    slots_generated.
Proof.
  intros Hrec [Hfl Hone]. unfold field_step.
  eapply gen_inv_bind; [by apply field_info_generated|]. intros info Hinfo.
  destruct (f_oneof_index field) as [i|].
  - eapply gen_inv_bind.
    + apply gen_inv_lift with (Q := Forall (Forall generated_entry)).
      intros oneofs'. unfold oneofs_append.
      destruct (py_list_pos (length (snd acc)) i) as [n|]; [|done]. simpl.
      intros [= <-]. apply Forall_alter; [done|].
      intros olist _ Hol. apply Forall_app. split; [done|]. by constructor.
    + intros oneofs' H'. by apply gen_inv_ret.
  - apply gen_inv_ret. split; [|done]. apply Forall_app. split; [done|].
    by constructor.
Qed.

Lemma with_oneofs_generated acc :
  slots_generated acc -> Forall generated_entry (with_oneofs acc).
Proof.
  intros [Hfl Hone]. unfold with_oneofs. apply Forall_app. split; [done|].
  apply List.Forall_forall. intros x [olist [<- Hin]]%in_map_iff.
  split; [by right|]. apply generated_mk_multiset.
  apply (proj1 (List.Forall_forall _ _) Hone). done.
Qed.

Lemma get_signature_generated depth name proto :
  gen_inv all_generated
    (get_signature PACKAGE_NAME DEFAULT_EMPTY_TO_BYTES descriptor_map depth name proto)
    generated.
Proof.
  revert name proto. induction depth as [|depth IH]; intros name proto.
  { apply gen_inv_raise. }
  intros reg tr sig reg' HI. simpl.
  destruct (dict_get name reg) as [sig0|] eqn:Hhit.
  { intros [= _ <- <-]. split; [done|]. by eapply all_generated_lookup. }
  revert reg tr sig reg' HI Hhit.
  assert (gen_inv all_generated
            (signature_body PACKAGE_NAME DEFAULT_EMPTY_TO_BYTES descriptor_map
               (get_signature PACKAGE_NAME DEFAULT_EMPTY_TO_BYTES descriptor_map depth)
               name proto) generated) as H;
    [|by intros reg tr sig reg' HI _; apply H].
  unfold signature_body.
  eapply gen_inv_bind; [by apply gen_inv_log with (Q := fun _ => True)|].
  intros _ _.
  eapply gen_inv_bind with (P := fun _ => True).
  { destruct proto; [by apply gen_inv_ret|].
    destruct (dict_get name descriptor_map); [by apply gen_inv_ret|apply gen_inv_raise]. }
  intros [d|enum] _; [|apply gen_inv_ret, generated_enum].
  unfold message_signature.
  eapply gen_inv_bind with (P := fun _ => True).
  - unfold register_nested.
    eapply gen_inv_bind with (P := fun _ => True).
    + apply gen_inv_for, List.Forall_forall. intros nested_type _.
      eapply gen_inv_bind; [apply IH|]. intros nsig Hn.
      apply gen_inv_set; [|done]. intros reg HI. by apply all_generated_store.
    + intros _ _. apply gen_inv_for, List.Forall_forall. intros enum_type _.
      destruct (truthy (get_enum_sig enum_type)); [|by apply gen_inv_ret].
      apply gen_inv_set; [|done]. intros reg HI.
      apply all_generated_store; [done|apply generated_enum].
  - intros _ _. unfold fields_signature.
    eapply gen_inv_bind.
    + apply gen_inv_fold with (J := slots_generated).
      * apply List.Forall_forall. intros field _ acc Hacc.
        by apply field_step_generated.
      * split; [constructor|]. apply Forall_replicate. constructor.
    + intros acc Hacc. apply with_oneofs_generated in Hacc.
      destruct (m_map_entry d); [|by apply gen_inv_ret, generated_mk_multiset].
      destruct (with_oneofs acc) as [|k [|v [|? ?]]]; try apply gen_inv_raise.
      apply gen_inv_ret.
      apply Forall_cons in Hacc as [Hk Hacc]. apply Forall_cons in Hacc as [Hv _].
      done.
Qed.

End GeneratedForms.

(** The signatures of a registry that [generate_signatures] returns are
    of the generated forms, all the way down. *)
Lemma generate_signatures_generated PACKAGE_NAME DEFAULT_EMPTY_TO_BYTES depth
    files tr reg name sig :
  generate_signatures PACKAGE_NAME DEFAULT_EMPTY_TO_BYTES depth files = (tr, Ok reg) ->
  (name, sig) ∈ reg -> generated sig.
Proof.
  unfold generate_signatures.
  set (dm := build_descriptor_map files). set (body := fun '(name, proto) => _).
  assert (gen_inv all_generated (gen_for dm body) (fun _ => True)) as Hloop.
  { apply gen_inv_for, List.Forall_forall. intros [n proto] _.
    eapply gen_inv_bind; [apply get_signature_generated|].
    intros s Hs. apply gen_inv_set; [|done]. intros r Hr.
    by apply all_generated_store. }
  destruct (gen_for dm body []) as [tr0 [[[] reg0]|e]] eqn:Hrun; [|done].
  intros [= _ <-] Hin. destruct (Hloop [] _ _ _ ltac:(constructor) Hrun) as [Hall _].
  by apply (proj1 (Forall_forall _ _) Hall (name, sig)).
Qed.

(** ** Comparison of doubles *)

Lemma SFcompare_antisym x y :
  SpecFloat.SFcompare y x = option_map CompOpp (SpecFloat.SFcompare x y).
Proof.
  destruct x as [sx|sx| |sx mx ex], y as [sy|sy| |sy my ey]; simpl; try done;
    try (by destruct sx); try (by destruct sy); try (by destruct sx, sy).
  change (PosDef.Pos.compare_cont Eq mx my) with (Pos.compare mx my).
  change (PosDef.Pos.compare_cont Eq my mx) with (Pos.compare my mx).
  rewrite (Z.compare_antisym ex ey), (Pos.compare_antisym mx my).
  destruct sx, sy; simpl; try done;
    destruct (ex ?= ey)%Z; simpl; try done.
Qed.

Lemma SFcompare_refl_finite s m e :
  SpecFloat.SFcompare (SpecFloat.S754_finite s m e) (SpecFloat.S754_finite s m e) = Some Eq.
Proof.
  simpl. rewrite Z.compare_refl.
  change (PosDef.Pos.compare_cont Eq m m) with (Pos.compare m m).
  rewrite Pos.compare_refl. by destruct s.
Qed.

Lemma SFcompare_Eq_finite s1 m1 e1 s2 m2 e2 :
  SpecFloat.SFcompare (SpecFloat.S754_finite s1 m1 e1) (SpecFloat.S754_finite s2 m2 e2)
    = Some Eq ->
  s1 = s2 /\ m1 = m2 /\ e1 = e2.
Proof.
  simpl. change (PosDef.Pos.compare_cont Eq m1 m2) with (Pos.compare m1 m2).
  destruct s1, s2; try done.
  - destruct (Z.compare_spec e1 e2) as [->| |]; try done.
    destruct (Pos.compare_spec m1 m2) as [->| |]; done.
  - destruct (Z.compare_spec e1 e2) as [->| |]; try done.
    destruct (Pos.compare_spec m1 m2) as [->| |]; done.
Qed.

Lemma SFcompare_Eq_trans x y k :
  SpecFloat.SFcompare x k = Some Eq -> SpecFloat.SFcompare y k = Some Eq ->
  SpecFloat.SFcompare x y = Some Eq.
Proof.
  destruct x as [sx|sx| |sx mx ex], k as [sk|sk| |sk mk ek]; try done;
    try (simpl; by destruct sx); try (simpl; by destruct sx, sk);
    destruct y as [sy|sy| |sy my ey]; try done;
    try (simpl; by destruct sy); try (simpl; by destruct sy, sk);
    try (simpl; by destruct sx, sy, sk).
  intros (-> & -> & ->)%SFcompare_Eq_finite (-> & -> & ->)%SFcompare_Eq_finite.
  apply SFcompare_refl_finite.
Qed.

(** [<] on doubles is asymmetric. *)
Lemma float_ltb_asym (x y : PrimFloat.float) :
  PrimFloat.ltb x y = true -> PrimFloat.ltb y x = false.
Proof.
  rewrite !FloatAxioms.ltb_spec. unfold SpecFloat.SFltb.
  rewrite (SFcompare_antisym (FloatOps.Prim2SF x) (FloatOps.Prim2SF y)).
  by destruct (SpecFloat.SFcompare _ _) as [[| |]|].
Qed.

(** Two doubles equal to a third are not below each other. *)
Lemma float_eqb_ltb (x y k : PrimFloat.float) :
  PrimFloat.eqb x k = true -> PrimFloat.eqb y k = true -> PrimFloat.ltb x y = false.
Proof.
  rewrite !FloatAxioms.eqb_spec, FloatAxioms.ltb_spec.
  unfold SpecFloat.SFeqb, SpecFloat.SFltb. intros Hx Hy.
  rewrite (SFcompare_Eq_trans _ _ (FloatOps.Prim2SF k)); [done| |].
  - by destruct (SpecFloat.SFcompare (FloatOps.Prim2SF x) _) as [[| |]|].
  - by destruct (SpecFloat.SFcompare (FloatOps.Prim2SF y) _) as [[| |]|].
Qed.

(** *** Numbers are totally ordered *)

Lemma SFltb_rank x y :
  x <> SpecFloat.S754_nan -> y <> SpecFloat.S754_nan ->
  SpecFloat.SFltb x y = true <-> lex_lt (SFrank x) (SFrank y).
Proof.
  intros Hx Hy. unfold SpecFloat.SFltb, lex_lt.
  destruct x as [sx|sx| |sx mx ex], y as [sy|sy| |sy my ey]; try done; simpl;
    try (destruct sx; simpl; split; (done || lia));
    try (destruct sy; simpl; split; (done || lia));
    try (destruct sx, sy; simpl; split; (done || lia)).
  change (PosDef.Pos.compare_cont Eq mx my) with (Pos.compare mx my).
  destruct sx, sy; simpl; try (split; (done || lia));
    destruct (Z.compare_spec ex ey) as [->| |]; try (split; (done || lia));
    destruct (Pos.compare_spec mx my) as [->| |]; simpl; split; (done || lia).
Qed.

Lemma SFeqb_not_nan x : SpecFloat.SFeqb x x = true -> x <> SpecFloat.S754_nan.
Proof. by intros H ->. Qed.

(** On numbers, "not below" is transitive. *)
Lemma float_nlt_trans (x y z : PrimFloat.float) :
  Float64.number x -> Float64.number y -> Float64.number z ->
  PrimFloat.ltb x y = false -> PrimFloat.ltb y z = false -> PrimFloat.ltb x z = false.
Proof.
  unfold Float64.number. rewrite !FloatAxioms.eqb_spec, !FloatAxioms.ltb_spec.
  intros Hx%SFeqb_not_nan Hy%SFeqb_not_nan Hz%SFeqb_not_nan.
  rewrite <- !not_true_iff_false, !SFltb_rank by done.
  unfold lex_lt. lia.
Qed.

(** ** The scorer on doubles *)

Lemma py_div_double_Ok a b : 0 < b -> exists q, Float64.py_div a b = Ok q.
Proof.
  intros Hb. unfold Float64.py_div. destruct (Nat.eqb_spec b 0); [lia|]. by eexists.
Qed.

(** The double score exists exactly when the exact score does, and the
    two computations raise the same exception. *)
Lemma compare_sigs_double_agrees s1 s2 :
  match Float64.compare_sigs s1 s2, compare_sigs s1 s2 with
  | Ok _, Ok _ => True
  | Raise e, Raise e' => e = e'
  | _, _ => False
  end.
Proof.
  unfold Float64.compare_sigs, compare_sigs.
  destruct (py_len s1) as [a|]; [|done]. simpl.
  destruct (py_len s2) as [b|]; [|done]. simpl.
  destruct (py_and_len s1 s2) as [i|]; [|done]. simpl.
  unfold Float64.py_div, py_div.
  destruct (Nat.max a b =? 0)%nat; [done|]. simpl.
  by destruct (a =? 0)%nat.
Qed.

Lemma compare_sigs_double_Ok s1 s2 q :
  compare_sigs s1 s2 = Ok q -> exists score, Float64.compare_sigs s1 s2 = Ok score.
Proof.
  intros H. pose proof (compare_sigs_double_agrees s1 s2) as Ha. rewrite H in Ha.
  destruct (Float64.compare_sigs s1 s2); [by eexists|done].
Qed.

Lemma compare_sigs_double_Raise s1 s2 e :
  compare_sigs s1 s2 = Raise e -> Float64.compare_sigs s1 s2 = Raise e.
Proof.
  intros H. pose proof (compare_sigs_double_agrees s1 s2) as Ha. rewrite H in Ha.
  destruct (Float64.compare_sigs s1 s2); [done|by subst].
Qed.

Lemma compare_sigs_double_value s1 s2 a b i :
  py_len s1 = Ok a -> py_len s2 = Ok b -> py_and_len s1 s2 = Ok i -> 0 < a ->
  exists q r,
    Float64.py_div i a = Ok q /\
    Float64.py_div (Nat.min a b) (Nat.max a b) = Ok r /\
    Float64.compare_sigs s1 s2 = Ok (PrimFloat.mul q r).
Proof.
  intros Ha Hb Hi Hpos. unfold Float64.compare_sigs. rewrite Ha, Hb, Hi. simpl.
  destruct (py_div_double_Ok i a Hpos) as [q Hq].
  destruct (py_div_double_Ok (Nat.min a b) (Nat.max a b)) as [r Hr]; [lia|].
  rewrite Hq, Hr. simpl. by exists q, r.
Qed.

(** ** Stable descending sort of doubles *)

Section SortedReverseDouble.

Context {A : Type}.
Implicit Types (x y : PrimFloat.float * A) (l : list (PrimFloat.float * A)).

Lemma insert_desc_double_perm x l : Float64.insert_desc x l ≡ₚ x :: l.
Proof.
  induction l as [|y l IH]; simpl; [done|].
  destruct (PrimFloat.ltb (fst x) (fst y)); [|done].
  by rewrite IH, Permutation_swap.
Qed.

Lemma sorted_reverse_double_perm l : Float64.sorted_reverse l ≡ₚ l.
Proof.
  induction l as [|x l IH]; simpl; [done|]. by rewrite insert_desc_double_perm, IH.
Qed.

Lemma insert_desc_double_HdRel z x l :
  Float64.key_ge z x -> HdRel Float64.key_ge z l ->
  HdRel Float64.key_ge z (Float64.insert_desc x l).
Proof.
  intros Hzx Hl. destruct l as [|y l]; simpl; [by constructor|].
  destruct (PrimFloat.ltb (fst x) (fst y)); constructor; [|done].
  by inversion Hl.
Qed.

Lemma insert_desc_double_Sorted x l :
  Sorted Float64.key_ge l -> Sorted Float64.key_ge (Float64.insert_desc x l).
Proof.
  induction 1 as [|y l Hl IH Hhd]; simpl; [by repeat constructor|].
  destruct (PrimFloat.ltb (fst x) (fst y)) eqn:Hlt.
  - constructor; [done|].
    apply insert_desc_double_HdRel; [|done]. by apply float_ltb_asym.
  - repeat constructor; done.
Qed.

Lemma sorted_reverse_double_Sorted l : Sorted Float64.key_ge (Float64.sorted_reverse l).
Proof.
  induction l as [|x l IH]; simpl; [constructor|]. by apply insert_desc_double_Sorted.
Qed.

Lemma insert_desc_double_stable k x l :
  filter (Float64.has_key k) (Float64.insert_desc x l)
  = filter (Float64.has_key k) (x :: l).
Proof.
  induction l as [|y l IH]; simpl; [done|].
  destruct (PrimFloat.ltb (fst x) (fst y)) eqn:Hlt; [|done].
  rewrite (filter_cons _ y), IH, !filter_cons.
  destruct (decide (Float64.has_key k y)) as [Hy|]; [|done].
  destruct (decide (Float64.has_key k x)) as [Hx|]; [|done].
  unfold Float64.has_key in *.
  by rewrite (float_eqb_ltb _ _ k Hx Hy) in Hlt.
Qed.

Lemma sorted_reverse_double_stable k l :
  filter (Float64.has_key k) (Float64.sorted_reverse l) = filter (Float64.has_key k) l.
Proof.
  induction l as [|x l IH]; simpl; [done|].
  by rewrite insert_desc_double_stable, !filter_cons, IH.
Qed.

End SortedReverseDouble.

Lemma SFcompare_numbers x y :
  SpecFloat.SFeqb x x = true -> SpecFloat.SFeqb y y = true ->
  exists c, SpecFloat.SFcompare x y = Some c.
Proof.
  destruct x as [sx|sx| |sx mx ex], y as [sy|sy| |sy my ey]; try done;
    intros _ _; simpl; by eexists.
Qed.

(** Between numbers, "not below" is "at least". *)
Lemma float_nlt_leb (x y : PrimFloat.float) :
  Float64.number x -> Float64.number y ->
  PrimFloat.ltb x y = false -> PrimFloat.leb y x = true.
Proof.
  unfold Float64.number.
  rewrite !FloatAxioms.eqb_spec, FloatAxioms.ltb_spec, FloatAxioms.leb_spec.
  intros Hx Hy. destruct (SFcompare_numbers _ _ Hx Hy) as [c Hc].
  unfold SpecFloat.SFltb, SpecFloat.SFleb.
  rewrite (SFcompare_antisym (FloatOps.Prim2SF x) (FloatOps.Prim2SF y)), Hc.
  by destruct c.
Qed.

(** A list of numbers in which no key is below the next one is in
    descending order between any two places. *)
Lemma Sorted_double_StronglySorted {A} (key : A -> PrimFloat.float) (l : list A) :
  Forall (fun t => Float64.number (key t)) l ->
  Sorted (fun a b => PrimFloat.ltb (key a) (key b) = false) l ->
  StronglySorted (fun a b => PrimFloat.leb (key b) (key a) = true) l.
Proof.
  intros Hnum HS.
  assert (StronglySorted (fun a b => PrimFloat.ltb (key a) (key b) = false) l) as HSS.
  { induction HS as [|a l HS IH Hhd]; [constructor|].
    apply Forall_cons in Hnum as [Ha Hl]. constructor; [by apply IH|].
    specialize (IH Hl). clear HS.
    destruct Hhd as [|b l Hab]; [constructor|].
    apply StronglySorted_inv in IH as [_ Hb].
    apply Forall_cons in Hl as [Hnb Hl]. constructor; [done|].
    apply Forall_forall. intros c Hc.
    apply (float_nlt_trans _ (key b)); try done.
    - by apply (proj1 (Forall_forall _ _) Hl).
    - by apply (proj1 (Forall_forall _ _) Hb). }
  clear HS. induction HSS as [|a l HSS IH Hall]; [constructor|].
  apply Forall_cons in Hnum as [Ha Hl]. constructor; [by apply IH|].
  apply Forall_forall. intros b Hb. apply float_nlt_leb; try done.
  - by apply (proj1 (Forall_forall _ _) Hl).
  - by apply (proj1 (Forall_forall _ _) Hall).
Qed.

(** ** The match selector on doubles *)

Section RankingDouble.

Variable THRESHOLD : PrimFloat.float.
Variable LIMIT : Z.
Variable match_sig : Signature.
Variable proto_list : list string.

Lemma elem_of_survivors_double registry name score :
  (name, score) ∈ Float64.survivors THRESHOLD match_sig registry <->
  exists sig, (name, sig) ∈ registry /\ contains_dot name = false /\
              Float64.compare_sigs match_sig sig = Ok score /\
              PrimFloat.ltb score THRESHOLD = false.
Proof.
  unfold Float64.survivors. rewrite list_elem_of_omap. split.
  - intros ([n sig] & Hin & Hs). unfold Float64.survivor in Hs. simpl in Hs.
    destruct (contains_dot n) eqn:Hdot; [done|].
    destruct (Float64.compare_sigs match_sig sig) as [q|] eqn:Hc; [|done].
    destruct (PrimFloat.ltb q THRESHOLD) eqn:Hlt; [done|].
    injection Hs as -> ->. by exists sig.
  - intros (sig & Hin & Hdot & Hc & Hge). exists (name, sig). split; [done|].
    unfold Float64.survivor. simpl. by rewrite Hdot, Hc, Hge.
Qed.

Lemma score_candidates_double_spec items acc sm :
  NoDup items.*1 ->
  (forall k, k ∈ items.*1 -> k ∉ acc.*1) ->
  Float64.score_candidates THRESHOLD match_sig items acc = Ok sm ->
  sm = (acc ++ Float64.survivors THRESHOLD match_sig items)%list.
Proof.
  revert acc. induction items as [|[name sig] items IH]; simpl; intros acc Hnd Hfresh H.
  - injection H as <-. by rewrite app_nil_r.
  - apply NoDup_cons in Hnd as [Hname Hnd].
    assert (forall k, k ∈ items.*1 -> k ∉ acc.*1) as Hfresh'.
    { intros k Hk. apply Hfresh. by right. }
    unfold Float64.survivors. simpl. unfold Float64.survivor at 1. simpl.
    destruct (contains_dot name); [by apply IH|].
    destruct (Float64.compare_sigs match_sig sig) as [score|]; [|done]. simpl in H.
    destruct (PrimFloat.ltb score THRESHOLD); [by apply IH|].
    rewrite dict_set_fresh in H by (apply Hfresh; left).
    apply IH in H; [|done|].
    + by rewrite H, <- app_assoc.
    + intros k Hk. rewrite fmap_app, elem_of_app. simpl.
      rewrite list_elem_of_singleton. intros [?| ->]; [by eapply Hfresh'|done].
Qed.

Lemma score_candidates_double_total items acc :
  Forall (fun item => contains_dot (fst item) = false ->
                      exists q, Float64.compare_sigs match_sig (snd item) = Ok q) items ->
  exists sm, Float64.score_candidates THRESHOLD match_sig items acc = Ok sm.
Proof.
  intros H. revert acc. induction H as [|[name sig] items Hx _ IH]; intros acc; simpl.
  - by eexists.
  - simpl in Hx. destruct (contains_dot name); [apply IH|].
    destruct Hx as [q ->]; [done|]. simpl.
    destruct (PrimFloat.ltb q THRESHOLD); apply IH.
Qed.

(** The scoring loop fails at the first top-level candidate whose
    comparison with the target fails. *)
Lemma score_candidates_double_raise items acc name sig e :
  (name, sig) ∈ items -> contains_dot name = false ->
  Float64.compare_sigs match_sig sig = Raise e ->
  (forall n s e', (n, s) ∈ items -> contains_dot n = false ->
     Float64.compare_sigs match_sig s = Raise e' -> e' = e) ->
  Float64.score_candidates THRESHOLD match_sig items acc = Raise e.
Proof.
  intros Hin Hdot Hsig Hall. revert acc.
  induction items as [|[n s] items IH]; intros acc; [by apply elem_of_nil in Hin|].
  assert (forall acc', (name, sig) ∈ items ->
            Float64.score_candidates THRESHOLD match_sig items acc' = Raise e) as IH'.
  { intros acc' Hin'. apply IH; [done|]. intros n' s' e' H'. apply Hall. by right. }
  simpl. destruct (contains_dot n) eqn:Hn.
  - apply elem_of_cons in Hin as [[= <- <-]|Hin]; [congruence|]. by apply IH'.
  - destruct (Float64.compare_sigs match_sig s) as [score|e'] eqn:Hs; simpl.
    + apply elem_of_cons in Hin as [[= <- <-]|Hin]; [congruence|].
      destruct (PrimFloat.ltb score THRESHOLD); by apply IH'.
    + f_equal. apply (Hall n s); [by left|done|done].
Qed.

Lemma sort_key_double_Ok tup k :
  Float64.sort_key proto_list tup = Ok k ->
  k = Float64.combined_score proto_list tup /\
  exists idx pos,
    list_index (fst tup) proto_list = Ok idx /\
    Float64.py_div (idx + 1) (length proto_list) = Ok pos /\
    k = PrimFloat.add (snd tup)
          (PrimFloat.mul (PrimFloat.sub Float64.one pos) Float64.half).
Proof.
  intros H. unfold Float64.combined_score. rewrite H. split; [done|].
  unfold Float64.sort_key in H.
  destruct (list_index (fst tup) proto_list) as [idx|]; [|done]. simpl in H.
  destruct (Float64.py_div (idx + 1) (length proto_list)) as [pos|] eqn:Hpos; [|done].
  simpl in H. injection H as <-. exists idx, pos. repeat split; done.
Qed.

Lemma sort_key_double_total tup :
  fst tup ∈ proto_list -> exists k, Float64.sort_key proto_list tup = Ok k.
Proof.
  intros Hin. unfold Float64.sort_key.
  destruct (list_index_elem_of _ _ Hin) as [idx ->]. simpl.
  destruct (py_div_double_Ok (idx + 1) (length proto_list)) as [pos ->];
    [|by eexists].
  destruct proto_list; [by apply elem_of_nil in Hin | simpl; lia].
Qed.

Lemma sort_key_double_exn tup e :
  Float64.sort_key proto_list tup = Raise e ->
  e = ValueError /\ fst tup ∉ proto_list.
Proof.
  unfold Float64.sort_key.
  destruct (list_index (fst tup) proto_list) as [idx|e'] eqn:Hi; simpl.
  - apply list_index_Ok in Hi.
    destruct (py_div_double_Ok (idx + 1) (length proto_list)) as [pos ->]; [|done].
    destruct proto_list; [by apply elem_of_nil in Hi | simpl; lia].
  - intros [= <-]. split; [by eapply list_index_exn|].
    intros [idx Hidx]%list_index_elem_of. congruence.
Qed.

(** The list that [get_matches] ranks, before it is cut at the limit. *)
Lemma matches_sorted_double_spec (score_map : list (string * PrimFloat.float)) keyed :
  res_mapM (fun tup => res_bind (Float64.sort_key proto_list tup) (fun k => Ok (k, tup)))
    score_map = Ok keyed ->
  let ranked := map snd (Float64.sorted_reverse keyed) in
  ranked ≡ₚ score_map /\
  Sorted (fun a b => PrimFloat.ltb (Float64.combined_score proto_list a)
                        (Float64.combined_score proto_list b) = false) ranked /\
  (forall k, filter (Float64.tied_at proto_list k) ranked
             = filter (Float64.tied_at proto_list k) score_map) /\
  Forall (fun t => exists idx pos,
    list_index (fst t) proto_list = Ok idx /\
    Float64.py_div (idx + 1) (length proto_list) = Ok pos /\
    Float64.combined_score proto_list t
    = PrimFloat.add (snd t)
        (PrimFloat.mul (PrimFloat.sub Float64.one pos) Float64.half)) ranked.
Proof.
  intros HM%res_mapM_Ok.
  assert (keyed = map (fun t => (Float64.combined_score proto_list t, t)) score_map /\
          Forall (fun t => exists idx pos,
            list_index (fst t) proto_list = Ok idx /\
            Float64.py_div (idx + 1) (length proto_list) = Ok pos /\
            Float64.combined_score proto_list t
            = PrimFloat.add (snd t)
                (PrimFloat.mul (PrimFloat.sub Float64.one pos) Float64.half))
            score_map) as [-> Hall].
  { induction HM as [|t kt sm kd Ht _ [IH1 IH2]]; [done|].
    destruct (Float64.sort_key proto_list t) as [k|] eqn:Hk; [|done].
    simpl in Ht. injection Ht as <-.
    apply sort_key_double_Ok in Hk as [-> (idx & pos & Hidx & Hpos & Heq)].
    split; [simpl; by f_equal|]. constructor; [by exists idx, pos|done]. }
  set (keyed := map (fun t => (Float64.combined_score proto_list t, t)) score_map).
  assert (Forall (fun kt => fst kt = Float64.combined_score proto_list (snd kt))
            (Float64.sorted_reverse keyed)) as Hkeys.
  { rewrite sorted_reverse_double_perm. subst keyed. apply Forall_fmap.
    by apply Forall_true. }
  assert (map snd keyed = score_map) as Hsnd.
  { subst keyed. rewrite map_map. simpl. apply map_id. }
  simpl. repeat split.
  - etrans; [apply Permutation_map, sorted_reverse_double_perm|]. by rewrite Hsnd.
  - pose proof (sorted_reverse_double_Sorted keyed) as HS.
    induction HS as [|kt l HS IH Hhd]; simpl; [constructor|].
    apply Forall_cons in Hkeys as [Hkt Hl]. constructor; [by apply IH|].
    destruct Hhd as [|kt' l' Hge]; simpl; constructor.
    apply Forall_cons in Hl as [Hkt' _].
    unfold Float64.key_ge in *. by rewrite <- Hkt, <- Hkt'.
  - intros k.
    assert (forall l : list (PrimFloat.float * (string * PrimFloat.float)),
              Forall (fun kt => fst kt = Float64.combined_score proto_list (snd kt)) l ->
              filter (Float64.tied_at proto_list k) (map snd l)
              = map snd (filter (Float64.has_key k) l)) as Hf.
    { induction 1 as [|kt l Hkt _ IH]; [done|]. simpl.
      rewrite !filter_cons, IH.
      destruct (decide (Float64.tied_at proto_list k (snd kt))) as [H1|H1],
               (decide (Float64.has_key k kt)) as [H2|H2]; try done;
        unfold Float64.tied_at, Float64.has_key in *; rewrite <- Hkt in *; done. }
    rewrite Hf by done. rewrite sorted_reverse_double_stable, <- Hf, Hsnd; [done|].
    by rewrite <- (sorted_reverse_double_perm keyed).
  - rewrite (Permutation_map snd (sorted_reverse_double_perm keyed)), Hsnd. done.
Qed.

End RankingDouble.

Lemma slice_to_take {A} (n : Z) (l : list A) :
  ((0 <= n)%Z -> slice_to n l = take (Z.to_nat n) l) /\
  ((n < 0)%Z -> slice_to n l = take (length l - Z.to_nat (- n)) l).
Proof.
  unfold slice_to. destruct (Z.leb_spec 0 n); split; (done || lia).
Qed.

Lemma get_matches_double_returns (THRESHOLD : PrimFloat.float) (LIMIT : Z)
    (match_sig : Signature) (registry : Registry) (proto_list : list string) :
  NoDup registry.*1 ->
  is_container match_sig = true -> truthy match_sig = true ->
  (forall name sig, (name, sig) ∈ registry -> contains_dot name = false ->
     is_container sig = true) ->
  (forall name score,
     (name, score) ∈ Float64.survivors THRESHOLD match_sig registry ->
     name ∈ proto_list) ->
  exists view,
    Float64.get_matches THRESHOLD LIMIT match_sig registry proto_list = Ok view.
Proof.
  intros Hnd Hc Ht Hreg Hlisted. unfold Float64.get_matches.
  destruct (score_candidates_double_total THRESHOLD match_sig registry []) as [sm Hsm].
  { apply Forall_forall. intros [name sig] Hin Hdot. simpl in *.
    destruct (compare_sigs_containers match_sig sig) as [q Hq]; try done.
    - by eapply Hreg.
    - by eapply compare_sigs_double_Ok. }
  rewrite Hsm. simpl.
  apply score_candidates_double_spec in Hsm; [|done|intros ? _; apply not_elem_of_nil].
  simpl in Hsm. destruct sm as [|t sm]; [by eexists|].
  destruct (res_mapM_total
    (fun tup => res_bind (Float64.sort_key proto_list tup) (fun k => Ok (k, tup)))
    (t :: sm)) as [keyed ->]; [|by eexists].
  rewrite Hsm. apply Forall_forall. intros [name score] Hin.
  destruct (sort_key_double_total proto_list (name, score)) as [k ->]; [|by eexists].
  by eapply Hlisted.
Qed.

Lemma get_matches_double_sound (THRESHOLD : PrimFloat.float) (LIMIT : Z)
    (match_sig : Signature) (registry : Registry) (proto_list : list string)
    (view : list (string * PrimFloat.float)) :
  NoDup registry.*1 ->
  Float64.get_matches THRESHOLD LIMIT match_sig registry proto_list = Ok view ->
  exists ranked,
    view = slice_to LIMIT ranked /\
    ranked ≡ₚ Float64.survivors THRESHOLD match_sig registry /\
    Sorted (fun a b => PrimFloat.ltb (Float64.combined_score proto_list a)
                        (Float64.combined_score proto_list b) = false) ranked /\
    (forall k, filter (Float64.tied_at proto_list k) ranked =
               filter (Float64.tied_at proto_list k)
                 (Float64.survivors THRESHOLD match_sig registry)) /\
    Forall (fun t => exists idx pos,
      list_index (fst t) proto_list = Ok idx /\
      Float64.py_div (idx + 1) (length proto_list) = Ok pos /\
      Float64.combined_score proto_list t
      = PrimFloat.add (snd t)
          (PrimFloat.mul (PrimFloat.sub Float64.one pos) Float64.half)) ranked.
Proof.
  intros Hnd H. unfold Float64.get_matches in H.
  destruct (Float64.score_candidates THRESHOLD match_sig registry []) as [sm|] eqn:Hsm;
    [|done].
  apply score_candidates_double_spec in Hsm; [|done|intros ? _; apply not_elem_of_nil].
  simpl in Hsm, H. subst sm.
  destruct (Float64.survivors THRESHOLD match_sig registry) as [|t sm'] eqn:Esm.
  - injection H as <-. exists []. rewrite slice_to_nil.
    repeat split; try done; constructor.
  - destruct (res_mapM _ (t :: sm')) as [keyed|] eqn:Hkeyed; [|done].
    simpl in H. injection H as <-.
    destruct (matches_sorted_double_spec proto_list _ _ Hkeyed) as (? & ? & ? & ?).
    by eexists.
Qed.

(** ** Scores and keys are numbers

    No operation of the scorer or of [sort_key] overflows or yields a
    NaN: every quotient is at most 1.  The bounds below follow the
    magnitude of each intermediate result through the rounding steps of
    the operations. *)

Section Magnitudes.

Local Open Scope Z_scope.

Local Abbreviation digits := SpecFloat.Zdigits2.
Local Abbreviation round_aux :=
  (SpecFloat.binary_round_aux FloatOps.prec FloatOps.emax).

Lemma SFbelow_le K K' x : K <= K' -> SFbelow K x -> SFbelow K' x.
Proof. intros HK. destruct x; simpl; try done. lia. Qed.

Lemma digits2_pos_size p : SpecFloat.digits2_pos p = Pos.size p.
Proof. induction p as [p IH|p IH|]; simpl; by rewrite ?IH. Qed.

Lemma digits_pos_bounds p :
  2 ^ (Zpos (SpecFloat.digits2_pos p) - 1) <= Zpos p
  < 2 ^ Zpos (SpecFloat.digits2_pos p).
Proof.
  rewrite digits2_pos_size. split.
  - pose proof (Pos.size_le p) as H.
    apply (Pos2Z.pos_le_pos _ _) in H || idtac.
    assert (2 ^ Zpos (Pos.size p) <= 2 * Zpos p) as H'.
    { rewrite <- (Pos2Z.inj_pow 2 (Pos.size p)). exact H. }
    replace (Zpos (Pos.size p)) with (Z.succ (Zpos (Pos.size p) - 1)) in H' by lia.
    rewrite Z.pow_succ_r in H' by lia. lia.
  - pose proof (Pos.size_gt p) as H.
    rewrite <- (Pos2Z.inj_pow 2 (Pos.size p)). exact H.
Qed.

Lemma digits_nonneg m : 0 <= digits m.
Proof. destruct m; simpl; lia. Qed.

Lemma digits_upper m : 0 <= m -> m < 2 ^ digits m.
Proof.
  destruct m as [|p|p]; simpl; [lia| |lia]. intros _. apply digits_pos_bounds.
Qed.

(** A number below [2 ^ k] has at most [k] digits. *)
Lemma digits_le m k : 0 <= k -> Z.abs m < 2 ^ k -> digits m <= k.
Proof.
  intros Hk Hm.
  assert (forall p, Zpos p < 2 ^ k -> Zpos (SpecFloat.digits2_pos p) <= k) as Hp.
  { intros p Hlt. pose proof (digits_pos_bounds p) as [Hlo _].
    assert (2 ^ (Zpos (SpecFloat.digits2_pos p) - 1) < 2 ^ k) as H by lia.
    apply Z.pow_lt_mono_r_iff in H; lia. }
  destruct m as [|p|p]; simpl in *; [lia|by apply Hp|by apply Hp].
Qed.

Lemma shr_1_digits mrs :
  0 <= SpecFloat.shr_m mrs ->
  0 <= SpecFloat.shr_m (SpecFloat.shr_1 mrs) /\
  digits (SpecFloat.shr_m (SpecFloat.shr_1 mrs))
  = Z.max 0 (digits (SpecFloat.shr_m mrs) - 1).
Proof.
  destruct mrs as [m r s]. simpl.
  destruct m as [|[p|p|]|p]; simpl; try lia.
Qed.

Lemma iter_shr_1_digits p mrs :
  0 <= SpecFloat.shr_m mrs ->
  0 <= SpecFloat.shr_m (SpecFloat.iter_pos SpecFloat.shr_1 p mrs) /\
  digits (SpecFloat.shr_m (SpecFloat.iter_pos SpecFloat.shr_1 p mrs))
  = Z.max 0 (digits (SpecFloat.shr_m mrs) - Zpos p).
Proof.
  revert mrs. induction p as [p IH|p IH|]; intros mrs Hm; simpl.
  - destruct (shr_1_digits mrs Hm) as [H1 E1].
    destruct (IH _ H1) as [H2 E2]. destruct (IH _ H2) as [H3 E3].
    split; [done|]. rewrite E3, E2, E1. lia.
  - destruct (IH _ Hm) as [H2 E2]. destruct (IH _ H2) as [H3 E3].
    split; [done|]. rewrite E3, E2. lia.
  - destruct (shr_1_digits mrs Hm) as [H1 E1]. split; [done|]. rewrite E1. lia.
Qed.

Lemma shr_fexp_digits m e l mrs e' :
  SpecFloat.shr_fexp FloatOps.prec FloatOps.emax m e l = (mrs, e') ->
  0 <= m ->
  0 <= SpecFloat.shr_m mrs /\
  e' = Z.max e (Z.max (digits m + e - 53) (-1074)) /\
  digits (SpecFloat.shr_m mrs) + e' <= Z.max (digits m + e) e'.
Proof.
  unfold SpecFloat.shr_fexp, SpecFloat.shr, SpecFloat.fexp, SpecFloat.emin.
  change FloatOps.prec with 53. change FloatOps.emax with 1024.
  change (3 - 1024 - 53) with (-1074).
  assert (SpecFloat.shr_m (SpecFloat.shr_record_of_loc m l) = m) as Hm.
  { by destruct l as [|[| |]]. }
  intros H Hpos.
  destruct (Z.max (digits m + e - 53) (-1074) - e) as [|n|n] eqn:Hn.
  - injection H as <- <-. rewrite Hm. lia.
  - injection H as <- <-.
    destruct (iter_shr_1_digits n (SpecFloat.shr_record_of_loc m l)) as [H1 E1];
      [by rewrite Hm|].
    rewrite Hm in E1. split; [done|]. rewrite E1. lia.
  - injection H as <- <-. rewrite Hm. lia.
Qed.

Lemma round_nearest_even_bounds m l :
  0 <= m ->
  0 <= SpecFloat.round_nearest_even m l <= m + 1.
Proof.
  intros Hm. destruct l as [|[| |]]; simpl; try lia.
  destruct (Z.even m); lia.
Qed.

Lemma digits_succ_le m r : 0 <= m -> 0 <= r <= m + 1 -> digits r <= digits m + 1.
Proof.
  intros Hm Hr. pose proof (digits_upper m Hm) as Hlt.
  pose proof (digits_nonneg m) as Hd.
  apply digits_le; [lia|]. rewrite Z.abs_eq by lia.
  rewrite Z.pow_add_r by lia. change (2 ^ 1) with 2. lia.
Qed.

(** Rounding a number of magnitude below [2 ^ K] gives a finite number
    of magnitude below [2 ^ (K + 1)]. *)
Lemma binary_round_aux_below sx m e l K :
  0 <= m -> digits m + e <= K -> e <= K -> 0 <= K <= 971 ->
  SFbelow (K + 1) (round_aux sx m e l).
Proof.
  intros Hm Hmag He HK. unfold SpecFloat.binary_round_aux.
  destruct (SpecFloat.shr_fexp _ _ m e l) as [mrs1 e1] eqn:H1.
  apply shr_fexp_digits in H1 as (Hm1 & He1 & Hd1); [|done].
  pose proof (round_nearest_even_bounds (SpecFloat.shr_m mrs1)
                (SpecFloat.loc_of_shr_record mrs1) Hm1) as Hr.
  pose proof (digits_succ_le _ _ Hm1 Hr) as Hdr.
  destruct (SpecFloat.shr_fexp _ _ _ e1 _) as [mrs2 e2] eqn:H2.
  apply shr_fexp_digits in H2 as (Hm2 & He2 & Hd2); [|lia].
  destruct (SpecFloat.shr_m mrs2) as [|p|p] eqn:Hp; simpl; [done| |lia].
  simpl in Hd2.
  destruct (Z.leb_spec e2 (FloatOps.emax - FloatOps.prec)) as [_|Hbig]; simpl.
  - lia.
  - change (FloatOps.emax - FloatOps.prec) with 971 in Hbig. lia.
Qed.

Lemma iter_xO_digits mx d :
  Zpos (SpecFloat.digits2_pos (Pos.iter xO mx d))
  = Zpos (SpecFloat.digits2_pos mx) + Zpos d /\
  Zpos (Pos.iter xO mx d) = Zpos mx * 2 ^ Zpos d.
Proof.
  induction d as [|d [IH1 IH2]] using Pos.peano_ind.
  - simpl. split; lia.
  - rewrite Pos.iter_succ. simpl SpecFloat.digits2_pos.
    rewrite !Pos2Z.inj_succ, IH1, Pos2Z.inj_xO, IH2, Z.pow_succ_r by lia.
    split; lia.
Qed.

Lemma shl_align_digits mx ex ex' mz ez :
  SpecFloat.shl_align mx ex ex' = (mz, ez) ->
  Zpos (SpecFloat.digits2_pos mz) + ez = Zpos (SpecFloat.digits2_pos mx) + ex /\
  ez <= ex /\
  Zpos mz = Zpos mx * 2 ^ (ex - ez) /\
  (ex' <= ex -> ez = ex').
Proof.
  unfold SpecFloat.shl_align. destruct (ex' - ex) as [|d|d] eqn:Hd.
  - intros [= <- <-]. rewrite Z.sub_diag. simpl. repeat split; lia.
  - intros [= <- <-]. rewrite Z.sub_diag. simpl. repeat split; lia.
  - intros [= <- <-]. destruct (iter_xO_digits mx d) as [H1 H2].
    rewrite H1, H2. replace (ex - ex') with (Zpos d) by lia. repeat split; lia.
Qed.

Lemma binary_round_below sx mx ex K :
  Zpos (SpecFloat.digits2_pos mx) + ex <= K -> 0 <= K <= 971 ->
  SFbelow (K + 1) (SpecFloat.binary_round FloatOps.prec FloatOps.emax sx mx ex).
Proof.
  intros Hmag HK. unfold SpecFloat.binary_round.
  destruct (SpecFloat.shl_align mx ex _) as [mz ez] eqn:Hz.
  apply shl_align_digits in Hz as (Hd & _).
  apply binary_round_aux_below; simpl; try lia.
Qed.

Lemma binary_normalize_below m e sz K :
  digits m + e <= K -> 0 <= K <= 971 ->
  SFbelow (K + 1) (SpecFloat.binary_normalize FloatOps.prec FloatOps.emax m e sz).
Proof.
  intros Hmag HK. destruct m as [|p|p]; simpl; [done| |];
    by apply binary_round_below.
Qed.

Lemma SFopp_below K x : SFbelow K x -> SFbelow K (SpecFloat.SFopp x).
Proof. by destruct x. Qed.

Lemma SFmul_below Kx Ky x y :
  SFbelow Kx x -> SFbelow Ky y -> 0 <= Kx + Ky <= 971 ->
  SFbelow (Kx + Ky + 1) (SpecFloat.SFmul FloatOps.prec FloatOps.emax x y).
Proof.
  destruct x as [sx|sx| |sx mx ex], y as [sy|sy| |sy my ey]; simpl; try done.
  intros Hx Hy HK.
  pose proof (digits_pos_bounds mx) as [Hx1 Hx2].
  pose proof (digits_pos_bounds my) as [Hy1 Hy2].
  assert (digits (Zpos (mx * my))
          <= Zpos (SpecFloat.digits2_pos mx) + Zpos (SpecFloat.digits2_pos my)) as H.
  { apply digits_le; [lia|]. rewrite Z.abs_eq, Pos2Z.inj_mul, Z.pow_add_r by lia.
    apply Z.mul_lt_mono_nonneg; lia. }
  apply binary_round_aux_below; lia.
Qed.

(** The sum of two aligned mantissas, under any signs. *)
Lemma aligned_sum_below sx mx ex sy my ey K (op : Z -> Z -> Z) :
  (forall a b, Z.abs (op a b) <= Z.abs a + Z.abs b) ->
  Zpos (SpecFloat.digits2_pos mx) + ex <= K ->
  Zpos (SpecFloat.digits2_pos my) + ey <= K ->
  0 <= K + 1 <= 971 ->
  SFbelow (K + 2)
    (SpecFloat.binary_normalize FloatOps.prec FloatOps.emax
       (op (SpecFloat.cond_Zopp sx (Zpos (fst (SpecFloat.shl_align mx ex (Z.min ex ey)))))
           (SpecFloat.cond_Zopp sy (Zpos (fst (SpecFloat.shl_align my ey (Z.min ex ey))))))
       (Z.min ex ey) false).
Proof.
  intros Hop Hx Hy HK. set (ez := Z.min ex ey).
  destruct (SpecFloat.shl_align mx ex ez) as [ax ex1] eqn:Hax.
  destruct (SpecFloat.shl_align my ey ez) as [ay ey1] eqn:Hay.
  apply shl_align_digits in Hax as (_ & _ & Hax & Hex).
  apply shl_align_digits in Hay as (_ & _ & Hay & Hey).
  rewrite Hex in Hax by lia. rewrite Hey in Hay by lia. simpl fst.
  pose proof (digits_pos_bounds mx) as [_ Hmx].
  pose proof (digits_pos_bounds my) as [_ Hmy].
  pose proof (Pos2Z.is_pos (SpecFloat.digits2_pos mx)).
  pose proof (Pos2Z.is_pos (SpecFloat.digits2_pos my)).
  assert (forall m e a, Zpos a = Zpos m * 2 ^ (e - ez) -> ez <= e ->
            Zpos m < 2 ^ Zpos (SpecFloat.digits2_pos m) ->
            Zpos (SpecFloat.digits2_pos m) + e <= K ->
            Zpos a < 2 ^ (K - ez)) as Hbound.
  { intros m e a Ha Hle Hm Hme. rewrite Ha.
    replace (K - ez) with ((K - e) + (e - ez)) by lia.
    rewrite Z.pow_add_r by lia.
    apply Z.mul_lt_mono_pos_r; [apply Z.pow_pos_nonneg; lia|].
    eapply Z.lt_le_trans; [exact Hm|]. apply Z.pow_le_mono_r; lia. }
  pose proof (Hbound mx ex ax Hax ltac:(lia) Hmx Hx) as Bx.
  pose proof (Hbound my ey ay Hay ltac:(lia) Hmy Hy) as By.
  replace (K + 2) with ((K + 1) + 1) by lia.
  apply binary_normalize_below; [|lia].
  assert (digits (op (SpecFloat.cond_Zopp sx (Zpos ax)) (SpecFloat.cond_Zopp sy (Zpos ay)))
          <= K - ez + 1) as Hd; [|lia].
  apply digits_le; [lia|].
  eapply Z.le_lt_trans; [apply Hop|].
  rewrite Z.pow_add_r by lia. change (2 ^ 1) with 2.
  assert (forall s a, Z.abs (SpecFloat.cond_Zopp s (Zpos a)) = Zpos a) as Habs.
  { by intros [] a. }
  rewrite !Habs. lia.
Qed.

Lemma SFadd_below K x y :
  SFbelow K x -> SFbelow K y -> 0 <= K + 1 <= 971 ->
  SFbelow (K + 2) (SpecFloat.SFadd FloatOps.prec FloatOps.emax x y).
Proof.
  destruct x as [sx|sx| |sx mx ex], y as [sy|sy| |sy my ey]; simpl; try done;
    intros Hx Hy HK; try lia.
  - by destruct sx, sy.
  - apply (aligned_sum_below sx mx ex sy my ey K Z.add); try done. lia.
Qed.

Lemma SFsub_below K x y :
  SFbelow K x -> SFbelow K y -> 0 <= K + 1 <= 971 ->
  SFbelow (K + 2) (SpecFloat.SFsub FloatOps.prec FloatOps.emax x y).
Proof.
  destruct x as [sx|sx| |sx mx ex], y as [sy|sy| |sy my ey]; simpl; try done;
    intros Hx Hy HK; try lia.
  - by destruct sx, sy.
  - apply (aligned_sum_below sx mx ex sy my ey K Z.sub); try done. lia.
Qed.

(** The quotient of two integers, the first of which is not the larger
    one, rounds to a finite number below 2. *)
Lemma SFdiv_of_int_below a b :
  (a <= b)%nat -> (0 < b)%nat ->
  SFbelow 2
    (SpecFloat.SFdiv FloatOps.prec FloatOps.emax (Float64.of_int a) (Float64.of_int b)).
Proof.
  intros Hab Hb. unfold Float64.of_int.
  destruct (Z.of_nat b) as [|pb|pb] eqn:Eb; [lia| |lia].
  destruct (Z.of_nat a) as [|pa|pa] eqn:Ea; [done| |lia].
  assert (Zpos pa <= Zpos pb) as Hle by lia.
  unfold SpecFloat.SFdiv, SpecFloat.SFdiv_core_binary.
  set (e' := Z.min _ _).
  assert (e' <= 0) as He' by (subst e'; lia).
  set (m' := match 0 - 0 - e' with Z0 => Zpos pa | Zpos _ => _ | Zneg _ => 0 end).
  assert (m' = Zpos pa * 2 ^ (- e')) as Hm'.
  { subst m'. destruct (0 - 0 - e') as [|s|s] eqn:Hs; [|..|lia].
    - replace (- e') with 0 by lia. simpl. lia.
    - rewrite Z.shiftl_mul_pow2 by lia. f_equal. f_equal. lia. }
  clearbody m' e'.
  pose proof (Z.pow_pos_nonneg 2 (- e') ltac:(lia) ltac:(lia)) as Hpow.
  assert (0 <= m' / Zpos pb <= 2 ^ (- e')) as Hq.
  { split; [apply Z.div_pos; nia|]. apply Z.div_le_upper_bound; [lia|]. nia. }
  unfold Z.div in Hq. destruct (Z.div_eucl m' (Zpos pb)) as [q r].
  change 2 with (1 + 1) at 1. apply binary_round_aux_below; try lia.
  assert (digits q <= - e' + 1) as Hd; [|lia].
  apply digits_le; [lia|]. rewrite Z.abs_eq, Z.pow_add_r by lia.
  change (2 ^ 1) with 2. lia.
Qed.

(** Going through a primitive float keeps a finite number finite. *)
Lemma SF2Prim_below K x :
  SFbelow K x -> 0 <= K + 63 <= 971 ->
  SFbelow (K + 64) (FloatOps.Prim2SF (FloatOps.SF2Prim x)).
Proof.
  destruct x as [[]|sx| |sx mx ex]; simpl; try done.
  intros Hx HK.
  assert (SFbelow (K + 64)
            (FloatOps.Prim2SF
               (FloatOps.Z.ldexp
                  (PrimFloat.of_uint63 (Uint63Axioms.of_Z (Zpos mx))) ex))) as H.
  { rewrite FloatLemmas.Z_ldexp_spec, FloatAxioms.of_uint63_spec.
    pose proof (Uint63.to_Z_bounded (Uint63Axioms.of_Z (Zpos mx))) as [Hlo Hhi].
    change Uint63Axioms.wB with (2 ^ 63) in Hhi.
    set (m := Uint63Axioms.to_Z _) in *. clearbody m.
    assert (digits m <= 63) as Hd.
    { apply digits_le; [lia|]. by rewrite Z.abs_eq. }
    pose proof (binary_normalize_below m 0 false 63 ltac:(lia) ltac:(lia)) as Hn.
    pose proof (Pos2Z.is_pos (SpecFloat.digits2_pos mx)).
    destruct (SpecFloat.binary_normalize _ _ m 0 false) as [s1|s1| |s1 m1 e1];
      simpl in *; try done.
    replace (K + 64) with ((K + 63) + 1) by lia.
    apply binary_round_below; lia. }
  destruct sx; [|done]. rewrite FloatAxioms.opp_spec. by apply SFopp_below.
Qed.

Lemma SFbelow_number K x : SFbelow K (FloatOps.Prim2SF x) -> Float64.number x.
Proof.
  unfold Float64.number. rewrite FloatAxioms.eqb_spec. unfold SpecFloat.SFeqb.
  destruct (FloatOps.Prim2SF x) as [s|s| |s m e]; try done.
  intros _. by rewrite SFcompare_refl_finite.
Qed.

Lemma py_div_double_below a b q :
  (a <= b)%nat -> Float64.py_div a b = Ok q -> SFbelow 66 (FloatOps.Prim2SF q).
Proof.
  intros Hab. unfold Float64.py_div.
  destruct (Nat.eqb_spec b 0) as [|Hb]; [done|]. intros [= <-].
  apply (SF2Prim_below 2); [|lia]. apply SFdiv_of_int_below; lia.
Qed.

End Magnitudes.

(** A score is a finite number. *)
Lemma compare_sigs_double_below s1 s2 score :
  Float64.compare_sigs s1 s2 = Ok score -> SFbelow 133 (FloatOps.Prim2SF score).
Proof.
  unfold Float64.compare_sigs.
  destruct (py_len s1) as [a|] eqn:Ha; [|done]. simpl.
  destruct (py_len s2) as [b|] eqn:Hb; [|done]. simpl.
  destruct (py_and_len s1 s2) as [i|] eqn:Hi; [|done]. simpl.
  destruct (Float64.py_div (Nat.min a b) (Nat.max a b)) as [r|] eqn:Hr; [|done].
  simpl. destruct (Float64.py_div i a) as [q|] eqn:Hq; [|done]. simpl.
  intros [= <-]. rewrite FloatAxioms.mul_spec.
  apply py_div_double_below in Hr; [|lia].
  apply py_div_double_below in Hq; [|by eapply py_and_len_le].
  by apply (SFmul_below 66 66).
Qed.

(** The key of a finite score is a finite number. *)
Lemma sort_key_double_below proto_list tup k :
  SFbelow 133 (FloatOps.Prim2SF (snd tup)) ->
  Float64.sort_key proto_list tup = Ok k ->
  SFbelow 135 (FloatOps.Prim2SF k).
Proof.
  intros Hscore. unfold Float64.sort_key.
  destruct (list_index (fst tup) proto_list) as [idx|] eqn:Hidx; [|done]. simpl.
  destruct (Float64.py_div (idx + 1) (length proto_list)) as [pos|] eqn:Hpos;
    [|done]. simpl. intros [= <-].
  apply py_div_double_below in Hpos; [|apply list_index_lt in Hidx; lia].
  rewrite FloatAxioms.add_spec, FloatAxioms.mul_spec, FloatAxioms.sub_spec.
  apply (SFadd_below 133); [done| |lia].
  apply (SFbelow_le 69); [lia|].
  apply (SFmul_below 68 0); [| |lia].
  - apply (SFsub_below 66); [|done|lia]. by vm_compute.
  - by vm_compute.
Qed.

Lemma combined_score_number proto_list match_sig sig name score k :
  Float64.compare_sigs match_sig sig = Ok score ->
  Float64.sort_key proto_list (name, score) = Ok k ->
  Float64.number (Float64.combined_score proto_list (name, score)).
Proof.
  intros Hscore Hk. unfold Float64.combined_score. rewrite Hk.
  apply (SFbelow_number 135), (sort_key_double_below proto_list (name, score));
    [|done].
  by eapply compare_sigs_double_below.
Qed.

(** C7: [get_matches] scores the target against every candidate of the
    registry whose name has no ["."], keeps those whose score (a double)
    is not below the threshold, orders them by descending
    [score + (1 - (index + 1) / len(proto_list)) * 0.5], the key that
    [sort_key] computes on doubles (scores and keys are numbers, never a
    NaN, so that every entry of the ranking has a key at least as large
    as the key of every later entry), entries with equal keys staying in
    the order of the registry (the order in which the candidates were
    declared and registered), and displays the first
    [MAX_DISPLAY_MATCHES] of them (all but the last [-MAX_DISPLAY_MATCHES]
    when the limit is negative).  It does return whenever the target is a
    non-empty container and the top-level candidates are containers listed
    in [proto_list]. *)
Theorem get_matches_ranking (THRESHOLD : PrimFloat.float) (LIMIT : Z)
    (match_sig : Signature) (registry : Registry) (proto_list : list string) :
  NoDup registry.*1 ->
  (is_container match_sig = true -> truthy match_sig = true ->
   (forall name sig, (name, sig) ∈ registry -> contains_dot name = false ->
      is_container sig = true /\ name ∈ proto_list) ->
   exists view,
     Float64.get_matches THRESHOLD LIMIT match_sig registry proto_list = Ok view) /\
  (forall view,
     Float64.get_matches THRESHOLD LIMIT match_sig registry proto_list = Ok view ->
     exists ranked,
       ((0 <= LIMIT)%Z -> view = take (Z.to_nat LIMIT) ranked) /\
       ((LIMIT < 0)%Z -> view = take (length ranked - Z.to_nat (- LIMIT)) ranked) /\
       (forall name score,
          (name, score) ∈ ranked <->
          exists sig, (name, sig) ∈ registry /\ contains_dot name = false /\
                      Float64.compare_sigs match_sig sig = Ok score /\
                      PrimFloat.ltb score THRESHOLD = false) /\
       ranked ≡ₚ Float64.survivors THRESHOLD match_sig registry /\
       StronglySorted (Float64.ranks_before proto_list) ranked /\
       Forall (fun t => Float64.number (snd t) /\
                        Float64.number (Float64.combined_score proto_list t))
         ranked /\
       (forall k, filter (Float64.tied_at proto_list k) ranked =
                  filter (Float64.tied_at proto_list k)
                    (Float64.survivors THRESHOLD match_sig registry)) /\
       Forall (fun t => exists idx pos,
         list_index (fst t) proto_list = Ok idx /\
         Float64.py_div (idx + 1) (length proto_list) = Ok pos /\
         Float64.combined_score proto_list t
         = PrimFloat.add (snd t)
             (PrimFloat.mul (PrimFloat.sub Float64.one pos) Float64.half)) ranked).
Proof.
  intros Hnd. split.
  { intros Hc Ht Hreg. apply get_matches_double_returns; try done.
    - intros name sig Hin Hdot. by destruct (Hreg name sig Hin Hdot).
    - intros name score (sig & Hin & Hdot & _)%elem_of_survivors_double.
      by destruct (Hreg name sig Hin Hdot). }
  intros view H.
  destruct (get_matches_double_sound _ _ _ _ _ _ Hnd H)
    as (ranked & -> & Hperm & Hsorted & Hstable & Hkeys).
  exists ranked.
  assert (Forall (fun t => Float64.number (snd t) /\
                           Float64.number (Float64.combined_score proto_list t))
            ranked) as Hnum.
  { apply Forall_forall. intros [name score] Hin.
    pose proof (proj1 (Forall_forall _ _) Hkeys _ Hin)
      as (idx & pos & Hidx & Hpos & _).
    rewrite Hperm in Hin.
    apply elem_of_survivors_double in Hin as (sig & _ & _ & Hscore & _).
    simpl in Hidx. split.
    - simpl. apply (SFbelow_number 133). by eapply compare_sigs_double_below.
    - eapply combined_score_number; [done|].
      unfold Float64.sort_key. simpl. rewrite Hidx. simpl. by rewrite Hpos. }
  split; [apply slice_to_take|]. split; [apply slice_to_take|]. split.
  { intros name score. rewrite Hperm. apply elem_of_survivors_double. }
  split; [done|]. split; [|done].
  apply (Sorted_double_StronglySorted (Float64.combined_score proto_list));
    [|done].
  eapply Forall_impl; [exact Hnum|]. by intros t [_ Ht].
Qed.

Lemma get_matches_ranking_witness :
  (is_container sample_sig_a = true -> truthy sample_sig_a = true ->
   (forall name sig, (name, sig) ∈ sample_registry -> contains_dot name = false ->
      is_container sig = true /\ name ∈ sample_proto_list) ->
   exists view,
     Float64.get_matches Float64.default_threshold 5 sample_sig_a sample_registry
       sample_proto_list = Ok view) /\
  (forall view,
     Float64.get_matches Float64.default_threshold 5 sample_sig_a sample_registry
       sample_proto_list = Ok view ->
     exists ranked,
       ((0 <= 5)%Z -> view = take (Z.to_nat 5) ranked) /\
       ((5 < 0)%Z -> view = take (length ranked - Z.to_nat (- 5)) ranked) /\
       (forall name score,
          (name, score) ∈ ranked <->
          exists sig, (name, sig) ∈ sample_registry /\ contains_dot name = false /\
                      Float64.compare_sigs sample_sig_a sig = Ok score /\
                      PrimFloat.ltb score Float64.default_threshold = false) /\
       ranked ≡ₚ Float64.survivors Float64.default_threshold sample_sig_a sample_registry /\
       StronglySorted (Float64.ranks_before sample_proto_list) ranked /\
       Forall (fun t => Float64.number (snd t) /\
                        Float64.number (Float64.combined_score sample_proto_list t))
         ranked /\
       (forall k, filter (Float64.tied_at sample_proto_list k) ranked =
                  filter (Float64.tied_at sample_proto_list k)
                    (Float64.survivors Float64.default_threshold sample_sig_a
                       sample_registry)) /\
       Forall (fun t => exists idx pos,
         list_index (fst t) sample_proto_list = Ok idx /\
         Float64.py_div (idx + 1) (length sample_proto_list) = Ok pos /\
         Float64.combined_score sample_proto_list t
         = PrimFloat.add (snd t)
             (PrimFloat.mul (PrimFloat.sub Float64.one pos) Float64.half)) ranked).
Proof.
  apply (get_matches_ranking Float64.default_threshold 5 sample_sig_a sample_registry
           sample_proto_list).
  apply (bool_decide_unpack _). vm_compute. exact I.
Defined.

(** On the sample registry both top-level candidates survive; the later
    declared and lower scoring one is ranked first, because of its earlier
    place in [proto_list]; the keys of both are numbers. *)
Example get_matches_double_sample :
  exists two_thirds,
    Float64.py_div 2 3 = Ok two_thirds /\
    Float64.get_matches Float64.default_threshold 5 sample_sig_a sample_registry
      sample_proto_list
    = Ok [("Y", two_thirds); ("X", Float64.one)] /\
    Forall (fun t => Float64.number (Float64.combined_score sample_proto_list t))
      [("Y", two_thirds); ("X", Float64.one)].
Proof.
  eexists. split; [reflexivity|]. split; [vm_compute; reflexivity|].
  repeat constructor; vm_compute; reflexivity.
Qed.

(** A candidate whose exact score is one half is not kept at the default
    threshold: the score that the interpreter computes for eleven target
    fields of which six are among the twelve of the candidate is the
    double just below [0.5], and the selector shows no match, where the
    exact quotients would keep the candidate. *)
Example half_score_dropped :
  compare_sigs sample_sig_eleven sample_sig_twelve = Ok ((6 # 11) * (11 # 12))%Q /\
  ((6 # 11) * (11 # 12) == 1 # 2)%Q /\
  (exists score,
     Float64.compare_sigs sample_sig_eleven sample_sig_twelve = Ok score /\
     PrimFloat.ltb score Float64.default_threshold = true) /\
  Float64.get_matches Float64.default_threshold 5 sample_sig_eleven
    [("C", sample_sig_twelve)] ["C"] = Ok [] /\
  get_matches (1 # 2) 5 sample_sig_eleven [("C", sample_sig_twelve)] ["C"]
    = Ok [("C", (6 # 11) * (11 # 12))%Q].
Proof.
  split; [vm_compute; reflexivity|]. split; [reflexivity|].
  split; [eexists; split; vm_compute; reflexivity|].
  split; vm_compute; reflexivity.
Qed.

(** ** Outcomes of the match selector *)

Section MatchOutcome.

Variable THRESHOLD : PrimFloat.float.
Variable MAX_DISPLAY_MATCHES : Z.
Variable match_sig : Signature.
Variable proto_list : list string.

Hypothesis target_container : is_container match_sig = true.
Hypothesis target_truthy : truthy match_sig = true.

(** With a non-empty container as target, a comparison can only fail on
    a candidate that is not a container, with [TypeError]. *)
Lemma compare_sigs_double_exn sig e :
  Float64.compare_sigs match_sig sig = Raise e ->
  e = TypeError /\ is_container sig = false.
Proof.
  intros H. pose proof (compare_sigs_double_agrees match_sig sig) as Ha.
  rewrite H in Ha. destruct (is_container sig) eqn:Hs.
  - destruct (compare_sigs_containers match_sig sig) as [q Hq]; try done.
    by rewrite Hq in Ha.
  - rewrite compare_sigs_non_container in Ha by (by right). by subst.
Qed.

Lemma get_matches_double_TypeError registry name sig :
  (name, sig) ∈ registry -> contains_dot name = false -> is_container sig = false ->
  Float64.get_matches THRESHOLD MAX_DISPLAY_MATCHES match_sig registry proto_list
  = Raise TypeError.
Proof.
  intros Hin Hdot Hsig. unfold Float64.get_matches.
  rewrite (score_candidates_double_raise THRESHOLD match_sig registry [] name sig
             TypeError); try done.
  - apply compare_sigs_double_Raise, compare_sigs_non_container. by right.
  - intros n s e' _ _ He. by apply compare_sigs_double_exn in He as [-> _].
Qed.

(** X14: what [get_matches] does with a non-empty container as target, on
    a registry without repeated names.  It fails with [TypeError] as soon
    as one top-level candidate is not a container ([None], a [MapEntry]);
    otherwise it fails with [ValueError] when a candidate whose score (a
    double) is not below the threshold is missing from [proto_list];
    otherwise it returns. *)
Theorem get_matches_outcome registry :
  NoDup registry.*1 ->
  ((exists name sig, (name, sig) ∈ registry /\ contains_dot name = false /\
                     is_container sig = false) ->
   Float64.get_matches THRESHOLD MAX_DISPLAY_MATCHES match_sig registry proto_list
   = Raise TypeError) /\
  ((forall name sig, (name, sig) ∈ registry -> contains_dot name = false ->
                     is_container sig = true) ->
   ((exists name score,
       (name, score) ∈ Float64.survivors THRESHOLD match_sig registry /\
       name ∉ proto_list) ->
    Float64.get_matches THRESHOLD MAX_DISPLAY_MATCHES match_sig registry proto_list
    = Raise ValueError) /\
   ((forall name score,
       (name, score) ∈ Float64.survivors THRESHOLD match_sig registry ->
       name ∈ proto_list) ->
    exists view,
      Float64.get_matches THRESHOLD MAX_DISPLAY_MATCHES match_sig registry proto_list
      = Ok view)).
Proof.
  intros Hnd. split.
  { intros (name & sig & Hin & Hdot & Hsig). by eapply get_matches_double_TypeError. }
  intros Htop. split; [|by apply get_matches_double_returns].
  intros (name & score & Hin & Hout). unfold Float64.get_matches.
  destruct (score_candidates_double_total THRESHOLD match_sig registry []) as [sm Hsm].
  { apply Forall_forall. intros [n sig] Hn Hdot. simpl in *.
    destruct (compare_sigs_containers match_sig sig) as [q Hq]; try done.
    - by eapply Htop.
    - by eapply compare_sigs_double_Ok. }
  rewrite Hsm. simpl.
  apply score_candidates_double_spec in Hsm; [|done|intros ? _; apply not_elem_of_nil].
  simpl in Hsm. subst sm.
  destruct (Float64.survivors THRESHOLD match_sig registry) as [|t sm] eqn:Hs;
    [by apply elem_of_nil in Hin|].
  rewrite (res_mapM_raise _ (t :: sm) (name, score) ValueError); [done|done| |].
  - destruct (Float64.sort_key proto_list (name, score)) as [k|e] eqn:Hk.
    + apply sort_key_double_Ok in Hk as [_ (idx & pos & Hidx & _)].
      by apply list_index_Ok in Hidx.
    + by apply sort_key_double_exn in Hk as [-> _].
  - intros tup e' _ He.
    destruct (Float64.sort_key proto_list tup) as [k|e] eqn:Hk; [done|].
    simpl in He. injection He as <-. by apply sort_key_double_exn in Hk as [-> _].
Qed.

End MatchOutcome.

Lemma get_matches_outcome_witness :
  ((exists name sig, (name, sig) ∈ sample_alias_registry /\ contains_dot name = false /\
                     is_container sig = false) ->
   Float64.get_matches Float64.default_threshold 5 sample_sig_a sample_alias_registry
     ["R"; "CmdId"]
   = Raise TypeError) /\
  ((forall name sig, (name, sig) ∈ sample_alias_registry -> contains_dot name = false ->
                     is_container sig = true) ->
   ((exists name score,
       (name, score) ∈ Float64.survivors Float64.default_threshold sample_sig_a
                         sample_alias_registry /\
       name ∉ ["R"; "CmdId"]) ->
    Float64.get_matches Float64.default_threshold 5 sample_sig_a sample_alias_registry
      ["R"; "CmdId"]
    = Raise ValueError) /\
   ((forall name score,
       (name, score) ∈ Float64.survivors Float64.default_threshold sample_sig_a
                         sample_alias_registry ->
       name ∈ ["R"; "CmdId"]) ->
    exists view,
      Float64.get_matches Float64.default_threshold 5 sample_sig_a sample_alias_registry
        ["R"; "CmdId"]
      = Ok view)).
Proof.
  apply (get_matches_outcome Float64.default_threshold 5 sample_sig_a ["R"; "CmdId"]).
  - reflexivity.
  - reflexivity.
  - apply (bool_decide_unpack _). vm_compute. exact I.
Defined.

(** The three outcomes on samples: a top-level candidate that is not a
    container, a kept candidate that [proto_list] does not hold, and a
    candidate below the threshold that [proto_list] does not hold
    either, which is dropped before its place is looked up. *)
Example get_matches_outcomes_sample :
  Float64.get_matches Float64.default_threshold 5 sample_sig_a sample_alias_registry
    ["R"; "CmdId"] = Raise TypeError /\
  Float64.get_matches Float64.default_threshold 5 sample_sig_a sample_registry ["Y"]
    = Raise ValueError /\
  Float64.get_matches Float64.default_threshold 5 sample_sig_eleven
    [("C", sample_sig_twelve)] [] = Ok [].
Proof. repeat split; vm_compute; reflexivity. Qed.

(** X2: the two directions of the score are the products, rounded, of
    the same length ratio with the rounded quotients of the same
    intersection by the cardinality of the first operand; between
    signatures of the same cardinality the score is symmetric. *)
Theorem compare_sigs_directional (A B : Signature) (a b : nat) :
  is_container A = true -> is_container B = true ->
  py_len A = Ok a -> py_len B = Ok b -> 0 < a -> 0 < b ->
  (exists i r qa qb,
     py_and_len A B = Ok i /\
     Float64.py_div (Nat.min a b) (Nat.max a b) = Ok r /\
     Float64.py_div i a = Ok qa /\ Float64.py_div i b = Ok qb /\
     Float64.compare_sigs A B = Ok (PrimFloat.mul qa r) /\
     Float64.compare_sigs B A = Ok (PrimFloat.mul qb r)) /\
  (a = b -> Float64.compare_sigs A B = Float64.compare_sigs B A).
Proof.
  intros HcA HcB Ha Hb Hpa Hpb.
  destruct (container_py_and_len A B HcA HcB) as [i Hi].
  pose proof Hi as Hi'. rewrite py_and_len_comm in Hi'.
  destruct (compare_sigs_double_value A B a b i Ha Hb Hi Hpa) as (qa & r & Hqa & Hr & HAB).
  destruct (compare_sigs_double_value B A b a i Hb Ha Hi' Hpb) as (qb & r' & Hqb & Hr' & HBA).
  rewrite (Nat.min_comm b a), (Nat.max_comm b a), Hr in Hr'. injection Hr' as <-.
  split.
  - by exists i, r, qa, qb.
  - intros <-. rewrite HAB, HBA. rewrite Hqa in Hqb. by injection Hqb as <-.
Qed.

Lemma compare_sigs_directional_witness :
  (exists i r qa qb,
     py_and_len sample_sig_a sample_sig_b = Ok i /\
     Float64.py_div (Nat.min 2 3) (Nat.max 2 3) = Ok r /\
     Float64.py_div i 2 = Ok qa /\ Float64.py_div i 3 = Ok qb /\
     Float64.compare_sigs sample_sig_a sample_sig_b = Ok (PrimFloat.mul qa r) /\
     Float64.compare_sigs sample_sig_b sample_sig_a = Ok (PrimFloat.mul qb r)) /\
  (2 = 3 -> Float64.compare_sigs sample_sig_a sample_sig_b
            = Float64.compare_sigs sample_sig_b sample_sig_a).
Proof.
  apply (compare_sigs_directional sample_sig_a sample_sig_b 2 3);
    (vm_compute; reflexivity) || lia.
Defined.

(** The exact scores of a one-element and a five-element container that
    share the element are in the ratio of the two cardinalities; the
    doubles are not: five times the smaller is not the larger. *)
Example directional_scores_round :
  exists s t,
    Float64.compare_sigs (mk_multiset [Str "a"])
      (mk_multiset (map Str ["a"; "b"; "c"; "d"; "e"])) = Ok s /\
    Float64.compare_sigs (mk_multiset (map Str ["a"; "b"; "c"; "d"; "e"]))
      (mk_multiset [Str "a"]) = Ok t /\
    PrimFloat.ltb t s = true /\
    PrimFloat.eqb (PrimFloat.mul (FloatOps.SF2Prim (Float64.of_int 5)) t) s = false.
Proof.
  eexists _, _. split; [vm_compute; reflexivity|]. split; [vm_compute; reflexivity|].
  split; vm_compute; reflexivity.
Qed.

(** Two candidates whose exact keys are equal, [4/5 + 1/10] and
    [1/2 + 2/5]: on doubles the first key is the smaller one, and the
    selector shows the second candidate first, against the order of the
    registry that a tie would keep. *)

(** Two candidates whose exact keys are equal, [4/5 + 1/10] and
    [3/5 + 3/10]: on doubles the first key is the smaller one, and the
    selector shows the second candidate first, against the order of the
    registry that a tie would keep. *)
Example rounded_keys_order :
  (exists score_a score_b,
     Float64.compare_sigs sample_sig_four sample_sig_four_in_five = Ok score_a /\
     Float64.compare_sigs sample_sig_four sample_sig_three_in_five = Ok score_b /\
     Float64.get_matches Float64.default_threshold 5 sample_sig_four
       [("A", sample_sig_four_in_five); ("B", sample_sig_three_in_five)]
       ["P"; "B"; "Q"; "A"; "R"]
     = Ok [("B", score_b); ("A", score_a)] /\
     PrimFloat.ltb (Float64.combined_score ["P"; "B"; "Q"; "A"; "R"] ("A", score_a))
       (Float64.combined_score ["P"; "B"; "Q"; "A"; "R"] ("B", score_b)) = true) /\
  get_matches (1 # 2) 5 sample_sig_four
    [("A", sample_sig_four_in_five); ("B", sample_sig_three_in_five)]
    ["P"; "B"; "Q"; "A"; "R"]
  = Ok [("A", (4 # 4) * (4 # 5)); ("B", (3 # 4) * (4 # 5))]%Q.
Proof.
  split; [|vm_compute; reflexivity].
  eexists _, _. split; [vm_compute; reflexivity|]. split; [vm_compute; reflexivity|].
  split; vm_compute; reflexivity.
Qed.

(** ** Map-entry helpers *)

Section MapEntryClaim.

Variable PACKAGE_NAME : string.
Variable DEFAULT_EMPTY_TO_BYTES : bool.
Variable descriptor_map : dict Proto.

Local Abbreviation get_sig :=
  (get_signature PACKAGE_NAME DEFAULT_EMPTY_TO_BYTES descriptor_map).
Local Abbreviation info_at depth :=
  (field_info PACKAGE_NAME DEFAULT_EMPTY_TO_BYTES (get_sig depth)).
Local Abbreviation step_at depth :=
  (field_step PACKAGE_NAME DEFAULT_EMPTY_TO_BYTES (get_sig depth)).
Local Abbreviation nested_at depth :=
  (register_nested (get_sig depth)).

(** The field loop on two fields outside any oneof: the two entries, in
    the order of the fields, or the first failure. *)
Lemma gen_fold_two_fields depth kf vf reg :
  f_oneof_index kf = None -> f_oneof_index vf = None ->
  gen_fold (step_at depth) ([], []) [kf; vf] reg =
    match info_at depth kf reg with
    | (trk, Ok (key, regk)) =>
        match info_at depth vf regk with
        | (trv, Ok (value, regv)) =>
            ((trk ++ trv)%list, Ok (([key; value], []), regv))
        | (trv, Raise e) => ((trk ++ trv)%list, Raise e)
        end
    | (trk, Raise e) => (trk, Raise e)
    end.
Proof.
  intros Hk Hv. simpl. unfold gen_bind, field_step, gen_bind. rewrite Hk, Hv.
  destruct (info_at depth kf reg) as [trk [[key regk]|e]]; [|done]. simpl.
  destruct (info_at depth vf regk) as [trv [[value regv]|e]]; simpl;
    by rewrite ?app_nil_r.
Qed.

Lemma map_entry_of_entries depth name d reg tr sig reg' :
  m_map_entry d = true ->
  dict_get name reg = None ->
  get_sig (S depth) name (Some (Message d)) reg = (tr, Ok (sig, reg')) ->
  exists key value,
    sig = MapEntry key value /\ is_entry key = true /\ is_entry value = true.
Proof.
  intros Hflag Hmiss H.
  rewrite get_signature_miss_message, message_signature_unfold in H by done.
  destruct (nested_at depth name d reg) as [tr0 [[[] reg0]|e]] eqn:Hn; [|done].
  rewrite fields_signature_unfold, Hflag in H. simpl in H.
  destruct (gen_fold _ _ _ reg0) as [tr1 [[acc reg1]|e]] eqn:Hf; [|done].
  simpl in H.
  assert (Forall (fun x => is_entry x = true) (with_oneofs acc)) as Hentries.
  { apply with_oneofs_entries.
    refine (proj2 (gen_inv_fold (fun _ => True) slots_of_entries _ _ _ _ _
                     reg0 tr1 acc reg1 Logic.I Hf)).
    - apply Forall_forall. intros field _ acc0 Hacc0.
      apply (field_step_inv _ _ (fun _ => True) (fun _ => True)); [|done].
      by intros n p r t s r' _ _.
    - split; [constructor|]. apply Forall_replicate. constructor. }
  destruct (with_oneofs acc) as [|k [|v [|? ?]]] eqn:Hacc; try done.
  injection H as _ <- _.
  apply Forall_cons in Hentries as [Hk Hentries].
  apply Forall_cons in Hentries as [Hv _]. by exists k, v.
Qed.

(** C8: on a descriptor flagged as a map-entry helper, whatever
    [get_sig] computes is a [MapEntry] of two field entries, never a
    multiset.  With two declared fields outside any oneof, the outcome is
    decided by the entries of the two fields: once the declarations
    inside the helper are registered (nothing to do when it declares
    none), the call returns [MapEntry key value] for the entry [key] of
    the first field and the entry [value] of the second, whatever their
    labels and types, and fails only where the entry of one of the two
    does.  With two scalar fields and nothing declared inside the helper,
    it returns the pair of their two strings. *)
Theorem map_entry_signature depth name d reg :
  m_map_entry d = true ->
  dict_get name reg = None ->
  (forall tr sig reg',
     get_sig (S depth) name (Some (Message d)) reg = (tr, Ok (sig, reg')) ->
     is_container sig = false /\
     exists key value,
       sig = MapEntry key value /\ is_entry key = true /\ is_entry value = true) /\
  (m_nested_type d = [] -> m_enum_type d = [] ->
   nested_at depth name d reg = ([], Ok (tt, reg))) /\
  (forall kf vf trn regn,
     m_field d = [kf; vf] -> m_oneof_decl d = [] ->
     f_oneof_index kf = None -> f_oneof_index vf = None ->
     nested_at depth name d reg = (trn, Ok (tt, regn)) ->
     match info_at depth kf regn with
     | (trk, Ok (key, regk)) =>
         match info_at depth vf regk with
         | (trv, Ok (value, regv)) =>
             get_sig (S depth) name (Some (Message d)) reg
             = ((name :: trn ++ trk ++ trv)%list, Ok (MapEntry key value, regv))
         | (trv, Raise e) =>
             get_sig (S depth) name (Some (Message d)) reg
             = ((name :: trn ++ trk ++ trv)%list, Raise e)
         end
     | (trk, Raise e) =>
         get_sig (S depth) name (Some (Message d)) reg
         = ((name :: trn ++ trk)%list, Raise e)
     end) /\
  (forall kf vf,
     m_field d = [kf; vf] ->
     m_nested_type d = [] -> m_enum_type d = [] -> m_oneof_decl d = [] ->
     f_oneof_index kf = None -> f_oneof_index vf = None ->
     f_type_name kf = None -> f_type_name vf = None ->
     get_sig (S depth) name (Some (Message d)) reg
     = ([name], Ok (MapEntry (scalar_entry kf) (scalar_entry vf), reg))).
Proof.
  intros Hflag Hmiss.
  assert (forall kf vf trn regn,
     m_field d = [kf; vf] -> m_oneof_decl d = [] ->
     f_oneof_index kf = None -> f_oneof_index vf = None ->
     nested_at depth name d reg = (trn, Ok (tt, regn)) ->
     match info_at depth kf regn with
     | (trk, Ok (key, regk)) =>
         match info_at depth vf regk with
         | (trv, Ok (value, regv)) =>
             get_sig (S depth) name (Some (Message d)) reg
             = ((name :: trn ++ trk ++ trv)%list, Ok (MapEntry key value, regv))
         | (trv, Raise e) =>
             get_sig (S depth) name (Some (Message d)) reg
             = ((name :: trn ++ trk ++ trv)%list, Raise e)
         end
     | (trk, Raise e) =>
         get_sig (S depth) name (Some (Message d)) reg
         = ((name :: trn ++ trk)%list, Raise e)
     end) as Htwo.
  { intros kf vf trn regn Hfields Hdecl Hk Hv Hnested.
    rewrite get_signature_miss_message, message_signature_unfold by done.
    rewrite Hnested, fields_signature_unfold, Hflag, Hfields, Hdecl. simpl length.
    simpl replicate. rewrite (gen_fold_two_fields depth kf vf regn Hk Hv).
    destruct (info_at depth kf regn) as [trk [[key regk]|e]]; [|done].
    destruct (info_at depth vf regk) as [trv [[value regv]|e]]; done. }
  split; [|split; [|split; [exact Htwo|]]].
  - intros tr sig reg' H.
    destruct (map_entry_of_entries depth name d reg tr sig reg' Hflag Hmiss H)
      as (key & value & -> & Hk & Hv).
    split; [done|]. by exists key, value.
  - intros Hnested Henum. unfold register_nested, gen_bind.
    by rewrite Hnested, Henum.
  - intros kf vf Hfields Hnested Henum Hdecl Hk Hv Hkt Hvt.
    specialize (Htwo kf vf [] reg Hfields Hdecl Hk Hv).
    rewrite !field_info_scalar in Htwo by done. apply Htwo.
    unfold register_nested, gen_bind. by rewrite Hnested, Henum.
Qed.

End MapEntryClaim.

Lemma map_entry_signature_witness :
  m_map_entry sample_map_entry = true /\
  dict_get "Bag.ItemsEntry" (@nil (string * Signature)) = None /\
  get_signature "" true sample_item_map 3 "Bag.ItemsEntry"
    (Some (Message sample_map_entry)) []
  = (["Bag.ItemsEntry"; "Item"; "Item"],
     Ok (MapEntry (Str "int32") (FieldTuple "message" (mk_multiset [Str "string"])),
         [])).
Proof.
  split; [reflexivity|]. split; [reflexivity|].
  exact (proj1 (proj2 (proj2 (map_entry_signature "" true sample_item_map 2
                                "Bag.ItemsEntry" sample_map_entry [] eq_refl eq_refl)))
           (scalar LABEL_OPTIONAL TYPE_INT32)
           (typed LABEL_OPTIONAL TYPE_MESSAGE ".Item") [] []
           eq_refl eq_refl eq_refl eq_refl eq_refl).
Defined.

(** The entries of the two fields are taken in the order of declaration,
    whatever their shapes: a repeated enum key and a map-typed value. *)
Example map_entry_shapes :
  snd (get_signature "" true
         [("Colour", Enum sample_colour); ("Inner", Message (sample_entry
            [scalar LABEL_OPTIONAL TYPE_STRING; scalar LABEL_OPTIONAL TYPE_BOOL]))]
         4 "Entry"
         (Some (Message (sample_entry
            [typed LABEL_REPEATED TYPE_ENUM ".Colour";
             typed LABEL_OPTIONAL TYPE_MESSAGE ".Inner"]))) [])
  = Ok (MapEntry
          (FieldTuple "repeated enum" (mk_frozenset [0; 1; 2]%Z))
          (FieldTuple "map" (MapEntry (Str "string") (Str "bool"))), []).
Proof. vm_compute. reflexivity. Qed.

(** ** The signature of a name *)

Lemma DescriptorProto_nested_ind (P : DescriptorProto -> Prop) :
  (forall d, Forall P (m_nested_type d) -> P d) -> forall d, P d.
Proof.
  intros H. fix IH 1. intros [name fields nested enums decl flag].
  apply H. simpl. induction nested as [|n l IHl]; constructor; [apply IH|apply IHl].
Qed.

Lemma declarations_unfold name d :
  declarations name d =
    (name, Message d)
    :: (flat_map (fun n => declarations (name ++ "." ++ m_name n)%string n) (m_nested_type d)
        ++ map (fun e => ((name ++ "." ++ e_name e)%string, Enum e)) (m_enum_type d))%list.
Proof.
  by destruct d as [dname fields nested enums decl flag].
Qed.

(** What a declared message declares is declared with it. *)
Lemma declarations_closed name0 d0 name d :
  (name, Message d) ∈ declarations name0 d0 ->
  (forall n, n ∈ m_nested_type d ->
     ((name ++ "." ++ m_name n)%string, Message n) ∈ declarations name0 d0) /\
  (forall e, e ∈ m_enum_type d ->
     ((name ++ "." ++ e_name e)%string, Enum e) ∈ declarations name0 d0).
Proof.
  revert name0. induction d0 as [d0 IH] using DescriptorProto_nested_ind.
  intros name0. rewrite declarations_unfold.
  rewrite elem_of_cons, elem_of_app. intros [[= -> ->]|[Hin|Hin]].
  - split.
    + intros n Hn. right. apply elem_of_app. left.
      apply list_elem_of_In, in_flat_map. exists n. split; [by apply list_elem_of_In|].
      rewrite declarations_unfold. left. done.
    + intros e He. right. apply elem_of_app. right.
      apply list_elem_of_In, in_map_iff. exists e. split; [done|by apply list_elem_of_In].
  - apply list_elem_of_In, in_flat_map in Hin as (n0 & Hn0 & Hin).
    apply list_elem_of_In in Hn0, Hin.
    destruct (proj1 (Forall_forall _ _) IH n0 Hn0 _ Hin) as [H1 H2].
    assert (forall x, x ∈ declarations (name0 ++ "." ++ m_name n0) n0 ->
              x ∈ (name0, Message d0)
                  :: (flat_map (fun n => declarations (name0 ++ "." ++ m_name n)%string n)
                        (m_nested_type d0)
                      ++ map (fun e => ((name0 ++ "." ++ e_name e)%string, Enum e))
                           (m_enum_type d0))%list) as Hsub.
    { intros x Hx. right. apply elem_of_app. left.
      apply list_elem_of_In, in_flat_map. exists n0.
      split; by apply list_elem_of_In. }
    split; [intros n Hn; by apply Hsub, H1 | intros e He; by apply Hsub, H2].
  - apply list_elem_of_In, in_map_iff in Hin as (e & [=] & _).
Qed.

Lemma declared_closed dm name d :
  (name, Message d) ∈ declared dm ->
  (forall n, n ∈ m_nested_type d ->
     ((name ++ "." ++ m_name n)%string, Message n) ∈ declared dm) /\
  (forall e, e ∈ m_enum_type d -> ((name ++ "." ++ e_name e)%string, Enum e) ∈ declared dm).
Proof.
  unfold declared. intros Hin.
  apply list_elem_of_In, in_flat_map in Hin as ([name0 p0] & Hin0 & Hin).
  simpl in Hin. destruct p0 as [d0|e0].
  - apply list_elem_of_In, declarations_closed in Hin as [H1 H2].
    split; [intros n Hn | intros e He]; apply list_elem_of_In, in_flat_map;
      exists (name0, Message d0); (split; [done|]); simpl; apply list_elem_of_In; auto.
  - destruct Hin as [[=]|[]].
Qed.

Lemma declared_top dm name p : (name, p) ∈ dm -> (name, p) ∈ declared dm.
Proof.
  intros Hin. unfold declared. apply list_elem_of_In, in_flat_map.
  exists (name, p). split; [by apply list_elem_of_In|]. simpl.
  destruct p as [d|e]; [|by left]. rewrite declarations_unfold. by left.
Qed.

Section ValueFacts.

Variable PACKAGE_NAME : string.
Variable DEFAULT_EMPTY_TO_BYTES : bool.
Variable env : dict Proto.

Local Abbreviation entry_by := (field_entry PACKAGE_NAME DEFAULT_EMPTY_TO_BYTES).
Local Abbreviation message_by := (message_value PACKAGE_NAME DEFAULT_EMPTY_TO_BYTES).
Local Abbreviation value_at := (name_signature PACKAGE_NAME DEFAULT_EMPTY_TO_BYTES env).

Lemma field_entry_mono (f g : string -> option Signature) field entry :
  (forall name sig, f name = Some sig -> g name = Some sig) ->
  entry_by f field = Some entry -> entry_by g field = Some entry.
Proof.
  intros Hfg. unfold field_entry.
  destruct (f_type_name field) as [type_name|]; [|done].
  destruct (f _) as [sig|] eqn:Hf; [|done]. by rewrite (Hfg _ _ Hf).
Qed.

Lemma message_value_mono (f g : string -> option Signature) d sig :
  (forall name sig, f name = Some sig -> g name = Some sig) ->
  message_by f d = Some sig -> message_by g d = Some sig.
Proof.
  intros Hfg. unfold message_value.
  destruct (mapM (entry_by f) (m_field d)) as [entries|] eqn:Hm; [|done].
  assert (mapM (entry_by g) (m_field d) = Some entries) as ->; [|done].
  apply mapM_Some. apply mapM_Some in Hm.
  eapply Forall2_impl; [exact Hm|]. intros field entry. by apply field_entry_mono.
Qed.

Lemma value_step fuel name sig :
  value_at fuel name = Some sig -> value_at (S fuel) name = Some sig.
Proof.
  revert name sig. induction fuel as [|fuel IH]; intros name sig; [done|].
  intros H. simpl in H |- *.
  destruct (dict_get name env) as [[d|e]|]; [|done|done].
  revert H. apply message_value_mono. intros n s Hn. by apply IH in Hn.
Qed.

Lemma value_mono fuel fuel' name sig :
  fuel <= fuel' -> value_at fuel name = Some sig -> value_at fuel' name = Some sig.
Proof. induction 1 as [|m Hle IH]; [done|]. intros Hv. by apply value_step, IH. Qed.

(** A name has at most one signature. *)
Lemma value_functional fuel fuel' name sig sig' :
  value_at fuel name = Some sig -> value_at fuel' name = Some sig' -> sig = sig'.
Proof.
  intros H H'.
  apply (value_mono _ (Nat.max fuel fuel')) in H; [|lia].
  apply (value_mono _ (Nat.max fuel fuel')) in H'; [|lia]. congruence.
Qed.

(** Entries found with any amounts of fuel are found with one. *)
Lemma field_entries_fuel fields entries :
  Forall2 (fun field entry => exists fuel, entry_by (value_at fuel) field = Some entry)
    fields entries ->
  exists fuel, mapM (entry_by (value_at fuel)) fields = Some entries.
Proof.
  induction 1 as [|field entry fields entries [fuel1 H1] _ [fuel2 IH]].
  - by exists 0.
  - exists (Nat.max fuel1 fuel2). apply mapM_Some. constructor.
    + revert H1. apply field_entry_mono. intros n s. apply value_mono. lia.
    + apply mapM_Some in IH. eapply Forall2_impl; [exact IH|].
      intros f e. apply field_entry_mono. intros n s. apply value_mono. lia.
Qed.

End ValueFacts.

(** ** The generator computes the signatures of the names *)

Section Soundness.

Variable PACKAGE_NAME : string.
Variable DEFAULT_EMPTY_TO_BYTES : bool.
Variable descriptor_map : dict Proto.

Hypothesis declared_once : NoDup (declared descriptor_map).*1.

Local Abbreviation value_at :=
  (name_signature PACKAGE_NAME DEFAULT_EMPTY_TO_BYTES (declared descriptor_map)).
Local Abbreviation entry_at fuel :=
  (field_entry PACKAGE_NAME DEFAULT_EMPTY_TO_BYTES (value_at fuel)).
Local Abbreviation names :=
  (stands_for PACKAGE_NAME DEFAULT_EMPTY_TO_BYTES descriptor_map).
Local Abbreviation kept :=
  (coherent PACKAGE_NAME DEFAULT_EMPTY_TO_BYTES descriptor_map).

Lemma coherent_nil : kept [].
Proof. by intros name sig. Qed.

Lemma coherent_store reg name sig :
  kept reg -> names name sig -> kept (dict_set name sig reg).
Proof.
  intros Hreg Hsig k v. rewrite dict_get_set.
  destruct (String.eqb_spec k name) as [->|_]; [by intros [= <-]|apply Hreg].
Qed.

Lemma stands_for_functional name sig sig' :
  names name sig -> names name sig' -> sig = sig'.
Proof. intros [fuel H] [fuel' H']. by eapply value_functional. Qed.

Lemma declared_lookup name p :
  (name, p) ∈ declared descriptor_map ->
  dict_get name (declared descriptor_map) = Some p.
Proof. by apply elem_of_dict_get. Qed.

Lemma stands_for_enum name e :
  dict_get name (declared descriptor_map) = Some (Enum e) ->
  names name (get_enum_sig e).
Proof. intros H. exists 1. simpl. by rewrite H. Qed.

Section Body.

Variable rec : string -> option Proto -> Gen Signature.

Hypothesis rec_types : forall name, gen_inv kept (rec name None) (names name).

Lemma field_info_sound field :
  gen_inv kept (field_info PACKAGE_NAME DEFAULT_EMPTY_TO_BYTES rec field)
    (fun info => exists fuel, entry_at fuel field = Some (f_oneof_index field, info)).
Proof.
  unfold field_info.
  eapply gen_inv_bind with
    (P := fun tys : string * Signature => exists fuel,
            entry_at fuel field =
              Some (f_oneof_index field,
                    if truthy (snd tys)
                    then FieldTuple (field_label (f_label field) ++ fst tys) (snd tys)
                    else Str (field_label (f_label field) ++ fst tys))).
  - destruct (f_type_name field) as [type_name|] eqn:Hty.
    + eapply gen_inv_bind; [apply rec_types|]. intros type_sig [fuel Hsig].
      destruct (DEFAULT_EMPTY_TO_BYTES && negb (truthy type_sig)) eqn:Hdefault.
      * apply gen_inv_ret. exists fuel. unfold field_entry, typed_entry.
        by rewrite Hty, Hsig, Hdefault.
      * eapply gen_inv_bind; [apply rec_types|]. intros sig Hsig'.
        apply gen_inv_ret. exists fuel.
        assert (sig = type_sig) as -> by (eapply stands_for_functional; [done|by exists fuel]).
        unfold field_entry, typed_entry. by rewrite Hty, Hsig, Hdefault.
    + apply gen_inv_ret. exists 0. unfold field_entry. by rewrite Hty.
  - intros tys Htys. by apply gen_inv_ret.
Qed.

Lemma field_step_sound field acc :
  gen_inv kept (field_step PACKAGE_NAME DEFAULT_EMPTY_TO_BYTES rec acc field)
    (fun acc' => exists entry,
       (exists fuel, entry_at fuel field = Some entry) /\ place acc entry = Ok acc').
Proof.
  unfold field_step.
  eapply gen_inv_bind; [apply field_info_sound|]. intros info Hinfo.
  destruct (f_oneof_index field) as [i|] eqn:Hidx.
  - eapply gen_inv_bind.
    + apply gen_inv_lift with (Q := fun oneofs => oneofs_append i info (snd acc) = Ok oneofs).
      by intros oneofs.
    + intros oneofs Happend. apply gen_inv_ret. exists (Some i, info).
      split; [done|]. unfold place. simpl. by rewrite Happend.
  - apply gen_inv_ret. by exists (None, info).
Qed.

Lemma gen_fold_sound fields acc :
  gen_inv kept
    (gen_fold (field_step PACKAGE_NAME DEFAULT_EMPTY_TO_BYTES rec) acc fields)
    (fun acc' => exists entries,
       Forall2 (fun field entry => exists fuel, entry_at fuel field = Some entry)
         fields entries /\
       place_all acc entries = Ok acc').
Proof.
  revert acc. induction fields as [|field fields IH]; intros acc; simpl.
  - apply gen_inv_ret. exists []. by split; [constructor|].
  - eapply gen_inv_bind; [apply field_step_sound|].
    intros acc1 (entry & Hentry & Hplace).
    eapply gen_inv_weaken; [apply IH|].
    intros acc2 (entries & Hentries & Hall). exists (entry :: entries).
    split; [by constructor|]. simpl. by rewrite Hplace.
Qed.

Lemma fields_signature_sound name d :
  dict_get name (declared descriptor_map) = Some (Message d) ->
  gen_inv kept (fields_signature PACKAGE_NAME DEFAULT_EMPTY_TO_BYTES rec d)
    (names name).
Proof.
  intros Hd. unfold fields_signature.
  eapply gen_inv_bind; [apply gen_fold_sound|].
  intros acc (entries & Hentries & Hplace).
  apply field_entries_fuel in Hentries as [fuel Hentries].
  assert (forall sig,
            message_value PACKAGE_NAME DEFAULT_EMPTY_TO_BYTES (value_at fuel) d = Some sig ->
            names name sig) as Hvalue.
  { intros sig Hsig. exists (S fuel). simpl. by rewrite Hd. }
  unfold message_value in Hvalue. rewrite Hentries, Hplace in Hvalue.
  destruct (m_map_entry d).
  - destruct (with_oneofs acc) as [|k [|v [|? ?]]]; try apply gen_inv_raise.
    apply gen_inv_ret. by apply Hvalue.
  - apply gen_inv_ret. by apply Hvalue.
Qed.

Lemma register_nested_sound name d :
  dict_get name (declared descriptor_map) = Some (Message d) ->
  (forall n, n ∈ m_nested_type d ->
     gen_inv kept (rec (name ++ "." ++ m_name n) (Some (Message n)))
       (names (name ++ "." ++ m_name n))) ->
  gen_inv kept (register_nested rec name d) (fun _ => True).
Proof.
  intros Hd%dict_get_elem_of%declared_closed Hrec. destruct Hd as [Hnested Henums].
  unfold register_nested.
  eapply gen_inv_bind with (P := fun _ => True).
  - apply gen_inv_for, Forall_forall. intros n Hn.
    eapply gen_inv_bind; [by apply Hrec|]. intros sig Hsig.
    apply gen_inv_set; [|done]. intros reg Hreg. by apply coherent_store.
  - intros _ _. apply gen_inv_for, Forall_forall. intros e He.
    destruct (truthy (get_enum_sig e)); [|by apply gen_inv_ret].
    apply gen_inv_set; [|done]. intros reg Hreg. apply coherent_store; [done|].
    by apply stands_for_enum, declared_lookup, Henums.
Qed.

End Body.

(** A call of [get_signature] that returns in a coherent registry
    returns the signature of the name, and leaves the registry
    coherent. *)
Lemma get_signature_sound depth name proto :
  passes_declaration descriptor_map name proto ->
  gen_inv kept
    (get_signature PACKAGE_NAME DEFAULT_EMPTY_TO_BYTES descriptor_map depth name proto)
    (names name).
Proof.
  revert name proto. induction depth as [|depth IH]; intros name proto Hproto.
  { apply gen_inv_raise. }
  intros reg tr sig reg' Hreg. simpl.
  destruct (dict_get name reg) as [sig0|] eqn:Hhit.
  { intros [= _ <- <-]. split; [done|]. by apply Hreg. }
  revert reg tr sig reg' Hreg Hhit.
  assert (gen_inv kept
            (signature_body PACKAGE_NAME DEFAULT_EMPTY_TO_BYTES descriptor_map
               (get_signature PACKAGE_NAME DEFAULT_EMPTY_TO_BYTES descriptor_map depth)
               name proto) (names name)) as H;
    [|by intros reg tr sig reg' Hreg _; apply H].
  unfold signature_body.
  eapply gen_inv_bind; [by apply gen_inv_log with (Q := fun _ => True)|].
  intros _ _.
  eapply gen_inv_bind with
    (P := fun p => dict_get name (declared descriptor_map) = Some p).
  { destruct proto as [p|]; [by apply gen_inv_ret, Hproto|].
    destruct (dict_get name descriptor_map) as [p|] eqn:Hp; [|apply gen_inv_raise].
    apply gen_inv_ret. by apply declared_lookup, declared_top, dict_get_elem_of. }
  intros [d|e] Hp; [|by apply gen_inv_ret, stands_for_enum].
  unfold message_signature.
  eapply gen_inv_bind with (P := fun _ => True).
  - apply register_nested_sound; [done|]. intros n Hn. apply IH.
    intros p [= <-]. apply declared_lookup.
    by apply (declared_closed _ _ _ (dict_get_elem_of _ _ _ Hp)).
  - intros _ _. apply fields_signature_sound; [|done].
    intros type_name. apply IH. by intros p.
Qed.

End Soundness.

(** ** The order of the fields *)

Lemma mapM_perm {A B} (f : A -> option B) l1 l2 :
  l1 ≡ₚ l2 ->
  match mapM f l1, mapM f l2 with
  | Some k1, Some k2 => k1 ≡ₚ k2
  | None, None => True
  | _, _ => False
  end.
Proof.
  induction 1 as [|x l1 l2 _ IH|x y l|l1 l2 l3 _ IH1 _ IH2]; simpl.
  - done.
  - destruct (f x); simpl; [|done].
    destruct (mapM f l1), (mapM f l2); simpl; try done. by constructor.
  - destruct (f x), (f y); simpl; try done; destruct (mapM f l); simpl; try done.
    apply Permutation_swap.
  - destruct (mapM f l1), (mapM f l2), (mapM f l3); try done. by etrans.
Qed.

Lemma dict_get_same (env env' : dict Proto) name :
  Forall2 same_declaration env env' ->
  match dict_get name env, dict_get name env' with
  | Some p, Some p' => same_fields p p'
  | None, None => True
  | _, _ => False
  end.
Proof.
  induction 1 as [|[k p] [k' p'] env env' [Hk Hp] _ IH]; simpl; [done|].
  simpl in Hk, Hp. subst k'. by destruct (String.eqb name k).
Qed.

Lemma same_declaration_names (env env' : dict Proto) :
  Forall2 same_declaration env env' -> env.*1 = env'.*1.
Proof.
  induction 1 as [|[k p] [k' p'] env env' [Hk _] _ IH]; simpl; [done|].
  simpl in Hk. by f_equal.
Qed.

Section Reordered.

Variable PACKAGE_NAME : string.
Variable DEFAULT_EMPTY_TO_BYTES : bool.
Variables env env' : dict Proto.

Hypothesis same_names : Forall2 same_declaration env env'.

Lemma message_value_same (f g : string -> option Signature) d d' :
  (forall name, f name = g name) ->
  same_fields (Message d) (Message d') ->
  message_value PACKAGE_NAME DEFAULT_EMPTY_TO_BYTES f d
  = message_value PACKAGE_NAME DEFAULT_EMPTY_TO_BYTES g d'.
Proof.
  intros Hfg (Hperm & Hdecl & Hflag & Hentry). unfold message_value.
  rewrite <- Hdecl, <- Hflag.
  assert (forall fields,
            mapM (field_entry PACKAGE_NAME DEFAULT_EMPTY_TO_BYTES g) fields
            = mapM (field_entry PACKAGE_NAME DEFAULT_EMPTY_TO_BYTES f) fields) as ->.
  { intros fields. apply mapM_ext. intros field. unfold field_entry.
    destruct (f_type_name field) as [type_name|]; [|done]. by rewrite Hfg. }
  destruct (m_map_entry d) eqn:Hd.
  - by rewrite <- (Hentry eq_refl).
  - pose proof (mapM_perm (field_entry PACKAGE_NAME DEFAULT_EMPTY_TO_BYTES f) _ _ Hperm)
      as Hm.
    destruct (mapM _ (m_field d)) as [entries|], (mapM _ (m_field d')) as [entries'|];
      try done.
    pose proof (place_all_perm _ _ (length (m_oneof_decl d)) Hm) as Hp.
    destruct (place_all _ entries) as [acc|], (place_all _ entries') as [acc'|];
      try done.
    destruct Hp as [-> _]. done.
Qed.

(** A name stands for the same signature in two descriptor maps that
    differ in the order of the fields only. *)
Lemma value_same fuel name :
  name_signature PACKAGE_NAME DEFAULT_EMPTY_TO_BYTES env fuel name
  = name_signature PACKAGE_NAME DEFAULT_EMPTY_TO_BYTES env' fuel name.
Proof.
  revert name. induction fuel as [|fuel IH]; intros name; [done|]. simpl.
  pose proof (dict_get_same env env' name same_names) as Hget.
  destruct (dict_get name env) as [[d|e]|], (dict_get name env') as [[d'|e']|];
    try done.
  - by apply message_value_same.
  - simpl in Hget. by subst.
Qed.

End Reordered.

Section FieldOrderInvariance.

Variable PACKAGE_NAME : string.
Variable DEFAULT_EMPTY_TO_BYTES : bool.

Local Abbreviation get_sig :=
  (get_signature PACKAGE_NAME DEFAULT_EMPTY_TO_BYTES).
Local Abbreviation kept :=
  (coherent PACKAGE_NAME DEFAULT_EMPTY_TO_BYTES).

Lemma generate_signatures_coherent depth files tr reg :
  NoDup (declared (build_descriptor_map files)).*1 ->
  generate_signatures PACKAGE_NAME DEFAULT_EMPTY_TO_BYTES depth files = (tr, Ok reg) ->
  kept (build_descriptor_map files) reg.
Proof.
  intros Hnd Hgen. unfold generate_signatures in Hgen.
  set (dm := build_descriptor_map files) in *.
  destruct (gen_for dm _ []) as [tr1 [[[] reg1]|e]] eqn:Hloop; [|done].
  injection Hgen as _ <-.
  refine (proj1 (gen_inv_for (kept dm) dm _ _ [] tr1 tt reg1
                   (coherent_nil _ _ _) Hloop)).
  apply Forall_forall. intros [n p] Hin.
  eapply gen_inv_bind.
  - apply get_signature_sound; [done|]. intros p' [= <-].
    by apply elem_of_dict_get, declared_top.
  - intros s Hs. apply gen_inv_set; [|done]. intros r Hr.
    by apply coherent_store.
Qed.

(** Two registries built from descriptor maps that differ in the order
    of the fields only hold the same signature under every name that
    both hold. *)
Lemma generate_signatures_reordered depth depth' files files' tr tr' reg reg' :
  NoDup (declared (build_descriptor_map files)).*1 ->
  reordered (build_descriptor_map files) (build_descriptor_map files') ->
  generate_signatures PACKAGE_NAME DEFAULT_EMPTY_TO_BYTES depth files = (tr, Ok reg) ->
  generate_signatures PACKAGE_NAME DEFAULT_EMPTY_TO_BYTES depth' files' = (tr', Ok reg') ->
  forall name sig sig',
    dict_get name reg = Some sig -> dict_get name reg' = Some sig' -> sig' = sig.
Proof.
  intros Hnd Hsame Hrun Hrun' name sig sig' Hsig Hsig'.
  assert (NoDup (declared (build_descriptor_map files')).*1) as Hnd'.
  { by rewrite <- (same_declaration_names _ _ Hsame). }
  destruct (generate_signatures_coherent _ _ _ _ Hnd Hrun name sig Hsig) as [fuel Hv].
  destruct (generate_signatures_coherent _ _ _ _ Hnd' Hrun' name sig' Hsig')
    as [fuel' Hv'].
  rewrite <- (value_same _ _ _ _ Hsame) in Hv'.
  symmetry. by eapply value_functional.
Qed.

(** C6 (as amended): take two descriptor maps that declare the same
    names and, under each name, the same fields up to their order (in the
    same order for the two fields of a map-entry helper).  Whenever
    [get_signature] returns for a name in both, from registries that the
    generator has filled, it returns the same signature: the order in
    which the fields of a message are declared does not show in its
    signature, nor in the signature of any type that refers to it.  The
    signature of a message that is not a map-entry helper has one element
    for each field outside a oneof and one for each declared oneof, so
    that two structurally identical fields count twice; and a message of
    scalar fields only signs as the multiset of their entries. *)
Theorem field_order_invariance dm dm' depth depth' name proto proto'
    reg reg' tr tr' sig sig' out out' :
  NoDup (declared dm).*1 ->
  reordered dm dm' ->
  kept dm reg -> kept dm' reg' ->
  passes_declaration dm name proto -> passes_declaration dm' name proto' ->
  get_sig dm depth name proto reg = (tr, Ok (sig, out)) ->
  get_sig dm' depth' name proto' reg' = (tr', Ok (sig', out')) ->
  sig' = sig /\
  kept dm out /\ kept dm' out' /\
  (forall d,
     proto = Some (Message d) -> m_map_entry d = false -> dict_get name reg = None ->
     py_len sig =
       Ok (length (List.filter is_plain (m_field d)) + length (m_oneof_decl d))) /\
  (forall d depth0,
     proto = Some (Message d) -> m_map_entry d = false -> dict_get name reg = None ->
     m_nested_type d = [] -> m_enum_type d = [] -> m_oneof_decl d = [] ->
     Forall (fun f => f_type_name f = None /\ f_oneof_index f = None) (m_field d) ->
     get_sig dm (S depth0) name proto reg
     = ([name], Ok (mk_multiset (map scalar_entry (m_field d)), reg))).
Proof.
  intros Hnd Hsame Hreg Hreg' Hproto Hproto' Hrun Hrun'.
  assert (NoDup (declared dm').*1) as Hnd'.
  { by rewrite <- (same_declaration_names _ _ Hsame). }
  destruct (get_signature_sound _ _ _ Hnd _ _ _ Hproto _ _ _ _ Hreg Hrun)
    as [Hout [fuel Hv]].
  destruct (get_signature_sound _ _ _ Hnd' _ _ _ Hproto' _ _ _ _ Hreg' Hrun')
    as [Hout' [fuel' Hv']].
  split; [|split; [done|split; [done|split]]].
  - rewrite <- (value_same _ _ _ _ Hsame) in Hv'.
    symmetry. by eapply value_functional.
  - intros d -> Hflag Hmiss. destruct depth as [|depth]; [done|].
    rewrite get_signature_miss_message, message_signature_unfold in Hrun by done.
    destruct (register_nested _ name d reg) as [tr0 [[[] reg0]|e]]; [|done].
    destruct (fields_signature _ _ _ d reg0) as [tr1 r1] eqn:Hf.
    simpl in Hrun. injection Hrun as _ ->.
    by eapply fields_signature_len.
  - intros d depth0 -> Hflag Hmiss Hnested Henum Honeof Hscalar.
    rewrite get_signature_miss_message, message_signature_unfold by done.
    unfold register_nested, gen_bind. rewrite Hnested, Henum. simpl.
    unfold fields_signature, gen_bind.
    rewrite gen_fold_scalars, Hflag, Honeof by done. simpl.
    unfold with_oneofs. simpl. by rewrite !app_nil_r.
Qed.

End FieldOrderInvariance.

Lemma field_order_invariance_witness :
  mk_multiset [Str "repeated int32"; FieldTuple "message" (mk_multiset [Str "int32"])]
  = mk_multiset [FieldTuple "message" (mk_multiset [Str "int32"]); Str "repeated int32"] /\
  coherent "" true sample_order_map [("B.Inner", mk_multiset [Str "int32"])] /\
  coherent "" true sample_reordered_map [("B.Inner", mk_multiset [Str "int32"])] /\
  (forall d,
     Some (Message (message "A" holder_fields)) = Some (Message d) ->
     m_map_entry d = false ->
     dict_get "A" (@nil (string * Signature)) = None ->
     py_len (mk_multiset [FieldTuple "message" (mk_multiset [Str "int32"]);
                          Str "repeated int32"]) =
       Ok (length (List.filter is_plain (m_field d)) + length (m_oneof_decl d))) /\
  (forall d depth0,
     Some (Message (message "A" holder_fields)) = Some (Message d) ->
     m_map_entry d = false ->
     dict_get "A" (@nil (string * Signature)) = None ->
     m_nested_type d = [] -> m_enum_type d = [] -> m_oneof_decl d = [] ->
     Forall (fun f => f_type_name f = None /\ f_oneof_index f = None) (m_field d) ->
     get_signature "" true sample_order_map (S depth0) "A"
       (Some (Message (message "A" holder_fields))) []
     = (["A"], Ok (mk_multiset (map scalar_entry (m_field d)), []))).
Proof.
  apply (field_order_invariance "" true sample_order_map sample_reordered_map 5 5 "A"
           (Some (Message (message "A" holder_fields)))
           (Some (Message (message "A" (reverse holder_fields)))) [] []
           ["A"; "B"; "B.Inner"; "B"] ["A"; "B"; "B.Inner"; "B"]).
  - apply (bool_decide_unpack _). vm_compute. exact I.
  - unfold reordered. simpl.
    constructor; [split; [reflexivity|]|].
    { simpl. split; [apply Permutation_swap|by repeat split]. }
    constructor; [by repeat split|]. constructor; [by repeat split|]. constructor.
  - intros name sig H. discriminate H.
  - intros name sig H. discriminate H.
  - intros p [= <-]. reflexivity.
  - intros p [= <-]. reflexivity.
  - vm_compute. reflexivity.
  - vm_compute. reflexivity.
Defined.

(** The two orders of [holder_fields], in registries built from scratch:
    the field of type [B] registers the nested type of [B] first in one
    order and last in the other, and the signature of [A] is the same.  *)
Example reordered_registries :
  exists reg reg',
    snd (generate_signatures "" true 10
           [ {| message_type := [message "A" holder_fields; inner_holder];
                enum_type := [] |} ]) = Ok reg /\
    snd (generate_signatures "" true 10
           [ {| message_type := [message "A" (reverse holder_fields); inner_holder];
                enum_type := [] |} ]) = Ok reg' /\
    reg' = reg /\
    dict_get "A" reg
    = Some (mk_multiset [FieldTuple "message" (mk_multiset [Str "int32"]);
                         Str "repeated int32"]).
Proof.
  eexists _, _. split; [vm_compute; reflexivity|].
  split; [vm_compute; reflexivity|]. split; reflexivity.
Qed.

(** ** The score of equal signatures *)

(** An integer divided by itself is the double [1.0]. *)
Lemma SFdiv_core_diag p :
  SpecFloat.SFdiv_core_binary FloatOps.prec FloatOps.emax (Zpos p) 0 (Zpos p) 0
  = ((2 ^ 53)%Z, (-53)%Z, SpecFloat.loc_Exact).
Proof.
  unfold SpecFloat.SFdiv_core_binary.
  replace (SpecFloat.Zdigits2 (Zpos p) + 0 - (SpecFloat.Zdigits2 (Zpos p) + 0))%Z
    with 0%Z by lia.
  change (SpecFloat.fexp FloatOps.prec FloatOps.emax 0) with (-53)%Z.
  change (Z.min (-53) (0 - 0))%Z with (-53)%Z.
  change (0 - 0 - -53)%Z with 53%Z. cbv iota.
  rewrite Z.shiftl_mul_pow2 by lia.
  pose proof (Z.div_mul (2 ^ 53) (Zpos p) ltac:(lia)) as Hq.
  pose proof (Z.mod_mul (2 ^ 53) (Zpos p) ltac:(lia)) as Hr.
  rewrite (Z.mul_comm (2 ^ 53)) in Hq, Hr.
  unfold Z.div in Hq. unfold Z.modulo in Hr.
  destruct (Z.div_eucl (Zpos p * 2 ^ 53) (Zpos p)) as [q r]. subst q r.
  f_equal. unfold SpecFloat.new_location. by destruct (Z.even (Zpos p)).
Qed.

Lemma py_div_double_diag a : 0 < a -> Float64.py_div a a = Ok Float64.one.
Proof.
  intros Ha. unfold Float64.py_div. destruct (Nat.eqb_spec a 0) as [|_]; [lia|].
  f_equal. unfold Float64.of_int.
  destruct (Z.of_nat a) as [|p|p] eqn:Ep; [lia| |lia].
  unfold SpecFloat.SFdiv. rewrite SFdiv_core_diag. by vm_compute.
Qed.

Lemma compare_sigs_double_diag A B s :
  compare_sigs A B = Ok s -> A = B -> Float64.compare_sigs A B = Ok Float64.one.
Proof.
  intros Hs <-. unfold compare_sigs in Hs. unfold Float64.compare_sigs.
  destruct (py_len A) as [a|] eqn:Ha; [|done]. simpl in *.
  destruct (py_and_len A A) as [i|] eqn:Hi; [|done]. simpl in *.
  assert (is_container A = true) as Hc.
  { destruct A; simpl in *; done. }
  rewrite (py_and_len_diag A a Hc Ha) in Hi. injection Hi as <-.
  unfold py_div in Hs. rewrite Nat.min_id, Nat.max_id in *.
  destruct (Nat.eqb_spec a 0) as [|Hpos]; [done|].
  rewrite py_div_double_diag by lia. simpl. by vm_compute.
Qed.

(** X1: between two signatures of the forms that the generator builds
    (on which Python's [==] is structural equality: a [MapEntry] is never
    compared with a [FieldTuple], nor a multiset with a set of numbers
    unless one of the two is empty), the score is 1 exactly when the two
    signatures are equal; and the score of equal signatures is the double
    [1.0]. *)
Theorem compare_sigs_one_iff_equal (A B : Signature) (s : Q) :
  generated A -> generated B ->
  compare_sigs A B = Ok s ->
  ((s == 1)%Q <-> A = B) /\
  (A = B -> Float64.compare_sigs A B = Ok Float64.one).
Proof.
  intros HA%generated_canonical HB%generated_canonical Hs.
  split; [|by eapply compare_sigs_double_diag].
  assert (exists a b i, py_len A = Ok a /\ py_len B = Ok b /\
            py_and_len A B = Ok i /\ 0 < a /\
            s = (Qnat i / Qnat a * (Qnat (Nat.min a b) / Qnat (Nat.max a b)))%Q)
    as (a & b & i & Ha & Hb & Hi & Hpos & ->).
  { unfold compare_sigs in Hs.
    destruct (py_len A) as [a|]; [|done]. simpl in Hs.
    destruct (py_len B) as [b|]; [|done]. simpl in Hs.
    destruct (py_and_len A B) as [i|]; [|done]. simpl in Hs.
    unfold py_div in Hs.
    destruct (Nat.max a b =? 0)%nat; [done|]. simpl in Hs.
    destruct (Nat.eqb_spec a 0); [done|]. simpl in Hs. injection Hs as <-.
    exists a, b, i. repeat split; try done. lia. }
  split.
  - intros H1.
    pose proof (py_and_len_le A B a i Ha Hi) as Hle.
    apply unit_product in H1 as [Hi1 Hm1];
      [| by apply Qnat_ratio_bounds | apply Qnat_ratio_bounds; lia].
    apply Qnat_ratio_one in Hi1; [|done]. apply Qnat_ratio_one in Hm1; [|lia].
    assert (a = b) as <- by lia. subst i.
    destruct A as [l1|v1| | | |], B as [l2|v2| | | |]; simpl in *; try done;
      injection Ha as Ha; injection Hb as Hb; injection Hi as Hi.
    + f_equal. destruct (multiset_inter_full l1 l2) as [r Hr]; [lia|].
      assert (r = []) as ->.
      { apply Permutation_length in Hr.
        rewrite length_app in Hr. destruct r; [done|simpl in *; lia]. }
      rewrite app_nil_r in Hr. by apply (Sorted_unique sig_le).
    + lia.
    + lia.
    + f_equal.
      assert (v1 ∩ v2 = v1) as H1.
      { apply set_subseteq_size_eq; [apply intersection_subseteq_l|lia]. }
      assert (v1 ∩ v2 = v2) as H2.
      { apply set_subseteq_size_eq; [apply intersection_subseteq_r|lia]. }
      congruence.
  - intros <-. rewrite Hb in Ha. injection Ha as ->.
    assert (is_container A = true) as Hc.
    { destruct A; simpl in *; done. }
    rewrite (py_and_len_diag A a Hc Hb) in Hi. injection Hi as <-.
    rewrite Nat.min_id, Nat.max_id, Qnat_ratio_diag by done. lra.
Qed.

Lemma compare_sigs_one_iff_equal_witness :
  ((4 # 4 == 1)%Q <-> sample_sig_a = sample_sig_a) /\
  (sample_sig_a = sample_sig_a ->
   Float64.compare_sigs sample_sig_a sample_sig_a = Ok Float64.one).
Proof.
  apply (compare_sigs_one_iff_equal sample_sig_a sample_sig_a (4 # 4)%Q).
  - apply generated_mk_multiset. by repeat constructor.
  - apply generated_mk_multiset. by repeat constructor.
  - vm_compute. reflexivity.
Defined.

(** A signature with a map field and an empty oneof is of these forms;
    a multiset that holds a [MapEntry] as an element is not. *)
Example generated_forms_sample :
  generated (mk_multiset [Str "int32";
                          FieldTuple "map" (MapEntry (Str "string") (Str "bool"));
                          FieldTuple "oneof" (mk_multiset [])]) /\
  ~ generated (mk_multiset [MapEntry (Str "string") (Str "bool")]).
Proof.
  split.
  - apply generated_mk_multiset.
    repeat (apply Forall_cons; split); try apply Forall_nil; try done.
    + split; [by left|done].
    + split; [by right|]. by apply generated_mk_multiset.
  - intros [_ H]%generated_multiset. vm_compute in H. by inversion H.
Qed.
